(** * Tanks: a shallow embedding of the simulation core

    The engine is a fixed-timestep simulation of tanks and projectiles
    (sim/prng.js, sim/scan.js, sim/world.js, sim/actions.js, sim/step.js)
    together with the Tank API that player programs call
    (runtime/tankApi.js, runtime/runPlayer.js and the browser-side
    client/src/local/localTankApi.js).
    Around the core it covers the resolver of awaited actions
    (runtime/actionResolver.js), the timer callback of the simulation
    loop (sim/loop.js) and the lobby of the server (server/src/lobby.js).

    Numbers.  JavaScript numbers are modelled as exact rationals [Q]: every
    finite double is a rational, and the arithmetic of the source is carried
    out without rounding.  The comparisons of the source ([<], [<=], [===]
    on numbers) are the boolean comparisons of [Q].  Hit points and the
    damage constant are integers ([Z]).  The library functions [Math.cos],
    [Math.sin], [Math.atan2] and the constant [Math.PI] are parameters of
    the development, gathered in the class [MathLib].  Infinities and NaN
    are outside the model: a division by a zero [TICK_RATE] or [turnRate]
    is [0] in [Q], and the results that need a positive rate say so; the
    [degrees] argument of a turn is a finite number.

    Rounding.  The arithmetic above does not round.  Where rounding
    decides a result, in the equality test on the normalised bounds of a
    scan arc, the scan-arc test is given a second time on binary64
    numbers, the primitive type [float] (modules [F64] and [Scan64]);
    the result about [isInScanArc] is stated there.

    Objects.  A JavaScript object used as a dictionary with string keys
    ([world.tanks]) and a [Map] ([world.projectiles]) both iterate in
    insertion order; they are association lists here.  An object does so
    for keys that are not integer-like, and the results about the order of
    the tanks assume such slot names ([Facts.plainSlots]).  Mutation of
    the world is explicit state passing. *)

From Stdlib Require Import ZArith QArith Qabs Qround List String Bool Lia Lqa.
From Stdlib Require Import Ascii NArith DecimalString.
From Stdlib Require Floats.
Import ListNotations.

Local Open Scope Q_scope.
#[local] Set Warnings "-inexact-float".

(** ** JavaScript numbers *)

Module JS.

(** [a < b] *)
Definition ltb (a b : Q) : bool := negb (Qle_bool b a).

(** [a <= b] *)
Definition leb (a b : Q) : bool := Qle_bool a b.

(** [a >= b] *)
Definition geb (a b : Q) : bool := Qle_bool b a.

(** [a > b] *)
Definition gtb (a b : Q) : bool := negb (Qle_bool a b).

(** [a === b] on numbers *)
Definition eqb (a b : Q) : bool := Qeq_bool a b.

(** Rounding toward zero: the integer quotient behind [%]. *)
Definition trunc (q : Q) : Z := Z.quot (Qnum q) (Zpos (Qden q)).

(** [x % m]: remainder of the truncated division (it has the sign of [x]). *)
Definition rem (x m : Q) : Q := x - m * inject_Z (trunc (x / m)).

(** [Math.min(a, b)] *)
Definition min (a b : Q) : Q := if Qle_bool a b then a else b.

(** [x | 0] and [x >>> 0]: conversion to a signed and an unsigned 32-bit
    integer. *)
Definition toInt32 (z : Z) : Z := ((z + 2 ^ 31) mod 2 ^ 32 - 2 ^ 31)%Z.
Definition toUint32 (z : Z) : Z := (z mod 2 ^ 32)%Z.

(** [a >>> n] *)
Definition ushr (a n : Z) : Z := Z.shiftr (toUint32 a) n.

(** [a ^ b] and [a | b] *)
Definition xor32 (a b : Z) : Z := toInt32 (Z.lxor (toInt32 a) (toInt32 b)).
Definition or32 (a b : Z) : Z := toInt32 (Z.lor (toInt32 a) (toInt32 b)).

(** [Math.imul(a, b)] *)
Definition imul (a b : Z) : Z := toInt32 (toInt32 a * toInt32 b).

End JS.

(** The transcendental part of the [Math] object. *)
Class MathLib : Type := {
  Math_PI : Q;
  Math_cos : Q -> Q;
  Math_sin : Q -> Q;
  Math_atan2 : Q -> Q -> Q
}.

(** ** Insertion-ordered dictionaries *)

Module Dict.

Section Assoc.
Context {K V : Type} (keq : K -> K -> bool).

  (** [obj[k]] / [map.get(k)] *)
Fixpoint get (k : K) (d : list (K * V)) : option V :=
    match d with
    | [] => None
    | (k', v) :: rest => if keq k' k then Some v else get k rest
    end.

  (** [obj[k] = v] / [map.set(k, v)]: an existing key keeps its place, a
      new key goes last. *)
Fixpoint set (k : K) (v : V) (d : list (K * V)) : list (K * V) :=
    match d with
    | [] => [(k, v)]
    | (k', v') :: rest =>
        if keq k' k then (k', v) :: rest else (k', v') :: set k v rest
    end.

  (** [map.delete(k)] *)
Definition delete (k : K) (d : list (K * V)) : list (K * V) :=
    filter (fun e => negb (keq (fst e) k)) d.

  (** [Object.keys(obj)] *)
Definition keys (d : list (K * V)) : list K := map fst d.

  (** [Object.values(obj)] / [map.values()] *)
Definition values (d : list (K * V)) : list V := map snd d.
End Assoc.

End Dict.

(** ** sim/prng.js *)

Module Prng.

(** [createPRNG(seed)]: the closure's captured state [s = seed | 0]. *)
Definition createPRNG (seed : Z) : Z := JS.toInt32 seed.

(** One call of the closure [random()]: the new state and the value. *)
Definition random (s : Z) : Z * Q :=
  let s := JS.toInt32 (s + 0x6d2b79f5) in
  let t := JS.imul (JS.xor32 s (JS.ushr s 15)) (JS.or32 1 s) in
  let t := JS.xor32 (t + JS.imul (JS.xor32 t (JS.ushr t 7)) (JS.or32 61 t)) t in
  (s, inject_Z (JS.ushr (JS.xor32 t (JS.ushr t 14)) 0) / 4294967296).

End Prng.

(** ** sim/scan.js *)

Module Scan.

(** The scanner argument: [{ x, y, headingDeg }]. *)
Record Pose := { px : Q; py : Q; pheadingDeg : Q }.

(** The target argument: [{ x, y }]. *)
Record Point := { qx : Q; qy : Q }.

(** [normalizeDeg(deg)], in exact arithmetic: the inner sum is not
    rounded ([Scan64.normalizeDeg] rounds it). *)
Definition normalizeDeg (deg : Q) : Q := JS.rem (JS.rem deg 360 + 360) 360.

Section WithMath.
Context {M : MathLib}.

  (** [isInScanArc(scanner, target, aDeg, bDeg, range)] *)
Definition isInScanArc (scanner : Pose) (target : Point)
      (aDeg bDeg range : Q) : bool :=
    let dx := qx target - px scanner in
    let dy := qy target - py scanner in
    let distSq := dx * dx + dy * dy in
    if JS.gtb distSq (range * range) then false
    else if JS.eqb distSq 0 then true
    else
      let absBearingDeg := normalizeDeg (Math_atan2 dy dx * (180 / Math_PI)) in
      let relBearing := normalizeDeg (absBearingDeg - pheadingDeg scanner) in
      let a := normalizeDeg aDeg in
      let b := normalizeDeg bDeg in
      if JS.eqb a b then true
      else
        let arcSpan := normalizeDeg (b - a) in
        let offset := normalizeDeg (relBearing - a) in
        JS.leb offset arcSpan.
End WithMath.

End Scan.

(** ** shared/constants.js and sim/world.js *)

Module World.

(** The tank classes: ["light"] and ["heavy"]. *)
Inductive TankType := light | heavy.

(** A row of [TANK_TYPES]. *)
Record TankStats := { stat_hp : Z; moveSpeed : Q; turnRate : Q }.

(** The constants snapshot (the fields the simulation reads). *)
Record Constants := {
  ARENA_WIDTH : Q;
  ARENA_HEIGHT : Q;
  TICK_RATE : Q;
  ACTION_DURATION : Q;
  MATCH_TIME_LIMIT : Q;
  SCAN_RANGE : Q;
  TANK_RADIUS : Q;
  TANK_TYPES : TankType -> TankStats;
  PROJECTILE_SPEED : Q;
  PROJECTILE_RADIUS : Q;
  PROJECTILE_DAMAGE : Z
}.

(** [CONSTANTS] of shared/constants.js. *)
Definition CONSTANTS : Constants := {|
  ARENA_WIDTH := 1200;
  ARENA_HEIGHT := 800;
  TICK_RATE := 60;
  ACTION_DURATION := 1;
  MATCH_TIME_LIMIT := 180;
  SCAN_RANGE := 700;
  TANK_RADIUS := 18;
  TANK_TYPES := fun ty =>
    match ty with
    | light => {| stat_hp := 60; moveSpeed := 160; turnRate := 120 |}
    | heavy => {| stat_hp := 120; moveSpeed := 60; turnRate := 90 |}
    end;
  PROJECTILE_SPEED := 420;
  PROJECTILE_RADIUS := 4;
  PROJECTILE_DAMAGE := 20
|}.

(** The [activeAction] descriptors. *)
Inductive Action :=
| TurnLeft
| TurnRight
| MoveForward
| MoveBackward
| ScanArc (aDeg bDeg : Q).

(** [action.type] *)
Definition action_type (a : Action) : string :=
  match a with
  | TurnLeft => "turnLeft"
  | TurnRight => "turnRight"
  | MoveForward => "moveForward"
  | MoveBackward => "moveBackward"
  | ScanArc _ _ => "scan"
  end.

(** A projectile id: [proj_ n] is the string [`proj_${n}`]. *)
Inductive ProjId := proj_ (n : nat).

Definition ProjId_eqb (a b : ProjId) : bool :=
  match a, b with proj_ n, proj_ m => Nat.eqb n m end.

(** [TankState] *)
Record Tank := {
  slot : string;
  x : Q;
  y : Q;
  headingDeg : Q;
  hp : Z;
  tankType : TankType;
  busyUntil : Q;
  activeProjectileId : option ProjId;
  activeAction : option Action;
  lastScanResult : option bool
}.

(** [Projectile] *)
Record Projectile := {
  id : ProjId;
  owner : string;
  p_x : Q;
  p_y : Q;
  vx : Q;
  vy : Q
}.

(** [World].  [rng] is the captured state of the PRNG closure. *)
Record World := {
  t : Q;
  seed : Z;
  constants : Constants;
  rng : Z;
  tanks : list (string * Tank);
  projectiles : list (ProjId * Projectile);
  nextProjectileId : nat
}.

(** Field updates of the mutable objects. *)
Definition tank_with_pose (tk : Tank) (x' y' h' : Q) : Tank :=
  {| slot := slot tk; x := x'; y := y'; headingDeg := h'; hp := hp tk;
     tankType := tankType tk; busyUntil := busyUntil tk;
     activeProjectileId := activeProjectileId tk;
     activeAction := activeAction tk; lastScanResult := lastScanResult tk |}.

Definition tank_with_hp (tk : Tank) (hp' : Z) : Tank :=
  {| slot := slot tk; x := x tk; y := y tk; headingDeg := headingDeg tk;
     hp := hp'; tankType := tankType tk; busyUntil := busyUntil tk;
     activeProjectileId := activeProjectileId tk;
     activeAction := activeAction tk; lastScanResult := lastScanResult tk |}.

Definition tank_with_busy (tk : Tank) (busy : Q) (act : option Action) : Tank :=
  {| slot := slot tk; x := x tk; y := y tk; headingDeg := headingDeg tk;
     hp := hp tk; tankType := tankType tk; busyUntil := busy;
     activeProjectileId := activeProjectileId tk;
     activeAction := act; lastScanResult := lastScanResult tk |}.

Definition tank_with_projectile (tk : Tank) (pid : option ProjId) : Tank :=
  {| slot := slot tk; x := x tk; y := y tk; headingDeg := headingDeg tk;
     hp := hp tk; tankType := tankType tk; busyUntil := busyUntil tk;
     activeProjectileId := pid;
     activeAction := activeAction tk; lastScanResult := lastScanResult tk |}.

Definition tank_with_scan (tk : Tank) (r : option bool) : Tank :=
  {| slot := slot tk; x := x tk; y := y tk; headingDeg := headingDeg tk;
     hp := hp tk; tankType := tankType tk; busyUntil := busyUntil tk;
     activeProjectileId := activeProjectileId tk;
     activeAction := activeAction tk; lastScanResult := r |}.

Definition world_with_tanks (w : World) (tks : list (string * Tank)) : World :=
  {| t := t w; seed := seed w; constants := constants w; rng := rng w;
     tanks := tks; projectiles := projectiles w;
     nextProjectileId := nextProjectileId w |}.

Definition world_with_projectiles (w : World)
    (ps : list (ProjId * Projectile)) : World :=
  {| t := t w; seed := seed w; constants := constants w; rng := rng w;
     tanks := tanks w; projectiles := ps;
     nextProjectileId := nextProjectileId w |}.

Definition world_with_t (w : World) (t' : Q) : World :=
  {| t := t'; seed := seed w; constants := constants w; rng := rng w;
     tanks := tanks w; projectiles := projectiles w;
     nextProjectileId := nextProjectileId w |}.

(** [world.tanks[slot]] *)
Definition getTank (w : World) (s : string) : option Tank :=
  Dict.get String.eqb s (tanks w).

(** Writing a mutated tank object back at its key. *)
Definition putTank (w : World) (s : string) (tk : Tank) : World :=
  world_with_tanks w (Dict.set String.eqb s tk (tanks w)).

(** [createTank(slot, x, y, headingDeg, tankType, constants)] *)
Definition createTank (s : string) (x0 y0 h0 : Q) (ty : TankType)
    (c : Constants) : Tank :=
  let stats := TANK_TYPES c ty in
  {| slot := s; x := x0; y := y0; headingDeg := h0; hp := stat_hp stats;
     tankType := ty; busyUntil := 0; activeProjectileId := None;
     activeAction := None; lastScanResult := None |}.

(** [nextProjId()]: reads and increments the module-level [_idCounter]. *)
Definition nextProjId (_idCounter : nat) : nat * ProjId :=
  (S _idCounter, proj_ _idCounter).

(** A player descriptor [{ slot, tankType }]. *)
Definition Player : Type := (string * TankType)%type.

Section WithMath.
Context {M : MathLib}.

(** The spawn loop of [createWorld]: players [i, i+1, ...] of [n]. *)
Fixpoint spawnTanks (c : Constants) (cx cy radius angleOffset : Q)
    (n : nat) (i : nat) (players : list Player)
    (tanks : list (string * Tank)) : list (string * Tank) :=
  match players with
  | [] => tanks
  | (s, ty) :: rest =>
      let angle :=
        angleOffset
        + (2 * Math_PI * inject_Z (Z.of_nat i)) / inject_Z (Z.of_nat n) in
      let x0 := cx + Math_cos angle * radius in
      let y0 := cy + Math_sin angle * radius in
      let h0 := JS.rem ((angle * 180 / Math_PI) + 180) 360 in
      spawnTanks c cx cy radius angleOffset n (S i) rest
        (Dict.set String.eqb s (createTank s x0 y0 h0 ty c) tanks)
  end.

(** [createWorld(seed, constants, players)].  The first component is the
    module-level [_idCounter], which the function resets. *)
Definition createWorld (seed0 : Z) (c : Constants)
    (players : option (list Player)) : nat * World :=
  let rng0 := Prng.createPRNG seed0 in
  let players :=
    match players with
    | None | Some [] => [("p1"%string, light); ("p2"%string, light)]
    | Some ps => ps
    end in
  let n := List.length players in
  let cx := ARENA_WIDTH c / 2 in
  let cy := ARENA_HEIGHT c / 2 in
  let radius := JS.min cx cy * (55 # 100) in
  let '(rng1, r) := Prng.random rng0 in
  let angleOffset := r * Math_PI * 2 in
  let tanks0 := spawnTanks c cx cy radius angleOffset n 0 players [] in
  (0%nat,
   {| t := 0; seed := seed0; constants := c; rng := rng1; tanks := tanks0;
      projectiles := []; nextProjectileId := 0 |}).
End WithMath.

End World.

(** ** sim/actions.js

    A starter or [shoot] called with a slot that has no tank dereferences
    [undefined] and throws; that is the result [None]. *)

Module Actions.
Import World.

(** The tolerance [1e-9] of [isIdle] and of the expiration check. *)
Definition EPSILON : Q := 1 # 1000000000.

(** [isIdle(tank, now)] *)
Definition isIdle (tank : Tank) (now : Q) : bool :=
  JS.geb now (busyUntil tank - EPSILON).

(** [beginAction(tank, now, duration, action)] *)
Definition beginAction (tank : Tank) (now duration : Q) (action : Action)
    : Tank :=
  tank_with_busy tank (now + duration) (Some action).

(** [turnLeft(world, slot, degrees)]; [degrees] is optional. *)
Definition turnLeft (world : World) (slot : string) (degrees : option Q)
    : option (World * bool) :=
  match getTank world slot with
  | None => None
  | Some tank =>
      if negb (isIdle tank (t world)) then Some (world, false)
      else
        let stats := TANK_TYPES (constants world) (tankType tank) in
        let dur :=
          match degrees with
          | Some d => Qabs d / turnRate stats
          | None => ACTION_DURATION (constants world)
          end in
        Some (putTank world slot (beginAction tank (t world) dur TurnLeft),
              true)
  end.

(** [turnRight(world, slot, degrees)] *)
Definition turnRight (world : World) (slot : string) (degrees : option Q)
    : option (World * bool) :=
  match getTank world slot with
  | None => None
  | Some tank =>
      if negb (isIdle tank (t world)) then Some (world, false)
      else
        let stats := TANK_TYPES (constants world) (tankType tank) in
        let dur :=
          match degrees with
          | Some d => Qabs d / turnRate stats
          | None => ACTION_DURATION (constants world)
          end in
        Some (putTank world slot (beginAction tank (t world) dur TurnRight),
              true)
  end.

(** [moveForward(world, slot)] *)
Definition moveForward (world : World) (slot : string)
    : option (World * bool) :=
  match getTank world slot with
  | None => None
  | Some tank =>
      if negb (isIdle tank (t world)) then Some (world, false)
      else
        Some (putTank world slot
                (beginAction tank (t world)
                   (ACTION_DURATION (constants world)) MoveForward),
              true)
  end.

(** [moveBackward(world, slot)] *)
Definition moveBackward (world : World) (slot : string)
    : option (World * bool) :=
  match getTank world slot with
  | None => None
  | Some tank =>
      if negb (isIdle tank (t world)) then Some (world, false)
      else
        Some (putTank world slot
                (beginAction tank (t world)
                   (ACTION_DURATION (constants world)) MoveBackward),
              true)
  end.

(** [scan(world, slot, aDeg, bDeg)] *)
Definition scan (world : World) (slot : string) (aDeg bDeg : Q)
    : option (World * bool) :=
  match getTank world slot with
  | None => None
  | Some tank =>
      if negb (isIdle tank (t world)) then Some (world, false)
      else
        Some (putTank world slot
                (beginAction tank (t world)
                   (ACTION_DURATION (constants world)) (ScanArc aDeg bDeg)),
              true)
  end.

(** [clampToArena(tank, constants)] *)
Definition clampToArena (tank : Tank) (c : Constants) : Tank :=
  let r := TANK_RADIUS c in
  let x1 := if JS.ltb (x tank) r then r else x tank in
  let y1 := if JS.ltb (y tank) r then r else y tank in
  let x2 := if JS.gtb x1 (ARENA_WIDTH c - r) then ARENA_WIDTH c - r else x1 in
  let y2 := if JS.gtb y1 (ARENA_HEIGHT c - r) then ARENA_HEIGHT c - r else y1 in
  tank_with_pose tank x2 y2 (headingDeg tank).

(** A completed-action descriptor [{ slot, actionType, scanResult? }]. *)
Record Completed := {
  c_slot : string;
  c_actionType : string;
  c_scanResult : option bool
}.

Definition tank_pose (tk : Tank) : Scan.Pose :=
  {| Scan.px := x tk; Scan.py := y tk; Scan.pheadingDeg := headingDeg tk |}.

Definition tank_point (tk : Tank) : Scan.Point :=
  {| Scan.qx := x tk; Scan.qy := y tk |}.

Section WithMath.
Context {M : MathLib}.

(** [DEG2RAD] *)
Definition DEG2RAD : Q := Math_PI / 180.

(** [shoot(world, slot)], threading the module-level [_idCounter]. *)
Definition shoot (_idCounter : nat) (world : World) (slot : string)
    : option (nat * World * bool) :=
  match getTank world slot with
  | None => None
  | Some tank =>
      match activeProjectileId tank with
      | Some _ => Some (_idCounter, world, false)
      | None =>
          let c := constants world in
          let rad := headingDeg tank * DEG2RAD in
          let spawnOffset := TANK_RADIUS c + PROJECTILE_RADIUS c + 1 in
          let px := x tank + Math_cos rad * spawnOffset in
          let py := y tank + Math_sin rad * spawnOffset in
          let vx0 := Math_cos rad * PROJECTILE_SPEED c in
          let vy0 := Math_sin rad * PROJECTILE_SPEED c in
          let '(counter', id0) := nextProjId _idCounter in
          let proj :=
            {| id := id0; owner := slot; p_x := px; p_y := py;
               vx := vx0; vy := vy0 |} in
          let world1 :=
            world_with_projectiles world
              (Dict.set ProjId_eqb id0 proj (projectiles world)) in
          Some (counter',
                putTank world1 slot (tank_with_projectile tank (Some id0)),
                true)
      end
  end.

(** The per-tick effect of an action on the pose (the [switch]). *)
Definition applyEffect (c : Constants) (dt : Q) (tank : Tank)
    (action : Action) : Tank :=
  let stats := TANK_TYPES c (tankType tank) in
  match action with
  | TurnLeft =>
      tank_with_pose tank (x tank) (y tank)
        (Scan.normalizeDeg (headingDeg tank - turnRate stats * dt))
  | TurnRight =>
      tank_with_pose tank (x tank) (y tank)
        (Scan.normalizeDeg (headingDeg tank + turnRate stats * dt))
  | MoveForward =>
      let rad := headingDeg tank * DEG2RAD in
      clampToArena
        (tank_with_pose tank
           (x tank + Math_cos rad * moveSpeed stats * dt)
           (y tank + Math_sin rad * moveSpeed stats * dt)
           (headingDeg tank)) c
  | MoveBackward =>
      let rad := headingDeg tank * DEG2RAD in
      clampToArena
        (tank_with_pose tank
           (x tank - Math_cos rad * moveSpeed stats * dt)
           (y tank - Math_sin rad * moveSpeed stats * dt)
           (headingDeg tank)) c
  | ScanArc _ _ => tank
  end.

(** The loop that resolves a scan: is any other alive tank in the arc? *)
Fixpoint scanFound (entries : list (string * Tank)) (slot : string)
    (tank : Tank) (aDeg bDeg range : Q) : bool :=
  match entries with
  | [] => false
  | (oppSlot, opp) :: rest =>
      if String.eqb oppSlot slot then
        scanFound rest slot tank aDeg bDeg range
      else if (hp opp <=? 0)%Z then
        scanFound rest slot tank aDeg bDeg range
      else if Scan.isInScanArc (tank_pose tank) (tank_point opp)
                aDeg bDeg range then true
      else scanFound rest slot tank aDeg bDeg range
  end.

(** The expiration part of the loop body, for a tank whose action has
    expired: resolve a scan, build the descriptor, clear [activeAction]. *)
Definition completeAction (world : World) (slot : string) (tank : Tank)
    (action : Action) : Tank * Completed :=
  let tank1 :=
    match action with
    | ScanArc aDeg bDeg =>
        tank_with_scan tank
          (Some (scanFound (tanks world) slot tank aDeg bDeg
                   (SCAN_RANGE (constants world))))
    | _ => tank
    end in
  let desc :=
    {| c_slot := slot;
       c_actionType := action_type action;
       c_scanResult :=
         match action with
         | ScanArc _ _ =>
             Some (match lastScanResult tank1 with
                   | Some b => b
                   | None => false
                   end)
         | _ => None
         end |} in
  (tank_with_busy tank1 (busyUntil tank1) None, desc).

(** The body of the loop of [applyActiveActions] for one key. *)
Definition applyOne (world : World) (dt : Q) (slot : string)
    (completed : list Completed) : World * list Completed :=
  match getTank world slot with
  | None => (world, completed)
  | Some tank =>
      if (hp tank <=? 0)%Z then (world, completed)
      else
        match activeAction tank with
        | None => (world, completed)
        | Some action =>
            let tank1 := applyEffect (constants world) dt tank action in
            let world1 := putTank world slot tank1 in
            if JS.geb (t world + dt) (busyUntil tank1 - EPSILON) then
              let '(tank2, desc) := completeAction world1 slot tank1 action in
              (putTank world1 slot tank2, completed ++ [desc])
            else (world1, completed)
        end
  end.

(** The loop over [Object.keys(world.tanks)]. *)
Fixpoint applyLoop (keys : list string) (world : World) (dt : Q)
    (completed : list Completed) : World * list Completed :=
  match keys with
  | [] => (world, completed)
  | slot :: rest =>
      let '(world1, completed1) := applyOne world dt slot completed in
      applyLoop rest world1 dt completed1
  end.

(** [applyActiveActions(world, dt)] *)
Definition applyActiveActions (world : World) (dt : Q)
    : World * list Completed :=
  applyLoop (Dict.keys (tanks world)) world dt [].
End WithMath.

End Actions.

(** ** sim/step.js *)

Module Step.
Import World Actions.

(** [StepEvent]; a despawn event always has the reason ["oob"]. *)
Inductive StepEvent :=
| ActionComplete (slot : string) (actionType : string)
    (scanResult : option bool)
| Hit (projectileId : ProjId) (owner target : string) (damage : Z)
| Despawn (projectileId : ProjId) (owner : string)
| MatchEnd (winner : option string) (reason : string).

(** [clearProjectileFromOwner(world, proj)] *)
Definition clearProjectileFromOwner (world : World) (proj : Projectile)
    : World :=
  match getTank world (owner proj) with
  | None => world
  | Some ownerTank =>
      match activeProjectileId ownerTank with
      | None => world
      | Some pid =>
          if ProjId_eqb pid (id proj) then
            putTank world (owner proj) (tank_with_projectile ownerTank None)
          else world
      end
  end.

(** [world.projectiles.delete(id)] *)
Definition deleteProjectile (world : World) (pid : ProjId) : World :=
  world_with_projectiles world
    (Dict.delete ProjId_eqb pid (projectiles world)).

(** The loop that pushes one [actionComplete] event per descriptor. *)
Definition pushCompleted (completedActions : list Completed)
    (events : list StepEvent) : list StepEvent :=
  fold_left
    (fun evs ca =>
       evs ++ [ActionComplete (c_slot ca) (c_actionType ca) (c_scanResult ca)])
    completedActions events.

(** Phase 1: [proj.x += proj.vx * dt; proj.y += proj.vy * dt]. *)
Definition advance (dt : Q) (proj : Projectile) : Projectile :=
  {| id := id proj; owner := owner proj;
     p_x := p_x proj + vx proj * dt; p_y := p_y proj + vy proj * dt;
     vx := vx proj; vy := vy proj |}.

Definition moveProjectiles (world : World) (dt : Q) : World :=
  world_with_projectiles world
    (map (fun e => (fst e, advance dt (snd e))) (projectiles world)).

(** The out-of-bounds test of phase 2. *)
Definition outOfBounds (c : Constants) (proj : Projectile) : bool :=
  JS.ltb (p_x proj) (- PROJECTILE_RADIUS c)
  || JS.gtb (p_x proj) (ARENA_WIDTH c + PROJECTILE_RADIUS c)
  || JS.ltb (p_y proj) (- PROJECTILE_RADIUS c)
  || JS.gtb (p_y proj) (ARENA_HEIGHT c + PROJECTILE_RADIUS c).

(** Phase 2: the loop over [world.projectiles.values()].  Only the entry
    being visited is deleted, so the live iteration visits exactly the
    values present when the loop starts. *)
Fixpoint despawnLoop (projs : list Projectile) (world : World)
    (events : list StepEvent) : World * list StepEvent :=
  match projs with
  | [] => (world, events)
  | proj :: rest =>
      if outOfBounds (constants world) proj then
        let events1 := events ++ [Despawn (id proj) (owner proj)] in
        let world1 := clearProjectileFromOwner world proj in
        let world2 := deleteProjectile world1 (id proj) in
        despawnLoop rest world2 events1
      else despawnLoop rest world events
  end.

(** Phase 3, inner loop over [Object.entries(world.tanks)] for one
    projectile; it stops at the first hit. *)
Fixpoint hitTanks (entries : list (string * Tank)) (world : World)
    (proj : Projectile) (hitRangeSq : Q) (events : list StepEvent)
    : World * list StepEvent :=
  match entries with
  | [] => (world, events)
  | (targetSlot, target) :: rest =>
      if String.eqb targetSlot (owner proj) then
        hitTanks rest world proj hitRangeSq events
      else if (hp target <=? 0)%Z then
        hitTanks rest world proj hitRangeSq events
      else
        let dx := p_x proj - x target in
        let dy := p_y proj - y target in
        if JS.leb (dx * dx + dy * dy) hitRangeSq then
          let c := constants world in
          let hp1 := (hp target - PROJECTILE_DAMAGE c)%Z in
          let hp2 := if (hp1 <? 0)%Z then 0%Z else hp1 in
          let world1 := putTank world targetSlot (tank_with_hp target hp2) in
          let events1 :=
            events ++ [Hit (id proj) (owner proj) targetSlot
                         (PROJECTILE_DAMAGE c)] in
          let world2 := clearProjectileFromOwner world1 proj in
          let world3 := deleteProjectile world2 (id proj) in
          (world3, events1)
        else hitTanks rest world proj hitRangeSq events
  end.

(** Phase 3, outer loop over [world.projectiles.values()]. *)
Fixpoint hitLoop (projs : list Projectile) (world : World)
    (hitRangeSq : Q) (events : list StepEvent) : World * list StepEvent :=
  match projs with
  | [] => (world, events)
  | proj :: rest =>
      let '(world1, events1) :=
        hitTanks (tanks world) world proj hitRangeSq events in
      hitLoop rest world1 hitRangeSq events1
  end.

(** [world.tanks[slot].hp] for a slot of the [alive] array. *)
Definition hpOf (world : World) (s : string) : Z :=
  match getTank world s with
  | Some tk => hp tk
  | None => 0%Z
  end.

(** [alive.sort((a, b) => world.tanks[b].hp - world.tanks[a].hp)]: a stable
    sort by descending hit points. *)
Fixpoint insertByHp (world : World) (a : string) (sorted : list string)
    : list string :=
  match sorted with
  | [] => [a]
  | b :: rest =>
      if (hpOf world a <=? hpOf world b)%Z then b :: insertByHp world a rest
      else a :: b :: rest
  end.

Definition sortByHp (world : World) (alive : list string) : list string :=
  fold_left (fun sorted a => insertByHp world a sorted) alive [].

(** Phase 5: match end. *)
Definition matchEndCheck (world : World) (events : list StepEvent)
    : list StepEvent :=
  let alive :=
    map fst (filter (fun e => (0 <? hp (snd e))%Z) (tanks world)) in
  if (List.length alive <=? 1)%nat then
    match alive with
    | [a] => events ++ [MatchEnd (Some a) "hp"]
    | _ => events ++ [MatchEnd None "double_ko"]
    end
  else if JS.geb (t world) (MATCH_TIME_LIMIT (constants world)) then
    match sortByHp world alive with
    | a0 :: a1 :: _ =>
        if (hpOf world a1 <? hpOf world a0)%Z then
          events ++ [MatchEnd (Some a0) "timeout"]
        else events ++ [MatchEnd None "timeout"]
    | _ => events
    end
  else events.

Section WithMath.
Context {M : MathLib}.

(** [step(world)] *)
Definition step (world : World) : World * list StepEvent :=
  let c := constants world in
  let dt := 1 / TICK_RATE c in
  let events := [] in
  let '(world0, completedActions) := applyActiveActions world dt in
  let events0 := pushCompleted completedActions events in
  let world1 := moveProjectiles world0 dt in
  let '(world2, events2) :=
    despawnLoop (Dict.values (projectiles world1)) world1 events0 in
  let hitRange := PROJECTILE_RADIUS c + TANK_RADIUS c in
  let hitRangeSq := hitRange * hitRange in
  let '(world3, events3) :=
    hitLoop (Dict.values (projectiles world2)) world2 hitRangeSq events2 in
  let world4 := world_with_t world3 (t world3 + dt) in
  (world4, matchEndCheck world4 events3).

(** [n] consecutive ticks; the world after them. *)
Fixpoint ticks (n : nat) (world : World) : World :=
  match n with
  | O => world
  | S k => ticks k (fst (step world))
  end.
End WithMath.

End Step.

(** ** runtime/tankApi.js, runtime/runPlayer.js, client/src/local/localTankApi.js

    The part of the Tank API that starts timed actions.  A promise is
    either already resolved with a value ([undefined] is [None]) or
    pending; the pending callback [_pendingResolve] is a closure over
    [isScan].  Invoking a registered hook is recorded in an effect log. *)

Module TankApi.
Import World Actions.

(** A call of a timed method with its arguments.  The [degrees] of a
    turn are a finite number, or absent. *)
Inductive Call :=
| CallTurnLeft (degrees : option Q)
| CallTurnRight (degrees : option Q)
| CallMoveForward
| CallMoveBackward
| CallScan (aDeg bDeg : Q).

(** [actions[name](world, slot, ...args)] *)
Definition startAction (world : World) (slot : string) (call : Call)
    : option (World * bool) :=
  match call with
  | CallTurnLeft degrees => turnLeft world slot degrees
  | CallTurnRight degrees => turnRight world slot degrees
  | CallMoveForward => moveForward world slot
  | CallMoveBackward => moveBackward world slot
  | CallScan aDeg bDeg => scan world slot aDeg bDeg
  end.

(** The third argument that each API method passes to [timedAction]. *)
Definition isScanCall (call : Call) : bool :=
  match call with
  | CallScan _ _ => true
  | _ => false
  end.

(** The hook that [run()] of runPlayer.js installs:
    [() => watchdog.reset()]. *)
Inductive Hook := WatchdogReset.

(** Observable effects of a call besides the state change. *)
Inductive Effect := HookInvoked (h : Hook).

Inductive Promise :=
| Resolved (value : option bool)
| Pending.

(** The API object's mutable state: the closure variable
    [_pendingResolve] (the [isScan] flag of the stored callback) and the
    value last assigned to the property [_onActionStart]. *)
Record Api := {
  _pendingResolve : option bool;
  _onActionStart : option Hook
}.

(** [createTankApi(ctx)] / [createLocalTankApi(ctx)]: nothing pending, no
    hook. *)
Definition createTankApi : Api :=
  {| _pendingResolve := None; _onActionStart := None |}.

(** [tankApi._onActionStart = () => watchdog.reset()] in [run()]. *)
Definition armWatchdog (api : Api) : Api :=
  {| _pendingResolve := _pendingResolve api;
     _onActionStart := Some WatchdogReset |}.

(** [timedAction(name, args, isScan)] of server/src/runtime/tankApi.js. *)
Definition timedAction (api : Api) (world : World) (slot : string)
    (call : Call) (isScan : bool)
    : option (World * Api * Promise * list Effect) :=
  match startAction world slot call with
  | None => None
  | Some (world1, accepted) =>
      if negb accepted then
        Some (world1, api, Resolved (if isScan then Some false else None), [])
      else
        Some (world1,
              {| _pendingResolve := Some isScan;
                 _onActionStart := _onActionStart api |},
              Pending, [])
  end.

(** [timedAction(name, args, isScan)] of client/src/local/localTankApi.js. *)
Definition localTimedAction (api : Api) (world : World) (slot : string)
    (call : Call) (isScan : bool)
    : option (World * Api * Promise * list Effect) :=
  match startAction world slot call with
  | None => None
  | Some (world1, accepted) =>
      if negb accepted then
        Some (world1, api, Resolved (if isScan then Some false else None), [])
      else
        let effects :=
          match _onActionStart api with
          | Some h => [HookInvoked h]
          | None => []
          end in
        Some (world1,
              {| _pendingResolve := Some isScan;
                 _onActionStart := _onActionStart api |},
              Pending, effects)
  end.

(** The public timed methods of the server API object. *)
Definition apiCall (api : Api) (world : World) (slot : string) (call : Call)
    : option (World * Api * Promise * list Effect) :=
  timedAction api world slot call (isScanCall call).

End TankApi.

(** ** match/matchManager.js: the death-handling write *)

Module Match.
Import World.

(** The [onError] callback: [hp = 0; activeAction = null]. *)
Definition forfeit (world : World) (slotName : string) : option World :=
  match getTank world slotName with
  | None => None
  | Some tk =>
      Some (putTank world slotName
              (tank_with_busy (tank_with_hp tk 0) (busyUntil tk) None))
  end.

End Match.

(** ** Runs of a match

    The operations that mutate a world between its creation and its end:
    ticks, the action starters and [shoot] called through the Tank API,
    and the orchestrator's forfeit.  The state is the module-level
    projectile counter together with the world. *)

Module Run.
Import World Actions Step.

Inductive Op :=
| OpStep
| OpStart (slot : string) (call : TankApi.Call)
| OpShoot (slot : string)
| OpForfeit (slot : string).

Section WithMath.
Context {M : MathLib}.

Definition exec (op : Op) (st : nat * World) : option (nat * World) :=
  let '(counter, w) := st in
  match op with
  | OpStep => Some (counter, fst (step w))
  | OpStart s call =>
      match TankApi.startAction w s call with
      | Some (w', _) => Some (counter, w')
      | None => None
      end
  | OpShoot s =>
      match shoot counter w s with
      | Some (counter', w', _) => Some (counter', w')
      | None => None
      end
  | OpForfeit s =>
      match Match.forfeit w s with
      | Some w' => Some (counter, w')
      | None => None
      end
  end.

Fixpoint execAll (ops : list Op) (st : nat * World) : option (nat * World) :=
  match ops with
  | [] => Some st
  | op :: rest =>
      match exec op st with
      | Some st' => execAll rest st'
      | None => None
      end
  end.

(** The states of a match played with constants [c]. *)
Inductive reachable (c : Constants) : nat * World -> Prop :=
| reach_create (seed0 : Z) (players : option (list Player)) :
    reachable c (createWorld seed0 c players)
| reach_exec (op : Op) (st st' : nat * World) :
    reachable c st -> exec op st = Some st' -> reachable c st'.
End WithMath.

End Run.

(** ** A rational instance of the math library

    Used to evaluate the model on concrete inputs.  [cos] and [sin] are
    the rational parametrisation of the unit circle at the half-angle
    [a / 2] (exact at 0, on the circle everywhere); [atan2] is the
    diamond-angle approximation (exact on the axes and diagonals). *)

Module RationalMath.

Definition PI : Q := 355 # 113.

Definition cos (a : Q) : Q :=
  let u := a / 2 in (1 - u * u) / (1 + u * u).

Definition sin (a : Q) : Q :=
  let u := a / 2 in (2 * u) / (1 + u * u).

Definition atan2 (dy dx : Q) : Q :=
  if Qeq_bool dy 0 then (if JS.ltb dx 0 then PI else 0)
  else
    let r := (PI / 2) * (dy / (Qabs dx + Qabs dy)) in
    if JS.ltb dx 0 then (if JS.ltb dy 0 then - PI - r else PI - r)
    else r.

Definition math : MathLib :=
  {| Math_PI := PI; Math_cos := cos; Math_sin := sin; Math_atan2 := atan2 |}.

End RationalMath.

(** ** The scan-arc test as the specification words it

    Written from the specification, to be compared with [Scan.isInScanArc]:
    normalisation is [((x mod 360) + 360) mod 360] with the real-number
    (floored) [mod]; the test rejects beyond the range, accepts coinciding
    positions, accepts a full circle, and otherwise compares the clockwise
    offset of the relative bearing with the clockwise span of the arc. *)

Module ScanSpec.

Definition fmod (x m : Q) : Q := x - m * inject_Z (Qfloor (x / m)).

Definition normalize (x : Q) : Q := fmod (fmod x 360 + 360) 360.

Section WithMath.
Context {M : MathLib}.

(** The bearing of the target in degrees: [degrees(atan2(dy, dx))]. *)
Definition bearingDeg (scanner : Scan.Pose) (target : Scan.Point) : Q :=
  Math_atan2 (Scan.qy target - Scan.py scanner)
             (Scan.qx target - Scan.px scanner) * (180 / Math_PI).

Definition inArc (scanner : Scan.Pose) (target : Scan.Point)
    (aDeg bDeg range : Q) : bool :=
  let dx := Scan.qx target - Scan.px scanner in
  let dy := Scan.qy target - Scan.py scanner in
  if JS.gtb (dx * dx + dy * dy) (range * range) then false
  else if Qeq_bool (Scan.qx target) (Scan.px scanner)
          && Qeq_bool (Scan.qy target) (Scan.py scanner) then true
  else
    let a := normalize aDeg in
    let b := normalize bDeg in
    if Qeq_bool a b then true
    else
      let relBearing :=
        normalize (bearingDeg scanner target - Scan.pheadingDeg scanner) in
      Qle_bool (normalize (relBearing - a)) (normalize (b - a)).
End WithMath.

End ScanSpec.

(** ** sim/scan.js in binary64

    The scan-arc test once more, on the numbers the code has: IEEE 754
    binary64, as the primitive type [float].  Every operation of the
    source is the operation of [PrimFloat], which rounds to nearest;
    the remainder [%] is exact and is computed on the mantissas.  The
    library function [Math.atan2] is a parameter; [Math.PI] is the
    binary64 number closest to pi.  A decimal literal stands for the
    closest binary64 number, as it does in JavaScript. *)

Module F64.
Import Floats.

(** [x % y]: the remainder of the truncated division, which has the sign
    of [x] and is always representable: NaN for an infinite [x], a zero
    [y] or a NaN operand; [x] for a finite [x] and an infinite [y], and
    for a zero [x]. *)
Definition rem (x y : float) : float :=
  match Prim2SF x, Prim2SF y with
  | S754_nan, _ | _, S754_nan => nan
  | S754_infinity _, _ => nan
  | _, S754_zero _ => nan
  | S754_zero _, _ => x
  | S754_finite _ _ _, S754_infinity _ => x
  | S754_finite sx mx ex, S754_finite _ my ey =>
      let e := Z.min ex ey in
      let r := ((Zpos mx * 2 ^ (ex - e)) mod (Zpos my * 2 ^ (ey - e)))%Z in
      let magnitude := SF2Prim (binary_normalize prec emax r e false) in
      if sx then (- magnitude)%float else magnitude
  end.

(** [Math.PI] *)
Definition PI : float := 0x1.921fb54442d18p+1%float.

(** The rational number that a finite binary64 number is. *)
Definition toQ (x : float) : option Q :=
  match Prim2SF x with
  | S754_zero _ => Some 0
  | S754_finite s m e =>
      let v := if (0 <=? e)%Z then inject_Z (Zpos m * 2 ^ e)
               else Zpos m # 2 ^ Z.to_pos (- e) in
      Some (if s then - v else v)
  | _ => None
  end.

End F64.

Module Scan64.
Import Floats.
Local Open Scope float_scope.

(** The scanner argument: [{ x, y, headingDeg }]. *)
Record Pose := { px : float; py : float; pheadingDeg : float }.

(** The target argument: [{ x, y }]. *)
Record Point := { qx : float; qy : float }.

(** [normalizeDeg(deg)]: the sum [(deg % 360) + 360] is rounded. *)
Definition normalizeDeg (deg : float) : float :=
  F64.rem (F64.rem deg 360 + 360) 360.

Section WithAtan2.
Variable Math_atan2 : float -> float -> float.

(** [isInScanArc(scanner, target, aDeg, bDeg, range)] *)
Definition isInScanArc (scanner : Pose) (target : Point)
    (aDeg bDeg range : float) : bool :=
  let dx := qx target - px scanner in
  let dy := qy target - py scanner in
  let distSq := dx * dx + dy * dy in
  if range * range <? distSq then false
  else if distSq =? 0 then true
  else
    let absBearingDeg := normalizeDeg (Math_atan2 dy dx * (180 / F64.PI)) in
    let relBearing := normalizeDeg (absBearingDeg - pheadingDeg scanner) in
    let a := normalizeDeg aDeg in
    let b := normalizeDeg bDeg in
    if a =? b then true
    else
      let arcSpan := normalizeDeg (b - a) in
      let offset := normalizeDeg (relBearing - a) in
      offset <=? arcSpan.
End WithAtan2.

End Scan64.

(** ** An arc tangent on the axes

    Used to evaluate the binary64 model on targets that lie on an axis
    through the scanner, where [Math.atan2] returns 0, [Math.PI] or
    [Math.PI / 2] with a sign; off the axes it is the diamond-angle
    approximation, which no result below uses. *)

Module AxisMath64.
Import Floats.
Local Open Scope float_scope.

(** [x] is negative or is [-0]. *)
Definition negative (x : float) : bool := (x <? 0) || (1 / x <? 0).

Definition atan2 (dy dx : float) : float :=
  if dy =? 0 then
    if negative dx then (if negative dy then - F64.PI else F64.PI) else dy
  else if dx =? 0 then
    if dy <? 0 then - (F64.PI / 2) else F64.PI / 2
  else
    let r := (F64.PI / 2) * (dy / (abs dx + abs dy)) in
    if dx <? 0 then (if dy <? 0 then - F64.PI - r else F64.PI - r) else r.

End AxisMath64.

(** ** The scan-arc test of the specification, read in binary64

    False when the squared distance exceeds the squared range; else true
    when the squared distance is 0; else true when the normalised bounds
    are equal; else the comparison of the clockwise offset of the relative
    bearing with the clockwise span, where all arithmetic is binary64 and
    [normalize x] is [((x % 360) + 360) % 360]. *)

Module ScanSpec64.
Import Floats.
Local Open Scope float_scope.

Definition normalize (x : float) : float :=
  F64.rem (F64.rem x 360 + 360) 360.

Section WithAtan2.
Variable Math_atan2 : float -> float -> float.

(** The squared distance from the scanner to the target. *)
Definition distSq (scanner : Scan64.Pose) (target : Scan64.Point) : float :=
  (Scan64.qx target - Scan64.px scanner)
  * (Scan64.qx target - Scan64.px scanner)
  + (Scan64.qy target - Scan64.py scanner)
    * (Scan64.qy target - Scan64.py scanner).

(** The bearing of the target relative to the heading of the scanner. *)
Definition relBearing (scanner : Scan64.Pose) (target : Scan64.Point)
    : float :=
  normalize
    (normalize
       (Math_atan2 (Scan64.qy target - Scan64.py scanner)
          (Scan64.qx target - Scan64.px scanner) * (180 / F64.PI))
     - Scan64.pheadingDeg scanner).

Definition inArc (scanner : Scan64.Pose) (target : Scan64.Point)
    (aDeg bDeg range : float) : bool :=
  negb (range * range <? distSq scanner target)
  && ((distSq scanner target =? 0)
      || (normalize aDeg =? normalize bDeg)
      || (normalize (relBearing scanner target - normalize aDeg)
          <=? normalize (normalize bDeg - normalize aDeg))).
End WithAtan2.

End ScanSpec64.

(** ** What one tick does to one tank

    [applyActiveActions] visits the tanks one after the other; apart from
    the result of a scan, what it does to a tank depends on that tank
    alone.  [tickTank] is that effect, [expires] the completion test, and
    [completions] the (slot, actionType) pairs of the descriptors that a
    pass over the keys [ks] produces. *)

Module TickView.
Import World Actions.

(** The action of a tank completes in the tick that starts at time [now]. *)
Definition expires (now dt : Q) (tk : Tank) : bool :=
  negb (hp tk <=? 0)%Z
  && match activeAction tk with
     | Some _ => JS.geb (now + dt) (busyUntil tk - EPSILON)
     | None => false
     end.

(** Equality of two tank states up to [lastScanResult]. *)
Definition same_but_scan (tk tk' : Tank) : Prop :=
  tank_with_scan tk None = tank_with_scan tk' None.

Section WithMath.
Context {M : MathLib}.

Definition tickTank (c : Constants) (now dt : Q) (tk : Tank) : Tank :=
  if (hp tk <=? 0)%Z then tk
  else
    match activeAction tk with
    | None => tk
    | Some action =>
        let tk1 := applyEffect c dt tk action in
        if JS.geb (now + dt) (busyUntil tk1 - EPSILON) then
          tank_with_busy tk1 (busyUntil tk1) None
        else tk1
    end.

Definition completions (w : World) (dt : Q) (ks : list string)
    : list (string * string) :=
  flat_map
    (fun s =>
       match getTank w s with
       | Some tk =>
           match activeAction tk with
           | Some a => if expires (t w) dt tk then [(s, action_type a)] else []
           | None => []
           end
       | None => []
       end) ks.
End WithMath.

(** The (slot, actionType) pair of a descriptor. *)
Definition completedKey (d : Completed) : string * string :=
  (c_slot d, c_actionType d).

(** What projectile removal and hits may do to a tank: only [hp] and
    [activeProjectileId] change, a dead tank keeps its hit points, and
    [activeProjectileId] is kept or cleared. *)
Definition combat_rel (tk tk' : Tank) : Prop :=
  tank_with_projectile (tank_with_hp tk 0) None
  = tank_with_projectile (tank_with_hp tk' 0) None
  /\ ((hp tk <= 0)%Z -> hp tk' = hp tk)
  /\ (activeProjectileId tk' = activeProjectileId tk
      \/ activeProjectileId tk' = None).

(** Two worlds with the same keys whose tanks are related slot by slot. *)
Definition tanks_rel (R : Tank -> Tank -> Prop) (w w' : World) : Prop :=
  Dict.keys (tanks w') = Dict.keys (tanks w)
  /\ forall s,
       match getTank w s, getTank w' s with
       | Some tk, Some tk' => R tk tk'
       | None, None => True
       | _, _ => False
       end.

(** The frame of a removal phase: time and constants are kept, the tanks
    change by [combat_rel], and no projectile is added or altered. *)
Definition removal_frame (w w' : World) : Prop :=
  tanks_rel combat_rel w w'
  /\ t w' = t w /\ constants w' = constants w
  /\ incl (projectiles w') (projectiles w).

Section WithMath.
Context {M : MathLib}.

(** What a whole tick does to a tank: the pose, the busy window and the
    action are those of [tickTank]; hits and removals only touch [hp] and
    [activeProjectileId]. *)
Definition tank_step_rel (c : Constants) (now dt : Q) (tk tk' : Tank)
    : Prop :=
  let k := tickTank c now dt tk in
  x tk' = x k /\ y tk' = y k /\ headingDeg tk' = headingDeg k
  /\ busyUntil tk' = busyUntil k /\ activeAction tk' = activeAction k
  /\ tankType tk' = tankType k /\ slot tk' = slot k
  /\ ((hp tk <= 0)%Z -> hp tk' = hp tk)
  /\ (activeProjectileId tk' = activeProjectileId tk
      \/ activeProjectileId tk' = None).
End WithMath.

End TickView.

(** ** Vocabulary of the properties *)

Module Props.
Import World Actions Step TankApi Run.

(** The [activeAction] that a call records. *)
Definition call_action (call : Call) : Action :=
  match call with
  | CallTurnLeft _ => TurnLeft
  | CallTurnRight _ => TurnRight
  | CallMoveForward => MoveForward
  | CallMoveBackward => MoveBackward
  | CallScan aDeg bDeg => ScanArc aDeg bDeg
  end.

(** The duration of a call: [|degrees| / turnRate] for a turn with a
    [degrees] argument, [ACTION_DURATION] otherwise. *)
Definition call_duration (c : Constants) (tk : Tank) (call : Call) : Q :=
  match call with
  | CallTurnLeft (Some d) | CallTurnRight (Some d) =>
      Qabs d / turnRate (TANK_TYPES c (tankType tk))
  | _ => ACTION_DURATION c
  end.

(** What an operation other than a tick may do to a tank: nothing, start
    an action on an idle tank, record a fired projectile, or forfeit. *)
Definition tank_op_rel (c : Constants) (now : Q) (tk tk' : Tank) : Prop :=
  tk' = tk
  \/ (isIdle tk now = true
      /\ exists call,
           tk' = beginAction tk now (call_duration c tk call)
                   (call_action call))
  \/ (activeProjectileId tk = None
      /\ exists pid, tk' = tank_with_projectile tk (Some pid))
  \/ tk' = tank_with_busy (tank_with_hp tk 0) (busyUntil tk) None.

(** An operation that neither starts an action on slot [s] nor forfeits
    it. *)
Definition quiet (s : string) (op : Op) : bool :=
  match op with
  | OpStep => true
  | OpStart s' _ => negb (String.eqb s' s)
  | OpShoot _ => true
  | OpForfeit s' => negb (String.eqb s' s)
  end.

(** The number of ticks in a list of operations. *)
Fixpoint stepsIn (ops : list Op) : nat :=
  match ops with
  | [] => O
  | OpStep :: rest => S (stepsIn rest)
  | _ :: rest => stepsIn rest
  end.

(** [n] as a number. *)
Definition ofNat (n : nat) : Q := inject_Z (Z.of_nat n).

(** A tank inside the arena inset by the tank radius. *)
Definition inArena (c : Constants) (tk : Tank) : Prop :=
  TANK_RADIUS c <= x tk /\ x tk <= ARENA_WIDTH c - TANK_RADIUS c
  /\ TANK_RADIUS c <= y tk /\ y tk <= ARENA_HEIGHT c - TANK_RADIUS c.

(** Constants for which the spawn ring, of radius
    [0.55 * min(W/2, H/2)], lies inside the inset arena. *)
Definition roomy (c : Constants) : Prop :=
  0 <= JS.min (ARENA_WIDTH c / 2) (ARENA_HEIGHT c / 2)
  /\ TANK_RADIUS c + JS.min (ARENA_WIDTH c / 2) (ARENA_HEIGHT c / 2) * (55 # 100)
     <= ARENA_WIDTH c / 2
  /\ TANK_RADIUS c + JS.min (ARENA_WIDTH c / 2) (ARENA_HEIGHT c / 2) * (55 # 100)
     <= ARENA_HEIGHT c / 2.

(** Constants with a positive tick rate and non-negative durations. *)
Definition timed (c : Constants) : Prop :=
  0 < TICK_RATE c /\ 0 <= ACTION_DURATION c
  /\ forall ty, 0 <= turnRate (TANK_TYPES c ty).

(** The projectile that [shoot] spawns for the tank [tk] of slot [s] when
    the counter is [n]. *)
Definition spawned {M : MathLib} (c : Constants) (n : nat) (s : string)
    (tk : Tank) : Projectile :=
  let rad := headingDeg tk * DEG2RAD in
  let off := TANK_RADIUS c + PROJECTILE_RADIUS c + 1 in
  {| id := proj_ n; owner := s;
     p_x := x tk + Math_cos rad * off; p_y := y tk + Math_sin rad * off;
     vx := Math_cos rad * PROJECTILE_SPEED c;
     vy := Math_sin rad * PROJECTILE_SPEED c |}.

(** The event that [step] pushes for a completed-action descriptor. *)
Definition completeEvent (d : Completed) : StepEvent :=
  ActionComplete (c_slot d) (c_actionType d) (c_scanResult d).

(** The kinds of events. *)
Definition isActionComplete (e : StepEvent) : bool :=
  match e with ActionComplete _ _ _ => true | _ => false end.

Definition isDespawn (e : StepEvent) : bool :=
  match e with Despawn _ _ => true | _ => false end.

Definition isHit (e : StepEvent) : bool :=
  match e with Hit _ _ _ _ => true | _ => false end.

Definition isMatchEnd (e : StepEvent) : bool :=
  match e with MatchEnd _ _ => true | _ => false end.

(** Two tanks with the same pose and class. *)
Definition same_pose (tk tk' : Tank) : Prop :=
  x tk' = x tk /\ y tk' = y tk /\ headingDeg tk' = headingDeg tk
  /\ tankType tk' = tankType tk.

(** The per-tick effect of an action applied [j] times. *)
Definition afterTicks {M : MathLib} (c : Constants) (dt : Q) (a : Action)
    (j : nat) (tk : Tank) : Tank :=
  Nat.iter j (fun k => applyEffect c dt k a) tk.

(** The keys of a well-formed world: slots are distinct, and a projectile
    is stored under its own id. *)
Definition keyed (w : World) : Prop :=
  NoDup (Dict.keys (tanks w))
  /\ forall k p, In (k, p) (projectiles w) -> id p = k.

(** The links between tanks and projectiles (invariant I2), with the
    module-level counter [n]: keys are distinct, a projectile is stored
    under its own id, ids are below the counter, the owner of a projectile
    records it as its active projectile, and the active projectile of a
    tank is in the map and owned by that tank. *)
Definition linked (n : nat) (w : World) : Prop :=
  NoDup (Dict.keys (tanks w))
  /\ NoDup (Dict.keys (projectiles w))
  /\ (forall k p, In (k, p) (projectiles w) ->
       id p = k
       /\ (exists i, k = proj_ i /\ (i < n)%nat)
       /\ exists tk, getTank w (owner p) = Some tk
                     /\ activeProjectileId tk = Some k)
  /\ (forall s tk pid,
       getTank w s = Some tk -> activeProjectileId tk = Some pid ->
       exists p, In (pid, p) (projectiles w) /\ owner p = s).

End Props.

(** ** A concrete match

    The default two-player world for seed 42 with the constants of
    shared/constants.js, evaluated with the rational math library. *)

Module Demo.
Import World Actions Step TankApi Run.

Definition start : nat * World :=
  createWorld (M := RationalMath.math) 42 CONSTANTS None.

(** The state after a list of operations. *)
Definition run (ops : list Op) : nat * World :=
  match execAll (M := RationalMath.math) ops start with
  | Some st => st
  | None => start
  end.

(** The tank of a slot that is present. *)
Definition tankOf (w : World) (s : string) : Tank :=
  match getTank w s with
  | Some tk => tk
  | None => createTank s 0 0 0 light CONSTANTS
  end.

(** A world at time 0 that holds the given tanks and no projectile. *)
Definition arena (tks : list Tank) : nat * World :=
  (O, {| t := 0; seed := 1; constants := CONSTANTS; rng := 1;
         tanks := map (fun tk => (slot tk, tk)) tks;
         projectiles := []; nextProjectileId := 0 |}).

(** The state after a list of operations on a given state. *)
Definition after (st : nat * World) (ops : list Op) : nat * World :=
  match execAll (M := RationalMath.math) ops st with
  | Some st' => st'
  | None => st
  end.

(** A light tank [p1] with the given pose and a light tank [p2] at the
    given position. *)
Definition pair (x1 y1 h1 x2 y2 : Q) : nat * World :=
  arena [createTank "p1" x1 y1 h1 light CONSTANTS;
         createTank "p2" x2 y2 0 light CONSTANTS].

(** The value a scan of [p1] completes with, 60 ticks after its start. *)
Definition scanValue (st : nat * World) (aDeg bDeg : Q) : option bool :=
  lastScanResult
    (tankOf (snd (after st (OpStart "p1" (CallScan aDeg bDeg)
                            :: repeat OpStep 60))) "p1").

End Demo.

(** ** Runs of the PRNG closure *)

Module PrngRun.

(** The captured state after [n] calls of the closure. *)
Definition stateAfter (n : nat) (s : Z) : Z :=
  Nat.iter n (fun s0 => fst (Prng.random s0)) s.

End PrngRun.

(** ** sim/world.js: resetWorld *)

Module WorldReset.
Import World.

(** The players of a match: the default pair when the argument is missing
    or empty. *)
Definition lineup (players : option (list Player)) : list Player :=
  match players with
  | None | Some [] => [("p1"%string, light); ("p2"%string, light)]
  | Some ps => ps
  end.

Section WithMath.
Context {M : MathLib}.

(** [resetWorld(world)]: the module-level counter and the world after
    [Object.assign(world, fresh)], which overwrites every field. *)
Definition resetWorld (world : World) : nat * World :=
  let players :=
    map (fun t => (slot t, tankType t)) (Dict.values (tanks world)) in
  createWorld (seed world) (constants world) (Some players).
End WithMath.

End WorldReset.

(** ** Vocabulary of the further properties *)

Module Facts.
Import World Actions Step.

(** A slot name under which a JavaScript object keeps a property in
    insertion order: not a string of decimal digits (the object lists
    integer-like keys first, in numeric order) and not ["__proto__"]
    (assigning to it sets the prototype and adds no property).  Under
    such names [world.tanks] and the association list of the model hold
    the same keys in the same order. *)
Definition isDigit (c : ascii) : bool :=
  (48 <=? nat_of_ascii c)%nat && (nat_of_ascii c <=? 57)%nat.

Fixpoint allDigits (s : string) : bool :=
  match s with
  | EmptyString => true
  | String c rest => isDigit c && allDigits rest
  end.

Definition keptInOrder (s : string) : bool :=
  negb (negb (String.eqb s "") && allDigits s)
  && negb (String.eqb s "__proto__").

Definition plainSlots (players : list Player) : Prop :=
  Forall (fun p => keptInOrder (fst p) = true) players.

(** The radius of the spawn ring. *)
Definition spawnRadius (c : Constants) : Q :=
  JS.min (ARENA_WIDTH c / 2) (ARENA_HEIGHT c / 2) * (55 # 100).

(** The fields of a tank that no operation of a match changes. *)
Definition identity (tk : Tank) : string * TankType := (slot tk, tankType tk).

(** The player list that [resetWorld] reads off a world. *)
Definition roster (w : World) : list Player :=
  map identity (Dict.values (tanks w)).

(** The fields of a world that neither a tick nor a starter, a shot or a
    forfeit changes. *)
Definition static (w w' : World) : Prop :=
  seed w' = seed w /\ rng w' = rng w
  /\ nextProjectileId w' = nextProjectileId w.

(** The number of [hit] events of a list that name [s] as their target. *)
Definition hitsOn (s : string) (events : list StepEvent) : nat :=
  List.length
    (filter (fun e => match e with
                      | Hit _ _ tg _ => String.eqb tg s
                      | _ => false
                      end) events).

(** The hit points [h] after [k] hits of [d] points each, floored at 0. *)
Definition damaged (d h : Z) (k : nat) : Z :=
  if (k =? 0)%nat then h else Z.max 0 (h - d * Z.of_nat k).

(** The projectile ids of the [hit] events of a list. *)
Definition hitIds (events : list StepEvent) : list ProjId :=
  flat_map (fun e => match e with
                     | Hit k _ _ _ => [k]
                     | _ => []
                     end) events.

(** The squared distance between a projectile and a tank. *)
Definition distSq (p : Projectile) (tk : Tank) : Q :=
  (p_x p - x tk) * (p_x p - x tk) + (p_y p - y tk) * (p_y p - y tk).

(** The squared hit range [(PROJECTILE_RADIUS + TANK_RADIUS)^2]. *)
Definition hitRangeSq (c : Constants) : Q :=
  (PROJECTILE_RADIUS c + TANK_RADIUS c) * (PROJECTILE_RADIUS c + TANK_RADIUS c).

(** The world in which phase 3 of a tick, hit detection, starts: actions
    applied, projectiles moved, out-of-bounds projectiles removed. *)
Definition beforeHits {M : MathLib} (w : World) : World :=
  let dt := 1 / TICK_RATE (constants w) in
  let moved := moveProjectiles (fst (applyActiveActions w dt)) dt in
  fst (despawnLoop (Dict.values (projectiles moved)) moved []).

(** The slots of the tanks that are alive, in key order: the array
    [alive] of the match-end check. *)
Definition aliveSlots (w : World) : list string :=
  map fst (filter (fun e => (0 <? hp (snd e))%Z) (tanks w)).

(** A list of slots in descending order of hit points. *)
Fixpoint descending (w : World) (l : list string) : Prop :=
  match l with
  | [] => True
  | a :: rest =>
      (forall b, In b rest -> (hpOf w b <= hpOf w a)%Z) /\ descending w rest
  end.

(** The displacement of one tick of a straight move of the tank [tk]:
    forward along the heading, or backward. *)
Definition stride {M : MathLib} (c : Constants) (forward : bool) (tk : Tank)
    : Q * Q :=
  let rad := headingDeg tk * DEG2RAD in
  let v := moveSpeed (TANK_TYPES c (tankType tk)) in
  let dt := 1 / TICK_RATE c in
  if forward then (Math_cos rad * v * dt, Math_sin rad * v * dt)
  else (- (Math_cos rad * v * dt), - (Math_sin rad * v * dt)).

(** An [activeAction] of type ["scan"]. *)
Definition isScanAction (a : Action) : bool :=
  match a with
  | ScanArc _ _ => true
  | _ => false
  end.

(** The registry of API objects agrees with the world: a pending callback
    belongs to a tank with an action, and it is a scan callback exactly
    when that action is a scan. *)
Definition inSync (w : World) (apis : list (string * TankApi.Api)) : Prop :=
  forall s api isScan,
    Dict.get String.eqb s apis = Some api ->
    TankApi._pendingResolve api = Some isScan ->
    exists tk a, getTank w s = Some tk /\ activeAction tk = Some a
                 /\ isScan = isScanAction a.

(** The slots of the [actionComplete] events of a list. *)
Definition completedSlots (events : list StepEvent) : list string :=
  flat_map (fun e => match e with
                     | ActionComplete s _ _ => [s]
                     | _ => []
                     end) events.

(** A descriptor and the tank it was built from agree on the scan
    result. *)
Definition scanAgrees (a : Action) (d : Completed) (tk : Tank) : Prop :=
  match a with
  | ScanArc _ _ =>
      exists b, c_scanResult d = Some b /\ lastScanResult tk = Some b
  | _ => c_scanResult d = None
  end.

End Facts.

(** ** runtime/actionResolver.js and the stored callback of tankApi.js

    [tryStartMatch] builds the registry [tankApis] with
    [tankApis[slotName] = createTankApi({ world, slot: slotName })], so the
    API object stored under a key closes over that key as its [slot].  A
    settlement records that the promise of the API object of a slot was
    resolved, and with which value ([undefined] is [None]). *)

Module Resolver.
Import World Step TankApi.

(** [api._clearPending()] *)
Definition clearPending (api : Api) : Api :=
  {| _pendingResolve := None; _onActionStart := _onActionStart api |}.

(** [api._hasPending] *)
Definition hasPending (api : Api) : bool :=
  match _pendingResolve api with
  | Some _ => true
  | None => false
  end.

(** Calling the callback that [timedAction] stored: the value its promise
    resolves with.  The callback takes no parameter; for a scan it reads
    [world.tanks[slot].lastScanResult ?? false], which throws when the
    slot has no tank (the result [None]). *)
Definition callPending (world : World) (slot : string) (isScan : bool)
    : option (option bool) :=
  if isScan then
    match getTank world slot with
    | Some tk =>
        Some (Some (match lastScanResult tk with
                    | Some b => b
                    | None => false
                    end))
    | None => None
    end
  else Some None.

Definition Settlement : Type := (string * option bool)%type.

(** [resolveActions(events)] of [createActionResolver(tankApis)].  The
    argument [evt.actionType === "scan" ? evt.scanResult : undefined] that
    it passes to the stored callback is ignored by that callback. *)
Fixpoint resolveActions (world : World) (tankApis : list (string * Api))
    (events : list StepEvent) (settled : list Settlement)
    : option (list (string * Api) * list Settlement) :=
  match events with
  | [] => Some (tankApis, settled)
  | ActionComplete slot actionType scanResult :: rest =>
      match Dict.get String.eqb slot tankApis with
      | None => resolveActions world tankApis rest settled
      | Some api =>
          match _pendingResolve api with
          | None => resolveActions world tankApis rest settled
          | Some isScan =>
              let tankApis1 :=
                Dict.set String.eqb slot (clearPending api) tankApis in
              match callPending world slot isScan with
              | None => None
              | Some value =>
                  resolveActions world tankApis1 rest
                    (settled ++ [(slot, value)])
              end
          end
      end
  | _ :: rest => resolveActions world tankApis rest settled
  end.

End Resolver.

(** ** sim/loop.js: the timer callback of startLoop

    The callbacks [onTick] and [onMatchEnd] are parameters; they receive
    the events and may change the world and a state [Obs] of their own, and
    they are taken neither to throw (the [catch] branch of [tick] is then
    never entered, since [step] itself is total here) nor to call
    [stop()], so that [running] changes in [tick] only.  Wall-clock times
    are the values that [performance.now()] returns, in milliseconds. *)

Module Loop.
Import World Step.

(** The variables that the closure [tick] captures and updates. *)
Record LoopState := { running : bool; lastTime : Q; accumulator : Q }.

Section WithCallbacks.
Context {M : MathLib} {Obs : Type}.
Variable onTick : option (list StepEvent -> World * Obs -> World * Obs).
Variable onMatchEnd : option (list StepEvent -> World * Obs -> World * Obs).

(** [if (cb) cb(events)] *)
Definition call (cb : option (list StepEvent -> World * Obs -> World * Obs))
    (events : list StepEvent) (st : World * Obs) : World * Obs :=
  match cb with
  | Some f => f events st
  | None => st
  end.

(** [events.find((e) => e.kind === "matchEnd")] is defined. *)
Definition hasMatchEnd (events : list StepEvent) : bool :=
  existsb (fun e => match e with MatchEnd _ _ => true | _ => false end)
    events.

(** The loop [while (accumulator >= tickInterval && running)].  The
    result is the flag [running], the accumulator, the state and the
    events of the steps run, oldest first; [None] when [fuel] iterations
    were not enough. *)
Fixpoint catchUp (fuel : nat) (tickInterval accumulator : Q)
    (st : World * Obs) (trace : list (list StepEvent))
    : option (bool * Q * (World * Obs) * list (list StepEvent)) :=
  if JS.geb accumulator tickInterval then
    match fuel with
    | O => None
    | S fuel' =>
        let '(world1, events) := step (fst st) in
        let st1 := call onTick events (world1, snd st) in
        if hasMatchEnd events then
          Some (false, accumulator, call onMatchEnd events st1,
                trace ++ [events])
        else
          catchUp fuel' tickInterval (accumulator - tickInterval) st1
            (trace ++ [events])
    end
  else Some (true, accumulator, st, trace).

(** [tickInterval = 1000 / world.constants.TICK_RATE], computed once by
    [startLoop]. *)
Definition tickIntervalOf (world : World) : Q :=
  1000 / TICK_RATE (constants world).

(** The state that [startLoop] sets up, when [performance.now()] is
    [now]. *)
Definition startLoop (now : Q) : LoopState :=
  {| running := true; lastTime := now; accumulator := 0 |}.

(** One run of the timer callback [tick()] when [performance.now()] is
    [now]. *)
Definition tick (fuel : nat) (tickInterval now : Q) (ls : LoopState)
    (st : World * Obs)
    : option (LoopState * (World * Obs) * list (list StepEvent)) :=
  if negb (running ls) then Some (ls, st, [])
  else
    let accumulator0 := accumulator ls + (now - lastTime ls) in
    let maxAccum := tickInterval * 10 in
    let accumulator1 :=
      if JS.gtb accumulator0 maxAccum then maxAccum else accumulator0 in
    match catchUp fuel tickInterval accumulator1 st [] with
    | None => None
    | Some (running', accumulator', st', trace) =>
        Some ({| running := running'; lastTime := now;
                 accumulator := accumulator' |}, st', trace)
    end.

(** [loop.stop()] *)
Definition stop (ls : LoopState) : LoopState :=
  {| running := false; lastTime := lastTime ls;
     accumulator := accumulator ls |}.
End WithCallbacks.

End Loop.

(** ** server/src/lobby.js

    The module-level state of the lobby: the player slots, an object
    keyed by slot name, and the set of spectators.  A connection [ws] is
    its [clientId]; the messages that the functions send and broadcast
    are not part of the state and are left out, except for the slot
    written to [ws.slot], which [joinLobby] returns here. *)

Module Lobby.

(** [CONSTANTS.MAX_PLAYERS] of shared/constants.js. *)
Definition MAX_PLAYERS : nat := 8.

(** [PlayerSlot], without the socket. *)
Record PlayerSlot := {
  clientId : string;
  name : string;
  hasCode : bool;
  tankType : option string;
  code : option string
}.

Record State := {
  slots : list (string * PlayerSlot);
  spectators : list string
}.

(** The state when the module is loaded, and after [resetLobby()]. *)
Definition empty : State := {| slots := []; spectators := [] |}.

(** The template literal [`p${i}`]. *)
Definition slotName (i : nat) : string :=
  ("p" ++ NilEmpty.string_of_uint (Nat.to_uint i))%string.

(** [name in slots] *)
Definition inSlots (nm : string) (st : State) : bool :=
  match Dict.get String.eqb nm (slots st) with
  | Some _ => true
  | None => false
  end.

(** The loop of [nextAvailableSlot()], from [i] on, with [todo] rounds
    left up to [MAX_PLAYERS]. *)
Fixpoint firstFree (st : State) (i todo : nat) : string :=
  match todo with
  | O => slotName (S MAX_PLAYERS)
  | S todo' =>
      if negb (inSlots (slotName i) st) then slotName i
      else firstFree st (S i) todo'
  end.

(** [nextAvailableSlot()] *)
Definition nextAvailableSlot (st : State) : string :=
  firstFree st 1 MAX_PLAYERS.

(** [createSlot(clientId, ws)] *)
Definition createSlot (cid : string) : PlayerSlot :=
  {| clientId := cid; name := cid; hasCode := false; tankType := None;
     code := None |}.

(** [spectators.add(clientId)] *)
Definition addSpectator (cid : string) (l : list string) : list string :=
  if existsb (String.eqb cid) l then l else l ++ [cid].

(** [spectators.delete(clientId)] *)
Definition deleteSpectator (cid : string) (l : list string) : list string :=
  filter (fun c => negb (String.eqb c cid)) l.

(** [joinLobby(ws)]: the new state and the value written to [ws.slot]. *)
Definition joinLobby (st : State) (cid : string) : State * string :=
  if (List.length (Dict.keys (slots st)) <? MAX_PLAYERS)%nat then
    let slotName := nextAvailableSlot st in
    ({| slots := Dict.set String.eqb slotName (createSlot cid) (slots st);
        spectators := spectators st |}, slotName)
  else
    ({| slots := slots st; spectators := addSpectator cid (spectators st) |},
     "spectator"%string).

(** The loop of [leaveLobby]: the name of the first slot held by the
    client. *)
Fixpoint slotOf (cid : string) (entries : list (string * PlayerSlot))
    : option string :=
  match entries with
  | [] => None
  | (slotName, slot) :: rest =>
      if String.eqb (clientId slot) cid then Some slotName
      else slotOf cid rest
  end.

(** [leaveLobby(ws)] *)
Definition leaveLobby (st : State) (cid : string) : State :=
  match slotOf cid (slots st) with
  | Some slotName =>
      {| slots := Dict.delete String.eqb slotName (slots st);
         spectators := spectators st |}
  | None =>
      {| slots := slots st;
         spectators := deleteSpectator cid (spectators st) |}
  end.

(** [getSlot(slotName)] *)
Definition getSlot (st : State) (slotName : string) : option PlayerSlot :=
  Dict.get String.eqb slotName (slots st).

(** [getSlotForClient(clientId)] *)
Definition getSlotForClient (st : State) (cid : string) : string :=
  match slotOf cid (slots st) with
  | Some slotName => slotName
  | None => "spectator"%string
  end.

(** [Array.prototype.sort()] without a comparator, on strings: ascending
    order of code units, as an insertion sort. *)
Fixpoint insertName (a : string) (sorted : list string) : list string :=
  match sorted with
  | [] => [a]
  | b :: rest =>
      if String.leb b a then b :: insertName a rest else a :: b :: rest
  end.

Definition sortNames (names : list string) : list string :=
  fold_left (fun sorted a => insertName a sorted) names [].

(** [getHostSlot()] *)
Definition getHostSlot (st : State) : option string :=
  match sortNames (Dict.keys (slots st)) with
  | [] => None
  | first :: _ => Some first
  end.

(** [setCode(slotName, tankType, code)] *)
Definition setCode (st : State) (slotName tankType0 code0 : string) : State :=
  match Dict.get String.eqb slotName (slots st) with
  | None => st
  | Some slot =>
      {| slots :=
           Dict.set String.eqb slotName
             {| clientId := clientId slot; name := name slot;
                hasCode := true; tankType := Some tankType0;
                code := Some code0 |} (slots st);
         spectators := spectators st |}
  end.

(** [clearCode(slotName)] *)
Definition clearCode (st : State) (slotName : string) : State :=
  match Dict.get String.eqb slotName (slots st) with
  | None => st
  | Some slot =>
      {| slots :=
           Dict.set String.eqb slotName
             {| clientId := clientId slot; name := name slot;
                hasCode := false; tankType := None; code := None |}
             (slots st);
         spectators := spectators st |}
  end.

(** [resetLobby()] *)
Definition resetLobby (st : State) : State := empty.

(** [getLobbyInfo().playerCount] *)
Definition playerCount (st : State) : nat :=
  List.length (Dict.keys (slots st)).

(** The calls that change the lobby. *)
Inductive Call :=
| Join (cid : string)
| Leave (cid : string)
| SetCode (slotName tankType0 code0 : string)
| ClearCode (slotName : string)
| ResetLobby.

Definition run (st : State) (c : Call) : State :=
  match c with
  | Join cid => fst (joinLobby st cid)
  | Leave cid => leaveLobby st cid
  | SetCode s ty cd => setCode st s ty cd
  | ClearCode s => clearCode st s
  | ResetLobby => resetLobby st
  end.

(** The lobby after a list of calls on the empty lobby. *)
Definition after (calls : list Call) : State := fold_left run calls empty.

(** The slot names [p1 .. pMAX_PLAYERS]. *)
Definition slotNames : list string := map slotName (seq 1 MAX_PLAYERS).

(** The invariant of the lobby: distinct slot names among
    [p1 .. pMAX_PLAYERS], distinct spectators. *)
Definition tidy (st : State) : Prop :=
  NoDup (Dict.keys (slots st))
  /\ incl (Dict.keys (slots st)) slotNames
  /\ NoDup (spectators st).

(** A list of names in ascending order of code units. *)
Fixpoint ascending (l : list string) : Prop :=
  match l with
  | [] => True
  | a :: rest =>
      (forall b, In b rest -> String.leb a b = true) /\ ascending rest
  end.

End Lobby.

(** ** Further concrete worlds *)

Module Sample.
Import World Actions Step TankApi Run.

(** Two light tanks at rest, the second one with 40 hit points left, one
    tick before the time limit of 180 s. *)
Definition lateGame : World :=
  {| t := 180 - 1 / 60; seed := 1; constants := CONSTANTS; rng := 1;
     tanks := [("p1"%string, createTank "p1" 100 100 0 light CONSTANTS);
               ("p2"%string,
                tank_with_hp (createTank "p2" 1000 700 0 light CONSTANTS) 40)];
     projectiles := []; nextProjectileId := 0 |}.

(** The state after [p1], at (100, 100) and heading east, fired at [p2],
    40 away: the projectile hits in the next tick. *)
Definition pointBlank : nat * World :=
  Demo.after (Demo.pair 100 100 0 140 100) [OpShoot "p1"].

(** The state after [p1], 25 short of the east wall and heading east,
    fired: the projectile leaves the arena in the next tick. *)
Definition atTheWall : nat * World :=
  Demo.after (Demo.pair 1175 100 0 100 700) [OpShoot "p1"].

(** The projectile in flight of a state that has one. *)
Definition shot (st : nat * World) : Projectile :=
  hd {| id := proj_ 0; owner := ""; p_x := 0; p_y := 0; vx := 0; vy := 0 |}
     (Dict.values (projectiles (snd st))).

(** A registry in which [p1] awaits a move and [p2] awaits nothing. *)
Definition registry : list (string * Api) :=
  [("p1"%string, {| _pendingResolve := Some false;
                    _onActionStart := Some WatchdogReset |});
   ("p2"%string, createTankApi)].

(** Events of a tick: two completions for [p1], one for [p2]. *)
Definition completions : list StepEvent :=
  [ActionComplete "p1" "moveForward" None;
   ActionComplete "p2" "turnLeft" None;
   ActionComplete "p1" "moveForward" None].

End Sample.

(** * Properties

    From here on: lemmas about the definitions above. *)

(** ** Remainders and angles *)

Lemma trunc_nonneg (q : Q) :
  0 <= q -> inject_Z (JS.trunc q) <= q /\ q < inject_Z (JS.trunc q) + 1.
Proof.
  destruct q as [n d]. unfold JS.trunc, Qle, Qlt. simpl. intros Hn.
  assert (Hn' : (0 <= n)%Z) by lia.
  pose proof (Z.quot_rem' n (Zpos d)) as E.
  pose proof (Z.rem_bound_pos n (Zpos d) Hn' ltac:(lia)) as B.
  split; nia.
Qed.

Lemma trunc_nonpos (q : Q) :
  q <= 0 -> inject_Z (JS.trunc q) - 1 < q /\ q <= inject_Z (JS.trunc q).
Proof.
  destruct q as [n d]. unfold JS.trunc, Qle, Qlt. simpl. intros Hn.
  assert (Hn' : (n <= 0)%Z) by lia.
  pose proof (Z.quot_rem' n (Zpos d)) as E.
  pose proof (Z.rem_bound_pos_neg n (Zpos d) ltac:(lia) Hn') as B.
  split; nia.
Qed.

(** [x % m] for a positive modulus: a multiple of [m] away from [x], with
    the sign of [x] and magnitude below [m]. *)
Lemma rem_nonneg (x m : Q) :
  0 < m -> 0 <= x -> 0 <= JS.rem x m /\ JS.rem x m < m.
Proof.
  intros Hm Hx. unfold JS.rem.
  assert (Hq : 0 <= x / m) by (apply Qle_shift_div_l; lra).
  destruct (trunc_nonneg _ Hq) as [L U].
  set (k := inject_Z (JS.trunc (x / m))) in *.
  assert (E : x == (x / m) * m) by (field; lra).
  split.
  - assert (k * m <= x / m * m) by (apply Qmult_le_compat_r; lra). lra.
  - assert (x / m * m < (k + 1) * m) by (apply Qmult_lt_compat_r; lra). lra.
Qed.

Lemma rem_nonpos (x m : Q) :
  0 < m -> x <= 0 -> - m < JS.rem x m /\ JS.rem x m <= 0.
Proof.
  intros Hm Hx. unfold JS.rem.
  assert (Hq : x / m <= 0) by (apply Qle_shift_div_r; lra).
  destruct (trunc_nonpos _ Hq) as [L U].
  set (k := inject_Z (JS.trunc (x / m))) in *.
  assert (E : x == (x / m) * m) by (field; lra).
  split.
  - assert ((k - 1) * m < x / m * m) by (apply Qmult_lt_compat_r; lra). lra.
  - assert (x / m * m <= k * m) by (apply Qmult_le_compat_r; lra). lra.
Qed.

Lemma rem_bounds (x m : Q) : 0 < m -> - m < JS.rem x m /\ JS.rem x m < m.
Proof.
  intros Hm. destruct (Qlt_le_dec x 0) as [H|H].
  - destruct (rem_nonpos x m Hm) as [? ?]; [lra|]. split; lra.
  - destruct (rem_nonneg x m Hm H) as [? ?]. split; lra.
Qed.

Lemma normalizeDeg_range (d : Q) :
  0 <= Scan.normalizeDeg d /\ Scan.normalizeDeg d < 360.
Proof.
  unfold Scan.normalizeDeg.
  destruct (rem_bounds d 360 ltac:(lra)) as [L U].
  apply rem_nonneg; lra.
Qed.

Lemma normalizeDeg_shift (d : Q) :
  exists k : Z, Scan.normalizeDeg d == d + 360 * inject_Z k.
Proof.
  unfold Scan.normalizeDeg, JS.rem.
  set (k1 := JS.trunc (d / 360)).
  set (k2 := JS.trunc (_ / 360)).
  exists (1 + - k1 + - k2)%Z.
  rewrite !inject_Z_plus, !inject_Z_opp. change (inject_Z 1) with 1. ring.
Qed.

Lemma inject_Z_small (k : Z) : -1 < inject_Z k -> inject_Z k < 1 -> k = 0%Z.
Proof.
  unfold Qlt. simpl. lia.
Qed.

(** Two angles of [[0, 360)] that differ by a whole number of turns are
    equal. *)
Lemma turn_unique (a b : Q) (k : Z) :
  0 <= a -> a < 360 -> 0 <= b -> b < 360 ->
  a == b + 360 * inject_Z k -> a == b.
Proof.
  intros. assert (k = 0%Z) as ->.
  { apply inject_Z_small; lra. }
  change (inject_Z 0) with 0 in *. lra.
Qed.

Lemma normalizeDeg_congr (x y : Q) (k : Z) :
  x == y + 360 * inject_Z k -> Scan.normalizeDeg x == Scan.normalizeDeg y.
Proof.
  intros E.
  destruct (normalizeDeg_shift x) as [kx Ex].
  destruct (normalizeDeg_shift y) as [ky Ey].
  destruct (normalizeDeg_range x), (normalizeDeg_range y).
  apply (turn_unique _ _ (kx + k + - ky)%Z); try assumption.
  rewrite !inject_Z_plus, inject_Z_opp. lra.
Qed.

Lemma normalizeDeg_proper (x y : Q) :
  x == y -> Scan.normalizeDeg x == Scan.normalizeDeg y.
Proof.
  intros E. apply (normalizeDeg_congr x y 0). change (inject_Z 0) with 0. lra.
Qed.

Lemma normalizeDeg_fixed (x : Q) : 0 <= x -> x < 360 -> Scan.normalizeDeg x == x.
Proof.
  intros. destruct (normalizeDeg_shift x) as [k E].
  destruct (normalizeDeg_range x).
  apply (turn_unique _ _ k); assumption.
Qed.

#[global] Instance normalizeDeg_Proper : Proper (Qeq ==> Qeq) Scan.normalizeDeg.
Proof. intros a b E. now apply normalizeDeg_proper. Qed.

Lemma fmod_range (x m : Q) :
  0 < m -> 0 <= ScanSpec.fmod x m /\ ScanSpec.fmod x m < m.
Proof.
  intros Hm. unfold ScanSpec.fmod.
  pose proof (Qfloor_le (x / m)) as L.
  pose proof (Qlt_floor (x / m)) as U.
  rewrite inject_Z_plus in U. change (inject_Z 1) with 1 in U.
  set (k := inject_Z (Qfloor (x / m))) in *.
  assert (E : x == (x / m) * m) by (field; lra).
  split.
  - assert (k * m <= x / m * m) by (apply Qmult_le_compat_r; lra). lra.
  - assert (x / m * m < (k + 1) * m) by (apply Qmult_lt_compat_r; lra). lra.
Qed.

(** The floored and the truncated double-[mod] normalisations agree. *)
Lemma normalize_normalizeDeg (x : Q) :
  ScanSpec.normalize x == Scan.normalizeDeg x.
Proof.
  destruct (normalizeDeg_shift x) as [k E].
  destruct (normalizeDeg_range x) as [L U].
  destruct (fmod_range (ScanSpec.fmod x 360 + 360) 360 ltac:(lra)) as [L' U'].
  fold (ScanSpec.normalize x) in L', U'.
  apply (turn_unique _ _ (1 + - Qfloor (x / 360)
                          + - Qfloor ((ScanSpec.fmod x 360 + 360) / 360)
                          + - k)%Z); try assumption.
  rewrite E. unfold ScanSpec.normalize, ScanSpec.fmod.
  rewrite !inject_Z_plus, !inject_Z_opp. change (inject_Z 1) with 1. ring.
Qed.

Lemma normalizeDeg_inner (x h : Q) :
  Scan.normalizeDeg (Scan.normalizeDeg x - h) == Scan.normalizeDeg (x - h).
Proof.
  destruct (normalizeDeg_shift x) as [k E].
  apply (normalizeDeg_congr _ _ k). rewrite E. ring.
Qed.

Lemma sum_squares_zero (a b : Q) : a * a + b * b == 0 <-> a == 0 /\ b == 0.
Proof.
  split.
  - intros E. split; nra.
  - intros [-> ->]. ring.
Qed.

Section ScanArc.
Context {M : MathLib}.

Lemma isInScanArc_inArc (scanner : Scan.Pose) (target : Scan.Point)
    (aDeg bDeg range : Q) :
  Scan.isInScanArc scanner target aDeg bDeg range
  = ScanSpec.inArc scanner target aDeg bDeg range.
Proof.
  unfold Scan.isInScanArc, ScanSpec.inArc, ScanSpec.bearingDeg. cbv zeta.
  set (dx := Scan.qx target - Scan.px scanner).
  set (dy := Scan.qy target - Scan.py scanner).
  destruct (JS.gtb _ _); [reflexivity|].
  assert (Hz : JS.eqb (dx * dx + dy * dy) 0
               = Qeq_bool (Scan.qx target) (Scan.px scanner)
                 && Qeq_bool (Scan.qy target) (Scan.py scanner)).
  { unfold JS.eqb. apply eq_true_iff_eq.
    rewrite andb_true_iff, !Qeq_bool_iff, sum_squares_zero.
    subst dx dy. split; intros [? ?]; split; lra. }
  rewrite Hz. destruct (_ && _); [reflexivity|].
  unfold JS.eqb, JS.leb.
  pose proof (normalize_normalizeDeg aDeg) as Ea.
  pose proof (normalize_normalizeDeg bDeg) as Eb.
  rewrite (Qeqb_comp _ _ Ea _ _ Eb).
  destruct (Qeq_bool _ _); [reflexivity|].
  apply Qleb_comp.
  - rewrite (normalize_normalizeDeg (ScanSpec.normalize _ - _)).
    apply normalizeDeg_proper.
    rewrite (normalize_normalizeDeg (_ - Scan.pheadingDeg scanner)).
    rewrite normalizeDeg_inner, Ea. reflexivity.
  - rewrite normalize_normalizeDeg, Ea, Eb. reflexivity.
Qed.
End ScanArc.

Section ScanArc.
Context {M : MathLib}.

Lemma rear_target_bearing (scanner : Scan.Pose) (target : Scan.Point) :
  Scan.pheadingDeg scanner == 0 ->
  0 < Math_PI ->
  Math_atan2 (Scan.qy target - Scan.py scanner)
             (Scan.qx target - Scan.px scanner) == Math_PI ->
  Scan.normalizeDeg
    (Scan.normalizeDeg
       (Math_atan2 (Scan.qy target - Scan.py scanner)
                   (Scan.qx target - Scan.px scanner) * (180 / Math_PI))
     - Scan.pheadingDeg scanner) == 180.
Proof.
  intros Hh Hpi Hat. rewrite Hat, Hh.
  assert (E : Math_PI * (180 / Math_PI) == 180) by (field; lra).
  rewrite E. rewrite (normalizeDeg_fixed 180) by lra.
  apply normalizeDeg_fixed; lra.
Qed.

Lemma rear_target_scans (scanner : Scan.Pose) (target : Scan.Point)
    (range : Q) :
  Scan.pheadingDeg scanner == 0 ->
  Scan.qy target == Scan.py scanner ->
  Scan.qx target < Scan.px scanner ->
  (Scan.px scanner - Scan.qx target) * (Scan.px scanner - Scan.qx target)
    <= range * range ->
  0 < Math_PI ->
  Math_atan2 (Scan.qy target - Scan.py scanner)
             (Scan.qx target - Scan.px scanner) == Math_PI ->
  Scan.isInScanArc scanner target 170 (-170) range = true
  /\ Scan.isInScanArc scanner target (-30) 30 range = false.
Proof.
  intros Hh Hy Hx Hr Hpi Hat.
  pose proof (rear_target_bearing scanner target Hh Hpi Hat) as Hb.
  unfold Scan.isInScanArc. cbv zeta.
  set (dx := Scan.qx target - Scan.px scanner) in *.
  set (dy := Scan.qy target - Scan.py scanner) in *.
  assert (Hdx : dx < 0) by (subst dx; lra).
  assert (Hdy : dy == 0) by (subst dy; lra).
  assert (Hg : JS.gtb (dx * dx + dy * dy) (range * range) = false).
  { unfold JS.gtb. apply negb_false_iff, Qle_bool_iff.
    rewrite Hdy. subst dx. lra. }
  assert (Hz : JS.eqb (dx * dx + dy * dy) 0 = false).
  { unfold JS.eqb. apply not_true_iff_false. rewrite Qeq_bool_iff.
    rewrite sum_squares_zero. intros [? _]. lra. }
  rewrite Hg, Hz. unfold JS.eqb, JS.leb. rewrite Hb.
  split; reflexivity.
Qed.
End ScanArc.

(** ** Dictionaries *)

Section DictFacts.
Context {K V : Type} (keq : K -> K -> bool).
Hypothesis keq_spec : forall a b, keq a b = true <-> a = b.

Lemma keq_refl (k : K) : keq k k = true.
Proof. now apply keq_spec. Qed.

Lemma keq_neq (a b : K) : a <> b -> keq a b = false.
Proof.
  intros N. destruct (keq a b) eqn:E; [|reflexivity].
  apply keq_spec in E. contradiction.
Qed.

Lemma get_set_same (k : K) (v : V) (d : list (K * V)) :
  Dict.get keq k (Dict.set keq k v d) = Some v.
Proof.
  induction d as [|[k' v'] d IH]; simpl.
  - now rewrite keq_refl.
  - destruct (keq k' k) eqn:E; simpl; rewrite E; auto.
Qed.

Lemma get_set_other (k k' : K) (v : V) (d : list (K * V)) :
  k <> k' -> Dict.get keq k' (Dict.set keq k v d) = Dict.get keq k' d.
Proof.
  intros N. induction d as [|[k0 v0] d IH]; simpl.
  - now rewrite keq_neq.
  - destruct (keq k0 k) eqn:E; simpl.
    + apply keq_spec in E. subst k0. now rewrite keq_neq.
    + destruct (keq k0 k'); auto.
Qed.

Lemma keys_set_present (k : K) (v v0 : V) (d : list (K * V)) :
  Dict.get keq k d = Some v0 -> Dict.keys (Dict.set keq k v d) = Dict.keys d.
Proof.
  induction d as [|[k' v'] d IH]; simpl; [discriminate|].
  destruct (keq k' k) eqn:E; simpl; intros H; [reflexivity|].
  f_equal. now apply IH.
Qed.

Lemma keys_set_absent (k : K) (v : V) (d : list (K * V)) :
  Dict.get keq k d = None -> Dict.keys (Dict.set keq k v d) = Dict.keys d ++ [k].
Proof.
  induction d as [|[k' v'] d IH]; simpl; [reflexivity|].
  destruct (keq k' k) eqn:E; simpl; intros H; [discriminate|].
  f_equal. now apply IH.
Qed.

Lemma get_None_keys (k : K) (d : list (K * V)) :
  Dict.get keq k d = None <-> ~ In k (Dict.keys d).
Proof.
  induction d as [|[k' v'] d IH]; simpl.
  - tauto.
  - destruct (keq k' k) eqn:E.
    + apply keq_spec in E. split; [discriminate|]. intros N. exfalso. auto.
    + rewrite IH. split; [|tauto]. intros N [H|H]; [|tauto].
      apply keq_spec in H. congruence.
Qed.

Lemma get_In (k : K) (v : V) (d : list (K * V)) :
  Dict.get keq k d = Some v -> In (k, v) d.
Proof.
  induction d as [|[k' v'] d IH]; simpl; [discriminate|].
  destruct (keq k' k) eqn:E.
  - apply keq_spec in E. intros [= ->]. subst. now left.
  - auto.
Qed.

Lemma In_get (k : K) (v : V) (d : list (K * V)) :
  NoDup (Dict.keys d) -> In (k, v) d -> Dict.get keq k d = Some v.
Proof.
  induction d as [|[k' v'] d IH]; simpl; [tauto|].
  intros ND [H|H].
  - injection H as -> ->. now rewrite keq_refl.
  - inversion ND as [|? ? Hn ND']; subst.
    destruct (keq k' k) eqn:E.
    + apply keq_spec in E. subst k'. exfalso. apply Hn.
      change k with (fst (k, v)). now apply in_map.
    + auto.
Qed.

Lemma NoDup_keys_set (k : K) (v : V) (d : list (K * V)) :
  NoDup (Dict.keys d) -> NoDup (Dict.keys (Dict.set keq k v d)).
Proof.
  intros ND. destruct (Dict.get keq k d) eqn:G.
  - now rewrite (keys_set_present _ _ _ _ G).
  - rewrite (keys_set_absent _ _ _ G).
    apply get_None_keys in G.
    apply NoDup_app; [assumption|constructor; [simpl; tauto|constructor]|].
    intros a Ha [<-|[]]. contradiction.
Qed.

Lemma In_set (k : K) (v : V) (d : list (K * V)) (e : K * V) :
  In e (Dict.set keq k v d) -> e = (k, v) \/ In e d.
Proof.
  induction d as [|[k' v'] d IH]; simpl.
  - intros [<-|[]]. now left.
  - destruct (keq k' k) eqn:E; simpl.
    + apply keq_spec in E. subst k'. intros [<-|H]; auto.
    + intros [<-|H]; auto. destruct (IH H); auto.
Qed.

Lemma In_set_other (k : K) (v : V) (d : list (K * V)) (e : K * V) :
  In e d -> fst e <> k -> In e (Dict.set keq k v d).
Proof.
  intros Hin Hne. induction d as [|[k' v'] d IH]; simpl; [contradiction|].
  destruct (keq k' k) eqn:E; simpl.
  - apply keq_spec in E. subst k'. destruct Hin as [<-|Hin]; [|now right].
    now contradiction Hne.
  - destruct Hin as [<-|Hin]; [now left|right; auto].
Qed.

Lemma In_set_same (k : K) (v : V) (d : list (K * V)) :
  In (k, v) (Dict.set keq k v d).
Proof. apply get_In, get_set_same. Qed.

Lemma get_delete_same (k : K) (d : list (K * V)) :
  Dict.get keq k (Dict.delete keq k d) = None.
Proof.
  unfold Dict.delete. induction d as [|[k' v'] d IH]; simpl; [reflexivity|].
  destruct (keq k' k) eqn:E; simpl; [assumption|]. now rewrite E.
Qed.

Lemma get_delete_other (k k' : K) (d : list (K * V)) :
  k <> k' -> Dict.get keq k' (Dict.delete keq k d) = Dict.get keq k' d.
Proof.
  intros N. unfold Dict.delete.
  induction d as [|[k0 v0] d IH]; simpl; [reflexivity|].
  destruct (keq k0 k) eqn:E; simpl.
  - apply keq_spec in E. subst k0. now rewrite keq_neq.
  - destruct (keq k0 k'); auto.
Qed.

Lemma In_delete (k : K) (d : list (K * V)) (e : K * V) :
  In e (Dict.delete keq k d) <-> In e d /\ fst e <> k.
Proof.
  unfold Dict.delete. rewrite filter_In, negb_true_iff.
  split; intros [H1 H2]; split; auto.
  - intros E. apply keq_spec in E. congruence.
  - now apply keq_neq.
Qed.

Lemma NoDup_keys_delete (k : K) (d : list (K * V)) :
  NoDup (Dict.keys d) -> NoDup (Dict.keys (Dict.delete keq k d)).
Proof.
  unfold Dict.delete, Dict.keys.
  induction d as [|[k' v'] d IH]; simpl; intros ND; [constructor|].
  inversion ND as [|? ? Hn ND']; subst.
  destruct (keq k' k); simpl; auto.
  constructor; auto. intros H. apply Hn.
  apply in_map_iff in H. destruct H as [e [E H]].
  apply filter_In in H. apply in_map_iff. exists e. tauto.
Qed.
End DictFacts.

Lemma ProjId_eqb_spec (a b : World.ProjId) :
  World.ProjId_eqb a b = true <-> a = b.
Proof.
  destruct a as [n], b as [m]. simpl. rewrite Nat.eqb_eq.
  split; [now intros ->|now intros [= ->]].
Qed.

(** ** Tanks of a world *)

Import World Actions.

Lemma getTank_putTank_same (w : World) (s : string) (tk : Tank) :
  getTank (putTank w s tk) s = Some tk.
Proof. apply (get_set_same String.eqb), String.eqb_eq. Qed.

Lemma getTank_putTank_other (w : World) (s s' : string) (tk : Tank) :
  s <> s' -> getTank (putTank w s tk) s' = getTank w s'.
Proof. apply (get_set_other String.eqb), String.eqb_eq. Qed.

Lemma keys_putTank (w : World) (s : string) (tk tk0 : Tank) :
  getTank w s = Some tk0 ->
  Dict.keys (tanks (putTank w s tk)) = Dict.keys (tanks w).
Proof. apply (keys_set_present String.eqb). Qed.

Lemma getTank_putTank (w : World) (s s' : string) (tk : Tank) :
  getTank (putTank w s tk) s' = if String.eqb s s' then Some tk else getTank w s'.
Proof.
  destruct (String.eqb_spec s s') as [->|N].
  - apply getTank_putTank_same.
  - now apply getTank_putTank_other.
Qed.

Section Applicator.
Context {M : MathLib}.
Import TickView.

Lemma clampToArena_fields (tk : Tank) (c : Constants) :
  busyUntil (clampToArena tk c) = busyUntil tk
  /\ activeAction (clampToArena tk c) = activeAction tk
  /\ hp (clampToArena tk c) = hp tk
  /\ activeProjectileId (clampToArena tk c) = activeProjectileId tk
  /\ tankType (clampToArena tk c) = tankType tk
  /\ headingDeg (clampToArena tk c) = headingDeg tk
  /\ slot (clampToArena tk c) = slot tk.
Proof. repeat split. Qed.

Lemma applyEffect_fields (c : Constants) (dt : Q) (tk : Tank) (a : Action) :
  busyUntil (applyEffect c dt tk a) = busyUntil tk
  /\ activeAction (applyEffect c dt tk a) = activeAction tk
  /\ hp (applyEffect c dt tk a) = hp tk
  /\ activeProjectileId (applyEffect c dt tk a) = activeProjectileId tk
  /\ tankType (applyEffect c dt tk a) = tankType tk
  /\ slot (applyEffect c dt tk a) = slot tk.
Proof. destruct a; repeat split. Qed.

(** One key of the loop: the tank at that key is ticked, the others and
    the rest of the world are untouched, and a descriptor is pushed exactly
    when the action expires. *)
Lemma applyOne_spec (w : World) (dt : Q) (s : string)
    (comp : list Completed) (tk : Tank) :
  getTank w s = Some tk ->
  let r := applyOne w dt s comp in
  (exists tk', getTank (fst r) s = Some tk'
               /\ same_but_scan tk' (tickTank (constants w) (t w) dt tk))
  /\ (forall s', s <> s' -> getTank (fst r) s' = getTank w s')
  /\ Dict.keys (tanks (fst r)) = Dict.keys (tanks w)
  /\ t (fst r) = t w /\ constants (fst r) = constants w
  /\ projectiles (fst r) = projectiles w
  /\ map completedKey (snd r)
     = map completedKey comp ++ completions w dt [s].
Proof.
  intros G. unfold applyOne, tickTank, completions, expires.
  cbn [flat_map]. rewrite G, app_nil_r.
  assert (Triv :
             (exists tk', getTank w s = Some tk' /\ same_but_scan tk' tk)
             /\ (forall s', s <> s' -> getTank w s' = getTank w s')
             /\ Dict.keys (tanks w) = Dict.keys (tanks w)
             /\ t w = t w /\ constants w = constants w
             /\ projectiles w = projectiles w
             /\ map completedKey comp = map completedKey comp ++ []).
  { rewrite app_nil_r. repeat split; auto.
    exists tk. split; [assumption|reflexivity]. }
  destruct (activeAction tk) as [a|] eqn:Ea;
    destruct (hp tk <=? 0)%Z; cbn [negb andb fst snd]; try exact Triv.
  cbv zeta.
  destruct (applyEffect_fields (constants w) dt tk a) as (Hb & _).
  rewrite Hb.
  destruct (JS.geb (t w + dt) (busyUntil tk - EPSILON)) eqn:Ex.
  - unfold completeAction. cbn [fst snd].
    repeat split.
    + eexists. split; [apply getTank_putTank_same|].
      unfold same_but_scan. destruct a; simpl; rewrite ?Hb; reflexivity.
    + intros s' N. now rewrite !getTank_putTank_other.
    + erewrite !keys_putTank; eauto. apply getTank_putTank_same.
    + rewrite map_app. reflexivity.
  - cbn [fst snd]. rewrite app_nil_r. repeat split.
    + eexists. split; [apply getTank_putTank_same|]. reflexivity.
    + intros s' N. now rewrite !getTank_putTank_other.
    + erewrite !keys_putTank; eauto.
Qed.

Lemma applyOne_absent (w : World) (dt : Q) (s : string)
    (comp : list Completed) :
  getTank w s = None -> applyOne w dt s comp = (w, comp).
Proof. intros G. unfold applyOne. now rewrite G. Qed.

Lemma completions_ext (w w' : World) (dt : Q) (ks : list string) :
  t w' = t w ->
  (forall s, In s ks -> getTank w' s = getTank w s) ->
  completions w' dt ks = completions w dt ks.
Proof.
  intros Ht H. unfold completions. rewrite Ht.
  induction ks as [|s ks IH]; [reflexivity|].
  cbn [flat_map]. rewrite H by now left.
  f_equal. apply IH. intros s' Hs. apply H. now right.
Qed.

Lemma completions_cons (w : World) (dt : Q) (s : string) (ks : list string) :
  completions w dt (s :: ks) = completions w dt [s] ++ completions w dt ks.
Proof. unfold completions. cbn [flat_map]. now rewrite app_nil_r. Qed.

(** The whole pass: every tank whose key is visited is ticked once. *)
Lemma applyLoop_spec (dt : Q) (ks : list string) :
  NoDup ks ->
  forall (w : World) (comp : list Completed),
  let r := applyLoop ks w dt comp in
  Dict.keys (tanks (fst r)) = Dict.keys (tanks w)
  /\ t (fst r) = t w /\ constants (fst r) = constants w
  /\ projectiles (fst r) = projectiles w
  /\ (forall s tk, getTank w s = Some tk ->
       exists tk', getTank (fst r) s = Some tk'
         /\ (In s ks ->
             same_but_scan tk' (tickTank (constants w) (t w) dt tk))
         /\ (~ In s ks -> tk' = tk))
  /\ (forall s, getTank w s = None -> getTank (fst r) s = None)
  /\ map completedKey (snd r)
     = map completedKey comp ++ completions w dt ks.
Proof.
  induction ks as [|s ks IH]; intros ND w comp.
  - cbn. rewrite app_nil_r. repeat split; auto.
    intros s tk G. exists tk. repeat split; auto. intros [].
  - inversion ND as [|? ? Hn ND']; subst.
    cbn [applyLoop].
    destruct (applyOne w dt s comp) as [w1 comp1] eqn:E1.
    destruct (getTank w s) as [tk|] eqn:G.
    + pose proof (applyOne_spec w dt s comp tk G) as H1.
      rewrite E1 in H1. cbn [fst snd] in H1.
      destruct H1 as ((tk1 & G1 & S1) & Hoth & Hk & Ht & Hc & Hp & Hcomp).
      specialize (IH ND' w1 comp1). cbv zeta in IH.
      destruct IH as (Ik & It & Ic & Ip & Itk & Inone & Icomp).
      cbv zeta. repeat split; try congruence.
      * intros s' tk0 G0.
        destruct (String.eqb_spec s s') as [<-|N].
        -- destruct (Itk s tk1 G1) as (tk' & G' & _ & Hout).
           exists tk'. split; [assumption|].
           rewrite (Hout Hn). split.
           ++ intros _. congruence.
           ++ intros C. exfalso. apply C. now left.
        -- rewrite <- (Hoth s' N) in G0.
           destruct (Itk s' tk0 G0) as (tk' & G' & Hin & Hout).
           exists tk'. split; [assumption|]. split.
           ++ intros [C|C]; [contradiction|]. rewrite <- Hc, <- Ht. auto.
           ++ intros C. apply Hout. intros C'. apply C. now right.
      * intros s' G0. apply Inone.
        destruct (String.eqb_spec s s') as [<-|N]; [congruence|].
        now rewrite Hoth.
      * rewrite Icomp, Hcomp, (completions_cons w dt s ks), <- app_assoc.
        f_equal. f_equal.
        apply completions_ext; [assumption|].
        intros s' Hs. apply Hoth. intros ->. contradiction.
    + rewrite (applyOne_absent _ _ _ _ G) in E1. injection E1 as <- <-.
      specialize (IH ND' w comp). cbv zeta in IH.
      destruct IH as (Ik & It & Ic & Ip & Itk & Inone & Icomp).
      cbv zeta. repeat split; auto.
      * intros s' tk0 G0.
        destruct (Itk s' tk0 G0) as (tk' & G' & Hin & Hout).
        exists tk'. split; [assumption|]. split.
        -- intros [C|C]; [congruence|auto].
        -- intros C. apply Hout. intros C'. apply C. now right.
      * rewrite Icomp, (completions_cons w dt s ks). f_equal.
        unfold completions at 2. cbn [flat_map]. now rewrite G.
Qed.
End Applicator.

(** ** Projectile removal and hits *)

Section Combat.
Import TickView Step.

Lemma combat_rel_refl (tk : Tank) : combat_rel tk tk.
Proof. repeat split; auto. Qed.

Lemma combat_rel_trans (a b c : Tank) :
  combat_rel a b -> combat_rel b c -> combat_rel a c.
Proof.
  intros (E1 & D1 & P1) (E2 & D2 & P2). repeat split.
  - congruence.
  - intros H. rewrite D2; rewrite D1; auto.
  - destruct P2 as [P2|P2]; [rewrite P2|]; auto.
Qed.

Lemma tanks_rel_refl (R : Tank -> Tank -> Prop) (w : World) :
  (forall tk, R tk tk) -> tanks_rel R w w.
Proof.
  intros HR. split; [reflexivity|]. intros s. destruct (getTank w s); auto.
Qed.

Lemma tanks_rel_trans (R : Tank -> Tank -> Prop) (w1 w2 w3 : World) :
  (forall a b c, R a b -> R b c -> R a c) ->
  tanks_rel R w1 w2 -> tanks_rel R w2 w3 -> tanks_rel R w1 w3.
Proof.
  intros HR [K1 H1] [K2 H2]. split; [congruence|]. intros s.
  specialize (H1 s). specialize (H2 s).
  destruct (getTank w1 s), (getTank w2 s), (getTank w3 s); eauto; contradiction.
Qed.

Lemma tanks_rel_putTank (R : Tank -> Tank -> Prop) (w : World) (s : string)
    (tk tk' : Tank) :
  (forall a, R a a) -> getTank w s = Some tk -> R tk tk' ->
  tanks_rel R w (putTank w s tk').
Proof.
  intros HR G H. split; [eapply keys_putTank; eauto|]. intros s'.
  rewrite getTank_putTank. destruct (String.eqb_spec s s') as [<-|N].
  - now rewrite G.
  - destruct (getTank w s'); auto.
Qed.

Lemma tanks_rel_same_tanks (R : Tank -> Tank -> Prop) (w w' : World) :
  (forall a, R a a) -> tanks w' = tanks w -> tanks_rel R w w'.
Proof.
  intros HR E. unfold tanks_rel, getTank. rewrite E. split; [reflexivity|].
  intros s. destruct (Dict.get _ _ _); auto.
Qed.

Lemma clearProjectileFromOwner_frame (w : World) (proj : Projectile) :
  let w' := clearProjectileFromOwner w proj in
  tanks_rel combat_rel w w'
  /\ t w' = t w /\ constants w' = constants w
  /\ projectiles w' = projectiles w.
Proof.
  assert (Triv : tanks_rel combat_rel w w
                 /\ t w = t w /\ constants w = constants w
                 /\ projectiles w = projectiles w).
  { split; [apply tanks_rel_refl, combat_rel_refl|auto]. }
  unfold clearProjectileFromOwner.
  destruct (getTank w (owner proj)) as [tk|] eqn:G; [|exact Triv].
  destruct (activeProjectileId tk) as [pid|] eqn:A; [|exact Triv].
  destruct (ProjId_eqb pid (id proj)); [|exact Triv].
  split; [|auto].
  apply (tanks_rel_putTank combat_rel w (owner proj) tk);
    [apply combat_rel_refl|exact G|].
  split; [reflexivity|]. split; [auto|]. right. reflexivity.
Qed.

Lemma deleteProjectile_frame (w : World) (pid : ProjId) :
  let w' := deleteProjectile w pid in
  tanks_rel combat_rel w w'
  /\ t w' = t w /\ constants w' = constants w.
Proof.
  split; [|auto]. apply tanks_rel_same_tanks; auto using combat_rel_refl.
Qed.

Lemma removal_frame_refl (w : World) : removal_frame w w.
Proof.
  split; [apply tanks_rel_refl, combat_rel_refl|].
  repeat split; auto using incl_refl.
Qed.

Lemma removal_frame_trans (w1 w2 w3 : World) :
  removal_frame w1 w2 -> removal_frame w2 w3 -> removal_frame w1 w3.
Proof.
  intros (T1 & A1 & B1 & C1) (T2 & A2 & B2 & C2).
  split; [eapply tanks_rel_trans; eauto using combat_rel_trans|].
  repeat split; try congruence. eapply incl_tran; eauto.
Qed.

Lemma removeProjectile_frame (w : World) (proj : Projectile) :
  removal_frame w
    (deleteProjectile (clearProjectileFromOwner w proj) (id proj)).
Proof.
  destruct (clearProjectileFromOwner_frame w proj) as (T & A & B & C).
  split; [|repeat split; auto].
  - eapply tanks_rel_trans; eauto using combat_rel_trans.
    apply deleteProjectile_frame.
  - simpl. rewrite C. unfold Dict.delete. apply incl_filter.
Qed.

Lemma despawnLoop_frame (projs : list Projectile) :
  forall (w : World) (events : list StepEvent),
  removal_frame w (fst (despawnLoop projs w events)).
Proof.
  induction projs as [|proj projs IH]; intros w events; cbn [despawnLoop].
  - apply removal_frame_refl.
  - destruct (outOfBounds (constants w) proj); [|apply IH].
    eapply removal_frame_trans; [apply removeProjectile_frame|apply IH].
Qed.

Lemma hitTanks_frame (proj : Projectile) (hitRangeSq : Q)
    (entries : list (string * Tank)) :
  forall (w : World) (events : list StepEvent),
  (forall s tk, In (s, tk) entries -> getTank w s = Some tk) ->
  removal_frame w (fst (hitTanks entries w proj hitRangeSq events)).
Proof.
  induction entries as [|[targetSlot target] entries IH]; intros w events Hin;
    cbn [hitTanks].
  - apply removal_frame_refl.
  - assert (Hin' : forall s tk, In (s, tk) entries -> getTank w s = Some tk).
    { intros s tk H. apply Hin. now right. }
    destruct (String.eqb targetSlot (owner proj)); [now apply IH|].
    destruct (hp target <=? 0)%Z eqn:Hhp; [now apply IH|].
    destruct (JS.leb _ _); [|now apply IH].
    cbn [fst].
    eapply removal_frame_trans; [|apply removeProjectile_frame].
    split; [|repeat split; auto using incl_refl].
    apply (tanks_rel_putTank combat_rel w targetSlot target);
      [apply combat_rel_refl|apply Hin; now left|].
    split; [reflexivity|]. split; [|now left].
    simpl. intros H. apply Z.leb_gt in Hhp. lia.
Qed.

Lemma hitLoop_frame (hitRangeSq : Q) (projs : list Projectile) :
  forall (w : World) (events : list StepEvent),
  NoDup (Dict.keys (tanks w)) ->
  removal_frame w (fst (hitLoop projs w hitRangeSq events)).
Proof.
  induction projs as [|proj projs IH]; intros w events ND; cbn [hitLoop].
  - apply removal_frame_refl.
  - destruct (hitTanks (tanks w) w proj hitRangeSq events) as [w1 ev1] eqn:E.
    assert (F : removal_frame w w1).
    { change w1 with (fst (w1, ev1)). rewrite <- E. apply hitTanks_frame.
      intros s tk H. apply (In_get String.eqb); auto using String.eqb_eq. }
    eapply removal_frame_trans; [exact F|]. apply IH.
    destruct F as ((K & _) & _). now rewrite K.
Qed.
End Combat.

(** ** One tick, tank by tank *)

Section StepFrame.
Context {M : MathLib}.
Import TickView Step.

Lemma NoDup_keys_frame (w w' : World) :
  removal_frame w w' -> NoDup (Dict.keys (tanks w)) ->
  NoDup (Dict.keys (tanks w')).
Proof. intros ((K & _) & _) ND. now rewrite K. Qed.

Lemma tickTank_fields (c : Constants) (now dt : Q) (tk : Tank) :
  hp (tickTank c now dt tk) = hp tk
  /\ activeProjectileId (tickTank c now dt tk) = activeProjectileId tk
  /\ tankType (tickTank c now dt tk) = tankType tk
  /\ slot (tickTank c now dt tk) = slot tk
  /\ busyUntil (tickTank c now dt tk) = busyUntil tk.
Proof.
  unfold tickTank. destruct (hp tk <=? 0)%Z; [auto 6|].
  destruct (activeAction tk) as [a|]; [|auto 6].
  destruct (applyEffect_fields c dt tk a) as (A & B & C & D & E & F).
  destruct (JS.geb _ _); simpl; rewrite ?A; auto 6.
Qed.

(** The effect of [step] on the tank of each slot. *)
Lemma step_frame (w : World) :
  NoDup (Dict.keys (tanks w)) ->
  let w' := fst (step w) in
  t w' = t w + 1 / TICK_RATE (constants w)
  /\ constants w' = constants w
  /\ Dict.keys (tanks w') = Dict.keys (tanks w)
  /\ (forall s,
        match getTank w s, getTank w' s with
        | Some tk, Some tk' =>
            tank_step_rel (constants w) (t w)
              (1 / TICK_RATE (constants w)) tk tk'
        | None, None => True
        | _, _ => False
        end).
Proof.
  intros ND. unfold step. cbv zeta.
  set (dt := 1 / TICK_RATE (constants w)).
  pose proof (applyLoop_spec dt (Dict.keys (tanks w)) ND w []) as HA.
  cbv zeta in HA. fold (applyActiveActions w dt) in HA.
  destruct (applyActiveActions w dt) as [w0 comp] eqn:EA.
  cbn [fst snd] in HA.
  destruct HA as (K0 & T0 & C0 & P0 & Tk0 & N0 & _).
  set (w1 := moveProjectiles w0 dt).
  pose proof (despawnLoop_frame (Dict.values (projectiles w1)) w1
                (pushCompleted comp [])) as HD.
  destruct (despawnLoop _ w1 _) as [w2 ev2] eqn:ED. cbn [fst] in HD.
  assert (ND1 : NoDup (Dict.keys (tanks w1))) by (simpl; now rewrite K0).
  pose proof (NoDup_keys_frame _ _ HD ND1) as ND2.
  set (hr := (PROJECTILE_RADIUS (constants w) + TANK_RADIUS (constants w))
             * (PROJECTILE_RADIUS (constants w) + TANK_RADIUS (constants w))).
  pose proof (hitLoop_frame hr (Dict.values (projectiles w2)) w2 ev2 ND2)
    as HH.
  destruct (hitLoop _ w2 hr ev2) as [w3 ev3] eqn:EH. cbn [fst] in HH.
  pose proof (removal_frame_trans _ _ _ HD HH) as F.
  destruct F as ((K & R) & Tt & Cc & _).
  cbn [fst]. simpl t. simpl constants. simpl tanks.
  split; [rewrite Tt; simpl; now rewrite T0|].
  split; [rewrite Cc; simpl; assumption|].
  split; [rewrite K; simpl; assumption|].
  intros s. specialize (R s).
  change (getTank (world_with_t w3 (t w3 + dt)) s) with (getTank w3 s).
  change (getTank w1 s) with (getTank w0 s) in R.
  destruct (getTank w s) as [tk|] eqn:G.
  - destruct (Tk0 s tk G) as (tk0 & G0 & Hin & _).
    rewrite G0 in R.
    destruct (getTank w3 s) as [tk3|]; [|contradiction].
    assert (I : In s (Dict.keys (tanks w))).
    { destruct (In_dec string_dec s (Dict.keys (tanks w))) as [I|I]; auto.
      apply (get_None_keys String.eqb String.eqb_eq) in I.
      unfold getTank in G. congruence. }
    specialize (Hin I). unfold same_but_scan in Hin.
    destruct R as (E & D & P).
    destruct (tickTank_fields (constants w) (t w) dt tk) as (F1 & F2 & _).
    set (k := tickTank (constants w) (t w) dt tk) in *.
    assert (X : x tk3 = x k /\ y tk3 = y k /\ headingDeg tk3 = headingDeg k
                /\ busyUntil tk3 = busyUntil k
                /\ activeAction tk3 = activeAction k
                /\ tankType tk3 = tankType k /\ slot tk3 = slot k).
    { assert (E' := eq_trans (eq_sym (f_equal (fun a => tank_with_scan a None) E))
                      (f_equal (fun a => tank_with_projectile
                                           (tank_with_hp a 0) None) Hin)).
      injection E' as -> -> -> -> -> -> ->. repeat split. }
    assert (Hhp : hp tk0 = hp tk).
    { rewrite <- F1. exact (f_equal hp Hin). }
    assert (Hpid : activeProjectileId tk0 = activeProjectileId tk).
    { rewrite <- F2. exact (f_equal activeProjectileId Hin). }
    unfold tank_step_rel. fold k.
    destruct X as (X1 & X2 & X3 & X4 & X5 & X6 & X7).
    repeat (split; [assumption|]). split.
    + intros H. rewrite <- Hhp. apply D. now rewrite Hhp.
    + now rewrite <- Hpid.
  - rewrite (N0 s G) in R. destruct (getTank w3 s); [contradiction|exact I].
Qed.
End StepFrame.

(** ** The operations between ticks *)

Section Operations.
Context {M : MathLib}.
Import TickView Step TankApi Run Props.

Lemma startAction_present (w : World) (s : string) (call : Call) (tk : Tank) :
  getTank w s = Some tk ->
  startAction w s call
  = Some (if isIdle tk (t w)
          then (putTank w s
                  (beginAction tk (t w)
                     (call_duration (constants w) tk call)
                     (call_action call)), true)
          else (w, false)).
Proof.
  intros G.
  destruct call as [[d|]|[d|]| | |a b]; simpl;
    unfold turnLeft, turnRight, moveForward, moveBackward, scan;
    rewrite G; destruct (isIdle tk (t w)); reflexivity.
Qed.

Lemma startAction_absent (w : World) (s : string) (call : Call) :
  getTank w s = None -> startAction w s call = None.
Proof.
  intros G.
  destruct call; simpl;
    unfold turnLeft, turnRight, moveForward, moveBackward, scan;
    now rewrite G.
Qed.

Lemma shoot_present (n : nat) (w : World) (s : string) (tk : Tank) :
  getTank w s = Some tk ->
  shoot n w s
  = Some (match activeProjectileId tk with
          | Some _ => (n, w, false)
          | None =>
              (S n,
               putTank
                 (world_with_projectiles w
                    (Dict.set ProjId_eqb (proj_ n)
                       (spawned (constants w) n s tk) (projectiles w)))
                 s (tank_with_projectile tk (Some (proj_ n))),
               true)
          end).
Proof.
  intros G. unfold shoot. rewrite G.
  destruct (activeProjectileId tk); reflexivity.
Qed.

Lemma tank_op_rel_refl (c : Constants) (now : Q) (tk : Tank) :
  tank_op_rel c now tk tk.
Proof. now left. Qed.

Lemma tanks_rel_putTank_on (R : Tank -> Tank -> Prop) (w w1 : World)
    (s : string) (tk tk' : Tank) :
  (forall a, R a a) -> tanks w1 = tanks w -> getTank w s = Some tk ->
  R tk tk' -> tanks_rel R w (putTank w1 s tk').
Proof.
  intros HR E G H.
  assert (G1 : forall s', getTank w1 s' = getTank w s').
  { intros s'. unfold getTank. now rewrite E. }
  split.
  - rewrite <- E. eapply keys_putTank. rewrite G1. eauto.
  - intros s'. rewrite getTank_putTank, G1.
    destruct (String.eqb_spec s s') as [<-|N].
    + now rewrite G.
    + destruct (getTank w s'); auto.
Qed.

Lemma forfeit_present (w : World) (s : string) (tk : Tank) :
  getTank w s = Some tk ->
  Match.forfeit w s
  = Some (putTank w s (tank_with_busy (tank_with_hp tk 0) (busyUntil tk) None)).
Proof. intros G. unfold Match.forfeit. now rewrite G. Qed.

(** An operation other than a tick keeps the time, the constants and the
    keys, and changes at most one tank, by [tank_op_rel]. *)
Lemma exec_frame (op : Op) (n n' : nat) (w w' : World) :
  op <> OpStep ->
  exec op (n, w) = Some (n', w') ->
  t w' = t w /\ constants w' = constants w
  /\ tanks_rel (tank_op_rel (constants w) (t w)) w w'.
Proof.
  intros Hop E. destruct op as [|s call|s|s]; [contradiction| | |]; simpl in E.
  - destruct (getTank w s) as [tk|] eqn:G.
    + rewrite (startAction_present _ _ _ _ G) in E.
      destruct (isIdle tk (t w)) eqn:I; injection E as <- <-.
      * split; [reflexivity|]. split; [reflexivity|].
        apply (tanks_rel_putTank _ w s tk);
          [apply tank_op_rel_refl|exact G|].
        right. left. split; [exact I|]. now exists call.
      * split; [reflexivity|]. split; [reflexivity|].
        apply tanks_rel_refl, tank_op_rel_refl.
    + now rewrite (startAction_absent _ _ _ G) in E.
  - destruct (getTank w s) as [tk|] eqn:G.
    + rewrite (shoot_present _ _ _ _ G) in E.
      destruct (activeProjectileId tk) eqn:A; injection E as <- <-.
      * split; [reflexivity|]. split; [reflexivity|].
        apply tanks_rel_refl, tank_op_rel_refl.
      * split; [reflexivity|]. split; [reflexivity|].
        apply (tanks_rel_putTank_on _ w _ s tk);
          [apply tank_op_rel_refl|reflexivity|exact G|].
        right. right. left. split; [exact A|]. now exists (proj_ n).
    + unfold shoot in E. now rewrite G in E.
  - destruct (getTank w s) as [tk|] eqn:G.
    + rewrite (forfeit_present _ _ _ G) in E. injection E as <- <-.
      split; [reflexivity|]. split; [reflexivity|].
      apply (tanks_rel_putTank _ w s tk);
        [apply tank_op_rel_refl|exact G|].
      right. right. right. reflexivity.
    + unfold Match.forfeit in E. now rewrite G in E.
Qed.

(** An operation that is quiet for a slot leaves that slot's tank as it
    is, up to [activeProjectileId]. *)
Lemma exec_quiet (op : Op) (s : string) (n n' : nat) (w w' : World)
    (tk : Tank) :
  op <> OpStep -> quiet s op = true ->
  exec op (n, w) = Some (n', w') ->
  getTank w s = Some tk ->
  exists tk', getTank w' s = Some tk'
              /\ tank_with_projectile tk' None = tank_with_projectile tk None.
Proof.
  intros Hop Hq E G.
  destruct op as [|s0 call|s0|s0]; [contradiction| | |]; simpl in E, Hq.
  - apply negb_true_iff, String.eqb_neq in Hq.
    destruct (getTank w s0) as [tk0|] eqn:G0.
    + rewrite (startAction_present _ _ _ _ G0) in E.
      destruct (isIdle tk0 (t w)); injection E as <- <-.
      * exists tk. rewrite getTank_putTank_other; auto.
      * exists tk. auto.
    + now rewrite (startAction_absent _ _ _ G0) in E.
  - destruct (getTank w s0) as [tk0|] eqn:G0.
    + rewrite (shoot_present _ _ _ _ G0) in E.
      destruct (activeProjectileId tk0); injection E as <- <-.
      * exists tk. auto.
      * rewrite getTank_putTank.
        destruct (String.eqb_spec s0 s) as [->|N].
        -- eexists. split; [reflexivity|]. 
           assert (tk0 = tk) as -> by congruence. reflexivity.
        -- exists tk. auto.
    + unfold shoot in E. now rewrite G0 in E.
  - apply negb_true_iff, String.eqb_neq in Hq.
    destruct (getTank w s0) as [tk0|] eqn:G0.
    + rewrite (forfeit_present _ _ _ G0) in E. injection E as <- <-.
      exists tk. rewrite getTank_putTank_other; auto.
    + unfold Match.forfeit in E. now rewrite G0 in E.
Qed.
End Operations.

(** ** Invariants of a match *)

Section Reachability.
Context {M : MathLib}.
Import TickView Step TankApi Run Props.

Lemma spawnTanks_inv (c : Constants) (cx cy radius off : Q) (n : nat)
    (P : Tank -> Prop) :
  (forall s angle h ty,
     P (createTank s (cx + Math_cos angle * radius)
          (cy + Math_sin angle * radius) h ty c)) ->
  forall (players : list Player) (i : nat) (acc : list (string * Tank)),
  NoDup (Dict.keys acc) ->
  (forall s tk, Dict.get String.eqb s acc = Some tk -> P tk) ->
  let r := spawnTanks c cx cy radius off n i players acc in
  NoDup (Dict.keys r)
  /\ (forall s tk, Dict.get String.eqb s r = Some tk -> P tk).
Proof.
  intros HP players. induction players as [|[s ty] players IH];
    intros i acc ND Hacc; cbn [spawnTanks].
  - auto.
  - apply IH.
    + apply NoDup_keys_set; auto using String.eqb_eq.
    + intros s' tk. destruct (String.eqb_spec s s') as [<-|N].
      * rewrite (get_set_same String.eqb String.eqb_eq). intros [= <-].
        apply HP.
      * rewrite (get_set_other String.eqb String.eqb_eq) by assumption.
        apply Hacc.
Qed.

Lemma createWorld_inv (seed0 : Z) (c : Constants)
    (players : option (list Player)) (P : Tank -> Prop) :
  (forall s angle h ty,
     P (createTank s
          (ARENA_WIDTH c / 2
           + Math_cos angle
             * (JS.min (ARENA_WIDTH c / 2) (ARENA_HEIGHT c / 2) * (55 # 100)))
          (ARENA_HEIGHT c / 2
           + Math_sin angle
             * (JS.min (ARENA_WIDTH c / 2) (ARENA_HEIGHT c / 2) * (55 # 100)))
          h ty c)) ->
  let w := snd (createWorld seed0 c players) in
  fst (createWorld seed0 c players) = 0%nat
  /\ t w = 0 /\ constants w = c /\ projectiles w = []
  /\ NoDup (Dict.keys (tanks w))
  /\ (forall s tk, getTank w s = Some tk -> P tk).
Proof.
  intros HP. unfold createWorld.
  destruct (Prng.random (Prng.createPRNG seed0)) as [rng1 r].
  cbn [fst snd t constants projectiles tanks].
  repeat (split; [reflexivity|]).
  unfold getTank. cbn [tanks].
  apply spawnTanks_inv; [exact HP|constructor|intros ? ? H; discriminate H].
Qed.

(** Induction over the states of a match, for a property of the tanks that
    may depend on the current time. *)
Lemma reachable_tanks (c : Constants) (P : Q -> Tank -> Prop) :
  (forall s angle h ty,
     P 0 (createTank s
          (ARENA_WIDTH c / 2
           + Math_cos angle
             * (JS.min (ARENA_WIDTH c / 2) (ARENA_HEIGHT c / 2) * (55 # 100)))
          (ARENA_HEIGHT c / 2
           + Math_sin angle
             * (JS.min (ARENA_WIDTH c / 2) (ARENA_HEIGHT c / 2) * (55 # 100)))
          h ty c)) ->
  (forall now tk tk',
     P now tk -> tank_step_rel c now (1 / TICK_RATE c) tk tk' ->
     P (now + 1 / TICK_RATE c) tk') ->
  (forall now tk tk', P now tk -> tank_op_rel c now tk tk' -> P now tk') ->
  forall st, reachable c st ->
  constants (snd st) = c
  /\ NoDup (Dict.keys (tanks (snd st)))
  /\ (forall s tk, getTank (snd st) s = Some tk -> P (t (snd st)) tk).
Proof.
  intros Hcreate Hstep Hop st R.
  induction R as [seed0 players|op [n w] [n' w'] R IH E].
  - destruct (createWorld_inv seed0 c players (P 0) Hcreate)
      as (_ & Ht & Hc & _ & ND & HP).
    rewrite Ht. auto.
  - cbn [snd] in *. destruct IH as (Hc & ND & HP).
    destruct op as [|s0 call|s0|s0].
    + simpl in E. injection E as <- <-.
      destruct (step_frame w ND) as (Ht & Hc' & Hk & Htk).
      rewrite Hc in *. split; [assumption|]. split; [now rewrite Hk|].
      intros s tk' G'. specialize (Htk s). rewrite G' in Htk.
      destruct (getTank w s) as [tk|] eqn:G; [|contradiction].
      rewrite Ht. eapply Hstep; eauto.
    + assert (Hne : OpStart s0 call <> OpStep) by discriminate.
      destruct (exec_frame _ _ _ _ _ Hne E) as (Ht & Hc' & Hk & Htk).
      rewrite Hc in *. split; [assumption|]. split; [now rewrite Hk|].
      intros s tk' G'. specialize (Htk s). rewrite G' in Htk.
      destruct (getTank w s) as [tk|] eqn:G; [|contradiction].
      rewrite Ht. eapply Hop; eauto.
    + assert (Hne : OpShoot s0 <> OpStep) by discriminate.
      destruct (exec_frame _ _ _ _ _ Hne E) as (Ht & Hc' & Hk & Htk).
      rewrite Hc in *. split; [assumption|]. split; [now rewrite Hk|].
      intros s tk' G'. specialize (Htk s). rewrite G' in Htk.
      destruct (getTank w s) as [tk|] eqn:G; [|contradiction].
      rewrite Ht. eapply Hop; eauto.
    + assert (Hne : OpForfeit s0 <> OpStep) by discriminate.
      destruct (exec_frame _ _ _ _ _ Hne E) as (Ht & Hc' & Hk & Htk).
      rewrite Hc in *. split; [assumption|]. split; [now rewrite Hk|].
      intros s tk' G'. specialize (Htk s). rewrite G' in Htk.
      destruct (getTank w s) as [tk|] eqn:G; [|contradiction].
      rewrite Ht. eapply Hop; eauto.
Qed.
End Reachability.

(** ** Comparisons *)

Lemma ltb_lt (a b : Q) : JS.ltb a b = true <-> a < b.
Proof.
  unfold JS.ltb. rewrite negb_true_iff, <- not_true_iff_false, Qle_bool_iff.
  split; [apply Qnot_le_lt|apply Qlt_not_le].
Qed.

Lemma gtb_gt (a b : Q) : JS.gtb a b = true <-> b < a.
Proof. apply ltb_lt. Qed.

Lemma geb_ge (a b : Q) : JS.geb a b = true <-> b <= a.
Proof. apply Qle_bool_iff. Qed.

Lemma leb_le (a b : Q) : JS.leb a b = true <-> a <= b.
Proof. apply Qle_bool_iff. Qed.

Lemma geb_lt (a b : Q) : JS.geb a b = false <-> a < b.
Proof.
  unfold JS.geb. rewrite <- not_true_iff_false, Qle_bool_iff.
  split; [apply Qnot_le_lt|apply Qlt_not_le].
Qed.

Lemma min_le (a b : Q) : JS.min a b <= a /\ JS.min a b <= b.
Proof.
  unfold JS.min. destruct (Qle_bool a b) eqn:E.
  - apply Qle_bool_iff in E. split; lra.
  - apply not_true_iff_false in E. rewrite Qle_bool_iff in E.
    apply Qnot_le_lt in E. split; lra.
Qed.

(** ** Arena containment *)

Section Arena.
Context {M : MathLib}.
Import TickView Step TankApi Run Props.

Lemma clampToArena_inArena (tk : Tank) (c : Constants) :
  TANK_RADIUS c <= ARENA_WIDTH c - TANK_RADIUS c ->
  TANK_RADIUS c <= ARENA_HEIGHT c - TANK_RADIUS c ->
  inArena c (clampToArena tk c).
Proof.
  intros HW HH. unfold clampToArena, inArena. cbn [x y tank_with_pose].
  destruct (JS.ltb (x tk) (TANK_RADIUS c)) eqn:E1;
    destruct (JS.ltb (y tk) (TANK_RADIUS c)) eqn:E2;
    try (apply ltb_lt in E1); try (apply ltb_lt in E2);
    try (apply not_true_iff_false in E1; rewrite ltb_lt in E1;
         apply Qnot_lt_le in E1);
    try (apply not_true_iff_false in E2; rewrite ltb_lt in E2;
         apply Qnot_lt_le in E2);
    match goal with
    | |- context [JS.gtb ?a ?b] =>
        destruct (JS.gtb a b) eqn:E3;
        [apply gtb_gt in E3
        |apply not_true_iff_false in E3; rewrite gtb_gt in E3;
         apply Qnot_lt_le in E3]
    end;
    match goal with
    | |- context [JS.gtb ?a ?b] =>
        destruct (JS.gtb a b) eqn:E4;
        [apply gtb_gt in E4
        |apply not_true_iff_false in E4; rewrite gtb_gt in E4;
         apply Qnot_lt_le in E4]
    end;
    repeat split; lra.
Qed.

Lemma inArena_same_position (c : Constants) (tk tk' : Tank) :
  x tk' = x tk -> y tk' = y tk -> inArena c tk -> inArena c tk'.
Proof. unfold inArena. intros -> ->. auto. Qed.

Lemma applyEffect_inArena (c : Constants) (dt : Q) (tk : Tank) (a : Action) :
  TANK_RADIUS c <= ARENA_WIDTH c - TANK_RADIUS c ->
  TANK_RADIUS c <= ARENA_HEIGHT c - TANK_RADIUS c ->
  inArena c tk -> inArena c (applyEffect c dt tk a).
Proof.
  intros HW HH H. destruct a; cbn [applyEffect];
    try (now apply clampToArena_inArena); exact H.
Qed.

Lemma tickTank_inArena (c : Constants) (now dt : Q) (tk : Tank) :
  TANK_RADIUS c <= ARENA_WIDTH c - TANK_RADIUS c ->
  TANK_RADIUS c <= ARENA_HEIGHT c - TANK_RADIUS c ->
  inArena c tk -> inArena c (tickTank c now dt tk).
Proof.
  intros HW HH H. unfold tickTank.
  destruct (hp tk <=? 0)%Z; [exact H|].
  destruct (activeAction tk) as [a|]; [|exact H].
  pose proof (applyEffect_inArena c dt tk a HW HH H) as H1.
  destruct (JS.geb _ _); [|exact H1].
  eapply inArena_same_position; [| |exact H1]; reflexivity.
Qed.

Lemma roomy_inset (c : Constants) :
  roomy c ->
  TANK_RADIUS c <= ARENA_WIDTH c - TANK_RADIUS c
  /\ TANK_RADIUS c <= ARENA_HEIGHT c - TANK_RADIUS c.
Proof.
  intros (H0 & HW & HH).
  set (m := JS.min (ARENA_WIDTH c / 2) (ARENA_HEIGHT c / 2)) in *.
  assert (EW : ARENA_WIDTH c == 2 * (ARENA_WIDTH c / 2)) by field.
  assert (EH : ARENA_HEIGHT c == 2 * (ARENA_HEIGHT c / 2)) by field.
  split; lra.
Qed.

Lemma spawn_inArena (c : Constants) (s : string) (angle h : Q)
    (ty : TankType) :
  (forall a, -1 <= Math_cos a /\ Math_cos a <= 1) ->
  (forall a, -1 <= Math_sin a /\ Math_sin a <= 1) ->
  roomy c ->
  inArena c
    (createTank s
       (ARENA_WIDTH c / 2
        + Math_cos angle
          * (JS.min (ARENA_WIDTH c / 2) (ARENA_HEIGHT c / 2) * (55 # 100)))
       (ARENA_HEIGHT c / 2
        + Math_sin angle
          * (JS.min (ARENA_WIDTH c / 2) (ARENA_HEIGHT c / 2) * (55 # 100)))
       h ty c).
Proof.
  intros Hcos Hsin (H0 & HW & HH). unfold inArena, createTank. cbn [x y].
  set (m := JS.min (ARENA_WIDTH c / 2) (ARENA_HEIGHT c / 2)) in *.
  set (r := m * (55 # 100)) in *.
  assert (Hr : 0 <= r) by (subst r; lra).
  destruct (Hcos angle) as [C1 C2]. destruct (Hsin angle) as [S1 S2].
  assert (EW : ARENA_WIDTH c == 2 * (ARENA_WIDTH c / 2)) by field.
  assert (EH : ARENA_HEIGHT c == 2 * (ARENA_HEIGHT c / 2)) by field.
  repeat split; nra.
Qed.
End Arena.

Section ArenaTheorem.
Context {M : MathLib}.
Import TickView Step TankApi Run Props.

Lemma execAll_reachable (c : Constants) (ops : list Op) :
  forall st st', reachable c st -> execAll ops st = Some st' ->
  reachable c st'.
Proof.
  induction ops as [|op ops IH]; intros st st' R E; cbn [execAll] in E.
  - now injection E as <-.
  - destruct (exec op st) as [st1|] eqn:E1; [|discriminate].
    eapply IH; [|exact E]. eapply reach_exec; eauto.
Qed.

(** C8.  In a match played with constants whose spawn ring fits the inset
    arena, and with a cosine and a sine that stay within [-1, 1], every
    tank of every reachable state (after creation, after every tick, after
    every interleaving of action starts, shots and forfeits), alive or
    dead, lies within the arena inset by the tank radius. *)
Theorem arena_containment (c : Constants) (st : nat * World) (s : string)
    (tk : Tank) :
  (forall a, -1 <= Math_cos a /\ Math_cos a <= 1) ->
  (forall a, -1 <= Math_sin a /\ Math_sin a <= 1) ->
  roomy c ->
  reachable c st ->
  getTank (snd st) s = Some tk ->
  TANK_RADIUS c <= x tk /\ x tk <= ARENA_WIDTH c - TANK_RADIUS c
  /\ TANK_RADIUS c <= y tk /\ y tk <= ARENA_HEIGHT c - TANK_RADIUS c.
Proof.
  intros Hcos Hsin Hroomy R G.
  destruct (roomy_inset c Hroomy) as [HW HH].
  refine (proj2 (proj2
    (reachable_tanks c (fun _ tk => inArena c tk) _ _ _ st R)) s tk G).
  - intros. now apply spawn_inArena.
  - intros now tk0 tk' H (X & Y & _).
    eapply inArena_same_position; [exact X|exact Y|].
    now apply tickTank_inArena.
  - intros now tk0 tk' H [->|[(_ & call & ->)|[(_ & pid & ->)| ->]]];
      exact H.
Qed.
End ArenaTheorem.

(** ** The busy window *)

Section BusyWindow.
Context {M : MathLib}.
Import TickView Step TankApi Run Props.

Lemma EPSILON_pos : 0 < EPSILON.
Proof. reflexivity. Qed.

Lemma call_duration_nonneg (c : Constants) (tk : Tank) (call : Call) :
  timed c -> 0 <= call_duration c tk call.
Proof.
  intros (_ & HA & HT).
  assert (Hturn : forall d, 0 <= Qabs d / turnRate (TANK_TYPES c (tankType tk))).
  { intros d. pose proof (Qabs_nonneg d) as Hd.
    specialize (HT (tankType tk)).
    destruct (Qeq_dec (turnRate (TANK_TYPES c (tankType tk))) 0) as [Z|NZ].
    - unfold Qdiv. rewrite Z. unfold Qinv. simpl. lra.
    - apply Qle_shift_div_l; lra. }
  destruct call as [[d|]|[d|]| | |a b]; simpl; auto.
Qed.

Lemma tick_nonneg (c : Constants) : timed c -> 0 <= 1 / TICK_RATE c.
Proof. intros (H & _). apply Qle_shift_div_l; lra. Qed.

(** Corrected C6.  In a match played with a positive tick rate and
    non-negative durations, in which every turn is called with a finite
    number of degrees or with none, every alive tank of every reachable
    state (before and after every tick) satisfies: a non-null
    [activeAction] implies [busyUntil >= t], and a null [activeAction]
    implies [t >= busyUntil - 1e-9]. *)
Theorem busy_window_invariant (c : Constants) (st : nat * World)
    (s : string) (tk : Tank) :
  timed c ->
  reachable c st ->
  getTank (snd st) s = Some tk ->
  (0 < hp tk)%Z ->
  (activeAction tk <> None -> t (snd st) <= busyUntil tk)
  /\ (activeAction tk = None -> busyUntil tk - EPSILON <= t (snd st)).
Proof.
  intros Htimed R G.
  pose proof (tick_nonneg c Htimed) as Hdt.
  pose proof EPSILON_pos as Heps.
  refine (proj2 (proj2
    (reachable_tanks c
       (fun now tk =>
          (0 < hp tk)%Z ->
          (activeAction tk <> None -> now <= busyUntil tk)
          /\ (activeAction tk = None -> busyUntil tk - EPSILON <= now))
       _ _ _ st R)) s tk G).
  - intros s0 angle h ty _. cbn. split; [congruence|]. intros _. lra.
  - intros now tk0 tk' H (_ & _ & _ & B & A & _ & _ & D & _) Halive.
    assert (Halive0 : (0 < hp tk0)%Z).
    { destruct (Z_lt_le_dec 0 (hp tk0)) as [L|L]; [exact L|].
      rewrite (D L) in Halive. lia. }
    destruct (H Halive0) as [H1 H2].
    rewrite B, A. unfold tickTank.
    apply Z.leb_gt in Halive0. rewrite Halive0.
    destruct (activeAction tk0) as [a|] eqn:Ea.
    + destruct (applyEffect_fields c (1 / TICK_RATE c) tk0 a)
        as (Fb' & Fa' & _).
      rewrite Fb'.
      destruct (JS.geb (now + 1 / TICK_RATE c) (busyUntil tk0 - EPSILON))
        eqn:Ex.
      * cbn [busyUntil activeAction tank_with_busy].
        apply geb_ge in Ex. split; [congruence|]. intros _. exact Ex.
      * apply geb_lt in Ex. rewrite ?Fb', Fa', Ea. split; [|discriminate].
        intros _. lra.
    + rewrite Ea. split; [congruence|]. intros _.
      specialize (H2 eq_refl). lra.
  - intros now tk0 tk' H [->|[(I & call & ->)|[(_ & pid & ->)| ->]]].
    + exact H.
    + intros _. cbn. split; [|discriminate]. intros _.
      pose proof (call_duration_nonneg c tk0 call Htimed). lra.
    + exact H.
    + cbn. lia.
Qed.
End BusyWindow.

(** ** The events of one tick *)

Section Events.
Context {M : MathLib}.
Import TickView Step TankApi Run Props.

Lemma pushCompleted_app (comp : list Completed) (events : list StepEvent) :
  pushCompleted comp events = events ++ map completeEvent comp.
Proof.
  unfold pushCompleted. revert events.
  induction comp as [|d comp IH]; intros events; simpl.
  - now rewrite app_nil_r.
  - rewrite IH, <- app_assoc. reflexivity.
Qed.

Lemma despawnLoop_events (projs : list Projectile) :
  forall (w : World) (events : list StepEvent),
  despawnLoop projs w events
  = (fst (despawnLoop projs w []),
     events ++ snd (despawnLoop projs w [])).
Proof.
  induction projs as [|proj projs IH]; intros w events; cbn [despawnLoop].
  - cbn. now rewrite app_nil_r.
  - destruct (outOfBounds (constants w) proj).
    + rewrite IH. rewrite (IH _ ([] ++ _)). cbn [fst snd].
      now rewrite <- app_assoc.
    + apply IH.
Qed.

Lemma despawnLoop_kinds (projs : list Projectile) :
  forall (w : World),
  Forall (fun e => isDespawn e = true) (snd (despawnLoop projs w [])).
Proof.
  induction projs as [|proj projs IH]; intros w; cbn [despawnLoop].
  - constructor.
  - destruct (outOfBounds (constants w) proj); [|apply IH].
    rewrite despawnLoop_events. cbn [snd app].
    constructor; [reflexivity|apply IH].
Qed.

Lemma hitTanks_events (proj : Projectile) (hr : Q)
    (entries : list (string * Tank)) :
  forall (w : World) (events : list StepEvent),
  hitTanks entries w proj hr events
  = (fst (hitTanks entries w proj hr []),
     events ++ snd (hitTanks entries w proj hr [])).
Proof.
  induction entries as [|[ts tg] entries IH]; intros w events;
    cbn [hitTanks].
  - cbn. now rewrite app_nil_r.
  - destruct (String.eqb ts (owner proj)); [apply IH|].
    destruct (hp tg <=? 0)%Z; [apply IH|].
    destruct (JS.leb _ _); [reflexivity|apply IH].
Qed.

Lemma hitTanks_kinds (proj : Projectile) (hr : Q)
    (entries : list (string * Tank)) (w : World) :
  Forall (fun e => exists tg dmg, e = Hit (id proj) (owner proj) tg dmg)
    (snd (hitTanks entries w proj hr [])).
Proof.
  induction entries as [|[ts tg] entries IH]; cbn [hitTanks].
  - constructor.
  - destruct (String.eqb ts (owner proj)); [apply IH|].
    destruct (hp tg <=? 0)%Z; [apply IH|].
    destruct (JS.leb _ _); [|apply IH].
    cbn. constructor; [eauto|constructor].
Qed.

Lemma hitLoop_events (hr : Q) (projs : list Projectile) :
  forall (w : World) (events : list StepEvent),
  hitLoop projs w hr events
  = (fst (hitLoop projs w hr []), events ++ snd (hitLoop projs w hr [])).
Proof.
  induction projs as [|proj projs IH]; intros w events; cbn [hitLoop].
  - cbn. now rewrite app_nil_r.
  - rewrite (hitTanks_events proj hr (tanks w) w events).
    destruct (hitTanks (tanks w) w proj hr []) as [w1 ev1].
    cbn [fst snd]. rewrite IH. rewrite (IH w1 ev1). cbn [fst snd].
    now rewrite <- app_assoc.
Qed.

Lemma hitLoop_kinds (hr : Q) (projs : list Projectile) :
  forall (w : World),
  Forall (fun e => exists p tg dmg,
                     In p projs /\ e = Hit (id p) (owner p) tg dmg)
    (snd (hitLoop projs w hr [])).
Proof.
  induction projs as [|proj projs IH]; intros w; cbn [hitLoop].
  - constructor.
  - pose proof (hitTanks_kinds proj hr (tanks w) w) as HK.
    destruct (hitTanks (tanks w) w proj hr []) as [w1 ev1].
    rewrite hitLoop_events. cbn [snd] in *. apply Forall_app. split.
    + eapply Forall_impl; [|apply HK].
      intros e (tg & dmg & ->). exists proj, tg, dmg. split; [now left|auto].
    + eapply Forall_impl; [|apply IH].
      intros e (p & tg & dmg & Hp & ->). exists p, tg, dmg.
      split; [now right|auto].
Qed.

Lemma matchEndCheck_events (w : World) (events : list StepEvent) :
  matchEndCheck w events = events ++ matchEndCheck w [].
Proof.
  unfold matchEndCheck. cbv zeta.
  destruct (_ <=? 1)%nat.
  - destruct (map fst _) as [|a [|b l]]; reflexivity.
  - destruct (JS.geb _ _); [|now rewrite app_nil_r].
    destruct (sortByHp _ _) as [|a0 [|a1 l]];
      try (now rewrite app_nil_r).
    destruct (_ <? _)%Z; reflexivity.
Qed.

Lemma matchEndCheck_kinds (w : World) :
  Forall (fun e => isMatchEnd e = true) (matchEndCheck w []).
Proof.
  unfold matchEndCheck. cbv zeta.
  destruct (_ <=? 1)%nat.
  - destruct (map fst _) as [|a [|b l]]; repeat constructor.
  - destruct (JS.geb _ _); [|constructor].
    destruct (sortByHp _ _) as [|a0 [|a1 l]]; try constructor.
    destruct (_ <? _)%Z; repeat constructor.
Qed.

(** The phases of [step], in order, each with its own events. *)
Lemma step_phases (w : World) :
  let c := constants w in
  let dt := 1 / TICK_RATE c in
  let hr := (PROJECTILE_RADIUS c + TANK_RADIUS c)
            * (PROJECTILE_RADIUS c + TANK_RADIUS c) in
  let applied := applyActiveActions w dt in
  let moved := moveProjectiles (fst applied) dt in
  let despawned := despawnLoop (Dict.values (projectiles moved)) moved [] in
  let hit :=
    hitLoop (Dict.values (projectiles (fst despawned))) (fst despawned)
      hr [] in
  let final := world_with_t (fst hit) (t (fst hit) + dt) in
  step w
  = (final,
     map completeEvent (snd applied) ++ snd despawned ++ snd hit
     ++ matchEndCheck final []).
Proof.
  cbv zeta. unfold step. cbv zeta.
  destruct (applyActiveActions w (1 / TICK_RATE (constants w)))
    as [w0 comp].
  cbn [fst snd].
  rewrite despawnLoop_events.
  rewrite hitLoop_events.
  rewrite matchEndCheck_events.
  rewrite pushCompleted_app. cbn [app fst snd].
  now rewrite <- !app_assoc.
Qed.
End Events.

(** ** The tick in which an action completes *)

Section Completion.
Context {M : MathLib}.
Import TickView Step TankApi Run Props.

Lemma completions_In (w : World) (dt : Q) (ks : list string)
    (s ty : string) :
  In (s, ty) (completions w dt ks)
  <-> In s ks
      /\ exists tk a, getTank w s = Some tk /\ activeAction tk = Some a
                      /\ expires (t w) dt tk = true /\ ty = action_type a.
Proof.
  unfold completions. rewrite in_flat_map. split.
  - intros (s' & Hs & H).
    destruct (getTank w s') as [tk|] eqn:G; [|contradiction].
    destruct (activeAction tk) as [a|] eqn:A; [|contradiction].
    destruct (expires (t w) dt tk) eqn:E; [|contradiction].
    destruct H as [[= <- <-]|[]]. split; [assumption|].
    exists tk, a. auto.
  - intros (Hs & tk & a & G & A & E & ->). exists s. split; [assumption|].
    rewrite G, A, E. now left.
Qed.

Lemma getTank_Some_key (w : World) (s : string) (tk : Tank) :
  getTank w s = Some tk -> In s (Dict.keys (tanks w)).
Proof.
  intros G. destruct (In_dec string_dec s (Dict.keys (tanks w))) as [I|I];
    [exact I|].
  apply (get_None_keys String.eqb String.eqb_eq) in I.
  unfold getTank in G. congruence.
Qed.

(** The [actionComplete] events of a tick are those of the tanks whose
    action expires at the time the tick starts. *)
Lemma step_actionComplete (w : World) (s ty : string) :
  NoDup (Dict.keys (tanks w)) ->
  (exists res, In (ActionComplete s ty res) (snd (step w)))
  <-> exists tk a, getTank w s = Some tk /\ activeAction tk = Some a
                   /\ expires (t w) (1 / TICK_RATE (constants w)) tk = true
                   /\ ty = action_type a.
Proof.
  intros ND. rewrite step_phases. cbv zeta. cbn [snd].
  set (dt := 1 / TICK_RATE (constants w)).
  pose proof (applyLoop_spec dt (Dict.keys (tanks w)) ND w []) as HA.
  cbv zeta in HA. fold (applyActiveActions w dt) in HA.
  destruct HA as (_ & _ & _ & _ & _ & _ & Hcomp). cbn [map app] in Hcomp.
  set (comp := snd (applyActiveActions w dt)) in *.
  set (moved := moveProjectiles _ dt).
  set (desp := despawnLoop _ moved []).
  set (hits := hitLoop _ (fst desp) _ []).
  set (final := world_with_t _ _).
  assert (Hin : (exists res, In (ActionComplete s ty res)
                               (map completeEvent comp ++ snd desp
                                ++ snd hits ++ matchEndCheck final []))
                <-> In (s, ty) (map completedKey comp)).
  { split.
    - intros (res & H). rewrite !in_app_iff in H.
      destruct H as [H|[H|[H|H]]].
      + apply in_map_iff in H. destruct H as (d & E & Hd).
        injection E as <- <- _. apply in_map_iff. exists d. split; auto.
      + pose proof (despawnLoop_kinds
                      (Dict.values (projectiles moved)) moved) as K.
        rewrite Forall_forall in K. specialize (K _ H). discriminate.
      + pose proof (hitLoop_kinds
          ((PROJECTILE_RADIUS (constants w) + TANK_RADIUS (constants w))
           * (PROJECTILE_RADIUS (constants w) + TANK_RADIUS (constants w)))
          (Dict.values (projectiles (fst desp))) (fst desp)) as K.
        rewrite Forall_forall in K.
        destruct (K _ H) as (p & tg & dmg & _ & E). discriminate.
      + pose proof (matchEndCheck_kinds final) as K.
        rewrite Forall_forall in K. specialize (K _ H). discriminate.
    - intros H. apply in_map_iff in H. destruct H as (d & E & Hd).
      injection E as <- <-. exists (c_scanResult d).
      apply in_app_iff. left. apply in_map_iff. exists d. split; auto. }
  rewrite Hin, Hcomp, completions_In. split.
  - intros (_ & H). exact H.
  - intros (tk & a & G & H). split; [eapply getTank_Some_key; eauto|].
    exists tk, a. auto.
Qed.

Lemma expires_true (now dt : Q) (tk : Tank) (a : Action) :
  (0 < hp tk)%Z -> activeAction tk = Some a ->
  (expires now dt tk = true <-> busyUntil tk - EPSILON <= now + dt).
Proof.
  intros Hhp A. unfold expires. rewrite A.
  apply Z.leb_gt in Hhp. rewrite Hhp. cbn [negb andb]. apply geb_ge.
Qed.

Lemma applyEffect_pose (c : Constants) (dt : Q) (tk tk' : Tank)
    (a : Action) :
  same_pose tk tk' ->
  same_pose (applyEffect c dt tk a) (applyEffect c dt tk' a).
Proof.
  intros (X & Y & H & T).
  destruct a; unfold same_pose, applyEffect, clampToArena;
    cbn [x y headingDeg tankType tank_with_pose];
    rewrite X, Y, H, T; auto.
Qed.

(** One tick of a tank that is alive and busy. *)
Lemma busy_tick (w : World) (s : string) (tk : Tank) (a : Action) :
  NoDup (Dict.keys (tanks w)) ->
  getTank w s = Some tk -> (0 < hp tk)%Z -> activeAction tk = Some a ->
  let c := constants w in
  let dt := 1 / TICK_RATE c in
  exists tk',
    getTank (fst (step w)) s = Some tk'
    /\ busyUntil tk' = busyUntil tk
    /\ same_pose (applyEffect c dt tk a) tk'
    /\ (busyUntil tk - EPSILON <= t w + dt ->
        activeAction tk' = None
        /\ exists res, In (ActionComplete s (action_type a) res)
                         (snd (step w)))
    /\ (t w + dt < busyUntil tk - EPSILON ->
        activeAction tk' = Some a
        /\ forall ty res, ~ In (ActionComplete s ty res) (snd (step w))).
Proof.
  intros ND G Hhp A. cbv zeta.
  set (c := constants w). set (dt := 1 / TICK_RATE c).
  destruct (step_frame w ND) as (_ & _ & _ & Htk).
  specialize (Htk s). rewrite G in Htk.
  destruct (getTank (fst (step w)) s) as [tk'|]; [|contradiction].
  exists tk'. split; [reflexivity|].
  destruct Htk as (X & Y & H & B & Act & T & _).
  fold c dt in X, Y, H, B, Act, T.
  destruct (applyEffect_fields c dt tk a) as (Fb & Fa & _ & _ & Ft & _).
  assert (Hk : tickTank c (t w) dt tk
               = if JS.geb (t w + dt) (busyUntil tk - EPSILON)
                 then tank_with_busy (applyEffect c dt tk a)
                        (busyUntil (applyEffect c dt tk a)) None
                 else applyEffect c dt tk a).
  { unfold tickTank. apply Z.leb_gt in Hhp. rewrite Hhp, A, Fb.
    reflexivity. }
  rewrite Hk in X, Y, H, B, Act, T.
  pose proof (step_actionComplete w s (action_type a) ND) as Hev.
  destruct (JS.geb (t w + dt) (busyUntil tk - EPSILON)) eqn:Ex.
  - cbn in X, Y, H, B, Act, T. split; [congruence|].
    split; [repeat split; assumption|]. split.
    + intros _. split; [assumption|]. apply Hev.
      exists tk, a. repeat split; auto.
      apply (expires_true _ _ _ a); auto. now apply geb_ge.
    + intros L. apply geb_ge in Ex. lra.
  - split; [congruence|]. split; [repeat split; assumption|]. split.
    + intros L. apply geb_lt in Ex. lra.
    + intros _. split; [congruence|]. intros ty res Hin.
      destruct (proj1 (step_actionComplete w s ty ND)
                  (ex_intro _ res Hin)) as (tk0 & a0 & G0 & A0 & E0 & _).
      assert (tk0 = tk) as -> by congruence.
      apply (expires_true _ _ _ a) in E0; auto.
      apply geb_lt in Ex. fold c dt in E0. lra.
Qed.
End Completion.

(** ** Runs of operations during a busy window *)

Section BusyRun.
Context {M : MathLib}.
Import TickView Step TankApi Run Props.

Lemma execAll_app (ops1 ops2 : list Op) (st : nat * World) :
  execAll (ops1 ++ ops2) st
  = match execAll ops1 st with
    | Some st1 => execAll ops2 st1
    | None => None
    end.
Proof.
  revert st. induction ops1 as [|op ops1 IH]; intros st; simpl.
  - reflexivity.
  - destruct (exec op st); auto.
Qed.

Lemma stepsIn_app (ops1 ops2 : list Op) :
  stepsIn (ops1 ++ ops2) = (stepsIn ops1 + stepsIn ops2)%nat.
Proof.
  induction ops1 as [|[| | |] ops1 IH]; simpl; auto.
Qed.

Lemma ofNat_S (j : nat) : ofNat (S j) == ofNat j + 1.
Proof.
  unfold ofNat. rewrite Nat2Z.inj_succ, <- Z.add_1_r, inject_Z_plus.
  reflexivity.
Qed.

Lemma ofNat_0 : ofNat 0 == 0.
Proof. reflexivity. Qed.

(** Any operation keeps the constants and the keys of the tanks. *)
Lemma exec_keys (op : Op) (n n' : nat) (w w' : World) :
  NoDup (Dict.keys (tanks w)) ->
  exec op (n, w) = Some (n', w') ->
  constants w' = constants w
  /\ Dict.keys (tanks w') = Dict.keys (tanks w).
Proof.
  intros ND E. destruct op as [|s0 call|s0|s0].
  - simpl in E. injection E as <- <-.
    destruct (step_frame w ND) as (_ & Hc & Hk & _). auto.
  - assert (Hne : OpStart s0 call <> OpStep) by discriminate.
    destruct (exec_frame _ _ _ _ _ Hne E) as (_ & Hc & Hk & _). auto.
  - assert (Hne : OpShoot s0 <> OpStep) by discriminate.
    destruct (exec_frame _ _ _ _ _ Hne E) as (_ & Hc & Hk & _). auto.
  - assert (Hne : OpForfeit s0 <> OpStep) by discriminate.
    destruct (exec_frame _ _ _ _ _ Hne E) as (_ & Hc & Hk & _). auto.
Qed.

Lemma execAll_keys (ops : list Op) :
  forall (n n' : nat) (w w' : World),
  NoDup (Dict.keys (tanks w)) ->
  execAll ops (n, w) = Some (n', w') ->
  constants w' = constants w
  /\ Dict.keys (tanks w') = Dict.keys (tanks w).
Proof.
  induction ops as [|op ops IH]; intros n n' w w' ND E; cbn [execAll] in E.
  - injection E as <- <-. auto.
  - destruct (exec op (n, w)) as [[n1 w1]|] eqn:E1; [|discriminate].
    destruct (exec_keys _ _ _ _ _ ND E1) as (Hc & Hk).
    assert (ND1 : NoDup (Dict.keys (tanks w1))) by now rewrite Hk.
    destruct (IH _ _ _ _ ND1 E) as (Hc' & Hk').
    split; congruence.
Qed.

Lemma same_pose_refl (tk : Tank) : same_pose tk tk.
Proof. repeat split. Qed.

Lemma same_pose_trans (a b c : Tank) :
  same_pose a b -> same_pose b c -> same_pose a c.
Proof.
  intros (X1 & Y1 & H1 & T1) (X2 & Y2 & H2 & T2).
  repeat split; congruence.
Qed.

(** While none of the elapsed ticks meets the completion test, a busy
    tank that is still alive keeps its action and its [busyUntil], and its
    pose is the per-tick effect applied once per elapsed tick.  Starter
    calls on the busy tank are rejected when [D > 1e-9]; a forfeit of the
    tank leaves it dead. *)
Lemma busy_run (c : Constants) (s : string) (a : Action) (D : Q)
    (n : nat) (w : World) (tk : Tank) :
  constants w = c -> NoDup (Dict.keys (tanks w)) ->
  getTank w s = Some tk -> activeAction tk = Some a ->
  busyUntil tk == t w + D ->
  forall (ops : list Op) (n' : nat) (w' : World) (tk' : Tank),
  EPSILON < D \/ forallb (quiet s) ops = true ->
  execAll ops (n, w) = Some (n', w') ->
  getTank w' s = Some tk' -> (0 < hp tk')%Z ->
  (forall i, (1 <= i <= stepsIn ops)%nat ->
             ofNat i * (1 / TICK_RATE c) < D - EPSILON) ->
  activeAction tk' = Some a
  /\ busyUntil tk' = busyUntil tk
  /\ t w' == t w + ofNat (stepsIn ops) * (1 / TICK_RATE c)
  /\ same_pose (afterTicks c (1 / TICK_RATE c) a (stepsIn ops) tk) tk'.
Proof.
  intros Hc ND G A HB ops.
  induction ops as [|op ops IH] using rev_ind;
    intros n' w' tk' Hq E G' Hhp Hearly.
  - simpl in E. injection E as <- <-.
    assert (tk' = tk) as -> by congruence.
    repeat split; auto. simpl. rewrite ofNat_0. ring.
  - rewrite execAll_app in E.
    destruct (execAll ops (n, w)) as [[n1 w1]|] eqn:E1; [|discriminate].
    cbn [execAll] in E.
    destruct (exec op (n1, w1)) as [st'|] eqn:E2; [|discriminate].
    injection E as ->.
    assert (Hq0 : EPSILON < D \/ forallb (quiet s) ops = true).
    { destruct Hq as [L|Hq]; [now left|right].
      rewrite forallb_app in Hq. apply andb_true_iff in Hq. tauto. }
    assert (Hq1 : EPSILON < D \/ quiet s op = true).
    { destruct Hq as [L|Hq]; [now left|right].
      rewrite forallb_app in Hq. apply andb_true_iff in Hq.
      destruct Hq as [_ Hq]. simpl in Hq. now rewrite andb_true_r in Hq. }
    clear Hq.
    destruct (execAll_keys _ _ _ _ _ ND E1) as (Hc1 & Hk1).
    assert (ND1 : NoDup (Dict.keys (tanks w1))) by now rewrite Hk1.
    rewrite stepsIn_app in *.
    assert (Hrun : forall tk1, getTank w1 s = Some tk1 -> (0 < hp tk1)%Z ->
              activeAction tk1 = Some a
              /\ busyUntil tk1 = busyUntil tk
              /\ t w1 == t w + ofNat (stepsIn ops) * (1 / TICK_RATE c)
              /\ same_pose
                   (afterTicks c (1 / TICK_RATE c) a (stepsIn ops) tk) tk1).
    { intros tk1 G1 H1. apply (IH n1 w1 tk1 Hq0 eq_refl G1 H1).
      intros i Hi. apply Hearly. lia. }
    clear IH.
    destruct op as [|s0 call|s0|s0].
    + (* a tick *)
      simpl in E2. injection E2 as <- <-.
      destruct (step_frame w1 ND1) as (Ht & _ & _ & Htk).
      specialize (Htk s). rewrite G' in Htk.
      destruct (getTank w1 s) as [tk1|] eqn:G1; [|contradiction].
      assert (Hhp1 : (0 < hp tk1)%Z).
      { destruct Htk as (_ & _ & _ & _ & _ & _ & _ & Dd & _).
        destruct (Z_lt_le_dec 0 (hp tk1)) as [L|L]; [exact L|].
        rewrite (Dd L) in Hhp. lia. }
      destruct (Hrun tk1 eq_refl Hhp1) as (A1 & B1 & T1 & P1).
      destruct (busy_tick w1 s tk1 a ND1 G1 Hhp1 A1)
        as (tk2 & G2 & B2 & P2 & _ & Hlate).
      assert (tk2 = tk') as -> by congruence.
      rewrite Hc1, Hc in *.
      assert (Hnot : t w1 + 1 / TICK_RATE c < busyUntil tk1 - EPSILON).
      { rewrite B1, HB, T1.
        pose proof (Hearly (S (stepsIn ops)) ltac:(simpl; lia)) as L.
        rewrite ofNat_S in L. lra. }
      destruct (Hlate Hnot) as (A2 & _).
      split; [assumption|]. split; [congruence|]. split.
      * rewrite Ht, T1. simpl stepsIn.
        rewrite Nat.add_1_r, ofNat_S. ring.
      * simpl stepsIn. rewrite Nat.add_1_r. unfold afterTicks. simpl.
        eapply same_pose_trans; [|exact P2].
        apply applyEffect_pose. exact P1.
    + (* a call to a starter *)
      simpl stepsIn in *. rewrite Nat.add_0_r in *.
      destruct (quiet s (OpStart s0 call)) eqn:Q.
      * (* on another slot *)
        assert (Hne : OpStart s0 call <> OpStep) by discriminate.
        destruct (exec_frame _ _ _ _ _ Hne E2) as (Ht & _ & _ & Htk).
        specialize (Htk s). rewrite G' in Htk.
        destruct (getTank w1 s) as [tk1|] eqn:G1; [|contradiction].
        destruct (exec_quiet _ s _ _ _ _ tk1 Hne Q E2 G1) as (tk2 & G2 & Eq).
        assert (tk2 = tk') as -> by congruence.
        injection Eq as Ex Ey Eh Ehp Ety Eb Ea Es.
        destruct (Hrun tk1 eq_refl ltac:(congruence))
          as (A1 & B1 & T1 & (P1 & P2 & P3 & P4)).
        split; [congruence|]. split; [congruence|]. split.
        -- now rewrite Ht.
        -- repeat split; congruence.
      * (* on this slot: the tank is busy, the call is rejected *)
        destruct Hq1 as [L|Hq1]; [|discriminate].
        simpl in Q. apply negb_false_iff, String.eqb_eq in Q. subst s0.
        simpl in E2.
        destruct (getTank w1 s) as [tk1|] eqn:G1;
          [|now rewrite (startAction_absent _ _ _ G1) in E2].
        rewrite (startAction_present _ _ _ _ G1) in E2.
        destruct (isIdle tk1 (t w1)) eqn:I; injection E2 as <- <-.
        -- exfalso. rewrite getTank_putTank_same in G'. injection G' as <-.
           cbn in Hhp.
           destruct (Hrun tk1 eq_refl Hhp) as (A1 & B1 & T1 & _).
           unfold isIdle in I. apply geb_ge in I. rewrite B1, HB, T1 in I.
           destruct (stepsIn ops) as [|j] eqn:Ej.
           ++ rewrite ofNat_0 in I. lra.
           ++ pose proof (Hearly (S j) ltac:(lia)) as L'. lra.
        -- assert (tk1 = tk') as -> by congruence. now apply Hrun.
    + (* a shot *)
      simpl stepsIn in *. rewrite Nat.add_0_r in *.
      assert (Hne : OpShoot s0 <> OpStep) by discriminate.
      destruct (exec_frame _ _ _ _ _ Hne E2) as (Ht & _ & _ & Htk).
      specialize (Htk s). rewrite G' in Htk.
      destruct (getTank w1 s) as [tk1|] eqn:G1; [|contradiction].
      destruct (exec_quiet _ s _ _ _ _ tk1 Hne eq_refl E2 G1)
        as (tk2 & G2 & Eq).
      assert (tk2 = tk') as -> by congruence.
      injection Eq as Ex Ey Eh Ehp Ety Eb Ea Es.
      destruct (Hrun tk1 eq_refl ltac:(congruence))
        as (A1 & B1 & T1 & (P1 & P2 & P3 & P4)).
      split; [congruence|]. split; [congruence|]. split.
      * now rewrite Ht.
      * repeat split; congruence.
    + (* a forfeit *)
      simpl stepsIn in *. rewrite Nat.add_0_r in *.
      destruct (quiet s (OpForfeit s0)) eqn:Q.
      * assert (Hne : OpForfeit s0 <> OpStep) by discriminate.
        destruct (exec_frame _ _ _ _ _ Hne E2) as (Ht & _ & _ & Htk).
        specialize (Htk s). rewrite G' in Htk.
        destruct (getTank w1 s) as [tk1|] eqn:G1; [|contradiction].
        destruct (exec_quiet _ s _ _ _ _ tk1 Hne Q E2 G1) as (tk2 & G2 & Eq).
        assert (tk2 = tk') as -> by congruence.
        injection Eq as Ex Ey Eh Ehp Ety Eb Ea Es.
        destruct (Hrun tk1 eq_refl ltac:(congruence))
          as (A1 & B1 & T1 & (P1 & P2 & P3 & P4)).
        split; [congruence|]. split; [congruence|]. split.
        -- now rewrite Ht.
        -- repeat split; congruence.
      * (* of this slot: the tank is no longer alive *)
        exfalso. simpl in Q. apply negb_false_iff, String.eqb_eq in Q.
        subst s0. simpl in E2.
        destruct (getTank w1 s) as [tk1|] eqn:G1.
        -- rewrite (forfeit_present _ _ _ G1) in E2. injection E2 as <- <-.
           rewrite getTank_putTank_same in G'. injection G' as <-.
           cbn in Hhp. lia.
        -- unfold Match.forfeit in E2. now rewrite G1 in E2.
Qed.
End BusyRun.

(** ** Accepted actions *)

Section Accepted.
Context {M : MathLib}.
Import TickView Step TankApi Run Props.

(** The world right after a call was accepted. *)
Lemma accepted_world (w0 w : World) (s : string) (call : Call) (tk0 : Tank) :
  NoDup (Dict.keys (tanks w0)) ->
  getTank w0 s = Some tk0 ->
  startAction w0 s call = Some (w, true) ->
  isIdle tk0 (t w0) = true
  /\ w = putTank w0 s
           (beginAction tk0 (t w0) (call_duration (constants w0) tk0 call)
              (call_action call))
  /\ constants w = constants w0 /\ t w = t w0
  /\ NoDup (Dict.keys (tanks w))
  /\ getTank w s
     = Some (beginAction tk0 (t w0) (call_duration (constants w0) tk0 call)
               (call_action call)).
Proof.
  intros ND G E. rewrite (startAction_present _ _ _ _ G) in E.
  destruct (isIdle tk0 (t w0)); [|discriminate].
  injection E as <-. split; [reflexivity|]. split; [reflexivity|].
  split; [reflexivity|]. split; [reflexivity|]. split.
  - erewrite keys_putTank; eauto.
  - apply getTank_putTank_same.
Qed.

Lemma afterTicks_tankType (c : Constants) (dt : Q) (a : Action) (j : nat)
    (tk : Tank) :
  tankType (afterTicks c dt a j tk) = tankType tk.
Proof.
  induction j as [|j IH]; [reflexivity|].
  unfold afterTicks in *. simpl.
  destruct (applyEffect_fields c dt (Nat.iter j (fun k => applyEffect c dt k a) tk) a)
    as (_ & _ & _ & _ & T & _).
  congruence.
Qed.

(** The heading after [j >= 1] ticks of a turn: the per-tick rotation
    [turnRate * dt] applied [j] times. *)
Lemma afterTicks_turnLeft (c : Constants) (dt : Q) (j : nat) (tk : Tank) :
  headingDeg (afterTicks c dt TurnLeft (S j) tk)
  == Scan.normalizeDeg
       (headingDeg tk
        - ofNat (S j) * (turnRate (TANK_TYPES c (tankType tk)) * dt)).
Proof.
  induction j as [|j IH].
  - unfold afterTicks. simpl. apply normalizeDeg_proper.
    unfold ofNat. simpl. ring.
  - change (afterTicks c dt TurnLeft (S (S j)) tk)
      with (applyEffect c dt (afterTicks c dt TurnLeft (S j) tk) TurnLeft).
    cbn [applyEffect headingDeg tank_with_pose].
    rewrite afterTicks_tankType, IH, normalizeDeg_inner.
    apply normalizeDeg_proper. rewrite (ofNat_S (S j)). ring.
Qed.

Lemma afterTicks_turnRight (c : Constants) (dt : Q) (j : nat) (tk : Tank) :
  headingDeg (afterTicks c dt TurnRight (S j) tk)
  == Scan.normalizeDeg
       (headingDeg tk
        + ofNat (S j) * (turnRate (TANK_TYPES c (tankType tk)) * dt)).
Proof.
  induction j as [|j IH].
  - unfold afterTicks. simpl. apply normalizeDeg_proper.
    unfold ofNat. simpl. ring.
  - change (afterTicks c dt TurnRight (S (S j)) tk)
      with (applyEffect c dt (afterTicks c dt TurnRight (S j) tk) TurnRight).
    cbn [applyEffect headingDeg tank_with_pose].
    rewrite afterTicks_tankType, IH.
    destruct (normalizeDeg_shift
                (headingDeg tk
                 + ofNat (S j) * (turnRate (TANK_TYPES c (tankType tk)) * dt)))
      as [k E].
    apply (normalizeDeg_congr _ _ k). rewrite E, (ofNat_S (S j)). ring.
Qed.

(** The tick that follows a run of a busy window: it completes the action
    exactly when the completion test holds at its start. *)
Lemma window_end (c : Constants) (s : string) (a : Action) (D : Q)
    (n : nat) (w : World) (tk : Tank) (ops : list Op) (n' : nat)
    (w' : World) (tk' : Tank) :
  constants w = c -> NoDup (Dict.keys (tanks w)) ->
  getTank w s = Some tk -> activeAction tk = Some a ->
  busyUntil tk == t w + D ->
  EPSILON < D \/ forallb (quiet s) ops = true ->
  execAll ops (n, w) = Some (n', w') ->
  getTank w' s = Some tk' -> (0 < hp tk')%Z ->
  (forall i, (1 <= i <= stepsIn ops)%nat ->
             ofNat i * (1 / TICK_RATE c) < D - EPSILON) ->
  activeAction tk' = Some a
  /\ exists tk'',
       getTank (fst (step w')) s = Some tk''
       /\ same_pose
            (afterTicks c (1 / TICK_RATE c) a (S (stepsIn ops)) tk) tk''
       /\ (D - EPSILON <= ofNat (S (stepsIn ops)) * (1 / TICK_RATE c) ->
           activeAction tk'' = None
           /\ exists res, In (ActionComplete s (action_type a) res)
                            (snd (step w')))
       /\ (ofNat (S (stepsIn ops)) * (1 / TICK_RATE c) < D - EPSILON ->
           activeAction tk'' = Some a
           /\ forall ty res, ~ In (ActionComplete s ty res) (snd (step w'))).
Proof.
  intros Hc ND G A HB Hq E G' Hhp Hearly.
  destruct (busy_run c s a D n w tk Hc ND G A HB ops n' w' tk'
              Hq E G' Hhp Hearly) as (A' & B' & T' & P').
  destruct (execAll_keys _ _ _ _ _ ND E) as (Hc' & Hk').
  assert (ND' : NoDup (Dict.keys (tanks w'))) by now rewrite Hk'.
  destruct (busy_tick w' s tk' a ND' G' Hhp A')
    as (tk'' & G'' & B'' & P'' & Hdone & Hnot).
  rewrite Hc', Hc in *.
  split; [assumption|]. exists tk''. split; [assumption|]. split.
  - unfold afterTicks. simpl. eapply same_pose_trans; [|exact P''].
    apply applyEffect_pose. exact P'.
  - split.
    + intros L. apply Hdone. rewrite B', HB, T'. rewrite ofNat_S in L. lra.
    + intros L. apply Hnot. rewrite B', HB, T'. rewrite ofNat_S in L. lra.
Qed.
End Accepted.

Section DurationLaw.
Context {M : MathLib}.
Import TickView Step TankApi Run Props.

Lemma ofNat_le (a b : nat) : (a <= b)%nat -> ofNat a <= ofNat b.
Proof. intros H. unfold ofNat. rewrite <- Zle_Qle. lia. Qed.

Lemma ofNat_succ_le (a b : nat) : (a < b)%nat -> ofNat a + 1 <= ofNat b.
Proof. intros H. rewrite <- ofNat_S. now apply ofNat_le. Qed.

Lemma afterTicks_pose (c : Constants) (dt : Q) (a : Action) (j : nat)
    (tk tk' : Tank) :
  same_pose tk tk' ->
  same_pose (afterTicks c dt a j tk) (afterTicks c dt a j tk').
Proof.
  intros P. induction j as [|j IH]; [exact P|].
  unfold afterTicks in *. simpl. now apply applyEffect_pose.
Qed.

(** For an exactly aligned duration [D = k * dt] with [k >= 1], the first
    tick that meets the completion test is tick [k]. *)
Lemma aligned_tick (dt D : Q) (j k : nat) :
  (1 <= k)%nat -> D == ofNat k * dt -> EPSILON < dt ->
  (forall i, (1 <= i <= j)%nat -> ofNat i * dt < D - EPSILON) ->
  (D - EPSILON <= ofNat (S j) * dt <-> S j = k).
Proof.
  intros Hk HD Hdt Hearly. pose proof EPSILON_pos as Heps. split.
  - intros L.
    assert (Hjk : (j < k)%nat).
    { destruct (le_lt_dec k j) as [C|C]; [|exact C].
      specialize (Hearly k (conj Hk C)). lra. }
    destruct (Nat.eq_dec (S j) k) as [E|N]; [exact E|].
    assert (Hlt : (S j < k)%nat) by lia.
    pose proof (ofNat_succ_le _ _ Hlt) as H1.
    assert (ofNat (S j) * dt + dt <= ofNat k * dt) by nra.
    lra.
  - intros <-. lra.
Qed.

(** The tick that follows a run inside the busy window of an accepted
    call. *)
Lemma action_window_parts (c : Constants) (s : string) (call : Call)
    (w0 w : World) (tk0 : Tank) (n : nat) (ops : list Op) (n' : nat)
    (w' : World) (tk' : Tank) :
  constants w0 = c ->
  NoDup (Dict.keys (tanks w0)) ->
  getTank w0 s = Some tk0 ->
  startAction w0 s call = Some (w, true) ->
  EPSILON < call_duration c tk0 call \/ forallb (quiet s) ops = true ->
  execAll ops (n, w) = Some (n', w') ->
  getTank w' s = Some tk' ->
  (0 < hp tk')%Z ->
  (forall i, (1 <= i <= stepsIn ops)%nat ->
     ofNat i * (1 / TICK_RATE c) < call_duration c tk0 call - EPSILON) ->
  exists tk'',
    getTank (fst (step w')) s = Some tk''
    /\ same_pose
         (afterTicks c (1 / TICK_RATE c) (call_action call)
            (S (stepsIn ops)) tk0) tk''
    /\ (call_duration c tk0 call - EPSILON
          <= ofNat (S (stepsIn ops)) * (1 / TICK_RATE c) ->
        activeAction tk'' = None).
Proof.
  intros Hc ND G0 Eacc Hq E G' Hhp Hearly.
  destruct (accepted_world w0 w s call tk0 ND G0 Eacc)
    as (_ & _ & Hcw & Htw & NDw & Gw).
  rewrite Hc in *.
  set (D := call_duration c tk0 call) in *.
  set (tk := beginAction tk0 (t w0) D (call_action call)) in *.
  assert (HB : busyUntil tk == t w + D) by (rewrite Htw; reflexivity).
  destruct (window_end c s (call_action call) D n w tk ops n' w' tk'
              Hcw NDw Gw eq_refl HB Hq E G' Hhp Hearly)
    as (A' & tk'' & G'' & P'' & Hdone & Hnot).
  exists tk''. split; [exact G''|]. split.
  - eapply same_pose_trans; [|exact P''].
    apply afterTicks_pose. repeat split.
  - intros L. now apply Hdone.
Qed.

(** Corrected C2.  A call accepted at time [t w0] has duration
    [D = call_duration].  Through any interleaving of ticks, starter calls,
    shots and forfeits that leaves the tank alive (for [D <= 1e-9], an
    interleaving in which no other starter is called on the same tank),
    as long as none of the [j] ticks run so far met the completion test
    [i * dt >= D - 1e-9], the action is still running, and the next tick
    (tick [j + 1] after acceptance) applies the per-tick effect once more
    and completes the action (clears [activeAction], emits
    [actionComplete]) exactly when [(j + 1) * dt >= D - 1e-9]; for
    [D = k * dt] with [k >= 1] and [dt > 1e-9] that is tick [k]. *)
Theorem action_duration_law (c : Constants) (s : string) (call : Call)
    (w0 w : World) (tk0 : Tank) (n : nat) (ops : list Op) (n' : nat)
    (w' : World) (tk' : Tank) (k : nat) :
  constants w0 = c ->
  NoDup (Dict.keys (tanks w0)) ->
  getTank w0 s = Some tk0 ->
  startAction w0 s call = Some (w, true) ->
  EPSILON < call_duration c tk0 call \/ forallb (quiet s) ops = true ->
  execAll ops (n, w) = Some (n', w') ->
  getTank w' s = Some tk' ->
  (0 < hp tk')%Z ->
  (forall i, (1 <= i <= stepsIn ops)%nat ->
     ofNat i * (1 / TICK_RATE c) < call_duration c tk0 call - EPSILON) ->
  activeAction tk' = Some (call_action call)
  /\ (exists tk'',
        getTank (fst (step w')) s = Some tk''
        /\ same_pose
             (afterTicks c (1 / TICK_RATE c) (call_action call)
                (S (stepsIn ops)) tk0) tk''
        /\ (call_duration c tk0 call - EPSILON
              <= ofNat (S (stepsIn ops)) * (1 / TICK_RATE c) ->
            activeAction tk'' = None
            /\ exists res,
                 In (ActionComplete s (action_type (call_action call)) res)
                   (snd (step w')))
        /\ (ofNat (S (stepsIn ops)) * (1 / TICK_RATE c)
              < call_duration c tk0 call - EPSILON ->
            activeAction tk'' = Some (call_action call)
            /\ forall ty res,
                 ~ In (ActionComplete s ty res) (snd (step w'))))
  /\ ((1 <= k)%nat ->
      call_duration c tk0 call == ofNat k * (1 / TICK_RATE c) ->
      EPSILON < 1 / TICK_RATE c ->
      (call_duration c tk0 call - EPSILON
         <= ofNat (S (stepsIn ops)) * (1 / TICK_RATE c)
       <-> S (stepsIn ops) = k)).
Proof.
  intros Hc ND G0 Eacc Hq E G' Hhp Hearly.
  destruct (accepted_world w0 w s call tk0 ND G0 Eacc)
    as (_ & _ & Hcw & Htw & NDw & Gw).
  rewrite Hc in *.
  set (D := call_duration c tk0 call) in *.
  set (tk := beginAction tk0 (t w0) D (call_action call)) in *.
  assert (HB : busyUntil tk == t w + D) by (rewrite Htw; reflexivity).
  destruct (window_end c s (call_action call) D n w tk ops n' w' tk'
              Hcw NDw Gw eq_refl HB Hq E G' Hhp Hearly)
    as (A' & tk'' & G'' & P'' & Hdone & Hnot).
  split; [exact A'|]. split.
  - exists tk''. split; [exact G''|]. split; [|split; assumption].
    eapply same_pose_trans; [|exact P''].
    apply afterTicks_pose. repeat split.
  - intros Hk HD Hdt. now apply aligned_tick.
Qed.
End DurationLaw.

Section Turns.
Context {M : MathLib}.
Import TickView Step TankApi Run Props.

Lemma Qabs_opp_eq (d : Q) : Qabs (- d) = Qabs d.
Proof. destruct d as [p q]. unfold Qabs, Qopp. simpl. now rewrite Z.abs_opp. Qed.

(** C9.  A turn accepted for slot [s] whose busy window ends with tick
    [m] (the first tick with [m * dt >= D - 1e-9]; the tank stays alive
    and, for [D <= 1e-9], no other starter is called on it) has, after
    that tick,
    rotated the tank by [m * turnRate * dt] degrees: the full per-tick
    rotation on every tick of the window, the completion tick included.
    With a [degrees] argument that total is the requested angle rounded up
    (up to [1e-9 * turnRate]) to a multiple of [turnRate * dt]; a turn by
    0 degrees is accepted like any other and takes one tick, so it rotates
    by [turnRate * dt]; and a negative argument starts the same action as
    its absolute value. *)
Theorem turn_rotation (c : Constants) (s : string) (left : bool)
    (degrees : option Q) (w0 w : World) (tk0 : Tank) (n : nat)
    (ops : list Op) (n' : nat) (w' : World) (tk' : Tank) :
  let turn := fun d => if left then CallTurnLeft d else CallTurnRight d in
  let dt := 1 / TICK_RATE c in
  let rate := turnRate (TANK_TYPES c (tankType tk0)) in
  let D := call_duration c tk0 (turn degrees) in
  let m := S (stepsIn ops) in
  constants w0 = c ->
  NoDup (Dict.keys (tanks w0)) ->
  getTank w0 s = Some tk0 ->
  startAction w0 s (turn degrees) = Some (w, true) ->
  EPSILON < D \/ forallb (quiet s) ops = true ->
  execAll ops (n, w) = Some (n', w') ->
  getTank w' s = Some tk' ->
  (0 < hp tk')%Z ->
  (forall i, (1 <= i <= stepsIn ops)%nat -> ofNat i * dt < D - EPSILON) ->
  D - EPSILON <= ofNat m * dt ->
  (exists tk'',
     getTank (fst (step w')) s = Some tk''
     /\ activeAction tk'' = None
     /\ headingDeg tk''
        == Scan.normalizeDeg
             (if left then headingDeg tk0 - ofNat m * (rate * dt)
              else headingDeg tk0 + ofNat m * (rate * dt)))
  /\ (forall deg, degrees = Some deg -> 0 < rate ->
        Qabs deg - EPSILON * rate <= ofNat m * (rate * dt)
        /\ (m = 1%nat
            \/ ofNat (m - 1) * (rate * dt) < Qabs deg - EPSILON * rate))
  /\ (degrees = Some 0 -> 0 < TICK_RATE c -> m = 1%nat)
  /\ (exists w1, startAction w0 s (turn (Some 0)) = Some (w1, true))
  /\ (forall deg,
        startAction w0 s (turn (Some (- deg)))
        = startAction w0 s (turn (Some deg))).
Proof.
  intros turn dt rate D m Hc ND G0 Eacc Hq E G' Hhp Hearly Hend.
  destruct (action_window_parts c s (turn degrees) w0 w tk0 n ops n' w' tk'
              Hc ND G0 Eacc Hq E G' Hhp Hearly)
    as (tk'' & G'' & P'' & Hdone).
  destruct (accepted_world w0 w s (turn degrees) tk0 ND G0 Eacc)
    as (Hidle & _).
  split; [|split; [|split; [|split]]].
  - exists tk''. split; [exact G''|]. split; [apply Hdone, Hend|].
    destruct P'' as (_ & _ & -> & _). subst turn rate m dt.
    destruct left; cbn [call_action].
    + apply afterTicks_turnLeft.
    + apply afterTicks_turnRight.
  - intros deg -> Hrate.
    assert (HD : D * rate == Qabs deg).
    { subst D turn rate. destruct left; cbn [call_duration];
        field; lra. }
    split.
    + assert ((D - EPSILON) * rate <= ofNat m * dt * rate)
        by (apply Qmult_le_compat_r; lra).
      lra.
    + subst m. destruct (stepsIn ops) as [|j] eqn:Ej; [now left|right].
      replace (S (S j) - 1)%nat with (S j) by lia.
      pose proof (Hearly (S j) ltac:(lia)) as L.
      assert (ofNat (S j) * dt * rate < (D - EPSILON) * rate)
        by (apply Qmult_lt_compat_r; lra).
      lra.
  - intros -> Hrate. subst m. f_equal.
    destruct (stepsIn ops) as [|j] eqn:Ej; [reflexivity|exfalso].
    pose proof (Hearly 1%nat ltac:(lia)) as L.
    assert (HD : D == 0).
    { subst D turn. destruct left; cbn [call_duration];
        unfold Qdiv; change (Qabs 0) with 0; ring. }
    assert (0 < dt) by (subst dt; apply Qlt_shift_div_l; lra).
    pose proof EPSILON_pos. change (ofNat 1) with 1 in L. lra.
  - rewrite (startAction_present _ _ _ _ G0), Hidle. eauto.
  - intros deg. rewrite !(startAction_present _ _ _ _ G0).
    subst turn. destruct left; cbn [call_duration call_action];
      now rewrite Qabs_opp_eq.
Qed.
End Turns.

Section Starters.
Context {M : MathLib}.
Import TickView Step TankApi Run Props.

(** C4.  Each starter ([startAction] dispatches a call to [turnLeft],
    [turnRight], [moveForward], [moveBackward] or [scan]) returns true
    iff [world.t >= busyUntil - 1e-9]; when it returns true the world is
    the old one with the tank's [busyUntil] set to [world.t + duration]
    and its [activeAction] set to the action of the call, where the
    duration is [|degrees| / turnRate] for a turn with a [degrees]
    argument and [ACTION_DURATION] otherwise; when it returns false the
    world is unchanged. *)
Theorem starters_accept_iff_idle (w : World) (s : string) (call : Call)
    (tk : Tank) :
  getTank w s = Some tk ->
  exists w' accepted,
    startAction w s call = Some (w', accepted)
    /\ (accepted = true <-> busyUntil tk - (1 # 1000000000) <= t w)
    /\ (accepted = true ->
        let tk' :=
          tank_with_busy tk
            (t w + match call with
                   | CallTurnLeft (Some d) | CallTurnRight (Some d) =>
                       Qabs d / turnRate (TANK_TYPES (constants w) (tankType tk))
                   | _ => ACTION_DURATION (constants w)
                   end)
            (Some (call_action call)) in
        w' = putTank w s tk'
        /\ getTank w' s = Some tk'
        /\ (forall s', s' <> s -> getTank w' s' = getTank w s')
        /\ t w' = t w /\ projectiles w' = projectiles w)
    /\ (accepted = false -> w' = w).
Proof.
  intros G. rewrite (startAction_present _ _ _ _ G).
  destruct (isIdle tk (t w)) eqn:I.
  - eexists. exists true. split; [reflexivity|]. split; [|split].
    + split; [intros _|reflexivity]. apply geb_ge in I. exact I.
    + intros _. cbv zeta. split; [reflexivity|].
      split; [apply getTank_putTank_same|]. split; [|auto].
      intros s' N. apply getTank_putTank_other. congruence.
    + discriminate.
  - exists w, false. split; [reflexivity|]. split; [|split].
    + split; [discriminate|]. intros L. apply geb_ge in L.
      unfold isIdle, EPSILON in I. congruence.
    + discriminate.
    + reflexivity.
Qed.

(** C10.  [shoot] checks neither the hit points nor the busy window: for
    every world and every slot whose tank has no active projectile it
    returns true, takes the next id and inserts the projectile. *)
Theorem shoot_ignores_hp_and_busy (n : nat) (w : World) (s : string)
    (tk : Tank) :
  getTank w s = Some tk ->
  activeProjectileId tk = None ->
  exists w',
    shoot n w s = Some (S n, w', true)
    /\ Dict.get ProjId_eqb (proj_ n) (projectiles w')
       = Some (spawned (constants w) n s tk)
    /\ getTank w' s = Some (tank_with_projectile tk (Some (proj_ n))).
Proof.
  intros G A. rewrite (shoot_present _ _ _ _ G), A.
  eexists. split; [reflexivity|]. split.
  - cbn [projectiles putTank world_with_tanks world_with_projectiles].
    apply (get_set_same ProjId_eqb ProjId_eqb_spec).
  - apply getTank_putTank_same.
Qed.
End Starters.

(** ** The Tank API and the watchdog hook *)

Section Hook.
Import TankApi.

(** The server API never invokes the registered hook. *)
Lemma timedAction_silent (api : Api) (w : World) (s : string) (call : Call)
    (isScan : bool) (r : World * Api * Promise * list Effect) :
  timedAction api w s call isScan = Some r -> snd r = [].
Proof.
  unfold timedAction. destruct (startAction w s call) as [[w1 acc]|];
    [|discriminate].
  destruct acc; intros [= <-]; reflexivity.
Qed.

(** The browser API invokes it for every accepted call. *)
Lemma localTimedAction_notifies (api : Api) (w : World) (s : string)
    (call : Call) (isScan : bool) (h : Hook) (w1 : World) :
  _onActionStart api = Some h ->
  startAction w s call = Some (w1, true) ->
  exists api', localTimedAction api w s call isScan
               = Some (w1, api', Pending, [HookInvoked h]).
Proof.
  intros Hh E. unfold localTimedAction. rewrite E, Hh. cbn [negb].
  eexists. reflexivity.
Qed.
End Hook.

(** ** Tanks and their projectiles *)

Section Links.
Context {M : MathLib}.
Import TickView Step TankApi Run Props.

(** Updating tanks without touching [activeProjectileId] keeps the links. *)
Lemma linked_tanks (n : nat) (w w' : World) :
  tanks_rel (fun tk tk' => activeProjectileId tk' = activeProjectileId tk)
    w w' ->
  projectiles w' = projectiles w ->
  linked n w -> linked n w'.
Proof.
  intros (K & R) P (ND & NDp & Ha & Hb). unfold linked. rewrite P, K.
  split; [assumption|]. split; [assumption|]. split.
  - intros k p Hin. destruct (Ha k p Hin) as (I & F & tk & G & A).
    split; [assumption|]. split; [assumption|].
    specialize (R (owner p)). rewrite G in R.
    destruct (getTank w' (owner p)) as [tk'|]; [|contradiction].
    exists tk'. split; [reflexivity|congruence].
  - intros s tk' pid G' A'. specialize (R s). rewrite G' in R.
    destruct (getTank w s) as [tk|] eqn:G; [|contradiction].
    apply (Hb s tk pid G). congruence.
Qed.

Lemma linked_putTank (n : nat) (w : World) (s : string) (tk tk' : Tank) :
  getTank w s = Some tk ->
  activeProjectileId tk' = activeProjectileId tk ->
  linked n w -> linked n (putTank w s tk').
Proof.
  intros G A. apply linked_tanks; [|reflexivity].
  apply (tanks_rel_putTank _ w s tk); auto.
Qed.

Lemma linked_time (n : nat) (w : World) (t' : Q) :
  linked n w -> linked n (world_with_t w t').
Proof. intros H. exact H. Qed.

Lemma linked_move (n : nat) (w : World) (dt : Q) :
  linked n w -> linked n (moveProjectiles w dt).
Proof.
  intros (ND & NDp & Ha & Hb). unfold linked, moveProjectiles.
  cbn [tanks projectiles world_with_projectiles].
  assert (K : Dict.keys (map (fun e => (fst e, advance dt (snd e)))
                           (projectiles w))
              = Dict.keys (projectiles w)).
  { unfold Dict.keys. rewrite map_map. reflexivity. }
  rewrite K. split; [assumption|]. split; [assumption|]. split.
  - intros k p Hin. apply in_map_iff in Hin.
    destruct Hin as ([k0 p0] & [= <- <-] & Hin).
    exact (Ha k0 p0 Hin).
  - intros s tk pid G A. destruct (Hb s tk pid G A) as (p & Hin & O).
    exists (advance dt p). split; [|exact O].
    apply in_map_iff. exists (pid, p). auto.
Qed.

(** Removing a projectile of the map together with its owner's record. *)
Lemma linked_remove (n : nat) (w : World) (proj : Projectile) :
  In (id proj, proj) (projectiles w) ->
  linked n w ->
  linked n (deleteProjectile (clearProjectileFromOwner w proj) (id proj)).
Proof.
  intros Hin (ND & NDp & Ha & Hb).
  destruct (Ha _ _ Hin) as (_ & _ & otk & Go & Ao).
  assert (Ec : clearProjectileFromOwner w proj
               = putTank w (owner proj) (tank_with_projectile otk None)).
  { unfold clearProjectileFromOwner. rewrite Go, Ao.
    now rewrite (proj2 (ProjId_eqb_spec _ _) eq_refl). }
  rewrite Ec.
  set (w1 := putTank w (owner proj) (tank_with_projectile otk None)).
  assert (GT : forall s, getTank (deleteProjectile w1 (id proj)) s
                         = if String.eqb (owner proj) s
                           then Some (tank_with_projectile otk None)
                           else getTank w s).
  { intros s. apply getTank_putTank. }
  assert (PR : projectiles (deleteProjectile w1 (id proj))
               = Dict.delete ProjId_eqb (id proj) (projectiles w))
    by reflexivity.
  assert (TK : tanks (deleteProjectile w1 (id proj))
               = Dict.set String.eqb (owner proj)
                   (tank_with_projectile otk None) (tanks w))
    by reflexivity.
  unfold linked. rewrite PR, TK.
  split; [apply NoDup_keys_set; auto using String.eqb_eq|].
  split; [now apply NoDup_keys_delete|]. split.
  - intros k p Hp.
    apply (In_delete ProjId_eqb ProjId_eqb_spec) in Hp.
    destruct Hp as [Hp Hne]. cbn [fst] in Hne.
    destruct (Ha k p Hp) as (I & F & tk & G & A).
    split; [assumption|]. split; [assumption|].
    rewrite GT.
    destruct (String.eqb_spec (owner proj) (owner p)) as [Eo|No].
    + exfalso. rewrite <- Eo in G. congruence.
    + exists tk. auto.
  - intros s tk pid G A. rewrite GT in G.
    destruct (String.eqb_spec (owner proj) s) as [Eo|No].
    + injection G as <-. discriminate A.
    + destruct (Hb s tk pid G A) as (p & Hp & O).
      exists p. split; [|exact O].
      apply (In_delete ProjId_eqb ProjId_eqb_spec). split; [exact Hp|].
      cbn [fst]. intros ->.
      assert (p = proj).
      { pose proof (In_get ProjId_eqb ProjId_eqb_spec _ _ _ NDp Hp) as G1.
        pose proof (In_get ProjId_eqb ProjId_eqb_spec _ _ _ NDp Hin) as G2.
        congruence. }
      subst p. congruence.
Qed.
End Links.

Section LinkLoops.
Context {M : MathLib}.
Import TickView Step TankApi Run Props.

Lemma projectiles_remove (w : World) (proj : Projectile) :
  projectiles (deleteProjectile (clearProjectileFromOwner w proj) (id proj))
  = Dict.delete ProjId_eqb (id proj) (projectiles w).
Proof.
  destruct (clearProjectileFromOwner_frame w proj) as (_ & _ & _ & P).
  cbv zeta in P. unfold deleteProjectile. cbn [projectiles world_with_projectiles].
  now rewrite P.
Qed.

(** The projectiles still to visit stay in the map when another one is
    deleted. *)
Lemma todo_after_delete (ps : list (ProjId * Projectile))
    (proj : Projectile) (rest : list Projectile) :
  NoDup (map id (proj :: rest)) ->
  (forall p, In p (proj :: rest) -> In (id p, p) ps) ->
  forall p, In p rest ->
            In (id p, p) (Dict.delete ProjId_eqb (id proj) ps).
Proof.
  intros ND Hin p Hp.
  apply (In_delete ProjId_eqb ProjId_eqb_spec). split.
  - apply Hin. now right.
  - cbn [fst]. intros E. inversion ND as [|? ? Hn _]; subst.
    apply Hn. rewrite <- E. now apply in_map.
Qed.

Lemma despawnLoop_linked (n : nat) (projs : list Projectile) :
  forall (w : World) (events : list StepEvent),
  NoDup (map id projs) ->
  (forall p, In p projs -> In (id p, p) (projectiles w)) ->
  linked n w -> linked n (fst (despawnLoop projs w events)).
Proof.
  induction projs as [|proj projs IH]; intros w events ND Hin L;
    cbn [despawnLoop].
  - exact L.
  - assert (ND' : NoDup (map id projs)) by now inversion ND.
    destruct (outOfBounds (constants w) proj).
    + apply IH; [assumption| |].
      * rewrite projectiles_remove. now apply todo_after_delete.
      * apply linked_remove; [|exact L]. apply Hin. now left.
    + apply IH; [assumption| |exact L].
      intros p Hp. apply Hin. now right.
Qed.

Lemma hitTanks_linked (n : nat) (proj : Projectile) (hr : Q)
    (entries : list (string * Tank)) :
  forall (w : World) (events : list StepEvent),
  (forall s tk, In (s, tk) entries -> getTank w s = Some tk) ->
  In (id proj, proj) (projectiles w) ->
  linked n w ->
  let w' := fst (hitTanks entries w proj hr events) in
  linked n w'
  /\ (projectiles w' = projectiles w
      \/ projectiles w' = Dict.delete ProjId_eqb (id proj) (projectiles w)).
Proof.
  induction entries as [|[ts tg] entries IH]; intros w events He Hin L;
    cbn [hitTanks].
  - split; [exact L|now left].
  - assert (He' : forall s tk, In (s, tk) entries -> getTank w s = Some tk).
    { intros s tk H. apply He. now right. }
    destruct (String.eqb ts (owner proj)); [now apply IH|].
    destruct (hp tg <=? 0)%Z; [now apply IH|].
    destruct (JS.leb _ _); [|now apply IH].
    cbn [fst].
    set (w1 := putTank w ts _).
    assert (L1 : linked n w1).
    { apply (linked_putTank n w ts tg); [apply He; now left|reflexivity|exact L]. }
    split.
    + apply linked_remove; [exact Hin|exact L1].
    + right. now rewrite projectiles_remove.
Qed.

Lemma hitLoop_linked (n : nat) (hr : Q) (projs : list Projectile) :
  forall (w : World) (events : list StepEvent),
  NoDup (map id projs) ->
  (forall p, In p projs -> In (id p, p) (projectiles w)) ->
  linked n w -> linked n (fst (hitLoop projs w hr events)).
Proof.
  induction projs as [|proj projs IH]; intros w events ND Hin L;
    cbn [hitLoop].
  - exact L.
  - assert (ND' : NoDup (map id projs)) by now inversion ND.
    pose proof (hitTanks_linked n proj hr (tanks w) w events) as H.
    destruct (hitTanks (tanks w) w proj hr events) as [w1 ev1].
    cbn [fst] in H. destruct H as (L1 & P1).
    + intros s tk Hs. apply (In_get String.eqb String.eqb_eq); [apply L|exact Hs].
    + apply Hin. now left.
    + exact L.
    + apply IH; [assumption| |exact L1].
      destruct P1 as [-> | ->].
      * intros p Hp. apply Hin. now right.
      * now apply todo_after_delete.
Qed.

Lemma values_in (ps : list (ProjId * Projectile)) (p : Projectile) :
  (forall k q, In (k, q) ps -> id q = k) ->
  In p (Dict.values ps) -> In (id p, p) ps.
Proof.
  intros Hk Hp. unfold Dict.values in Hp. apply in_map_iff in Hp.
  destruct Hp as ([k q] & <- & Hin). cbn [snd].
  now rewrite (Hk k q Hin).
Qed.

Lemma values_ids (ps : list (ProjId * Projectile)) :
  (forall k q, In (k, q) ps -> id q = k) ->
  map id (Dict.values ps) = Dict.keys ps.
Proof.
  intros Hk. unfold Dict.values, Dict.keys. rewrite map_map.
  apply map_ext_in. intros [k q] Hin. cbn [fst snd]. now apply Hk.
Qed.

(** A whole tick keeps the links. *)
Lemma step_linked (n : nat) (w : World) :
  linked n w -> linked n (fst (step w)).
Proof.
  intros L. rewrite step_phases. cbv zeta. cbn [fst].
  set (dt := 1 / TICK_RATE (constants w)).
  apply linked_time.
  assert (L0 : linked n (fst (applyActiveActions w dt))).
  { pose proof (applyLoop_spec dt (Dict.keys (tanks w)) (proj1 L) w []) as HA.
    cbv zeta in HA. fold (applyActiveActions w dt) in HA.
    destruct HA as (K0 & _ & _ & P0 & Tk0 & N0 & _).
    apply (linked_tanks n w); [|exact P0|exact L].
    split; [exact K0|]. intros s.
    destruct (getTank w s) as [tk|] eqn:G.
    - destruct (Tk0 s tk G) as (tk' & G' & Hin & _). rewrite G'.
      specialize (Hin (getTank_Some_key _ _ _ G)).
      destruct (tickTank_fields (constants w) (t w) dt tk) as (_ & F & _).
      rewrite <- F. exact (f_equal activeProjectileId Hin).
    - now rewrite (N0 s G). }
  pose proof (linked_move n _ dt L0) as L1.
  set (moved := moveProjectiles (fst (applyActiveActions w dt)) dt) in *.
  assert (K1 : forall k q, In (k, q) (projectiles moved) -> id q = k).
  { intros k q H. now destruct (proj1 (proj2 (proj2 L1)) k q H). }
  assert (L2 : linked n
                 (fst (despawnLoop (Dict.values (projectiles moved)) moved []))).
  { apply despawnLoop_linked; [| |exact L1].
    - rewrite values_ids by exact K1. apply L1.
    - intros p. now apply values_in. }
  set (desp := fst (despawnLoop (Dict.values (projectiles moved)) moved [])) in *.
  assert (K2 : forall k q, In (k, q) (projectiles desp) -> id q = k).
  { intros k q H. now destruct (proj1 (proj2 (proj2 L2)) k q H). }
  apply hitLoop_linked; [| |exact L2].
  - rewrite values_ids by exact K2. apply L2.
  - intros p. now apply values_in.
Qed.
End LinkLoops.

Section LinkOps.
Context {M : MathLib}.
Import TickView Step TankApi Run Props.

Lemma counter_fresh (n : nat) (w : World) :
  linked n w -> Dict.get ProjId_eqb (proj_ n) (projectiles w) = None.
Proof.
  intros (_ & _ & Ha & _).
  apply (get_None_keys ProjId_eqb ProjId_eqb_spec). intros Hin.
  unfold Dict.keys in Hin. apply in_map_iff in Hin.
  destruct Hin as ([k p] & E & Hin). cbn [fst] in E. subst k.
  destruct (Ha _ _ Hin) as (_ & (i & [= <-] & Hi) & _). lia.
Qed.

Lemma shoot_linked (n n' : nat) (w w' : World) (s : string) (b : bool) :
  linked n w -> shoot n w s = Some (n', w', b) -> linked n' w'.
Proof.
  intros L E. destruct (getTank w s) as [tk|] eqn:G.
  2:{ unfold shoot in E. now rewrite G in E. }
  rewrite (shoot_present _ _ _ _ G) in E.
  destruct (activeProjectileId tk) eqn:A; injection E as <- <- <-;
    [exact L|].
  pose proof (counter_fresh n w L) as Fresh.
  destruct L as (ND & NDp & Ha & Hb).
  set (sp := spawned (constants w) n s tk).
  set (ps := Dict.set ProjId_eqb (proj_ n) sp (projectiles w)).
  set (tk1 := tank_with_projectile tk (Some (proj_ n))).
  set (w1 := putTank (world_with_projectiles w ps) s tk1).
  assert (GT : forall s', getTank w1 s'
                          = if String.eqb s s' then Some tk1
                            else getTank w s').
  { intros s'. exact (getTank_putTank (world_with_projectiles w ps) s s' tk1). }
  assert (PR : projectiles w1 = ps) by reflexivity.
  assert (TK : tanks w1 = Dict.set String.eqb s tk1 (tanks w)) by reflexivity.
  unfold linked. rewrite PR, TK.
  split; [apply NoDup_keys_set; auto using String.eqb_eq|].
  split; [apply NoDup_keys_set; auto using ProjId_eqb_spec|]. split.
  - intros k p Hin. apply (In_set ProjId_eqb ProjId_eqb_spec) in Hin.
    destruct Hin as [[= -> ->]|Hin].
    + split; [reflexivity|]. split; [exists n; split; [reflexivity|lia]|].
      exists tk1. split; [|reflexivity].
      rewrite GT. cbn [owner sp spawned]. now rewrite String.eqb_refl.
    + destruct (Ha k p Hin) as (I & (i & Ei & Hi) & tk0 & G0 & A0).
      split; [assumption|]. split; [exists i; split; [assumption|lia]|].
      rewrite GT. destruct (String.eqb_spec s (owner p)) as [Eo|No].
      * exfalso. rewrite <- Eo in G0. congruence.
      * exists tk0. auto.
  - intros s' tk' pid G' A'. rewrite GT in G'.
    destruct (String.eqb_spec s s') as [<-|No].
    + injection G' as <-. injection A' as <-. exists sp.
      split; [apply (In_set_same ProjId_eqb ProjId_eqb_spec)|reflexivity].
    + destruct (Hb s' tk' pid G' A') as (p & Hp & O).
      exists p. split; [|exact O].
      apply (In_set_other ProjId_eqb ProjId_eqb_spec); [exact Hp|].
      cbn [fst]. intros ->.
      apply (get_None_keys ProjId_eqb ProjId_eqb_spec) in Fresh.
      apply Fresh. unfold Dict.keys.
      change (proj_ n) with (fst (proj_ n, p)). now apply in_map.
Qed.

Lemma exec_linked (op : Op) (n n' : nat) (w w' : World) :
  linked n w -> exec op (n, w) = Some (n', w') -> linked n' w'.
Proof.
  intros L E. destruct op as [|s call|s|s]; simpl in E.
  - injection E as <- <-. now apply step_linked.
  - destruct (getTank w s) as [tk|] eqn:G.
    + rewrite (startAction_present _ _ _ _ G) in E.
      destruct (isIdle tk (t w)); injection E as <- <-; [|exact L].
      now apply (linked_putTank n w s tk).
    + now rewrite (startAction_absent _ _ _ G) in E.
  - destruct (shoot n w s) as [[[n1 w1] b]|] eqn:Es; [|discriminate].
    injection E as <- <-. eapply shoot_linked; eauto.
  - destruct (getTank w s) as [tk|] eqn:G.
    + rewrite (forfeit_present _ _ _ G) in E. injection E as <- <-.
      now apply (linked_putTank n w s tk).
    + unfold Match.forfeit in E. now rewrite G in E.
Qed.

Lemma createWorld_linked (seed0 : Z) (c : Constants)
    (players : option (list Player)) :
  linked (fst (createWorld seed0 c players))
    (snd (createWorld seed0 c players)).
Proof.
  destruct (createWorld_inv seed0 c players
              (fun tk => activeProjectileId tk = None))
    as (-> & _ & _ & P & ND & H); [reflexivity|].
  unfold linked. rewrite P. split; [exact ND|]. split; [constructor|].
  split; [intros k p []|].
  intros s tk pid G A. rewrite (H s tk G) in A. discriminate.
Qed.

(** Every state of a match is linked. *)
Lemma reachable_linked (c : Constants) (st : nat * World) :
  reachable c st -> linked (fst st) (snd st).
Proof.
  intros R. induction R as [seed0 players|op [n w] [n' w'] R IH E].
  - apply createWorld_linked.
  - eapply exec_linked; eauto.
Qed.
End LinkOps.

(** ** Which projectiles a tick removes *)

Section Removal.
Context {M : MathLib}.
Import TickView Step TankApi Run Props.

Lemma absent_incl (ps ps' : list (ProjId * Projectile)) (k : ProjId) :
  incl ps' ps -> Dict.get ProjId_eqb k ps = None ->
  Dict.get ProjId_eqb k ps' = None.
Proof.
  intros I H. apply (get_None_keys ProjId_eqb ProjId_eqb_spec) in H.
  apply (get_None_keys ProjId_eqb ProjId_eqb_spec). intros C. apply H.
  unfold Dict.keys in *. apply in_map_iff in C. destruct C as (e & E & Hin).
  apply in_map_iff. exists e. split; [assumption|]. now apply I.
Qed.

Lemma absent_frame (w w' : World) (k : ProjId) :
  removal_frame w w' ->
  Dict.get ProjId_eqb k (projectiles w) = None ->
  Dict.get ProjId_eqb k (projectiles w') = None.
Proof. intros (_ & _ & _ & I). now apply absent_incl. Qed.

Lemma constants_remove (w : World) (proj : Projectile) :
  constants (deleteProjectile (clearProjectileFromOwner w proj) (id proj))
  = constants w.
Proof. now destruct (removeProjectile_frame w proj) as (_ & _ & C & _). Qed.

(** The despawn events of phase 2 are those of the visited projectiles
    that are out of bounds. *)
Lemma despawn_events (projs : list Projectile) :
  forall (w : World) (e : StepEvent),
  In e (snd (despawnLoop projs w []))
  <-> exists p, In p projs /\ outOfBounds (constants w) p = true
                /\ e = Despawn (id p) (owner p).
Proof.
  induction projs as [|proj projs IH]; intros w e; cbn [despawnLoop].
  - cbn. split; [contradiction|]. intros (p & [] & _).
  - destruct (outOfBounds (constants w) proj) eqn:O.
    + rewrite despawnLoop_events. cbn [snd app In]. rewrite IH.
      rewrite constants_remove. split.
      * intros [<-|(p & Hp & Op & E)].
        -- exists proj. split; [now left|auto].
        -- exists p. split; [now right|auto].
      * intros (p & [<-|Hp] & Op & E); [now left|right].
        exists p. auto.
    + rewrite IH. split.
      * intros (p & Hp & Op & E). exists p. split; [now right|auto].
      * intros (p & [<-|Hp] & Op & E); [congruence|]. exists p. auto.
Qed.

(** A visited projectile that is out of bounds is no longer in the map
    when phase 2 ends. *)
Lemma despawn_removed (projs : list Projectile) :
  forall (w : World) (events : list StepEvent) (p : Projectile),
  In p projs -> outOfBounds (constants w) p = true ->
  Dict.get ProjId_eqb (id p)
    (projectiles (fst (despawnLoop projs w events))) = None.
Proof.
  induction projs as [|proj projs IH]; intros w events p Hp Op;
    [contradiction|]. cbn [despawnLoop].
  destruct Hp as [->|Hp].
  - rewrite Op. eapply absent_frame; [apply despawnLoop_frame|].
    rewrite projectiles_remove.
    apply (get_delete_same ProjId_eqb).
  - destruct (outOfBounds (constants w) proj); [|now apply IH].
    apply IH; [exact Hp|]. now rewrite constants_remove.
Qed.

(** A projectile that hits is removed from the map. *)
Lemma hitTanks_removed (proj : Projectile) (hr : Q)
    (entries : list (string * Tank)) (w : World) (e : StepEvent) :
  In e (snd (hitTanks entries w proj hr [])) ->
  Dict.get ProjId_eqb (id proj)
    (projectiles (fst (hitTanks entries w proj hr []))) = None.
Proof.
  induction entries as [|[ts tg] entries IH]; cbn [hitTanks];
    [contradiction|].
  destruct (String.eqb ts (owner proj)); [exact IH|].
  destruct (hp tg <=? 0)%Z; [exact IH|].
  destruct (JS.leb _ _); [|exact IH].
  intros _. cbn [fst]. rewrite projectiles_remove.
  apply (get_delete_same ProjId_eqb).
Qed.

Lemma hitLoop_removed (hr : Q) (projs : list Projectile) :
  forall (w : World) (k : ProjId) (o tg : string) (dmg : Z),
  NoDup (Dict.keys (tanks w)) ->
  In (Hit k o tg dmg) (snd (hitLoop projs w hr [])) ->
  Dict.get ProjId_eqb k (projectiles (fst (hitLoop projs w hr []))) = None.
Proof.
  induction projs as [|proj projs IH]; intros w k o tg dmg ND Hin;
    cbn [hitLoop] in *; [contradiction|].
  pose proof (hitTanks_removed proj hr (tanks w) w) as HR.
  pose proof (hitTanks_kinds proj hr (tanks w) w) as HK.
  pose proof (hitTanks_frame proj hr (tanks w) w []) as HF.
  destruct (hitTanks (tanks w) w proj hr []) as [w1 ev1].
  cbn [fst snd] in *.
  assert (F1 : removal_frame w w1).
  { apply HF. intros s tk H.
    apply (In_get String.eqb String.eqb_eq); assumption. }
  assert (ND1 : NoDup (Dict.keys (tanks w1)))
    by (eapply NoDup_keys_frame; eauto).
  rewrite hitLoop_events in *. cbn [fst snd] in *.
  apply in_app_iff in Hin. destruct Hin as [Hin|Hin].
  - rewrite Forall_forall in HK.
    destruct (HK _ Hin) as (tg' & dmg' & [= -> _ _ _]).
    eapply absent_frame; [apply hitLoop_frame; exact ND1|].
    eapply HR; eauto.
  - eapply IH; eauto.
Qed.
End Removal.

Section StepRemovals.
Context {M : MathLib}.
Import TickView Step TankApi Run Props.

Lemma present_not_absent (ps : list (ProjId * Projectile)) (k : ProjId)
    (p : Projectile) :
  In (k, p) ps -> Dict.get ProjId_eqb k ps <> None.
Proof.
  intros Hin C. apply (get_None_keys ProjId_eqb ProjId_eqb_spec) in C.
  apply C. unfold Dict.keys. change k with (fst (k, p)). now apply in_map.
Qed.

(** An event of a tick belongs to the phase of its kind. *)
Lemma events_by_kind (comp : list Completed) (dsp hits me : list StepEvent)
    (e : StepEvent) :
  Forall (fun e => isDespawn e = true) dsp ->
  Forall (fun e => isHit e = true) hits ->
  Forall (fun e => isMatchEnd e = true) me ->
  In e (map completeEvent comp ++ dsp ++ hits ++ me) ->
  (isDespawn e = true -> In e dsp) /\ (isHit e = true -> In e hits).
Proof.
  intros Fd Fh Fm Hin. rewrite Forall_forall in Fd, Fh, Fm.
  rewrite !in_app_iff in Hin. destruct Hin as [H|[H|[H|H]]].
  - apply in_map_iff in H. destruct H as (d & <- & _).
    split; discriminate.
  - split; [auto|]. intros K. specialize (Fd _ H). destruct e; discriminate.
  - split; [|auto]. intros K. specialize (Fh _ H). destruct e; discriminate.
  - specialize (Fm _ H). split; intros K; destruct e; discriminate.
Qed.

Lemma hitLoop_isHit (hr : Q) (projs : list Projectile) (w : World) :
  Forall (fun e => isHit e = true) (snd (hitLoop projs w hr [])).
Proof.
  eapply Forall_impl; [|apply hitLoop_kinds].
  intros e (p & tg & dmg & _ & ->). reflexivity.
Qed.

(** What a tick does to the projectiles of a linked world. *)
Lemma step_removals (n : nat) (w : World) :
  linked n w ->
  let c := constants w in
  let dt := 1 / TICK_RATE c in
  (forall k p, In (k, p) (projectiles w) ->
     outOfBounds c (advance dt p) = true ->
     In (Despawn k (owner p)) (snd (step w))
     /\ Dict.get ProjId_eqb k (projectiles (fst (step w))) = None)
  /\ (forall k o, In (Despawn k o) (snd (step w)) ->
        exists p, In (k, p) (projectiles w) /\ o = owner p
                  /\ outOfBounds c (advance dt p) = true)
  /\ (forall k o tg dmg, In (Hit k o tg dmg) (snd (step w)) ->
        (exists p, In (k, p) (projectiles w) /\ o = owner p
                   /\ outOfBounds c (advance dt p) = false)
        /\ Dict.get ProjId_eqb k (projectiles (fst (step w))) = None)
  /\ (forall k p', In (k, p') (projectiles (fst (step w))) ->
        exists p, In (k, p) (projectiles w) /\ p' = advance dt p).
Proof.
  intros L c dt. rewrite step_phases. cbv zeta. fold c dt. cbn [fst snd].
  pose proof (applyLoop_spec dt (Dict.keys (tanks w)) (proj1 L) w []) as HA.
  cbv zeta in HA. fold (applyActiveActions w dt) in HA.
  destruct HA as (K0 & _ & C0 & P0 & Tk0 & N0 & _).
  assert (L0 : linked n (fst (applyActiveActions w dt))).
  { apply (linked_tanks n w); [|exact P0|exact L].
    split; [exact K0|]. intros s.
    destruct (getTank w s) as [tk|] eqn:G.
    - destruct (Tk0 s tk G) as (tk' & G' & Hin & _). rewrite G'.
      specialize (Hin (getTank_Some_key _ _ _ G)).
      destruct (tickTank_fields (constants w) (t w) dt tk) as (_ & F & _).
      rewrite <- F. exact (f_equal activeProjectileId Hin).
    - now rewrite (N0 s G). }
  set (applied := applyActiveActions w dt) in *.
  pose proof (linked_move n _ dt L0) as L1.
  set (moved := moveProjectiles (fst applied) dt) in *.
  assert (Cm : constants moved = c) by exact C0.
  assert (K1 : forall k q, In (k, q) (projectiles moved) -> id q = k).
  { intros k q H. now destruct (proj1 (proj2 (proj2 L1)) k q H). }
  assert (Pm : forall k q, In (k, q) (projectiles moved)
                           <-> exists p, In (k, p) (projectiles w)
                                         /\ q = advance dt p).
  { intros k q. unfold moved, moveProjectiles.
    cbn [projectiles world_with_projectiles]. rewrite P0, in_map_iff. split.
    - intros ([k0 p0] & [= <- <-] & Hin). eauto.
    - intros (p & Hin & ->). exists (k, p). auto. }
  pose proof (despawnLoop_frame (Dict.values (projectiles moved)) moved [])
    as Fd.
  assert (L2 : linked n
                 (fst (despawnLoop (Dict.values (projectiles moved)) moved []))).
  { apply despawnLoop_linked; [| |exact L1].
    - rewrite values_ids by exact K1. apply L1.
    - intros p. now apply values_in. }
  pose proof (despawn_events (Dict.values (projectiles moved)) moved) as Ed.
  pose proof (despawn_removed (Dict.values (projectiles moved)) moved [])
    as Rd.
  pose proof (despawnLoop_kinds (Dict.values (projectiles moved)) moved)
    as Kd.
  set (desp := despawnLoop (Dict.values (projectiles moved)) moved []) in *.
  assert (K2 : forall k q, In (k, q) (projectiles (fst desp)) -> id q = k).
  { intros k q H. now destruct (proj1 (proj2 (proj2 L2)) k q H). }
  set (hr := (PROJECTILE_RADIUS c + TANK_RADIUS c)
             * (PROJECTILE_RADIUS c + TANK_RADIUS c)).
  pose proof (hitLoop_frame hr (Dict.values (projectiles (fst desp)))
                (fst desp) [] (proj1 L2)) as Fh.
  pose proof (hitLoop_kinds hr (Dict.values (projectiles (fst desp)))
                (fst desp)) as Kh.
  pose proof (hitLoop_isHit hr (Dict.values (projectiles (fst desp)))
                (fst desp)) as Kh'.
  pose proof (hitLoop_removed hr (Dict.values (projectiles (fst desp)))
                (fst desp)) as Rh.
  set (hits := hitLoop (Dict.values (projectiles (fst desp))) (fst desp)
                 hr []) in *.
  set (final := world_with_t (fst hits) (t (fst hits) + dt)).
  pose proof (matchEndCheck_kinds final) as Km.
  change (projectiles final) with (projectiles (fst hits)).
  rewrite Cm in *.
  split; [|split; [|split]].
  - intros k p Hin Oob.
    assert (Hq : In (advance dt p) (Dict.values (projectiles moved))).
    { unfold Dict.values. apply in_map_iff. exists (k, advance dt p).
      split; [reflexivity|]. apply Pm. eauto. }
    assert (Ek : id p = k) by (now destruct (proj1 (proj2 (proj2 L)) k p Hin)).
    split.
    + apply in_app_iff. right. apply in_app_iff. left.
      apply Ed. exists (advance dt p). cbn [id owner advance].
      rewrite Ek. auto.
    + eapply absent_frame; [exact Fh|].
      specialize (Rd (advance dt p) Hq Oob). cbn [id advance] in Rd.
      now rewrite Ek in Rd.
  - intros k o Hin.
    destruct (events_by_kind _ _ _ _ _ Kd Kh' Km Hin) as (Hd & _).
    specialize (Hd eq_refl). apply Ed in Hd.
    destruct Hd as (q & Hq & Oob & [= -> ->]).
    apply (values_in _ _ K1) in Hq. apply Pm in Hq.
    destruct Hq as (p & Hp & ->). exists p. cbn [id owner advance] in *.
    auto.
  - intros k o tg dmg Hin.
    destruct (events_by_kind _ _ _ _ _ Kd Kh' Km Hin) as (_ & Hh).
    specialize (Hh eq_refl). split; [|eapply Rh; [apply L2|exact Hh]].
    rewrite Forall_forall in Kh.
    destruct (Kh _ Hh) as (q & tg' & dmg' & Hq & [= -> -> _ _]).
    apply (values_in _ _ K2) in Hq.
    assert (Hm : In (id q, q) (projectiles moved)).
    { destruct Fd as (_ & _ & _ & I). now apply I. }
    destruct (proj1 (Pm _ _) Hm) as (p & Hp & ->).
    exists p. cbn [id owner advance] in *. split; [exact Hp|].
    split; [reflexivity|].
    destruct (outOfBounds c (advance dt p)) eqn:Oob; [|reflexivity].
    exfalso. apply (present_not_absent _ _ _ Hq).
    apply (Rd (advance dt p)); [|exact Oob].
    unfold Dict.values. apply in_map_iff. exists (id p, advance dt p).
    split; [reflexivity|exact Hm].
  - intros k p' Hin. apply Pm.
    destruct Fd as (_ & _ & _ & Id). destruct Fh as (_ & _ & _ & Ih).
    apply Id, Ih, Hin.
Qed.
End StepRemovals.

Section PhaseOrder.
Context {M : MathLib}.
Import TickView Step TankApi Run Props.

(** After a tick, a tank whose recorded projectile is gone from the map
    has no active projectile. *)
Lemma cleared_when_removed (n : nat) (w : World) (s : string) (tk : Tank)
    (pid : ProjId) :
  linked n w ->
  getTank w s = Some tk -> activeProjectileId tk = Some pid ->
  Dict.get ProjId_eqb pid (projectiles (fst (step w))) = None ->
  exists tk', getTank (fst (step w)) s = Some tk'
              /\ activeProjectileId tk' = None.
Proof.
  intros L G A Gone.
  destruct (step_frame w (proj1 L)) as (_ & _ & _ & Htk).
  specialize (Htk s). rewrite G in Htk.
  destruct (getTank (fst (step w)) s) as [tk'|] eqn:G'; [|contradiction].
  exists tk'. split; [reflexivity|].
  destruct Htk as (_ & _ & _ & _ & _ & _ & _ & _ & [P|P]); [|exact P].
  exfalso. rewrite A in P.
  destruct (step_linked n w L) as (_ & _ & _ & Hb).
  destruct (Hb s tk' pid G' P) as (p & Hp & _).
  exact (present_not_absent _ _ _ Hp Gone).
Qed.

(** The order of the phases of a tick, and what it means for the events
    of the tick. *)
Lemma step_phase_facts (n : nat) (w : World) :
  linked n w ->
  let c := constants w in
  let dt := 1 / TICK_RATE c in
  let hr := (PROJECTILE_RADIUS c + TANK_RADIUS c)
            * (PROJECTILE_RADIUS c + TANK_RADIUS c) in
  let applied := applyActiveActions w dt in
  let moved := moveProjectiles (fst applied) dt in
  let despawned := despawnLoop (Dict.values (projectiles moved)) moved [] in
  let hit :=
    hitLoop (Dict.values (projectiles (fst despawned))) (fst despawned)
      hr [] in
  let final := world_with_t (fst hit) (t (fst hit) + dt) in
  step w
  = (final,
     map completeEvent (snd applied) ++ snd despawned ++ snd hit
     ++ matchEndCheck final [])
  /\ t (fst (step w)) = t w + dt
  /\ (forall s ty,
        (exists res, In (ActionComplete s ty res) (snd (step w)))
        <-> exists tk a,
              getTank w s = Some tk /\ activeAction tk = Some a
              /\ (0 < hp tk)%Z /\ busyUntil tk - EPSILON <= t w + dt
              /\ ty = action_type a)
  /\ (forall k p, In (k, p) (projectiles w) ->
        outOfBounds c (advance dt p) = true ->
        In (Despawn k (owner p)) (snd (step w))
        /\ (forall o tg dmg, ~ In (Hit k o tg dmg) (snd (step w)))
        /\ Dict.get ProjId_eqb k (projectiles (fst (step w))) = None
        /\ exists tk', getTank (fst (step w)) (owner p) = Some tk'
                       /\ activeProjectileId tk' = None)
  /\ (forall k o, In (Despawn k o) (snd (step w)) ->
        exists p, In (k, p) (projectiles w) /\ o = owner p
                  /\ outOfBounds c (advance dt p) = true)
  /\ (forall k o tg dmg, In (Hit k o tg dmg) (snd (step w)) ->
        exists p, In (k, p) (projectiles w) /\ o = owner p
                  /\ outOfBounds c (advance dt p) = false).
Proof.
  intros L c dt hr applied moved despawned hit final.
  destruct (step_removals n w L) as (R1 & R2 & R3 & _).
  fold c dt in R1, R2, R3.
  split; [apply step_phases|].
  split; [apply (step_frame w (proj1 L))|].
  split; [|split; [|split]].
  - intros s ty. rewrite (step_actionComplete w s ty (proj1 L)).
    fold c dt. split.
    + intros (tk & a & G & A & E & T). exists tk, a.
      assert (Hhp : (0 < hp tk)%Z).
      { unfold expires in E. apply andb_true_iff in E. destruct E as [E _].
        apply negb_true_iff, Z.leb_gt in E. exact E. }
      repeat split; auto. now apply (expires_true (t w) dt tk a).
    + intros (tk & a & G & A & Hhp & B & T). exists tk, a.
      repeat split; auto. now apply (expires_true (t w) dt tk a).
  - intros k p Hin Oob. destruct (R1 k p Hin Oob) as (Ev & Gone).
    split; [exact Ev|]. split; [|split; [exact Gone|]].
    + intros o tg dmg Hh.
      destruct (R3 k o tg dmg Hh) as ((p2 & Hp2 & _ & Oob2) & _).
      assert (p2 = p).
      { pose proof (In_get ProjId_eqb ProjId_eqb_spec _ _ _
                      (proj1 (proj2 L)) Hp2) as G1.
        pose proof (In_get ProjId_eqb ProjId_eqb_spec _ _ _
                      (proj1 (proj2 L)) Hin) as G2.
        congruence. }
      subst p2. congruence.
    + destruct (proj1 (proj2 (proj2 L)) k p Hin) as (_ & _ & tk & G & A).
      exact (cleared_when_removed n w (owner p) tk k L G A Gone).
  - exact R2.
  - intros k o tg dmg Hh. exact (proj1 (R3 k o tg dmg Hh)).
Qed.

(** C5.  In every state of a match, [shoot] for a tank with an active
    projectile returns false and changes neither the world nor the
    counter, and it returns false only then; otherwise it returns true,
    takes an id that no projectile of the world has, inserts the
    projectile at offset [TANK_RADIUS + PROJECTILE_RADIUS + 1] along the
    heading with velocity [PROJECTILE_SPEED] times the heading's unit
    vector, and records the id as the tank's active projectile.  When the
    next tick removes the active projectile (by a despawn or by a hit),
    the tank has no active projectile afterwards and [shoot] returns true
    again. *)
Theorem shoot_one_shot_rule (c : Constants) (st : nat * World) (s : string)
    (tk : Tank) :
  reachable c st ->
  getTank (snd st) s = Some tk ->
  let n := fst st in
  let w := snd st in
  let rad := headingDeg tk * DEG2RAD in
  ((exists n' w', shoot n w s = Some (n', w', false))
   <-> activeProjectileId tk <> None)
  /\ (activeProjectileId tk <> None -> shoot n w s = Some (n, w, false))
  /\ (activeProjectileId tk = None ->
      exists w' proj,
        shoot n w s = Some (S n, w', true)
        /\ Dict.get ProjId_eqb (proj_ n) (projectiles w) = None
        /\ Dict.get ProjId_eqb (proj_ n) (projectiles w') = Some proj
        /\ (forall k, k <> proj_ n ->
              Dict.get ProjId_eqb k (projectiles w')
              = Dict.get ProjId_eqb k (projectiles w))
        /\ id proj = proj_ n /\ owner proj = s
        /\ p_x proj
           = x tk + Math_cos rad
                    * (TANK_RADIUS (constants w)
                       + PROJECTILE_RADIUS (constants w) + 1)
        /\ p_y proj
           = y tk + Math_sin rad
                    * (TANK_RADIUS (constants w)
                       + PROJECTILE_RADIUS (constants w) + 1)
        /\ vx proj = Math_cos rad * PROJECTILE_SPEED (constants w)
        /\ vy proj = Math_sin rad * PROJECTILE_SPEED (constants w)
        /\ (Math_cos rad * Math_cos rad + Math_sin rad * Math_sin rad == 1 ->
            vx proj * vx proj + vy proj * vy proj
            == PROJECTILE_SPEED (constants w) * PROJECTILE_SPEED (constants w))
        /\ getTank w' s = Some (tank_with_projectile tk (Some (proj_ n))))
  /\ (forall pid, activeProjectileId tk = Some pid ->
      ((exists o, In (Despawn pid o) (snd (step w)))
       \/ (exists o tg dmg, In (Hit pid o tg dmg) (snd (step w)))) ->
      Dict.get ProjId_eqb pid (projectiles (fst (step w))) = None
      /\ exists tk',
           getTank (fst (step w)) s = Some tk'
           /\ activeProjectileId tk' = None
           /\ exists w'', shoot n (fst (step w)) s = Some (S n, w'', true)).
Proof.
  intros R G n w rad. pose proof (reachable_linked c st R) as L.
  fold n w in L, G.
  split; [|split; [|split]].
  - rewrite (shoot_present _ _ _ _ G). split.
    + intros (n' & w' & E). destruct (activeProjectileId tk); [discriminate|].
      discriminate E.
    + intros H. destruct (activeProjectileId tk); [eauto|contradiction].
  - intros H. rewrite (shoot_present _ _ _ _ G).
    destruct (activeProjectileId tk); [reflexivity|contradiction].
  - intros A. rewrite (shoot_present _ _ _ _ G), A.
    eexists. exists (spawned (constants w) n s tk).
    split; [reflexivity|]. split; [now apply counter_fresh|].
    split; [apply (get_set_same ProjId_eqb ProjId_eqb_spec)|].
    split.
    { intros k Hk.
      apply (get_set_other ProjId_eqb ProjId_eqb_spec). congruence. }
    repeat (split; [reflexivity|]). split.
    + intros Hcs. cbn [vx vy spawned]. fold rad.
      set (cs := Math_cos rad) in *. set (sn := Math_sin rad) in *.
      set (v := PROJECTILE_SPEED (constants w)).
      transitivity ((cs * cs + sn * sn) * (v * v)); [ring|].
      rewrite Hcs. ring.
    + apply getTank_putTank_same.
  - intros pid A Hev.
    destruct (step_removals n w L) as (_ & R2 & R3 & _).
    assert (Gone : Dict.get ProjId_eqb pid (projectiles (fst (step w)))
                   = None).
    { destruct Hev as [(o & Hd)|(o & tg & dmg & Hh)].
      - destruct (R2 pid o Hd) as (p & Hp & _ & Oob).
        destruct (step_removals n w L) as (R1 & _).
        exact (proj2 (R1 pid p Hp Oob)).
      - exact (proj2 (R3 pid o tg dmg Hh)). }
    split; [exact Gone|].
    destruct (cleared_when_removed n w s tk pid L G A Gone)
      as (tk' & G' & A').
    exists tk'. split; [exact G'|]. split; [exact A'|].
    rewrite (shoot_present _ _ _ _ G'), A'. eauto.
Qed.
End PhaseOrder.

(** ** The rational math library *)

Section RationalMathFacts.

Lemma square_nonneg (v : Q) : 0 <= v * v.
Proof. nra. Qed.

Lemma RationalMath_den_pos (u : Q) : 0 < 1 + u * u.
Proof. pose proof (square_nonneg u). lra. Qed.

Lemma RationalMath_cos_bound (a : Q) :
  -1 <= RationalMath.cos a /\ RationalMath.cos a <= 1.
Proof.
  unfold RationalMath.cos. cbv zeta. set (u := a / 2).
  pose proof (RationalMath_den_pos u) as Hd.
  pose proof (square_nonneg u) as Huu.
  set (uu := u * u) in *.
  split.
  - apply Qle_shift_div_l; [exact Hd|]. lra.
  - apply Qle_shift_div_r; [exact Hd|]. lra.
Qed.

Lemma RationalMath_sin_bound (a : Q) :
  -1 <= RationalMath.sin a /\ RationalMath.sin a <= 1.
Proof.
  unfold RationalMath.sin. cbv zeta. set (u := a / 2).
  pose proof (RationalMath_den_pos u) as Hd.
  pose proof (square_nonneg (u - 1)) as H1.
  pose proof (square_nonneg (u + 1)) as H2.
  assert (E1 : (u - 1) * (u - 1) == u * u - 2 * u + 1) by ring.
  assert (E2 : (u + 1) * (u + 1) == u * u + 2 * u + 1) by ring.
  set (uu := u * u) in *.
  split.
  - apply Qle_shift_div_l; [exact Hd|]. lra.
  - apply Qle_shift_div_r; [exact Hd|]. lra.
Qed.

Lemma RationalMath_circle (a : Q) :
  RationalMath.cos a * RationalMath.cos a
  + RationalMath.sin a * RationalMath.sin a == 1.
Proof.
  unfold RationalMath.cos, RationalMath.sin. cbv zeta. set (u := a / 2).
  pose proof (RationalMath_den_pos u) as Hd.
  field. lra.
Qed.
End RationalMathFacts.

Section ScanTheorem.
Context {M : MathLib}.

(** In exact arithmetic [isInScanArc] is the test that the specification
    words over the real numbers: false beyond the range, else true for
    coinciding positions, else true for a full circle
    ([normalize a = normalize b]), else the comparison
    [normalize (relBearing - a) <= normalize (b - a)], with
    [normalize x = ((x mod 360) + 360) mod 360] and
    [relBearing = normalize (degrees (atan2 dy dx) - heading)].  For a
    scanner of heading 0 and a target due behind it within range (the
    bearing is [atan2 = PI]), the arc (170, -170) contains the target and
    the arc (-30, 30) does not. *)
Lemma isInScanArc_meets_spec (scanner : Scan.Pose) (target : Scan.Point)
    (range : Q) :
  (forall aDeg bDeg,
     Scan.isInScanArc scanner target aDeg bDeg range
     = ScanSpec.inArc scanner target aDeg bDeg range)
  /\ (forall x, ScanSpec.normalize x == Scan.normalizeDeg x
                /\ 0 <= Scan.normalizeDeg x /\ Scan.normalizeDeg x < 360)
  /\ (Scan.pheadingDeg scanner == 0 ->
      Scan.qy target == Scan.py scanner ->
      Scan.qx target < Scan.px scanner ->
      (Scan.px scanner - Scan.qx target) * (Scan.px scanner - Scan.qx target)
        <= range * range ->
      0 < Math_PI ->
      Math_atan2 (Scan.qy target - Scan.py scanner)
                 (Scan.qx target - Scan.px scanner) == Math_PI ->
      Scan.isInScanArc scanner target 170 (-170) range = true
      /\ Scan.isInScanArc scanner target (-30) 30 range = false).
Proof.
  split; [|split].
  - intros aDeg bDeg. apply isInScanArc_inArc.
  - intros x. split; [apply normalize_normalizeDeg|apply normalizeDeg_range].
  - apply rear_target_scans.
Qed.
End ScanTheorem.

Section HookTheorem.
Import World Actions TankApi.

(** C7, the code at the failing input.  With the watchdog hook installed,
    an accepted [moveForward] through the server API returns a pending
    promise and invokes nothing, while the browser API invokes the hook on
    the same input. *)
Theorem server_api_skips_hook :
  exists w1,
    startAction (snd Demo.start) "p1" CallMoveForward = Some (w1, true)
    /\ apiCall (armWatchdog createTankApi) (snd Demo.start) "p1"
         CallMoveForward
       = Some (w1,
               {| _pendingResolve := Some false;
                  _onActionStart := Some WatchdogReset |},
               Pending, [])
    /\ localTimedAction (armWatchdog createTankApi) (snd Demo.start) "p1"
         CallMoveForward false
       = Some (w1,
               {| _pendingResolve := Some false;
                  _onActionStart := Some WatchdogReset |},
               Pending, [HookInvoked WatchdogReset]).
Proof.
  eexists. split; [vm_compute; reflexivity|].
  split; vm_compute; reflexivity.
Qed.
End HookTheorem.

(** ** The scenarios of the test suite *)

Section Scenarios.
Import World Actions Step TankApi Run Props.
Local Open Scope string_scope.

(** A light tank at (100, 100) heading 0 moves forward: after exactly 60
    ticks it is at (260, 100), its heading is unchanged and it is idle. *)
Example forward_move_covers_exact_distance :
  let w := snd (Demo.after (Demo.pair 100 100 0 1000 700)
                  (OpStart "p1" CallMoveForward :: repeat OpStep 60)) in
  let tk := Demo.tankOf w "p1" in
  x tk == 260 /\ y tk == 100 /\ headingDeg tk == 0
  /\ activeAction tk = None /\ isIdle tk (t w) = true.
Proof. vm_compute. repeat split; reflexivity. Qed.

(** An opponent straight ahead is found by [scan(-30, 30)]. *)
Example scan_ahead_detects_opponent :
  Demo.scanValue (Demo.pair 100 100 0 200 100) (-30) 30 = Some true.
Proof. vm_compute. reflexivity. Qed.

(** An opponent due west of a scanner heading east is found by the
    wrap-around arc [scan(170, -170)] and not by [scan(-30, 30)]. *)
Example wrap_around_rear_arc :
  Demo.scanValue (Demo.pair 100 100 0 0 100) 170 (-170) = Some true
  /\ Demo.scanValue (Demo.pair 100 100 0 0 100) (-30) 30 = Some false.
Proof. vm_compute. split; reflexivity. Qed.

(** An opponent at distance 800 is out of the range 700, whatever its
    bearing; at distance 600 on the same bearing it is found. *)
Example out_of_range_rejection :
  Demo.scanValue (Demo.pair 0 0 90 0 800) (-45) 45 = Some false
  /\ Demo.scanValue (Demo.pair 0 0 90 0 600) (-45) 45 = Some true.
Proof. vm_compute. split; reflexivity. Qed.

(** The one-shot rule: a first shot is accepted, a second one right after
    is refused and changes nothing; five ticks later the projectile has
    left the arena, [activeProjectileId] is null and a shot is accepted
    again. *)
Example one_shot_rule :
  let st0 := Demo.pair 1150 100 0 100 700 in
  let st1 := Demo.after st0 [OpShoot "p1"] in
  let st2 := Demo.after st1 (repeat OpStep 5) in
  shoot (M := RationalMath.math) (fst st0) (snd st0) "p1"
  = Some (fst st1, snd st1, true)
  /\ activeProjectileId (Demo.tankOf (snd st1) "p1") = Some (proj_ 0)
  /\ Dict.keys (projectiles (snd st1)) = [proj_ 0]
  /\ shoot (M := RationalMath.math) (fst st1) (snd st1) "p1"
     = Some (fst st1, snd st1, false)
  /\ activeProjectileId (Demo.tankOf (snd st2) "p1") = None
  /\ projectiles (snd st2) = []
  /\ (exists st3, shoot (M := RationalMath.math) (fst st2) (snd st2) "p1"
                  = Some (st3, true)).
Proof.
  vm_compute. repeat split; try reflexivity. eexists. reflexivity.
Qed.
End Scenarios.

(** ** The concrete match: evaluations *)

Section Evaluations.
Import World Actions Step TankApi Run Props TickView.
Local Open Scope string_scope.

Ltac compute_eq := vm_compute; reflexivity.
Ltac compute_le := apply Qle_bool_iff; vm_compute; reflexivity.
Ltac compute_lt := apply Qlt_alt; vm_compute; reflexivity.

Lemma Demo_start_reachable :
  reachable (M := RationalMath.math) CONSTANTS Demo.start.
Proof. apply reach_create. Qed.

Lemma Demo_run_reachable (ops : list Op) :
  execAll (M := RationalMath.math) ops Demo.start = Some (Demo.run ops) ->
  reachable (M := RationalMath.math) CONSTANTS (Demo.run ops).
Proof.
  intros E. eapply execAll_reachable; [apply Demo_start_reachable|exact E].
Qed.

Lemma Demo_keys : NoDup (Dict.keys (tanks (snd Demo.start))).
Proof.
  vm_compute. repeat constructor; simpl; intuition discriminate.
Defined.

(** Witness of C8. *)
Lemma arena_containment_witness :
  Props.inArena CONSTANTS
    (Demo.tankOf
       (snd (Demo.run [OpStart "p1" CallMoveForward; OpStep; OpStep])) "p1").
Proof.
  apply (arena_containment (M := RationalMath.math) CONSTANTS
           (Demo.run [OpStart "p1" CallMoveForward; OpStep; OpStep]) "p1").
  - exact RationalMath_cos_bound.
  - exact RationalMath_sin_bound.
  - unfold roomy. repeat split; compute_le.
  - apply Demo_run_reachable. compute_eq.
  - compute_eq.
Defined.

(** Witness of C6 (corrected): the tank of p1 in the middle of a move. *)
Lemma busy_window_invariant_witness :
  t (snd (Demo.run [OpStart "p1" CallMoveForward; OpStep]))
  <= busyUntil
       (Demo.tankOf (snd (Demo.run [OpStart "p1" CallMoveForward; OpStep]))
          "p1").
Proof.
  refine (proj1
    (busy_window_invariant (M := RationalMath.math) CONSTANTS
       (Demo.run [OpStart "p1" CallMoveForward; OpStep]) "p1"
       (Demo.tankOf (snd (Demo.run [OpStart "p1" CallMoveForward; OpStep]))
          "p1") _ _ _ _) _).
  - unfold timed. split; [reflexivity|]. split; [discriminate|].
    intros []; discriminate.
  - apply Demo_run_reachable. compute_eq.
  - compute_eq.
  - reflexivity.
  - vm_compute. discriminate.
Defined.

(** Counterexample to C6: in the freshly created world the tank of p1 is
    alive and [busyUntil >= t] holds (both are 0), yet [activeAction] is
    null. *)
Lemma fresh_world_breaks_busy_iff :
  getTank (snd Demo.start) "p1"
  = Some (Demo.tankOf (snd Demo.start) "p1")
  /\ (0 < hp (Demo.tankOf (snd Demo.start) "p1"))%Z
  /\ ~ (t (snd Demo.start) <= busyUntil (Demo.tankOf (snd Demo.start) "p1")
        <-> activeAction (Demo.tankOf (snd Demo.start) "p1") <> None).
Proof.
  split; [compute_eq|]. split; [reflexivity|].
  intros [H _]. apply H; [compute_le|compute_eq].
Qed.

(** Witness of C4. *)
Lemma starters_accept_iff_idle_witness :
  exists w',
    startAction (snd Demo.start) "p1" (CallTurnLeft (Some 90))
    = Some (w', true)
    /\ busyUntil (Demo.tankOf w' "p1") == 3 # 4.
Proof.
  destruct (starters_accept_iff_idle (snd Demo.start) "p1"
              (CallTurnLeft (Some 90)) (Demo.tankOf (snd Demo.start) "p1"))
    as (w' & accepted & E & Hiff & Hacc & _); [compute_eq|].
  assert (A : accepted = true) by (apply Hiff; compute_le).
  subst accepted. exists w'. split; [exact E|].
  destruct (Hacc eq_refl) as (-> & _). vm_compute. reflexivity.
Defined.

(** Witness of C10: p1 started a move and then forfeited, so its tank is
    dead and inside a busy window; it still shoots. *)
Lemma shoot_ignores_hp_and_busy_witness :
  hp (Demo.tankOf
        (snd (Demo.run [OpStart "p1" CallMoveForward; OpForfeit "p1"])) "p1")
  = 0%Z
  /\ isIdle
       (Demo.tankOf
          (snd (Demo.run [OpStart "p1" CallMoveForward; OpForfeit "p1"]))
          "p1")
       (t (snd (Demo.run [OpStart "p1" CallMoveForward; OpForfeit "p1"])))
     = false
  /\ exists w',
       shoot (M := RationalMath.math) 0
         (snd (Demo.run [OpStart "p1" CallMoveForward; OpForfeit "p1"])) "p1"
       = Some (1%nat, w', true).
Proof.
  split; [reflexivity|]. split; [compute_eq|].
  destruct (shoot_ignores_hp_and_busy (M := RationalMath.math) 0
              (snd (Demo.run [OpStart "p1" CallMoveForward; OpForfeit "p1"]))
              "p1"
              (Demo.tankOf
                 (snd (Demo.run [OpStart "p1" CallMoveForward;
                                 OpForfeit "p1"])) "p1"))
    as (w' & E & _); [compute_eq|reflexivity|].
  exists w'. exact E.
Defined.

(** Witness of C5: after p1 fired, a second [shoot] is refused and
    changes nothing. *)
Lemma shoot_one_shot_rule_witness :
  shoot (M := RationalMath.math) (fst (Demo.run [OpShoot "p1"]))
    (snd (Demo.run [OpShoot "p1"])) "p1"
  = Some (fst (Demo.run [OpShoot "p1"]), snd (Demo.run [OpShoot "p1"]),
          false).
Proof.
  refine (proj1 (proj2
    (shoot_one_shot_rule (M := RationalMath.math) CONSTANTS
       (Demo.run [OpShoot "p1"]) "p1"
       (Demo.tankOf (snd (Demo.run [OpShoot "p1"])) "p1") _ _)) _).
  - apply Demo_run_reachable. compute_eq.
  - compute_eq.
  - vm_compute. discriminate.
Defined.



(** Witness of C2 (corrected): p1 turns left by 6 degrees, a duration of
    exactly 3 ticks; p1's call to moveForward after the first tick is
    rejected, p2 shoots, and the third tick completes the turn. *)
Lemma action_duration_law_witness :
  exists res,
    In (ActionComplete "p1" "turnLeft" res)
      (snd (step (M := RationalMath.math)
              (snd (Demo.run [OpStart "p1" (CallTurnLeft (Some 6));
                              OpStep; OpStart "p1" CallMoveForward; OpShoot "p2"; OpStep])))).
Proof.
  destruct (action_duration_law (M := RationalMath.math) CONSTANTS "p1"
              (CallTurnLeft (Some 6)) (snd Demo.start)
              (snd (Demo.run [OpStart "p1" (CallTurnLeft (Some 6))]))
              (Demo.tankOf (snd Demo.start) "p1")
              (fst (Demo.run [OpStart "p1" (CallTurnLeft (Some 6))]))
              [OpStep; OpStart "p1" CallMoveForward; OpShoot "p2"; OpStep]
              (fst (Demo.run [OpStart "p1" (CallTurnLeft (Some 6));
                              OpStep; OpStart "p1" CallMoveForward; OpShoot "p2"; OpStep]))
              (snd (Demo.run [OpStart "p1" (CallTurnLeft (Some 6));
                              OpStep; OpStart "p1" CallMoveForward; OpShoot "p2"; OpStep]))
              (Demo.tankOf
                 (snd (Demo.run [OpStart "p1" (CallTurnLeft (Some 6));
                                 OpStep; OpStart "p1" CallMoveForward; OpShoot "p2"; OpStep])) "p1")
              3%nat)
    as (_ & (tk'' & _ & _ & Hdone & _) & _).
  - reflexivity.
  - exact Demo_keys.
  - compute_eq.
  - compute_eq.
  - left. compute_lt.
  - compute_eq.
  - compute_eq.
  - reflexivity.
  - intros i Hi. cbn [stepsIn] in Hi.
    assert (Hc : i = 1%nat \/ i = 2%nat) by lia.
    destruct Hc as [-> | ->]; compute_lt.
  - apply Hdone. compute_le.
Defined.

(** Counterexample to C2: a turn by 0 degrees is accepted at time
    [0 = 0 * dt] with duration [0 = 0 * dt]; it has not completed at
    acceptance and completes during the first tick, tick [n + 1] and not
    tick [n + k = n + 0]. *)
Lemma zero_duration_completes_a_tick_later :
  startAction (snd Demo.start) "p1" (CallTurnLeft (Some 0))
  = Some (snd (Demo.run [OpStart "p1" (CallTurnLeft (Some 0))]), true)
  /\ t (snd Demo.start) == ofNat 0 * (1 / TICK_RATE CONSTANTS)
  /\ call_duration CONSTANTS (Demo.tankOf (snd Demo.start) "p1")
       (CallTurnLeft (Some 0))
     == ofNat 0 * (1 / TICK_RATE CONSTANTS)
  /\ activeAction
       (Demo.tankOf (snd (Demo.run [OpStart "p1" (CallTurnLeft (Some 0))]))
          "p1")
     = Some TurnLeft
  /\ In (ActionComplete "p1" "turnLeft" None)
       (snd (step (M := RationalMath.math)
               (snd (Demo.run [OpStart "p1" (CallTurnLeft (Some 0))]))))
  /\ ~ (call_duration CONSTANTS (Demo.tankOf (snd Demo.start) "p1")
          (CallTurnLeft (Some 0)) - EPSILON
        <= ofNat 1 * (1 / TICK_RATE CONSTANTS)
        <-> 1%nat = 0%nat).
Proof.
  split; [compute_eq|]. split; [reflexivity|]. split; [reflexivity|].
  split; [compute_eq|]. split.
  - vm_compute. left. reflexivity.
  - intros [H _]. discriminate H. compute_le.
Qed.

(** Witness of C9: p1 turns left by 6 degrees; after the 3 ticks of the
    window the heading has moved by 3 times 2 degrees. *)
Lemma turn_rotation_witness :
  exists tk'',
    getTank
      (fst (step (M := RationalMath.math)
              (snd (Demo.run [OpStart "p1" (CallTurnLeft (Some 6));
                              OpStep; OpStep])))) "p1"
    = Some tk''
    /\ activeAction tk'' = None
    /\ headingDeg tk''
       == Scan.normalizeDeg
            (headingDeg (Demo.tankOf (snd Demo.start) "p1")
             - ofNat 3 * (120 * (1 / 60))).
Proof.
  refine (proj1
    (turn_rotation (M := RationalMath.math) CONSTANTS "p1" true (Some 6)
       (snd Demo.start)
       (snd (Demo.run [OpStart "p1" (CallTurnLeft (Some 6))]))
       (Demo.tankOf (snd Demo.start) "p1")
       (fst (Demo.run [OpStart "p1" (CallTurnLeft (Some 6))]))
       [OpStep; OpStep]
       (fst (Demo.run [OpStart "p1" (CallTurnLeft (Some 6)); OpStep; OpStep]))
       (snd (Demo.run [OpStart "p1" (CallTurnLeft (Some 6)); OpStep; OpStep]))
       (Demo.tankOf
          (snd (Demo.run [OpStart "p1" (CallTurnLeft (Some 6));
                          OpStep; OpStep])) "p1")
       _ _ _ _ _ _ _ _ _ _)).
  - reflexivity.
  - exact Demo_keys.
  - compute_eq.
  - compute_eq.
  - right. reflexivity.
  - compute_eq.
  - compute_eq.
  - reflexivity.
  - intros i Hi. cbn [stepsIn] in Hi.
    assert (Hc : i = 1%nat \/ i = 2%nat) by lia.
    destruct Hc as [-> | ->]; compute_lt.
  - compute_le.
Defined.
End Evaluations.

(** * Further properties of the code *)

Section PrngFacts.
Import PrngRun.

Lemma toInt32_range (z : Z) : (- 2 ^ 31 <= JS.toInt32 z < 2 ^ 31)%Z.
Proof.
  unfold JS.toInt32.
  pose proof (Z.mod_pos_bound (z + 2 ^ 31) (2 ^ 32) ltac:(lia)). lia.
Qed.

Lemma toInt32_eq (a b : Z) :
  JS.toInt32 a = JS.toInt32 b <-> ((a - b) mod 2 ^ 32 = 0)%Z.
Proof.
  unfold JS.toInt32. split.
  - intros E.
    assert (E' : ((a + 2 ^ 31) mod 2 ^ 32 = (b + 2 ^ 31) mod 2 ^ 32)%Z) by lia.
    replace (a - b)%Z with ((a + 2 ^ 31) - (b + 2 ^ 31))%Z by ring.
    rewrite Zminus_mod, E', Z.sub_diag. reflexivity.
  - intros E. f_equal.
    replace (a + 2 ^ 31)%Z with ((b + 2 ^ 31) + (a - b))%Z by ring.
    rewrite Zplus_mod, E, Z.add_0_r, Z.mod_mod by lia. reflexivity.
Qed.

Lemma toInt32_add (a c : Z) : JS.toInt32 (JS.toInt32 a + c) = JS.toInt32 (a + c).
Proof.
  apply toInt32_eq.
  replace (JS.toInt32 a + c - (a + c))%Z with (JS.toInt32 a - a)%Z by ring.
  unfold JS.toInt32.
  replace ((a + 2 ^ 31) mod 2 ^ 32 - 2 ^ 31 - a)%Z
    with ((a + 2 ^ 31) mod 2 ^ 32 - (a + 2 ^ 31))%Z by ring.
  rewrite Zminus_mod, Z.mod_mod, Z.sub_diag by lia. reflexivity.
Qed.

Lemma fst_random (s : Z) : fst (Prng.random s) = JS.toInt32 (s + 0x6d2b79f5).
Proof. reflexivity. Qed.

Lemma stateAfter_closed (n : nat) (seed : Z) :
  stateAfter n (Prng.createPRNG seed)
  = JS.toInt32 (seed + Z.of_nat n * 0x6d2b79f5).
Proof.
  induction n as [|n IH].
  - simpl. unfold Prng.createPRNG. f_equal. lia.
  - change (stateAfter (S n) (Prng.createPRNG seed))
      with (fst (Prng.random (stateAfter n (Prng.createPRNG seed)))).
    rewrite IH, fst_random, toInt32_add. f_equal. lia.
Qed.

Lemma random_bounds (s : Z) :
  0 <= snd (Prng.random s) /\ snd (Prng.random s) < 1
  /\ (exists k : Z, (0 <= k < 2 ^ 32)%Z
                    /\ snd (Prng.random s) = inject_Z k / 4294967296)
  /\ (- 2 ^ 31 <= fst (Prng.random s) < 2 ^ 31)%Z.
Proof.
  unfold Prng.random. cbv zeta. cbn [fst snd].
  set (v := JS.ushr _ 0).
  assert (Hv : (0 <= v < 2 ^ 32)%Z).
  { unfold v, JS.ushr, JS.toUint32. rewrite Z.shiftr_0_r.
    apply Z.mod_pos_bound. lia. }
  split; [|split; [|split]].
  - apply Qle_shift_div_l; [reflexivity|]. rewrite Qmult_0_l.
    change 0 with (inject_Z 0). rewrite <- Zle_Qle. lia.
  - apply Qlt_shift_div_r; [reflexivity|]. rewrite Qmult_1_l.
    change 4294967296 with (inject_Z (2 ^ 32)). rewrite <- Zlt_Qlt. lia.
  - exists v. split; [exact Hv|reflexivity].
  - apply toInt32_range.
Qed.

(** X1.  Every call of the generator returns a multiple of [2^-32] in
    [[0, 1)], whatever the captured state is, and leaves a signed 32-bit
    integer as the new state. *)
Theorem random_in_unit_interval (s : Z) :
  0 <= snd (Prng.random s) /\ snd (Prng.random s) < 1
  /\ (exists k : Z, (0 <= k < 2 ^ 32)%Z
                    /\ snd (Prng.random s) = inject_Z k / 4294967296)
  /\ (- 2 ^ 31 <= fst (Prng.random s) < 2 ^ 31)%Z.
Proof. apply random_bounds. Qed.

(** X2.  The generator depends on the seed modulo [2^32] only, and its
    captured state has period exactly [2^32]: the states after [i] and
    after [j] calls coincide exactly when [i] and [j] differ by a multiple
    of [2^32]. *)
Theorem prng_state_period (seed : Z) (i j : nat) (k : Z) :
  Prng.createPRNG (seed + k * 2 ^ 32) = Prng.createPRNG seed
  /\ (stateAfter i (Prng.createPRNG seed) = stateAfter j (Prng.createPRNG seed)
      <-> ((Z.of_nat i - Z.of_nat j) mod 2 ^ 32 = 0)%Z).
Proof.
  split.
  - unfold Prng.createPRNG. apply toInt32_eq.
    replace (seed + k * 2 ^ 32 - seed)%Z with (k * 2 ^ 32)%Z by ring.
    apply Z.mod_mul. lia.
  - rewrite !stateAfter_closed, toInt32_eq.
    replace (seed + Z.of_nat i * 1831565813
             - (seed + Z.of_nat j * 1831565813))%Z
      with (1831565813 * (Z.of_nat i - Z.of_nat j))%Z by ring.
    set (d := (Z.of_nat i - Z.of_nat j)%Z).
    rewrite !Z.mod_divide by lia. split.
    + intros H. apply (Z.gauss _ 1831565813); [exact H|].
      vm_compute. reflexivity.
    + intros H. now apply Z.divide_mul_r.
Qed.
End PrngFacts.

Section ScanFacts.
Context {M : MathLib}.
Import World Actions.


End ScanFacts.

Section WorldFacts.
Context {M : MathLib}.
Import World Actions Step TankApi Run Props TickView WorldReset Facts.

Lemma createWorld_lineup (seed0 : Z) (c : Constants)
    (players : option (list Player)) :
  createWorld seed0 c players = createWorld seed0 c (Some (lineup players)).
Proof. destruct players as [[|p ps]|]; reflexivity. Qed.

(** The spawn loop, player by player. *)
Lemma spawnTanks_roster (c : Constants) (cx cy radius off : Q) (n : nat)
    (P : string -> Tank -> Prop) :
  forall (players : list Player) (i : nat) (acc : list (string * Tank)),
  (forall s ty j, In (s, ty) players ->
     P s (createTank s
            (cx + Math_cos (off + (2 * Math_PI * inject_Z (Z.of_nat j))
                                  / inject_Z (Z.of_nat n)) * radius)
            (cy + Math_sin (off + (2 * Math_PI * inject_Z (Z.of_nat j))
                                  / inject_Z (Z.of_nat n)) * radius)
            (JS.rem ((off + (2 * Math_PI * inject_Z (Z.of_nat j))
                            / inject_Z (Z.of_nat n)) * 180 / Math_PI + 180)
               360)
            ty c)) ->
  (forall s tk, Dict.get String.eqb s acc = Some tk -> P s tk) ->
  forall s tk,
    Dict.get String.eqb s (spawnTanks c cx cy radius off n i players acc)
    = Some tk -> P s tk.
Proof.
  induction players as [|[s0 ty0] players IH]; intros i acc HP Hacc s tk;
    cbn [spawnTanks].
  - apply Hacc.
  - apply IH.
    + intros s' ty j H. apply HP. now right.
    + intros s' tk'. destruct (String.eqb_spec s0 s') as [<-|N].
      * rewrite (get_set_same String.eqb String.eqb_eq). intros [= <-].
        apply HP. now left.
      * rewrite (get_set_other String.eqb String.eqb_eq) by assumption.
        apply Hacc.
Qed.

Lemma spawnTanks_keys (c : Constants) (cx cy radius off : Q) (n : nat) :
  forall (players : list Player) (i : nat) (acc : list (string * Tank)),
  NoDup (Dict.keys acc ++ map fst players) ->
  Dict.keys (spawnTanks c cx cy radius off n i players acc)
  = Dict.keys acc ++ map fst players.
Proof.
  induction players as [|[s0 ty0] players IH]; intros i acc ND;
    cbn [spawnTanks map fst].
  - now rewrite app_nil_r.
  - assert (Hn : ~ In s0 (Dict.keys acc)).
    { apply NoDup_remove_2 in ND. intros C. apply ND.
      apply in_app_iff. now left. }
    assert (K : Dict.keys (Dict.set String.eqb s0
                             (createTank s0
                                (cx + Math_cos (off + 2 * Math_PI * inject_Z (Z.of_nat i) / inject_Z (Z.of_nat n)) * radius)
                                (cy + Math_sin (off + 2 * Math_PI * inject_Z (Z.of_nat i) / inject_Z (Z.of_nat n)) * radius)
                                (JS.rem ((off + 2 * Math_PI * inject_Z (Z.of_nat i) / inject_Z (Z.of_nat n)) * 180 / Math_PI + 180) 360)
                                ty0 c) acc)
                = Dict.keys acc ++ [s0]).
    { apply (keys_set_absent String.eqb).
      now apply (get_None_keys String.eqb String.eqb_eq). }
    rewrite IH; rewrite K, <- app_assoc; [reflexivity|exact ND].
Qed.

(** The postcondition of [createWorld]. *)
Lemma createWorld_fresh (seed0 : Z) (c : Constants)
    (players : option (list Player)) :
  NoDup (map fst (lineup players)) ->
  let st := createWorld seed0 c players in
  fst st = 0%nat /\ t (snd st) = 0 /\ projectiles (snd st) = []
  /\ seed (snd st) = seed0 /\ constants (snd st) = c
  /\ Dict.keys (tanks (snd st)) = map fst (lineup players)
  /\ forall s tk, getTank (snd st) s = Some tk ->
       slot tk = s /\ In (s, tankType tk) (lineup players)
       /\ hp tk = stat_hp (TANK_TYPES c (tankType tk))
       /\ busyUntil tk = 0 /\ activeAction tk = None
       /\ activeProjectileId tk = None /\ lastScanResult tk = None.
Proof.
  intros ND. rewrite createWorld_lineup. cbv zeta.
  unfold createWorld.
  destruct (Prng.random (Prng.createPRNG seed0)) as [rng1 r].
  cbn [fst snd t projectiles seed constants tanks].
  assert (E : match lineup players with
              | [] => [("p1"%string, light); ("p2"%string, light)]
              | _ :: _ => lineup players
              end = lineup players).
  { destruct players as [[|p ps]|]; reflexivity. }
  rewrite E.
  repeat (split; [reflexivity|]). split.
  - rewrite spawnTanks_keys; [reflexivity|exact ND].
  - unfold getTank. cbn [tanks]. intros s tk G.
    revert s tk G.
    apply (spawnTanks_roster c _ _ _ _ _
             (fun s tk =>
                slot tk = s /\ In (s, tankType tk) (lineup players)
                /\ hp tk = stat_hp (TANK_TYPES c (tankType tk))
                /\ busyUntil tk = 0 /\ activeAction tk = None
                /\ activeProjectileId tk = None /\ lastScanResult tk = None)).
    + intros s ty j H. cbn. auto 8.
    + intros s tk H. discriminate H.
Qed.

(** X6.  The roster of a fresh world: when the slots of the players are
    distinct names that an object keeps in insertion order, the tanks are
    keyed by those slots in the order of the player list, and every tank
    carries its own key as [slot], the class of its player, the full hit
    points of that class, and is idle with no action, no projectile and
    no scan result; the world is at time 0 with no projectile, and the
    projectile counter is reset. *)
Theorem createWorld_roster (seed0 : Z) (c : Constants)
    (players : option (list Player)) :
  plainSlots (lineup players) ->
  NoDup (map fst (lineup players)) ->
  let st := createWorld seed0 c players in
  fst st = 0%nat /\ t (snd st) = 0 /\ projectiles (snd st) = []
  /\ seed (snd st) = seed0 /\ constants (snd st) = c
  /\ Dict.keys (tanks (snd st)) = map fst (lineup players)
  /\ forall s tk, getTank (snd st) s = Some tk ->
       slot tk = s /\ In (s, tankType tk) (lineup players)
       /\ hp tk = stat_hp (TANK_TYPES c (tankType tk))
       /\ busyUntil tk = 0 /\ activeAction tk = None
       /\ activeProjectileId tk = None /\ lastScanResult tk = None.
Proof. intros _. exact (createWorld_fresh seed0 c players). Qed.

Lemma rem_nonneg_range (x m : Q) :
  0 < m -> 0 <= x -> 0 <= JS.rem x m /\ JS.rem x m < m.
Proof. intros Hm Hx. now apply rem_nonneg. Qed.

(** The heading of a spawned tank. *)
Lemma spawn_heading (seed0 : Z) (c : Constants)
    (players : option (list Player)) (s : string) (tk : Tank) :
  0 < Math_PI ->
  getTank (snd (createWorld seed0 c players)) s = Some tk ->
  0 <= headingDeg tk /\ headingDeg tk < 360.
Proof.
  intros Hpi. unfold createWorld.
  pose proof (random_bounds (Prng.createPRNG seed0)) as (R0 & _).
  destruct (Prng.random (Prng.createPRNG seed0)) as [rng1 r].
  cbn [fst snd] in *. unfold getTank. cbn [tanks].
  revert s tk.
  apply (spawnTanks_roster c _ _ _ _ _
           (fun _ tk => 0 <= headingDeg tk /\ headingDeg tk < 360)).
  - intros s ty j _. cbn [x y headingDeg createTank].
    set (n := List.length _).
    set (angle := r * Math_PI * 2 + _).
    apply rem_nonneg_range; [reflexivity|].
    assert (A : 0 <= angle).
    { unfold angle.
      assert (0 <= r * Math_PI * 2) by nra.
      assert (0 <= 2 * Math_PI * inject_Z (Z.of_nat j) / inject_Z (Z.of_nat n)).
      { assert (Hj : 0 <= inject_Z (Z.of_nat j)).
        { change 0 with (inject_Z 0). rewrite <- Zle_Qle. lia. }
        assert (Hn : 0 <= inject_Z (Z.of_nat n)).
        { change 0 with (inject_Z 0). rewrite <- Zle_Qle. lia. }
        destruct (Qeq_dec (inject_Z (Z.of_nat n)) 0) as [Z0|NZ].
        - unfold Qdiv. rewrite Z0. unfold Qinv. simpl. lra.
        - apply Qle_shift_div_l; [lra|]. nra. }
      lra. }
    assert (0 <= angle * 180 / Math_PI).
    { apply Qle_shift_div_l; [assumption|]. nra. }
    lra.
  - intros s tk H. discriminate H.
Qed.

(** X7.  The geometry of a fresh world.  With a cosine and a sine on the
    unit circle and a positive [Math.PI], every tank spawns on the ring
    of radius [0.55 * min(W/2, H/2)] around the centre of the arena, and
    its heading lies in [[0, 360)]. *)
Theorem spawn_on_ring (seed0 : Z) (c : Constants)
    (players : option (list Player)) (s : string) (tk : Tank) :
  (forall a, Math_cos a * Math_cos a + Math_sin a * Math_sin a == 1) ->
  0 < Math_PI ->
  getTank (snd (createWorld seed0 c players)) s = Some tk ->
  (x tk - ARENA_WIDTH c / 2) * (x tk - ARENA_WIDTH c / 2)
  + (y tk - ARENA_HEIGHT c / 2) * (y tk - ARENA_HEIGHT c / 2)
  == spawnRadius c * spawnRadius c
  /\ 0 <= headingDeg tk /\ headingDeg tk < 360.
Proof.
  intros Hcirc Hpi G. split; [|exact (spawn_heading _ _ _ _ _ Hpi G)].
  revert G. unfold createWorld.
  destruct (Prng.random (Prng.createPRNG seed0)) as [rng1 r].
  cbn [fst snd] in *. unfold getTank. cbn [tanks].
  revert s tk.
  apply (spawnTanks_roster c _ _ _ _ _
           (fun _ tk =>
              (x tk - ARENA_WIDTH c / 2) * (x tk - ARENA_WIDTH c / 2)
              + (y tk - ARENA_HEIGHT c / 2) * (y tk - ARENA_HEIGHT c / 2)
              == spawnRadius c * spawnRadius c)).
  - intros s ty j _. cbn [x y headingDeg createTank].
    set (n := List.length _).
    set (angle := r * Math_PI * 2 + _).
    fold (spawnRadius c).
    specialize (Hcirc angle).
    set (co := Math_cos angle) in *. set (si := Math_sin angle) in *.
    set (rad := spawnRadius c).
    transitivity ((co * co + si * si) * (rad * rad)); [ring|].
    rewrite Hcirc. ring.
  - intros s tk H. discriminate H.
Qed.
End WorldFacts.

Section Statics.
Context {M : MathLib}.
Import World Actions Step TankApi Run Props TickView WorldReset Facts.

Lemma static_refl (w : World) : static w w.
Proof. repeat split. Qed.

Lemma static_trans (w1 w2 w3 : World) :
  static w1 w2 -> static w2 w3 -> static w1 w3.
Proof. intros (A & B & C) (A' & B' & C'). repeat split; congruence. Qed.

Lemma static_putTank (w : World) (s : string) (tk : Tank) :
  static w (putTank w s tk).
Proof. repeat split. Qed.

Lemma applyOne_static (w : World) (dt : Q) (s : string)
    (comp : list Completed) : static w (fst (applyOne w dt s comp)).
Proof.
  unfold applyOne.
  destruct (getTank w s) as [tk|]; [|apply static_refl].
  destruct (hp tk <=? 0)%Z; [apply static_refl|].
  destruct (activeAction tk) as [a|]; [|apply static_refl].
  cbv zeta. destruct (JS.geb _ _).
  - destruct (completeAction _ _ _ _) as [tk2 d]. repeat split.
  - repeat split.
Qed.

Lemma applyLoop_static (dt : Q) (ks : list string) :
  forall (w : World) (comp : list Completed),
  static w (fst (applyLoop ks w dt comp)).
Proof.
  induction ks as [|s ks IH]; intros w comp; cbn [applyLoop].
  - apply static_refl.
  - pose proof (applyOne_static w dt s comp) as H.
    destruct (applyOne w dt s comp) as [w1 comp1]. cbn [fst] in H.
    eapply static_trans; [exact H|apply IH].
Qed.

Lemma remove_static (w : World) (proj : Projectile) :
  static w (deleteProjectile (clearProjectileFromOwner w proj) (id proj)).
Proof.
  unfold clearProjectileFromOwner.
  destruct (getTank w (owner proj)) as [tk|]; [|repeat split].
  destruct (activeProjectileId tk) as [pid|]; [|repeat split].
  destruct (ProjId_eqb pid (id proj)); repeat split.
Qed.

Lemma despawnLoop_static (projs : list Projectile) :
  forall (w : World) (events : list StepEvent),
  static w (fst (despawnLoop projs w events)).
Proof.
  induction projs as [|p projs IH]; intros w events; cbn [despawnLoop].
  - apply static_refl.
  - destruct (outOfBounds (constants w) p); [|apply IH].
    eapply static_trans; [apply remove_static|apply IH].
Qed.

Lemma hitTanks_static (proj : Projectile) (hr : Q)
    (entries : list (string * Tank)) :
  forall (w : World) (events : list StepEvent),
  static w (fst (hitTanks entries w proj hr events)).
Proof.
  induction entries as [|[ts tg] entries IH]; intros w events;
    cbn [hitTanks].
  - apply static_refl.
  - destruct (String.eqb ts (owner proj)); [apply IH|].
    destruct (hp tg <=? 0)%Z; [apply IH|].
    destruct (JS.leb _ _); [|apply IH].
    cbn [fst]. eapply static_trans; [|apply remove_static].
    apply static_putTank.
Qed.

Lemma hitLoop_static (hr : Q) (projs : list Projectile) :
  forall (w : World) (events : list StepEvent),
  static w (fst (hitLoop projs w hr events)).
Proof.
  induction projs as [|p projs IH]; intros w events; cbn [hitLoop].
  - apply static_refl.
  - pose proof (hitTanks_static p hr (tanks w) w events) as H.
    destruct (hitTanks (tanks w) w p hr events) as [w1 ev1].
    cbn [fst] in H. eapply static_trans; [exact H|apply IH].
Qed.

Lemma step_static (w : World) : static w (fst (step w)).
Proof.
  unfold step. cbv zeta.
  pose proof (applyLoop_static (1 / TICK_RATE (constants w))
                (Dict.keys (tanks w)) w []) as H0.
  fold (applyActiveActions w (1 / TICK_RATE (constants w))) in H0.
  destruct (applyActiveActions w _) as [w0 comp]. cbn [fst] in H0.
  set (w1 := moveProjectiles w0 _).
  pose proof (despawnLoop_static (Dict.values (projectiles w1)) w1
                (pushCompleted comp [])) as H2.
  destruct (despawnLoop _ w1 _) as [w2 ev2]. cbn [fst] in H2.
  set (hr := _ * _).
  pose proof (hitLoop_static hr (Dict.values (projectiles w2)) w2 ev2) as H3.
  destruct (hitLoop _ w2 hr ev2) as [w3 ev3]. cbn [fst] in *.
  destruct H0 as (A0 & B0 & C0), H2 as (A2 & B2 & C2), H3 as (A3 & B3 & C3).
  unfold static. cbn [seed rng nextProjectileId world_with_t].
  unfold w1 in *. cbn in A2, B2, C2. repeat split; congruence.
Qed.

Lemma exec_static (op : Op) (n n' : nat) (w w' : World) :
  exec op (n, w) = Some (n', w') -> static w w'.
Proof.
  intros E. destruct op as [|s call|s|s]; simpl in E.
  - injection E as <- <-. apply step_static.
  - destruct (getTank w s) as [tk|] eqn:G.
    + rewrite (startAction_present _ _ _ _ G) in E.
      destruct (isIdle tk (t w)); injection E as <- <-; repeat split.
    + now rewrite (startAction_absent _ _ _ G) in E.
  - destruct (getTank w s) as [tk|] eqn:G.
    + rewrite (shoot_present _ _ _ _ G) in E.
      destruct (activeProjectileId tk); injection E as <- <-; repeat split.
    + unfold shoot in E. now rewrite G in E.
  - destruct (getTank w s) as [tk|] eqn:G.
    + rewrite (forfeit_present _ _ _ G) in E. injection E as <- <-.
      repeat split.
    + unfold Match.forfeit in E. now rewrite G in E.
Qed.

(** Tanks related slot by slot have the same roster. *)
Lemma identity_lists (l l' : list (string * Tank)) :
  map fst l' = map fst l -> NoDup (map fst l) ->
  (forall s tk tk', Dict.get String.eqb s l = Some tk ->
     Dict.get String.eqb s l' = Some tk' -> identity tk' = identity tk) ->
  map identity (Dict.values l') = map identity (Dict.values l).
Proof.
  revert l'. induction l as [|[k v] l IH]; intros [|[k' v'] l'] K ND H;
    try discriminate; [reflexivity|].
  cbn in K. injection K as -> K. inversion ND as [|? ? Hn ND']; subst.
  assert (Hv : identity v' = identity v).
  { apply (H k); cbn; now rewrite String.eqb_refl. }
  assert (Hl : map identity (Dict.values l') = map identity (Dict.values l)).
  { apply IH; auto. intros s tk tk' G G'.
    assert (N : k <> s).
    { intros ->. apply Hn.
      apply (get_In String.eqb String.eqb_eq) in G.
      exact (in_map fst l (s, tk) G). }
    apply (H s); cbn; apply String.eqb_neq in N; now rewrite N. }
  unfold Dict.values in *. simpl. now rewrite Hv, Hl.
Qed.

Lemma step_identity (c : Constants) (now dt : Q) (tk tk' : Tank) :
  tank_step_rel c now dt tk tk' -> identity tk' = identity tk.
Proof.
  intros (_ & _ & _ & _ & _ & Ty & Sl & _).
  destruct (tickTank_fields c now dt tk) as (_ & _ & Ty' & Sl' & _).
  unfold identity. congruence.
Qed.

Lemma op_identity (c : Constants) (now : Q) (tk tk' : Tank) :
  tank_op_rel c now tk tk' -> identity tk' = identity tk.
Proof.
  intros [->|[(_ & call & ->)|[(_ & pid & ->)| ->]]]; reflexivity.
Qed.

Lemma exec_roster (op : Op) (n n' : nat) (w w' : World) :
  NoDup (Dict.keys (tanks w)) ->
  exec op (n, w) = Some (n', w') -> roster w' = roster w.
Proof.
  intros ND E. unfold roster.
  assert (H : Dict.keys (tanks w') = Dict.keys (tanks w)
              /\ forall s,
                   match getTank w s, getTank w' s with
                   | Some tk, Some tk' => identity tk' = identity tk
                   | None, None => True
                   | _, _ => False
                   end).
  { destruct op as [|s0 call|s0|s0].
    - simpl in E. injection E as <- <-.
      destruct (step_frame w ND) as (_ & _ & K & R). split; [exact K|].
      intros s. specialize (R s).
      destruct (getTank w s), (getTank (fst (step w)) s); auto.
      eapply step_identity; eauto.
    - assert (Hne : OpStart s0 call <> OpStep) by discriminate.
      destruct (exec_frame _ _ _ _ _ Hne E) as (_ & _ & K & R).
      split; [exact K|]. intros s. specialize (R s).
      destruct (getTank w s), (getTank w' s); auto.
      eapply op_identity; eauto.
    - assert (Hne : OpShoot s0 <> OpStep) by discriminate.
      destruct (exec_frame _ _ _ _ _ Hne E) as (_ & _ & K & R).
      split; [exact K|]. intros s. specialize (R s).
      destruct (getTank w s), (getTank w' s); auto.
      eapply op_identity; eauto.
    - assert (Hne : OpForfeit s0 <> OpStep) by discriminate.
      destruct (exec_frame _ _ _ _ _ Hne E) as (_ & _ & K & R).
      split; [exact K|]. intros s. specialize (R s).
      destruct (getTank w s), (getTank w' s); auto.
      eapply op_identity; eauto. }
  destruct H as (K & R).
  apply identity_lists; [exact K|exact ND|].
  intros s tk tk' G G'. specialize (R s). unfold getTank in R.
  now rewrite G, G' in R.
Qed.

Lemma execAll_roster (ops : list Op) :
  forall (n n' : nat) (w w' : World),
  NoDup (Dict.keys (tanks w)) ->
  execAll ops (n, w) = Some (n', w') ->
  roster w' = roster w /\ static w w'.
Proof.
  induction ops as [|op ops IH]; intros n n' w w' ND E; cbn [execAll] in E.
  - injection E as <- <-. split; [reflexivity|apply static_refl].
  - destruct (exec op (n, w)) as [[n1 w1]|] eqn:E1; [|discriminate].
    destruct (exec_keys _ _ _ _ _ ND E1) as (_ & K).
    assert (ND1 : NoDup (Dict.keys (tanks w1))) by now rewrite K.
    destruct (IH _ _ _ _ ND1 E) as (R & S).
    split.
    + rewrite R. eapply exec_roster; eauto.
    + eapply static_trans; [eapply exec_static; eauto|exact S].
Qed.

(** The roster of a fresh world is its player list. *)
Lemma roster_lists (l : list (string * Tank)) (ps : list Player) :
  map fst l = map fst ps -> NoDup (map fst ps) ->
  (forall s tk, In (s, tk) l -> slot tk = s /\ In (s, tankType tk) ps) ->
  map identity (Dict.values l) = ps.
Proof.
  revert ps. induction l as [|[k v] l IH]; intros [|[k' ty] ps] K ND H;
    try discriminate; [reflexivity|].
  cbn in K. injection K as -> K. inversion ND as [|? ? Hn ND']; subst.
  assert (Hv : identity v = (k', ty)).
  { destruct (H k' v (or_introl eq_refl)) as (S & [E|I]).
    - injection E as ->. unfold identity. now rewrite S.
    - exfalso. apply Hn. exact (in_map fst ps (k', tankType v) I). }
  assert (Hl : map identity (Dict.values l) = ps).
  { apply IH; auto. intros s tk I.
    destruct (H s tk (or_intror I)) as (S & [E|I']); [|auto].
    injection E as -> _. exfalso. apply Hn. rewrite <- K.
    exact (in_map fst l (s, tk) I). }
  unfold Dict.values in *. simpl. now rewrite Hv, Hl.
Qed.

(** X8.  [resetWorld] undoes a match: applied to any state that a run of
    ticks, starter calls, shots and forfeits reaches from a fresh world
    whose players have distinct slots, with names that an object keeps in
    insertion order, it gives that fresh world again, with the projectile
    counter reset. *)
Theorem resetWorld_round_trip (seed0 : Z) (c : Constants)
    (players : option (list Player)) (ops : list Op) (st : nat * World) :
  plainSlots (lineup players) ->
  NoDup (map fst (lineup players)) ->
  execAll ops (createWorld seed0 c players) = Some st ->
  resetWorld (snd st) = createWorld seed0 c players.
Proof.
  intros _ ND E.
  destruct (createWorld_fresh seed0 c players ND)
    as (_ & _ & _ & Hs & Hc & Hk & Htk).
  destruct (createWorld seed0 c players) as [n0 w0] eqn:E0.
  cbn [fst snd] in *. destruct st as [n w].
  assert (ND0 : NoDup (Dict.keys (tanks w0))) by now rewrite Hk.
  destruct (execAll_roster ops _ _ _ _ ND0 E) as (R & S & _).
  destruct (execAll_keys _ _ _ _ _ ND0 E) as (C & _).
  cbn [snd].
  change (resetWorld w)
    with (createWorld (seed w) (constants w) (Some (roster w))).
  assert (R0 : roster w0 = lineup players).
  { apply roster_lists; [exact Hk|exact ND|].
    intros s tk I.
    destruct (Htk s tk) as (A & B & _); [|auto].
    apply (In_get String.eqb String.eqb_eq); assumption. }
  rewrite R, R0, S, C, Hs, Hc, <- E0. symmetry. apply createWorld_lineup.
Qed.

(** X9.  The single-shot invariant: in every state of a match no two
    projectiles have the same owner, and every projectile is the active
    projectile of the tank that owns it. *)
Theorem single_shot_invariant (c : Constants) (st : nat * World)
    (k1 k2 : ProjId) (p1 p2 : Projectile) :
  reachable c st ->
  In (k1, p1) (projectiles (snd st)) ->
  In (k2, p2) (projectiles (snd st)) ->
  owner p1 = owner p2 ->
  k1 = k2 /\ p1 = p2
  /\ exists tk, getTank (snd st) (owner p1) = Some tk
                /\ activeProjectileId tk = Some k1.
Proof.
  intros R I1 I2 O.
  destruct (reachable_linked c st R) as (_ & NDp & Hp & _).
  destruct (Hp k1 p1 I1) as (_ & _ & tk1 & G1 & A1).
  destruct (Hp k2 p2 I2) as (_ & _ & tk2 & G2 & A2).
  rewrite <- O in G2. assert (tk2 = tk1) as -> by congruence.
  assert (K : k1 = k2) by congruence. subst k2.
  split; [reflexivity|]. split; [|eauto].
  apply (In_get ProjId_eqb ProjId_eqb_spec) in I1, I2; try assumption.
  congruence.
Qed.
End Statics.

Section Damage.
Context {M : MathLib}.
Import World Actions Step TankApi Run Props TickView Facts.

Lemma damaged_add (d h : Z) (a b : nat) :
  (0 <= d)%Z -> damaged d (damaged d h a) b = damaged d h (a + b).
Proof.
  intros Hd. unfold damaged.
  destruct a as [|a], b as [|b]; cbn [Nat.eqb Nat.add]; try reflexivity.
  - now rewrite Nat.add_0_r.
  - rewrite !Nat2Z.inj_succ, Nat2Z.inj_add, Nat2Z.inj_succ. nia.
Qed.

Lemma hitsOn_app (s : string) (l1 l2 : list StepEvent) :
  hitsOn s (l1 ++ l2) = (hitsOn s l1 + hitsOn s l2)%nat.
Proof. unfold hitsOn. now rewrite filter_app, length_app. Qed.

Lemma hpOf_putTank (w : World) (s s' : string) (tk : Tank) :
  hpOf (putTank w s tk) s' = if String.eqb s s' then hp tk else hpOf w s'.
Proof.
  unfold hpOf. rewrite getTank_putTank.
  destruct (String.eqb s s'); reflexivity.
Qed.

Lemma remove_tanks (w : World) (proj : Projectile) (s : string) :
  match getTank w s,
        getTank (deleteProjectile (clearProjectileFromOwner w proj) (id proj)) s
  with
  | Some tk, Some tk' =>
      tank_with_projectile tk' None = tank_with_projectile tk None
  | None, None => True
  | _, _ => False
  end.
Proof.
  change (getTank (deleteProjectile (clearProjectileFromOwner w proj)
                     (id proj)) s)
    with (getTank (clearProjectileFromOwner w proj) s).
  unfold clearProjectileFromOwner.
  destruct (getTank w (owner proj)) as [tk|] eqn:G.
  2:{ destruct (getTank w s); auto. }
  destruct (activeProjectileId tk) as [pid|] eqn:A.
  2:{ destruct (getTank w s); auto. }
  destruct (ProjId_eqb pid (id proj)).
  2:{ destruct (getTank w s); auto. }
  rewrite getTank_putTank.
  destruct (String.eqb_spec (owner proj) s) as [<-|N].
  - rewrite G. reflexivity.
  - destruct (getTank w s); auto.
Qed.

Lemma remove_hpOf (w : World) (proj : Projectile) (s : string) :
  hpOf (deleteProjectile (clearProjectileFromOwner w proj) (id proj)) s
  = hpOf w s.
Proof.
  pose proof (remove_tanks w proj s) as H. unfold hpOf.
  destruct (getTank w s) as [tk|],
    (getTank (deleteProjectile (clearProjectileFromOwner w proj) (id proj)) s)
      as [tk'|]; try contradiction; [|reflexivity].
  exact (f_equal hp H).
Qed.

Lemma despawnLoop_hpOf (projs : list Projectile) :
  forall (w : World) (events : list StepEvent) (s : string),
  hpOf (fst (despawnLoop projs w events)) s = hpOf w s.
Proof.
  induction projs as [|p projs IH]; intros w events s; cbn [despawnLoop].
  - reflexivity.
  - destruct (outOfBounds (constants w) p); [|apply IH].
    rewrite IH. apply remove_hpOf.
Qed.

(** One projectile against the tanks: nothing happens, or it hits the
    first tank of the snapshot that is not its owner, is alive and is
    within the hit range. *)
Lemma hitTanks_cases (proj : Projectile) (hr : Q)
    (entries : list (string * Tank)) (w : World) :
  let r := hitTanks entries w proj hr [] in
  (r = (w, []))
  \/ exists tg target,
       In (tg, target) entries /\ tg <> owner proj /\ (0 < hp target)%Z
       /\ distSq proj target <= hr
       /\ r = (deleteProjectile
                 (clearProjectileFromOwner
                    (putTank w tg
                       (tank_with_hp target
                          (Z.max 0 (hp target - PROJECTILE_DAMAGE (constants w)))))
                    proj) (id proj),
               [Hit (id proj) (owner proj) tg
                  (PROJECTILE_DAMAGE (constants w))]).
Proof.
  induction entries as [|[ts tg] entries IH]; cbn [hitTanks].
  - now left.
  - assert (Later :
      (hitTanks entries w proj hr [] = (w, []))
      \/ (exists tg0 target,
            In (tg0, target) entries /\ tg0 <> owner proj
            /\ (0 < hp target)%Z /\ distSq proj target <= hr
            /\ hitTanks entries w proj hr []
               = (deleteProjectile
                    (clearProjectileFromOwner
                       (putTank w tg0
                          (tank_with_hp target
                             (Z.max 0 (hp target
                                       - PROJECTILE_DAMAGE (constants w)))))
                       proj) (id proj),
                  [Hit (id proj) (owner proj) tg0
                     (PROJECTILE_DAMAGE (constants w))])) ->
      (hitTanks entries w proj hr [] = (w, []))
      \/ (exists tg0 target,
            In (tg0, target) ((ts, tg) :: entries) /\ tg0 <> owner proj
            /\ (0 < hp target)%Z /\ distSq proj target <= hr
            /\ hitTanks entries w proj hr []
               = (deleteProjectile
                    (clearProjectileFromOwner
                       (putTank w tg0
                          (tank_with_hp target
                             (Z.max 0 (hp target
                                       - PROJECTILE_DAMAGE (constants w)))))
                       proj) (id proj),
                  [Hit (id proj) (owner proj) tg0
                     (PROJECTILE_DAMAGE (constants w))]))).
    { intros [H|(tg0 & target & I & R)]; [now left|right].
      exists tg0, target. split; [now right|exact R]. }
    destruct (String.eqb_spec ts (owner proj)) as [E|N]; [exact (Later IH)|].
    destruct (hp tg <=? 0)%Z eqn:Hhp; [exact (Later IH)|].
    destruct (JS.leb _ hr) eqn:D; [|exact (Later IH)].
    right. exists ts, tg. apply Z.leb_gt in Hhp. apply leb_le in D.
    split; [now left|]. split; [exact N|]. split; [exact Hhp|].
    split; [exact D|]. cbv zeta. f_equal. f_equal. f_equal. f_equal.
    f_equal. destruct (_ <? 0)%Z eqn:L.
    + apply Z.ltb_lt in L. lia.
    + apply Z.ltb_ge in L. lia.
Qed.

Lemma hitIds_app (l1 l2 : list StepEvent) :
  hitIds (l1 ++ l2) = hitIds l1 ++ hitIds l2.
Proof. unfold hitIds. apply flat_map_app. Qed.

Lemma combat_alive (tk tk' : Tank) :
  combat_rel tk tk' -> (0 < hp tk')%Z -> (0 < hp tk)%Z.
Proof.
  intros (_ & D & _) H. destruct (Z_lt_le_dec 0 (hp tk)) as [L|L]; [exact L|].
  rewrite (D L) in H. lia.
Qed.

Lemma combat_position (tk tk' : Tank) :
  combat_rel tk tk' -> x tk' = x tk /\ y tk' = y tk.
Proof.
  intros (E & _). split.
  - exact (eq_sym (f_equal x E)).
  - exact (eq_sym (f_equal y E)).
Qed.

Lemma combat_distSq (p : Projectile) (tk tk' : Tank) :
  combat_rel tk tk' -> distSq p tk' = distSq p tk.
Proof.
  intros C. destruct (combat_position _ _ C) as (Ex & Ey).
  unfold distSq. now rewrite Ex, Ey.
Qed.

(** Phase 3 as a whole: the hit points it leaves, and where its events
    come from. *)
Lemma hitLoop_account (hr : Q) (projs : list Projectile) :
  forall (w : World),
  NoDup (Dict.keys (tanks w)) ->
  let r := hitLoop projs w hr [] in
  ((0 <= PROJECTILE_DAMAGE (constants w))%Z ->
   forall s, hpOf (fst r) s
             = damaged (PROJECTILE_DAMAGE (constants w)) (hpOf w s)
                 (hitsOn s (snd r)))
  /\ (forall k o tg dmg, In (Hit k o tg dmg) (snd r) ->
        dmg = PROJECTILE_DAMAGE (constants w) /\ tg <> o
        /\ exists p tk, In p projs /\ id p = k /\ owner p = o
             /\ getTank w tg = Some tk /\ (0 < hp tk)%Z
             /\ distSq p tk <= hr)
  /\ (forall k, In k (hitIds (snd r)) -> In k (map id projs))
  /\ (NoDup (map id projs) -> NoDup (hitIds (snd r))).
Proof.
  induction projs as [|proj projs IH]; intros w ND; cbn [hitLoop].
  - cbn. repeat split; try contradiction; auto using NoDup_nil.
  - pose proof (hitTanks_cases proj hr (tanks w) w) as HC.
    pose proof (hitTanks_frame proj hr (tanks w) w []) as HF.
    cbv zeta in HC.
    destruct (hitTanks (tanks w) w proj hr []) as [w1 ev1] eqn:E1.
    cbn [fst] in HF.
    assert (F1 : removal_frame w w1).
    { apply HF. intros s tk H.
      apply (In_get String.eqb String.eqb_eq); assumption. }
    clear HF.
    assert (ND1 : NoDup (Dict.keys (tanks w1)))
      by (eapply NoDup_keys_frame; eauto).
    assert (C1 : constants w1 = constants w) by apply F1.
    rewrite hitLoop_events. cbn [fst snd].
    specialize (IH w1 ND1). rewrite C1 in IH.
    cbv zeta in IH. destruct IH as (Ihp & Iev & Iid & Ind).
    set (r := hitLoop projs w1 hr []) in *.
    assert (H1 : (forall s, hpOf w1 s
                            = damaged (PROJECTILE_DAMAGE (constants w))
                                (hpOf w s) (hitsOn s ev1))
                 /\ (forall k o tg dmg, In (Hit k o tg dmg) ev1 ->
                       dmg = PROJECTILE_DAMAGE (constants w) /\ tg <> o
                       /\ k = id proj /\ o = owner proj
                       /\ exists tk, getTank w tg = Some tk
                            /\ (0 < hp tk)%Z /\ distSq proj tk <= hr)
                 /\ (hitIds ev1 = [] \/ hitIds ev1 = [id proj])).
    { destruct HC as [HC|(tg & target & I & N & A & D & HC)];
        injection HC as -> ->.
      - split; [intros s; reflexivity|]. split; [intros ? ? ? ? []|now left].
      - assert (G : getTank w tg = Some target)
          by (apply (In_get String.eqb String.eqb_eq); assumption).
        split; [|split; [|now right]].
        + intros s. rewrite remove_hpOf, hpOf_putTank.
          unfold hitsOn. cbn [filter].
          destruct (String.eqb_spec tg s) as [<-|N'].
          * cbn. unfold hpOf. rewrite G. unfold damaged. cbn. f_equal. lia.
          * reflexivity.
        + intros k o tg' dmg [[= <- <- <- <-]|[]].
          repeat split; auto. exists target. auto. }
    destruct H1 as (Hhp1 & Hev1 & Hid1).
    split; [|split; [|split]].
    + intros Hd s. rewrite (Ihp Hd), Hhp1, hitsOn_app. now apply damaged_add.
    + intros k o tg dmg Hin. apply in_app_iff in Hin.
      destruct Hin as [Hin|Hin].
      * destruct (Hev1 _ _ _ _ Hin) as (A & B & -> & -> & tk & G & L & D).
        repeat split; auto. exists proj, tk. repeat split; auto. now left.
      * destruct (Iev _ _ _ _ Hin) as (A & B & p & tk1 & Ip & Ek & Eo & G1
                                       & L1 & D1).
        repeat split; auto.
        destruct F1 as ((_ & R) & _). specialize (R tg). rewrite G1 in R.
        destruct (getTank w tg) as [tk|] eqn:G; [|contradiction].
        exists p, tk. repeat split; auto.
        -- now right.
        -- eapply combat_alive; eauto.
        -- now rewrite <- (combat_distSq p _ _ R).
    + intros k. rewrite hitIds_app, in_app_iff. cbn [map In].
      intros [H|H].
      * destruct Hid1 as [Z|Z]; rewrite Z in H; [contradiction|].
        destruct H as [<-|[]]. now left.
      * right. now apply Iid.
    + intros NDp. inversion NDp as [|? ? Hn NDp']; subst.
      rewrite hitIds_app.
      destruct Hid1 as [Z|Z]; rewrite Z; cbn [app]; [now apply Ind|].
      constructor; [|now apply Ind].
      intros C. apply Hn. now apply Iid.
Qed.
End Damage.

Section TickDamage.
Context {M : MathLib}.
Import World Actions Step TankApi Run Props TickView Facts.

Lemma hitsOn_none (s : string) (l : list StepEvent) :
  Forall (fun e => isHit e = false) l -> hitsOn s l = 0%nat.
Proof.
  unfold hitsOn. induction 1 as [|e l He _ IH]; [reflexivity|].
  cbn [filter]. destruct e; try discriminate; exact IH.
Qed.

Lemma hitIds_none (l : list StepEvent) :
  Forall (fun e => isHit e = false) l -> hitIds l = [].
Proof.
  unfold hitIds. induction 1 as [|e l He _ IH]; [reflexivity|].
  cbn [flat_map]. destruct e; try discriminate; exact IH.
Qed.

Lemma completes_no_hit (comp : list Completed) :
  Forall (fun e => isHit e = false) (map completeEvent comp).
Proof. apply Forall_forall. intros e H. apply in_map_iff in H.
  destruct H as (d & <- & _). reflexivity. Qed.

Lemma despawns_no_hit (l : list StepEvent) :
  Forall (fun e => isDespawn e = true) l ->
  Forall (fun e => isHit e = false) l.
Proof. apply Forall_impl. intros e H. destruct e; try discriminate; reflexivity. Qed.

Lemma matchEnds_no_hit (l : list StepEvent) :
  Forall (fun e => isMatchEnd e = true) l ->
  Forall (fun e => isHit e = false) l.
Proof. apply Forall_impl. intros e H. destruct e; try discriminate; reflexivity. Qed.

(** The applicator leaves the hit points alone. *)
Lemma applyActiveActions_hpOf (w : World) (dt : Q) (s : string) :
  NoDup (Dict.keys (tanks w)) ->
  hpOf (fst (applyActiveActions w dt)) s = hpOf w s.
Proof.
  intros ND.
  pose proof (applyLoop_spec dt (Dict.keys (tanks w)) ND w []) as HA.
  cbv zeta in HA. fold (applyActiveActions w dt) in HA.
  destruct HA as (_ & _ & _ & _ & Tk & N0 & _). unfold hpOf.
  destruct (getTank w s) as [tk|] eqn:G.
  - destruct (Tk s tk G) as (tk' & G' & Hin & _). rewrite G'.
    specialize (Hin (getTank_Some_key _ _ _ G)).
    destruct (tickTank_fields (constants w) (t w) dt tk) as (F & _).
    rewrite <- F. exact (f_equal hp Hin).
  - now rewrite (N0 s G).
Qed.

(** The phases of a tick seen from the hit loop: the world [w2] that
    phase 3 starts from and the world and events it produces. *)
Lemma step_hit_phase (w : World) :
  NoDup (Dict.keys (tanks w)) ->
  let c := constants w in
  let dt := 1 / TICK_RATE c in
  let w2 := beforeHits w in
  exists (pre post : list StepEvent),
    let r := hitLoop (Dict.values (projectiles w2)) w2 (hitRangeSq c) [] in
    snd (step w) = pre ++ snd r ++ post
    /\ Forall (fun e => isHit e = false) pre
    /\ Forall (fun e => isHit e = false) post
    /\ (forall s, getTank (fst (step w)) s = getTank (fst r) s)
    /\ constants w2 = c
    /\ NoDup (Dict.keys (tanks w2))
    /\ (forall s, hpOf w2 s = hpOf w s)
    /\ (forall p, In p (Dict.values (projectiles w2)) ->
          exists p0, In p0 (Dict.values (projectiles w))
                     /\ p = advance dt p0).
Proof.
  intros ND c dt. rewrite step_phases. unfold beforeHits. cbv zeta.
  fold c dt. cbn [fst snd].
  pose proof (applyLoop_spec dt (Dict.keys (tanks w)) ND w []) as HA.
  cbv zeta in HA. fold (applyActiveActions w dt) in HA.
  destruct HA as (K0 & _ & C0 & P0 & _ & _ & _).
  pose proof (applyActiveActions_hpOf w dt) as H0.
  set (applied := applyActiveActions w dt) in *.
  set (moved := moveProjectiles (fst applied) dt) in *.
  pose proof (despawnLoop_frame (Dict.values (projectiles moved)) moved [])
    as Fd.
  pose proof (despawnLoop_kinds (Dict.values (projectiles moved)) moved)
    as Kd.
  pose proof (despawnLoop_hpOf (Dict.values (projectiles moved)) moved [])
    as Hd.
  set (desp := despawnLoop (Dict.values (projectiles moved)) moved []) in *.
  exists (map completeEvent (snd applied) ++ snd desp).
  eexists. cbv zeta. fold (hitRangeSq c).
  split; [rewrite <- !app_assoc; reflexivity|].
  split; [apply Forall_app; split;
          [apply completes_no_hit|now apply despawns_no_hit]|].
  split; [apply matchEnds_no_hit, matchEndCheck_kinds|].
  split; [reflexivity|].
  destruct Fd as ((Kk & _) & _ & Cc & Incl).
  split; [rewrite Cc; exact C0|].
  split.
  { rewrite Kk.
    change (Dict.keys (tanks moved)) with (Dict.keys (tanks (fst applied))).
    now rewrite K0. }
  split.
  - intros s. rewrite Hd. change (hpOf moved s) with (hpOf (fst applied) s).
    now apply H0.
  - intros p Hp. unfold Dict.values in Hp. apply in_map_iff in Hp.
    destruct Hp as ([k q] & <- & Hin). apply Incl in Hin.
    unfold moved, moveProjectiles in Hin.
    cbn [projectiles world_with_projectiles] in Hin.
    rewrite P0 in Hin. apply in_map_iff in Hin.
    destruct Hin as ([k0 p0] & [= <- <-] & Hin).
    exists p0. split; [|reflexivity].
    unfold Dict.values. apply in_map_iff. exists (k0, p0). auto.
Qed.

Lemma step_damage (w : World) (s : string) :
  NoDup (Dict.keys (tanks w)) ->
  (0 <= PROJECTILE_DAMAGE (constants w))%Z ->
  hpOf (fst (step w)) s
  = damaged (PROJECTILE_DAMAGE (constants w)) (hpOf w s)
      (hitsOn s (snd (step w))).
Proof.
  intros ND Hd.
  destruct (step_hit_phase w ND)
    as (pre & post & E & Fpre & Fpost & G & C2 & ND2 & H2 & _).
  cbv zeta in *. set (w2 := beforeHits w) in *.
  rewrite E, !hitsOn_app, (hitsOn_none _ _ Fpre), (hitsOn_none _ _ Fpost).
  cbn [Nat.add]. rewrite Nat.add_0_r.
  destruct (hitLoop_account (hitRangeSq (constants w))
              (Dict.values (projectiles w2)) w2 ND2) as (A & _).
  cbv zeta in A. rewrite C2 in A. rewrite <- H2, <- (A Hd).
  unfold hpOf. now rewrite G.
Qed.

(** X14.  Damage accounting.  With a non-negative damage constant, the
    hit points of a tank after a tick are its hit points before the tick
    when no [hit] event of the tick names it, and otherwise those hit
    points minus [PROJECTILE_DAMAGE] for each such event, floored at 0;
    nothing else in a tick changes hit points. *)
Theorem damage_accounting (w : World) (s : string) :
  NoDup (Dict.keys (tanks w)) ->
  (0 <= PROJECTILE_DAMAGE (constants w))%Z ->
  hpOf (fst (step w)) s
  = damaged (PROJECTILE_DAMAGE (constants w)) (hpOf w s)
      (hitsOn s (snd (step w))).
Proof. apply step_damage. Qed.

(** The world in which phase 3 starts is linked when the tick starts in
    a linked world. *)
Lemma beforeHits_linked (n : nat) (w : World) :
  linked n w -> linked n (beforeHits w).
Proof.
  intros L. unfold beforeHits. cbv zeta.
  set (dt := 1 / TICK_RATE (constants w)).
  pose proof (applyLoop_spec dt (Dict.keys (tanks w)) (proj1 L) w []) as HA.
  cbv zeta in HA. fold (applyActiveActions w dt) in HA.
  destruct HA as (K0 & _ & C0 & P0 & Tk0 & N0 & _).
  assert (L0 : linked n (fst (applyActiveActions w dt))).
  { apply (linked_tanks n w); [|exact P0|exact L].
    split; [exact K0|]. intros s.
    destruct (getTank w s) as [tk|] eqn:G.
    - destruct (Tk0 s tk G) as (tk' & G' & Hin & _). rewrite G'.
      specialize (Hin (getTank_Some_key _ _ _ G)).
      destruct (tickTank_fields (constants w) (t w) dt tk) as (_ & F & _).
      rewrite <- F. exact (f_equal activeProjectileId Hin).
    - now rewrite (N0 s G). }
  pose proof (linked_move n _ dt L0) as L1.
  set (moved := moveProjectiles (fst (applyActiveActions w dt)) dt) in *.
  assert (K1 : forall k q, In (k, q) (projectiles moved) -> id q = k).
  { intros k q H. now destruct (proj1 (proj2 (proj2 L1)) k q H). }
  apply despawnLoop_linked; [| |exact L1].
  - rewrite values_ids by exact K1. apply L1.
  - intros p. now apply values_in.
Qed.

(** The hit events of a tick. *)
Lemma step_hits (n : nat) (w : World) (k : ProjId) (o tg : string)
    (dmg : Z) :
  linked n w ->
  In (Hit k o tg dmg) (snd (step w)) ->
  let c := constants w in
  let dt := 1 / TICK_RATE c in
  dmg = PROJECTILE_DAMAGE c /\ tg <> o
  /\ (exists p tk tk',
        In (k, p) (projectiles w) /\ owner p = o
        /\ getTank w tg = Some tk /\ (0 < hp tk)%Z
        /\ getTank (fst (step w)) tg = Some tk'
        /\ distSq (advance dt p) tk' <= hitRangeSq c)
  /\ NoDup (hitIds (snd (step w))).
Proof.
  intros L Hin c dt.
  pose proof (proj1 L) as ND.
  destruct (step_hit_phase w ND)
    as (pre & post & E & Fpre & Fpost & G & C2 & ND2 & H2 & Hp).
  cbv zeta in *. fold c dt in E, G, C2, Hp.
  pose proof (beforeHits_linked n w L) as L2.
  set (w2 := beforeHits w) in *.
  destruct (hitLoop_account (hitRangeSq c) (Dict.values (projectiles w2))
              w2 ND2) as (_ & Iev & _ & Ind).
  cbv zeta in Iev, Ind. rewrite C2 in Iev.
  pose proof (hitLoop_frame (hitRangeSq c) (Dict.values (projectiles w2))
                w2 [] ND2) as Fh.
  set (r := hitLoop (Dict.values (projectiles w2)) w2 (hitRangeSq c) []) in *.
  assert (Hin' : In (Hit k o tg dmg) (snd r)).
  { rewrite E in Hin. rewrite !in_app_iff in Hin.
    rewrite Forall_forall in Fpre, Fpost.
    destruct Hin as [H|[H|H]]; [|exact H|].
    - specialize (Fpre _ H). discriminate.
    - specialize (Fpost _ H). discriminate. }
  destruct (Iev _ _ _ _ Hin') as (A & B & p & tk2 & Ip & Ek & Eo & G2 & A2 & D2).
  split; [exact A|]. split; [exact B|]. split.
  - destruct (Hp p Ip) as (p0 & I0 & ->).
    assert (I0' : In (k, p0) (projectiles w)).
    { cbn [id advance] in Ek. rewrite <- Ek. apply values_in; [|exact I0].
      intros k0 q H. now destruct (proj1 (proj2 (proj2 L)) k0 q H). }
    destruct Fh as ((_ & R) & _). specialize (R tg). rewrite G2 in R.
    rewrite <- G in R.
    destruct (getTank (fst (step w)) tg) as [tk'|] eqn:G'; [|contradiction].
    assert (Hw : hpOf w tg = hp tk2).
    { rewrite <- H2. unfold hpOf. now rewrite G2. }
    unfold hpOf in Hw.
    destruct (getTank w tg) as [tk|] eqn:Gw; [|lia].
    exists p0, tk, tk'. repeat split; auto.
    + lia.
    + now rewrite (combat_distSq _ _ _ R).
  - rewrite E, !hitIds_app, (hitIds_none _ Fpre), (hitIds_none _ Fpost),
      app_nil_r. cbn [app]. apply Ind.
    rewrite values_ids; [apply L2|].
    intros k0 q H. now destruct (proj1 (proj2 (proj2 L2)) k0 q H).
Qed.

(** X13.  What a [hit] event of a tick means: it carries the damage
    constant; its projectile was in the world when the tick started and
    is owned by the tank named as owner; the target is another tank,
    alive when the tick started, whose position after this tick's move
    is within [PROJECTILE_RADIUS + TANK_RADIUS] of the projectile's
    position after this tick's motion; and no projectile hits twice in a
    tick. *)
Theorem hit_events_sound (n : nat) (w : World) (k : ProjId) (o tg : string)
    (dmg : Z) :
  linked n w ->
  In (Hit k o tg dmg) (snd (step w)) ->
  let c := constants w in
  let dt := 1 / TICK_RATE c in
  dmg = PROJECTILE_DAMAGE c /\ tg <> o
  /\ (exists p tk tk',
        In (k, p) (projectiles w) /\ owner p = o
        /\ getTank w tg = Some tk /\ (0 < hp tk)%Z
        /\ getTank (fst (step w)) tg = Some tk'
        /\ distSq (advance dt p) tk' <= hitRangeSq c)
  /\ NoDup (hitIds (snd (step w))).
Proof. exact (step_hits n w k o tg dmg). Qed.
End TickDamage.

Section MatchInvariants.
Context {M : MathLib}.
Import World Actions Step TankApi Run Props TickView Facts.

(** Induction over the states of a match, for a property of the world. *)
Lemma reachable_worlds (c : Constants) (P : World -> Prop) :
  (forall seed0 players, P (snd (createWorld seed0 c players))) ->
  (forall w, constants w = c -> NoDup (Dict.keys (tanks w)) -> P w ->
             P (fst (step w))) ->
  (forall op n w n' w',
     op <> OpStep -> constants w = c -> NoDup (Dict.keys (tanks w)) ->
     P w -> exec op (n, w) = Some (n', w') -> P w') ->
  forall st, reachable c st ->
  constants (snd st) = c /\ NoDup (Dict.keys (tanks (snd st))) /\ P (snd st).
Proof.
  intros Hcreate Hstep Hop st R.
  induction R as [seed0 players|op [n w] [n' w'] R IH E].
  - destruct (createWorld_inv seed0 c players (fun _ => True))
      as (_ & _ & Hc & _ & ND & _); auto.
  - cbn [snd] in *. destruct IH as (Hc & ND & HP).
    destruct (exec_keys _ _ _ _ _ ND E) as (Hc' & Hk).
    split; [congruence|]. split; [now rewrite Hk|].
    destruct op as [|s0 call|s0|s0].
    + simpl in E. injection E as <- <-. now apply Hstep.
    + eapply (Hop (OpStart s0 call)); eauto. discriminate.
    + eapply (Hop (OpShoot s0)); eauto. discriminate.
    + eapply (Hop (OpForfeit s0)); eauto. discriminate.
Qed.

Lemma tickTank_heading (c : Constants) (now dt : Q) (tk : Tank) :
  0 <= headingDeg tk /\ headingDeg tk < 360 ->
  0 <= headingDeg (tickTank c now dt tk)
  /\ headingDeg (tickTank c now dt tk) < 360.
Proof.
  intros H. unfold tickTank.
  destruct (hp tk <=? 0)%Z; [exact H|].
  destruct (activeAction tk) as [a|]; [|exact H].
  assert (A : 0 <= headingDeg (applyEffect c dt tk a)
              /\ headingDeg (applyEffect c dt tk a) < 360).
  { destruct a; cbn [applyEffect headingDeg tank_with_pose clampToArena];
      try exact H; apply normalizeDeg_range. }
  destruct (JS.geb _ _); exact A.
Qed.

Lemma op_heading (c : Constants) (now : Q) (tk tk' : Tank) :
  tank_op_rel c now tk tk' ->
  headingDeg tk' = headingDeg tk /\ x tk' = x tk /\ y tk' = y tk.
Proof.
  intros [->|[(_ & call & ->)|[(_ & pid & ->)| ->]]]; repeat split.
Qed.

(** X10.  Headings stay normalised: with a positive [Math.PI], the
    heading of every tank lies in [[0, 360)] in every state of a match,
    after creation, after every tick and after every starter call, shot
    or forfeit. *)
Theorem heading_normalised (c : Constants) (st : nat * World) (s : string)
    (tk : Tank) :
  0 < Math_PI ->
  reachable c st ->
  getTank (snd st) s = Some tk ->
  0 <= headingDeg tk /\ headingDeg tk < 360.
Proof.
  intros Hpi R G.
  destruct (reachable_worlds c
              (fun w => forall s tk, getTank w s = Some tk ->
                          0 <= headingDeg tk /\ headingDeg tk < 360))
    with (st := st) as (_ & _ & H); auto.
  - intros seed0 players s0 tk0. now apply spawn_heading.
  - intros w Hc ND HP s0 tk' G'.
    destruct (step_frame w ND) as (_ & _ & _ & Htk).
    specialize (Htk s0). rewrite G' in Htk.
    destruct (getTank w s0) as [tk0|] eqn:G0; [|contradiction].
    destruct Htk as (_ & _ & -> & _). apply tickTank_heading. eauto.
  - intros op n w n' w' Hne Hc ND HP E s0 tk' G'.
    destruct (exec_frame _ _ _ _ _ Hne E) as (_ & _ & _ & Htk).
    specialize (Htk s0). rewrite G' in Htk.
    destruct (getTank w s0) as [tk0|] eqn:G0; [|contradiction].
    destruct (op_heading _ _ _ _ Htk) as (-> & _). eauto.
  - eauto.
Qed.

Lemma damaged_bounds (d h : Z) (k : nat) :
  (0 <= d)%Z -> (0 <= h)%Z ->
  (0 <= damaged d h k <= h)%Z.
Proof.
  intros Hd Hh. unfold damaged. destruct k as [|k]; cbn [Nat.eqb]; [lia|].
  rewrite Nat2Z.inj_succ. nia.
Qed.

Lemma op_hp (c : Constants) (now : Q) (tk tk' : Tank) :
  tank_op_rel c now tk tk' ->
  tankType tk' = tankType tk /\ (hp tk' = hp tk \/ hp tk' = 0%Z).
Proof.
  intros [->|[(_ & call & ->)|[(_ & pid & ->)| ->]]]; cbn; auto.
Qed.

(** X11.  Hit points stay within the class: when the hit points of the
    tank classes and the damage constant are non-negative, every tank of
    every state of a match has between 0 and the full hit points of its
    class, and no tick, starter call, shot or forfeit raises the hit
    points of a tank. *)
Theorem hp_within_class (c : Constants) (st : nat * World) (s : string)
    (tk : Tank) :
  (forall ty, 0 <= stat_hp (TANK_TYPES c ty))%Z ->
  (0 <= PROJECTILE_DAMAGE c)%Z ->
  reachable c st ->
  getTank (snd st) s = Some tk ->
  (0 <= hp tk <= stat_hp (TANK_TYPES c (tankType tk)))%Z
  /\ forall op st', exec op st = Some st' ->
       (hpOf (snd st') s <= hp tk)%Z.
Proof.
  intros Hs Hd R G.
  destruct (reachable_worlds c
              (fun w => forall s tk, getTank w s = Some tk ->
                 (0 <= hp tk <= stat_hp (TANK_TYPES c (tankType tk)))%Z))
    with (st := st) as (Hc & ND & H); auto.
  - intros seed0 players s0 tk0 G0.
    destruct (createWorld_inv seed0 c players
                (fun tk => hp tk = stat_hp (TANK_TYPES c (tankType tk))))
      as (_ & _ & _ & _ & _ & HP); [reflexivity|].
    rewrite (HP s0 tk0 G0). specialize (Hs (tankType tk0)). lia.
  - intros w Hc ND HP s0 tk' G'.
    destruct (step_frame w ND) as (_ & _ & _ & Htk).
    specialize (Htk s0). rewrite G' in Htk.
    destruct (getTank w s0) as [tk0|] eqn:G0; [|contradiction].
    assert (Ty : tankType tk' = tankType tk0)
      by exact (f_equal snd (step_identity _ _ _ _ _ Htk)).
    pose proof (step_damage w s0 ND) as D. rewrite Hc in D. specialize (D Hd).
    unfold hpOf in D. rewrite G', G0 in D.
    destruct (HP s0 tk0 G0) as (L & U).
    pose proof (damaged_bounds (PROJECTILE_DAMAGE c) (hp tk0)
                  (hitsOn s0 (snd (step w))) Hd L).
    rewrite Ty, D. lia.
  - intros op n w n' w' Hne Hc ND HP E s0 tk' G'.
    destruct (exec_frame _ _ _ _ _ Hne E) as (_ & _ & _ & Htk).
    specialize (Htk s0). rewrite G' in Htk.
    destruct (getTank w s0) as [tk0|] eqn:G0; [|contradiction].
    destruct (op_hp _ _ _ _ Htk) as (-> & [-> | ->]);
      destruct (HP s0 tk0 G0); lia.
  - split; [eauto|]. intros op [n' w'] E. destruct st as [n w].
    cbn [snd] in *. destruct (H s tk G) as (L & U).
    destruct op as [|s0 call|s0|s0].
    + simpl in E. injection E as <- <-.
      pose proof (step_damage w s ND) as D. rewrite Hc in D.
      specialize (D Hd). rewrite D. unfold hpOf at 1. rewrite G.
      pose proof (damaged_bounds (PROJECTILE_DAMAGE c) (hp tk)
                    (hitsOn s (snd (step w))) Hd L). lia.
    + assert (Hne : OpStart s0 call <> OpStep) by discriminate.
      destruct (exec_frame _ _ _ _ _ Hne E) as (_ & _ & _ & Htk).
      specialize (Htk s). rewrite G in Htk. unfold hpOf.
      destruct (getTank w' s) as [tk'|]; [|contradiction].
      destruct (op_hp _ _ _ _ Htk) as (_ & [-> | ->]); lia.
    + assert (Hne : OpShoot s0 <> OpStep) by discriminate.
      destruct (exec_frame _ _ _ _ _ Hne E) as (_ & _ & _ & Htk).
      specialize (Htk s). rewrite G in Htk. unfold hpOf.
      destruct (getTank w' s) as [tk'|]; [|contradiction].
      destruct (op_hp _ _ _ _ Htk) as (_ & [-> | ->]); lia.
    + assert (Hne : OpForfeit s0 <> OpStep) by discriminate.
      destruct (exec_frame _ _ _ _ _ Hne E) as (_ & _ & _ & Htk).
      specialize (Htk s). rewrite G in Htk. unfold hpOf.
      destruct (getTank w' s) as [tk'|]; [|contradiction].
      destruct (op_hp _ _ _ _ Htk) as (_ & [-> | ->]); lia.
Qed.

Lemma tickTank_dead (c : Constants) (now dt : Q) (tk : Tank) :
  (hp tk <= 0)%Z -> tickTank c now dt tk = tk.
Proof.
  intros H. unfold tickTank. apply Z.leb_le in H. now rewrite H.
Qed.

(** One operation on a world with a dead tank. *)
Lemma dead_exec (op : Op) (n n' : nat) (w w' : World) (s : string)
    (tk : Tank) :
  NoDup (Dict.keys (tanks w)) ->
  getTank w s = Some tk -> (hp tk <= 0)%Z ->
  exec op (n, w) = Some (n', w') ->
  exists tk', getTank w' s = Some tk' /\ (hp tk' <= 0)%Z
              /\ x tk' = x tk /\ y tk' = y tk
              /\ headingDeg tk' = headingDeg tk.
Proof.
  intros ND G Hd E. destruct op as [|s0 call|s0|s0].
  - simpl in E. injection E as <- <-.
    destruct (step_frame w ND) as (_ & _ & _ & Htk).
    specialize (Htk s). rewrite G in Htk.
    destruct (getTank (fst (step w)) s) as [tk'|]; [|contradiction].
    exists tk'. split; [reflexivity|].
    destruct Htk as (X & Y & Hh & _ & _ & _ & _ & Dd & _).
    rewrite (tickTank_dead _ _ _ _ Hd) in X, Y, Hh.
    rewrite (Dd Hd). auto.
  - assert (Hne : OpStart s0 call <> OpStep) by discriminate.
    destruct (exec_frame _ _ _ _ _ Hne E) as (_ & _ & _ & Htk).
    specialize (Htk s). rewrite G in Htk.
    destruct (getTank w' s) as [tk'|]; [|contradiction].
    exists tk'. split; [reflexivity|].
    destruct (op_heading _ _ _ _ Htk) as (A & B & C).
    destruct (op_hp _ _ _ _ Htk) as (_ & [D | D]); rewrite D; auto.
    repeat split; auto; lia.
  - assert (Hne : OpShoot s0 <> OpStep) by discriminate.
    destruct (exec_frame _ _ _ _ _ Hne E) as (_ & _ & _ & Htk).
    specialize (Htk s). rewrite G in Htk.
    destruct (getTank w' s) as [tk'|]; [|contradiction].
    exists tk'. split; [reflexivity|].
    destruct (op_heading _ _ _ _ Htk) as (A & B & C).
    destruct (op_hp _ _ _ _ Htk) as (_ & [D | D]); rewrite D; auto.
    repeat split; auto; lia.
  - assert (Hne : OpForfeit s0 <> OpStep) by discriminate.
    destruct (exec_frame _ _ _ _ _ Hne E) as (_ & _ & _ & Htk).
    specialize (Htk s). rewrite G in Htk.
    destruct (getTank w' s) as [tk'|]; [|contradiction].
    exists tk'. split; [reflexivity|].
    destruct (op_heading _ _ _ _ Htk) as (A & B & C).
    destruct (op_hp _ _ _ _ Htk) as (_ & [D | D]); rewrite D; auto.
    repeat split; auto; lia.
Qed.

(** X12.  Death is final.  Once a tank has no hit points left, no run of
    ticks, starter calls, shots and forfeits gives it hit points again or
    changes its position or heading, and no later tick emits an
    [actionComplete] event for it, even if a starter call was accepted
    for it in the meantime: starters do not check that the tank is
    alive, and the applicator skips dead tanks. *)
Theorem death_is_final (ops : list Op) :
  forall (n n' : nat) (w w' : World) (s : string) (tk : Tank),
  NoDup (Dict.keys (tanks w)) ->
  getTank w s = Some tk -> (hp tk <= 0)%Z ->
  execAll ops (n, w) = Some (n', w') ->
  (exists tk', getTank w' s = Some tk' /\ (hp tk' <= 0)%Z
               /\ x tk' = x tk /\ y tk' = y tk
               /\ headingDeg tk' = headingDeg tk)
  /\ forall ty res, ~ In (ActionComplete s ty res) (snd (step w')).
Proof.
  induction ops as [|op ops IH]; intros n n' w w' s tk ND G Hd E;
    cbn [execAll] in E.
  - injection E as <- <-. split; [exists tk; auto|].
    intros ty res C.
    destruct (proj1 (step_actionComplete w s ty ND) (ex_intro _ res C))
      as (tk0 & a & G0 & _ & Ex & _).
    assert (tk0 = tk) as -> by congruence.
    unfold expires in Ex. apply Z.leb_le in Hd. rewrite Hd in Ex.
    discriminate.
  - destruct (exec op (n, w)) as [[n1 w1]|] eqn:E1; [|discriminate].
    destruct (dead_exec _ _ _ _ _ _ _ ND G Hd E1)
      as (tk1 & G1 & Hd1 & X1 & Y1 & H1).
    destruct (exec_keys _ _ _ _ _ ND E1) as (_ & K).
    assert (ND1 : NoDup (Dict.keys (tanks w1))) by now rewrite K.
    destruct (IH _ _ _ _ _ _ ND1 G1 Hd1 E)
      as ((tk' & G' & Hd' & X' & Y' & H') & Hev).
    split; [|exact Hev].
    exists tk'. repeat split; auto; congruence.
Qed.
End MatchInvariants.

Section MatchEnd.
Context {M : MathLib}.
Import World Actions Step TankApi Run Props TickView Facts.

Lemma insertByHp_In (w : World) (a : string) (l : list string) (b : string) :
  In b (insertByHp w a l) <-> b = a \/ In b l.
Proof.
  induction l as [|c l IH]; cbn [insertByHp].
  - cbn. intuition.
  - destruct (hpOf w a <=? hpOf w c)%Z; cbn [In]; [rewrite IH|]; intuition.
Qed.

Lemma insertByHp_length (w : World) (a : string) (l : list string) :
  List.length (insertByHp w a l) = S (List.length l).
Proof.
  induction l as [|c l IH]; cbn [insertByHp]; [reflexivity|].
  destruct (hpOf w a <=? hpOf w c)%Z; cbn [List.length]; [now rewrite IH|].
  reflexivity.
Qed.

Lemma insertByHp_NoDup (w : World) (a : string) (l : list string) :
  ~ In a l -> NoDup l -> NoDup (insertByHp w a l).
Proof.
  induction l as [|c l IH]; intros Hn ND; cbn [insertByHp].
  - repeat constructor. intros [].
  - inversion ND as [|? ? Hc ND']; subst.
    destruct (hpOf w a <=? hpOf w c)%Z.
    + constructor.
      * rewrite insertByHp_In. intros [->|H]; [apply Hn; now left|auto].
      * apply IH; auto. intros C. apply Hn. now right.
    + constructor; assumption.
Qed.

Lemma insertByHp_descending (w : World) (a : string) (l : list string) :
  descending w l -> descending w (insertByHp w a l).
Proof.
  induction l as [|c l IH]; intros D; cbn [insertByHp].
  - cbn. split; [intros ? []|exact I].
  - destruct D as (Hc & D).
    destruct (hpOf w a <=? hpOf w c)%Z eqn:E.
    + apply Z.leb_le in E. cbn [descending]. split; [|now apply IH].
      intros b Hb. apply insertByHp_In in Hb.
      destruct Hb as [->|Hb]; [exact E|now apply Hc].
    + apply Z.leb_gt in E. cbn [descending]. split; [|split; assumption].
      intros b [<-|Hb]; [lia|]. specialize (Hc b Hb). lia.
Qed.

(** The sort of the time-limit branch: a rearrangement of [alive] in
    descending order of hit points. *)
Lemma sortByHp_spec (w : World) (alive : list string) :
  NoDup alive ->
  (forall b, In b (sortByHp w alive) <-> In b alive)
  /\ List.length (sortByHp w alive) = List.length alive
  /\ NoDup (sortByHp w alive)
  /\ descending w (sortByHp w alive).
Proof.
  unfold sortByHp.
  assert (G : forall (l acc : list string),
             NoDup (acc ++ l) -> descending w acc ->
             (forall b, In b (fold_left (fun s a => insertByHp w a s) l acc)
                        <-> In b acc \/ In b l)
             /\ List.length (fold_left (fun s a => insertByHp w a s) l acc)
                = (List.length acc + List.length l)%nat
             /\ NoDup (fold_left (fun s a => insertByHp w a s) l acc)
             /\ descending w (fold_left (fun s a => insertByHp w a s) l acc)).
  { induction l as [|a l IH]; intros acc ND D; cbn [fold_left].
    - rewrite app_nil_r in ND. cbn. rewrite Nat.add_0_r.
      repeat split; auto; intuition.
    - assert (Ha : ~ In a acc).
      { apply NoDup_remove_2 in ND. intros C. apply ND.
        apply in_app_iff. now left. }
      assert (NDa : NoDup acc).
      { apply NoDup_app_remove_r in ND. exact ND. }
      assert (ND' : NoDup (insertByHp w a acc ++ l)).
      { apply NoDup_remove in ND. destruct ND as (ND & Hn).
        apply NoDup_app; [now apply insertByHp_NoDup| |].
        - now apply NoDup_app_remove_l in ND.
        - intros b Hb Hl. apply insertByHp_In in Hb.
          destruct Hb as [->|Hb].
          + apply Hn. apply in_app_iff. now right.
          + revert b Hb Hl. clear - ND.
            induction acc as [|c acc IH]; intros b Hb Hl; [contradiction|].
            cbn in ND. inversion ND as [|? ? Hc ND']; subst.
            destruct Hb as [->|Hb]; [|eauto].
            apply Hc. apply in_app_iff. now right. }
      destruct (IH (insertByHp w a acc) ND'
                  (insertByHp_descending w a acc D)) as (I1 & I2 & I3 & I4).
      split; [|split; [|split]]; auto.
      + intros b. rewrite I1, insertByHp_In. cbn [In]. intuition.
      + rewrite I2, insertByHp_length. cbn [List.length]. lia. }
  intros ND. destruct (G alive [] ND I) as (A & B & C & D).
  split; [|auto]. intros b. rewrite A. cbn. intuition.
Qed.

Lemma aliveSlots_NoDup (w : World) :
  NoDup (Dict.keys (tanks w)) -> NoDup (aliveSlots w).
Proof.
  unfold aliveSlots, Dict.keys. generalize (tanks w).
  induction l as [|[k v] l IH]; intros ND; cbn; [constructor|].
  inversion ND as [|? ? Hn ND']; subst.
  destruct (0 <? hp v)%Z; cbn; [|auto].
  constructor; [|auto]. intros C. apply Hn.
  apply in_map_iff in C. destruct C as (e & E & Hin).
  apply filter_In in Hin. apply in_map_iff. exists e. tauto.
Qed.

(** The verdict of the match-end check on a world. *)
Lemma matchEndCheck_verdict (w : World) :
  NoDup (Dict.keys (tanks w)) ->
  let alive := aliveSlots w in
  let limit := MATCH_TIME_LIMIT (constants w) in
  (forall winner reason, In (MatchEnd winner reason) (matchEndCheck w []) ->
     (reason = "hp"%string
      /\ exists a, alive = [a] /\ winner = Some a)
     \/ (reason = "double_ko"%string /\ alive = [] /\ winner = None)
     \/ (reason = "timeout"%string /\ (2 <= List.length alive)%nat
         /\ limit <= t w
         /\ match winner with
            | Some a =>
                In a alive
                /\ forall b, In b alive -> b <> a ->
                             (hpOf w b < hpOf w a)%Z
            | None =>
                forall a, In a alive ->
                  exists b, In b alive /\ b <> a
                            /\ (hpOf w a <= hpOf w b)%Z
            end))
  /\ (List.length (matchEndCheck w []) <= 1)%nat
  /\ (matchEndCheck w [] <> []
      <-> (List.length alive <= 1)%nat \/ limit <= t w).
Proof.
  intros ND alive limit.
  pose proof (aliveSlots_NoDup w ND) as NDa. fold alive in NDa.
  unfold matchEndCheck. cbv zeta. fold (aliveSlots w). fold alive. fold limit.
  destruct (List.length alive <=? 1)%nat eqn:L1.
  - apply Nat.leb_le in L1.
    destruct alive as [|a [|b l]] eqn:Ea; cbn [app List.length] in *;
      try lia.
    + split; [|split; [lia|]].
      * intros winner reason [[= <- <-]|[]]. right. left. auto.
      * split; [left; lia|discriminate].
    + split; [|split; [lia|]].
      * intros winner reason [[= <- <-]|[]]. left. split; [reflexivity|].
        exists a. auto.
      * split; [left; lia|discriminate].
  - apply Nat.leb_gt in L1.
    destruct (JS.geb (t w) limit) eqn:T.
    + apply geb_ge in T.
      destruct (sortByHp_spec w alive NDa) as (SI & SL & SN & SD).
      destruct (sortByHp w alive) as [|a0 [|a1 rest]] eqn:Es;
        cbn [List.length] in SL; try lia.
      destruct SD as (H0 & H1 & _).
      inversion SN as [|? ? Hn0 _]; subst.
      assert (N01 : a1 <> a0).
      { intros ->. apply Hn0. now left. }
      destruct (hpOf w a1 <? hpOf w a0)%Z eqn:C; cbn [app List.length].
      * apply Z.ltb_lt in C. split; [|split; [lia|]].
        -- intros winner reason [[= <- <-]|[]]. right. right.
           split; [reflexivity|]. split; [lia|]. split; [exact T|].
           split; [apply SI; now left|].
           intros b Hb Nb. apply SI in Hb. destruct Hb as [->|Hb];
             [contradiction|].
           destruct Hb as [<-|Hb]; [exact C|].
           specialize (H1 b Hb). lia.
        -- split; [right; exact T|discriminate].
      * apply Z.ltb_ge in C. split; [|split; [lia|]].
        -- intros winner reason [[= <- <-]|[]]. right. right.
           split; [reflexivity|]. split; [lia|]. split; [exact T|].
           intros a Ha. apply SI in Ha. destruct Ha as [<-|Ha].
           ++ exists a1. split; [apply SI; right; now left|].
              split; [exact N01|exact C].
           ++ exists a0. split; [apply SI; now left|]. split.
              ** intros <-. apply Hn0. exact Ha.
              ** now apply H0.
        -- split; [right; exact T|discriminate].
    + apply geb_lt in T. cbn [List.length]. split; [intros ? ? []|].
      split; [lia|]. split; [congruence|]. intros [H|H]; [lia|lra].
Qed.

(** The match-end events of a tick. *)
Lemma step_verdict (w : World) :
  NoDup (Dict.keys (tanks w)) ->
  let w' := fst (step w) in
  let alive := aliveSlots w' in
  let limit := MATCH_TIME_LIMIT (constants w) in
  (forall winner reason, In (MatchEnd winner reason) (snd (step w)) ->
     (reason = "hp"%string
      /\ exists a, alive = [a] /\ winner = Some a)
     \/ (reason = "double_ko"%string /\ alive = [] /\ winner = None)
     \/ (reason = "timeout"%string /\ (2 <= List.length alive)%nat
         /\ limit <= t w'
         /\ match winner with
            | Some a =>
                In a alive
                /\ forall b, In b alive -> b <> a ->
                             (hpOf w' b < hpOf w' a)%Z
            | None =>
                forall a, In a alive ->
                  exists b, In b alive /\ b <> a
                            /\ (hpOf w' a <= hpOf w' b)%Z
            end))
  /\ (List.length (filter isMatchEnd (snd (step w))) <= 1)%nat
  /\ ((exists winner reason, In (MatchEnd winner reason) (snd (step w)))
      <-> (List.length alive <= 1)%nat \/ limit <= t w').
Proof.
  intros ND w' alive limit.
  destruct (step_frame w ND) as (_ & Hc & Hk & _). fold w' in Hc, Hk.
  assert (ND' : NoDup (Dict.keys (tanks w'))) by now rewrite Hk.
  destruct (matchEndCheck_verdict w' ND') as (V & L & E).
  cbv zeta in V, E. rewrite Hc in V, E. fold alive limit in V, E.
  assert (S : exists pre,
             snd (step w) = pre ++ matchEndCheck w' []
             /\ Forall (fun e => isMatchEnd e = false) pre).
  { unfold w'. rewrite step_phases. cbv zeta. cbn [fst snd].
    eexists. split; [rewrite !app_assoc; reflexivity|].
    repeat (apply Forall_app; split).
    - apply Forall_forall. intros e H. apply in_map_iff in H.
      destruct H as (d & <- & _). reflexivity.
    - eapply Forall_impl; [|apply despawnLoop_kinds].
      intros e H. destruct e; try discriminate; reflexivity.
    - eapply Forall_impl; [|apply hitLoop_kinds].
      intros e (p & tg & dmg & _ & ->). reflexivity. }
  destruct S as (pre & Ev & Fpre). rewrite Ev.
  assert (Inn : forall winner reason,
             In (MatchEnd winner reason) (pre ++ matchEndCheck w' [])
             <-> In (MatchEnd winner reason) (matchEndCheck w' [])).
  { intros winner reason. rewrite in_app_iff. split; [|auto].
    intros [H|H]; [|exact H]. rewrite Forall_forall in Fpre.
    specialize (Fpre _ H). discriminate. }
  split; [|split].
  - intros winner reason H. apply Inn in H. now apply V.
  - rewrite filter_app.
    assert (Z : filter isMatchEnd pre = []).
    { clear - Fpre. induction Fpre as [|e l He _ IH]; [reflexivity|].
      cbn. now rewrite He. }
    rewrite Z. cbn [app].
    pose proof (matchEndCheck_kinds w') as K.
    assert (F : filter isMatchEnd (matchEndCheck w' []) = matchEndCheck w' []).
    { clear - K. induction K as [|e l He _ IH]; [reflexivity|].
      cbn. now rewrite He, IH. }
    now rewrite F.
  - rewrite <- E. split.
    + intros (winner & reason & H). apply Inn in H. intros C.
      rewrite C in H. contradiction.
    + intros H. pose proof (matchEndCheck_kinds w') as K.
      destruct (matchEndCheck w' []) as [|e l] eqn:Em; [congruence|].
      inversion K as [|? ? He _]; subst.
      destruct e as [| | |winner reason]; try discriminate.
      exists winner, reason. apply in_app_iff. right. now left.
Qed.

(** X16.  The verdict of a tick.  A tick emits at most one [matchEnd]
    event, and emits one exactly when at most one tank is alive after the
    tick or the time limit is reached.  With reason ["hp"] the winner is
    the only tank alive; with ["double_ko"] no tank is alive and there is
    no winner; with ["timeout"] at least two tanks are alive, and the
    winner has strictly more hit points than every other tank alive, or
    there is no winner because no tank alive has strictly the most. *)
Theorem match_end_verdict (w : World) :
  NoDup (Dict.keys (tanks w)) ->
  let w' := fst (step w) in
  let alive := aliveSlots w' in
  let limit := MATCH_TIME_LIMIT (constants w) in
  (forall winner reason, In (MatchEnd winner reason) (snd (step w)) ->
     (reason = "hp"%string
      /\ exists a, alive = [a] /\ winner = Some a)
     \/ (reason = "double_ko"%string /\ alive = [] /\ winner = None)
     \/ (reason = "timeout"%string /\ (2 <= List.length alive)%nat
         /\ limit <= t w'
         /\ match winner with
            | Some a =>
                In a alive
                /\ forall b, In b alive -> b <> a ->
                             (hpOf w' b < hpOf w' a)%Z
            | None =>
                forall a, In a alive ->
                  exists b, In b alive /\ b <> a
                            /\ (hpOf w' a <= hpOf w' b)%Z
            end))
  /\ (List.length (filter isMatchEnd (snd (step w))) <= 1)%nat
  /\ ((exists winner reason, In (MatchEnd winner reason) (snd (step w)))
      <-> (List.length alive <= 1)%nat \/ limit <= t w').
Proof. exact (step_verdict w). Qed.
End MatchEnd.

Section StraightMoves.
Context {M : MathLib}.
Import World Actions Step TankApi Run Props TickView Facts.

Lemma between (lo hi x0 d i m : Q) :
  0 <= i -> i <= m -> lo <= x0 -> x0 <= hi ->
  lo <= x0 + m * d -> x0 + m * d <= hi ->
  lo <= x0 + i * d /\ x0 + i * d <= hi.
Proof.
  intros Hi Him L0 U0 Lm Um.
  destruct (Qlt_le_dec d 0) as [N|P].
  - assert (m * d <= i * d) by nra. assert (i * d <= 0) by nra. lra.
  - assert (i * d <= m * d) by nra. assert (0 <= i * d) by nra. lra.
Qed.

Lemma clamp_inside (c : Constants) (tk : Tank) :
  inArena c tk ->
  x (clampToArena tk c) = x tk /\ y (clampToArena tk c) = y tk.
Proof.
  intros (Lx & Ux & Ly & Uy). unfold clampToArena. cbv zeta.
  cbn [x y tank_with_pose].
  assert (X1 : JS.ltb (x tk) (TANK_RADIUS c) = false).
  { apply not_true_iff_false. rewrite ltb_lt. lra. }
  assert (Y1 : JS.ltb (y tk) (TANK_RADIUS c) = false).
  { apply not_true_iff_false. rewrite ltb_lt. lra. }
  rewrite X1, Y1.
  assert (X2 : JS.gtb (x tk) (ARENA_WIDTH c - TANK_RADIUS c) = false).
  { apply not_true_iff_false. rewrite gtb_gt. lra. }
  assert (Y2 : JS.gtb (y tk) (ARENA_HEIGHT c - TANK_RADIUS c) = false).
  { apply not_true_iff_false. rewrite gtb_gt. lra. }
  now rewrite X2, Y2.
Qed.

(** A straight move whose destination is inside the inset arena is never
    clamped on the way. *)
Lemma afterTicks_straight (c : Constants) (forward : bool) (tk0 : Tank)
    (m : nat) :
  let a := if forward then MoveForward else MoveBackward in
  let dt := 1 / TICK_RATE c in
  inArena c tk0 ->
  TANK_RADIUS c <= x tk0 + ofNat m * fst (stride c forward tk0) ->
  x tk0 + ofNat m * fst (stride c forward tk0)
    <= ARENA_WIDTH c - TANK_RADIUS c ->
  TANK_RADIUS c <= y tk0 + ofNat m * snd (stride c forward tk0) ->
  y tk0 + ofNat m * snd (stride c forward tk0)
    <= ARENA_HEIGHT c - TANK_RADIUS c ->
  forall j, (j <= m)%nat ->
    x (afterTicks c dt a j tk0) == x tk0 + ofNat j * fst (stride c forward tk0)
    /\ y (afterTicks c dt a j tk0)
       == y tk0 + ofNat j * snd (stride c forward tk0)
    /\ headingDeg (afterTicks c dt a j tk0) = headingDeg tk0
    /\ tankType (afterTicks c dt a j tk0) = tankType tk0.
Proof.
  intros a dt (Lx & Ux & Ly & Uy) Lmx Umx Lmy Umy.
  induction j as [|j IH]; intros Hj.
  - cbn. unfold ofNat. cbn. repeat split; ring.
  - destruct (IH ltac:(lia)) as (Ex & Ey & Eh & Et).
    change (afterTicks c dt a (S j) tk0)
      with (applyEffect c dt (afterTicks c dt a j tk0) a).
    set (k := afterTicks c dt a j tk0) in *.
    assert (Hi : 0 <= ofNat (S j) /\ ofNat (S j) <= ofNat m).
    { split; [|now apply ofNat_le].
      unfold ofNat. change 0 with (inject_Z 0). rewrite <- Zle_Qle. lia. }
    destruct Hi as (Hi0 & Him).
    destruct (between (TANK_RADIUS c) (ARENA_WIDTH c - TANK_RADIUS c)
                (x tk0) (fst (stride c forward tk0)) (ofNat (S j)) (ofNat m))
      as (Bx1 & Bx2); try assumption.
    destruct (between (TANK_RADIUS c) (ARENA_HEIGHT c - TANK_RADIUS c)
                (y tk0) (snd (stride c forward tk0)) (ofNat (S j)) (ofNat m))
      as (By1 & By2); try assumption.
    assert (Sx : forall moved,
               x moved == x k + fst (stride c forward tk0) ->
               x moved == x tk0 + ofNat (S j) * fst (stride c forward tk0)).
    { intros moved E. rewrite E, Ex, ofNat_S. ring. }
    assert (Sy : forall moved,
               y moved == y k + snd (stride c forward tk0) ->
               y moved == y tk0 + ofNat (S j) * snd (stride c forward tk0)).
    { intros moved E. rewrite E, Ey, ofNat_S. ring. }
    unfold a, stride in *. cbv zeta in *.
    destruct forward; cbn [applyEffect fst snd] in *; rewrite Eh, Et in *.
    + set (moved := tank_with_pose k _ _ _).
      assert (Mx : x moved
                   == x tk0 + ofNat (S j)
                      * (Math_cos (headingDeg tk0 * DEG2RAD)
                         * moveSpeed (TANK_TYPES c (tankType tk0))
                         * (1 / TICK_RATE c))).
      { apply Sx. unfold moved, dt. cbn [x tank_with_pose]. ring. }
      assert (My : y moved
                   == y tk0 + ofNat (S j)
                      * (Math_sin (headingDeg tk0 * DEG2RAD)
                         * moveSpeed (TANK_TYPES c (tankType tk0))
                         * (1 / TICK_RATE c))).
      { apply Sy. unfold moved, dt. cbn [y tank_with_pose]. ring. }
      destruct (clamp_inside c moved) as (Cx & Cy).
      { unfold inArena. rewrite Mx, My. auto. }
      rewrite Cx, Cy. repeat split; auto.
    + set (moved := tank_with_pose k _ _ _).
      assert (Mx : x moved
                   == x tk0 + ofNat (S j)
                      * - (Math_cos (headingDeg tk0 * DEG2RAD)
                           * moveSpeed (TANK_TYPES c (tankType tk0))
                           * (1 / TICK_RATE c))).
      { apply Sx. unfold moved, dt. cbn [x tank_with_pose]. ring. }
      assert (My : y moved
                   == y tk0 + ofNat (S j)
                      * - (Math_sin (headingDeg tk0 * DEG2RAD)
                           * moveSpeed (TANK_TYPES c (tankType tk0))
                           * (1 / TICK_RATE c))).
      { apply Sy. unfold moved, dt. cbn [y tank_with_pose]. ring. }
      destruct (clamp_inside c moved) as (Cx & Cy).
      { unfold inArena. rewrite Mx, My. auto. }
      rewrite Cx, Cy. repeat split; auto.
Qed.

(** X15.  A straight move covers the exact distance.  A [moveForward] or
    [moveBackward] accepted for a tank inside the inset arena, whose busy
    window ends with tick [m], leaves the tank after that tick at its
    start position plus [m] times the per-tick displacement
    [moveSpeed * dt] along (or against) its heading, with the heading
    unchanged and the action cleared, provided that destination is inside
    the arena inset by the tank radius: no clamping happens on the way. *)
Theorem straight_move_distance (c : Constants) (s : string) (forward : bool)
    (w0 w : World) (tk0 : Tank) (n : nat) (ops : list Op) (n' : nat)
    (w' : World) (tk' : Tank) :
  let call := if forward then CallMoveForward else CallMoveBackward in
  let dt := 1 / TICK_RATE c in
  let m := S (stepsIn ops) in
  let destX := x tk0 + ofNat m * fst (stride c forward tk0) in
  let destY := y tk0 + ofNat m * snd (stride c forward tk0) in
  constants w0 = c ->
  NoDup (Dict.keys (tanks w0)) ->
  getTank w0 s = Some tk0 ->
  startAction w0 s call = Some (w, true) ->
  EPSILON < ACTION_DURATION c \/ forallb (quiet s) ops = true ->
  execAll ops (n, w) = Some (n', w') ->
  getTank w' s = Some tk' ->
  (0 < hp tk')%Z ->
  (forall i, (1 <= i <= stepsIn ops)%nat ->
     ofNat i * dt < ACTION_DURATION c - EPSILON) ->
  ACTION_DURATION c - EPSILON <= ofNat m * dt ->
  inArena c tk0 ->
  TANK_RADIUS c <= destX -> destX <= ARENA_WIDTH c - TANK_RADIUS c ->
  TANK_RADIUS c <= destY -> destY <= ARENA_HEIGHT c - TANK_RADIUS c ->
  exists tk'',
    getTank (fst (step w')) s = Some tk''
    /\ activeAction tk'' = None
    /\ x tk'' == destX /\ y tk'' == destY
    /\ headingDeg tk'' = headingDeg tk0.
Proof.
  intros call dt m destX destY Hc ND G0 Eacc Hq E G' Hhp Hearly Hend
    Hin Lx Ux Ly Uy.
  assert (HD : call_duration c tk0 call = ACTION_DURATION c)
    by (unfold call; destruct forward; reflexivity).
  destruct (action_window_parts c s call w0 w tk0 n ops n' w' tk'
              Hc ND G0 Eacc) as (tk'' & G'' & P'' & Hdone);
    try (rewrite HD); try assumption.
  rewrite HD in Hdone.
  exists tk''. split; [exact G''|]. split; [now apply Hdone|].
  destruct P'' as (Px & Py & Ph & _).
  destruct (afterTicks_straight c forward tk0 m Hin Lx Ux Ly Uy m (le_n _))
    as (Ax & Ay & Ah & _).
  assert (Ca : call_action call = if forward then MoveForward else MoveBackward)
    by (unfold call; destruct forward; reflexivity).
  rewrite Ca in Px, Py, Ph. fold dt in Px, Py, Ph.
  rewrite Px, Py, Ph. auto.
Qed.
End StraightMoves.

Section Resolution.
Context {M : MathLib}.
Import World Actions Step TankApi Run Props TickView Facts Resolver.

(** One key of the applicator loop, with the scan result. *)
Lemma applyOne_desc (w : World) (dt : Q) (s : string)
    (comp : list Completed) (d : Completed) :
  In d (snd (applyOne w dt s comp)) ->
  In d comp
  \/ (c_slot d = s
      /\ exists tk a tk',
           getTank w s = Some tk /\ activeAction tk = Some a
           /\ c_actionType d = action_type a
           /\ getTank (fst (applyOne w dt s comp)) s = Some tk'
           /\ scanAgrees a d tk').
Proof.
  unfold applyOne.
  destruct (getTank w s) as [tk|] eqn:G; [|now left].
  destruct (hp tk <=? 0)%Z; [now left|].
  destruct (activeAction tk) as [a|] eqn:A; [|now left].
  cbv zeta. destruct (JS.geb _ _); [|now left].
  unfold completeAction. cbn [fst snd]. intros H.
  apply in_app_iff in H. destruct H as [H|[<-|[]]]; [now left|right].
  cbn [c_slot c_actionType c_scanResult]. split; [reflexivity|].
  exists tk, a. eexists. split; [reflexivity|]. split; [exact A|].
  split; [reflexivity|]. split; [apply getTank_putTank_same|].
  destruct a; cbn; try reflexivity. eexists. split; reflexivity.
Qed.

Lemma applyLoop_desc (dt : Q) (ks : list string) :
  NoDup ks ->
  forall (w : World) (comp : list Completed) (d : Completed),
  In d (snd (applyLoop ks w dt comp)) ->
  In d comp
  \/ (In (c_slot d) ks
      /\ exists tk a tk',
           getTank w (c_slot d) = Some tk /\ activeAction tk = Some a
           /\ c_actionType d = action_type a
           /\ getTank (fst (applyLoop ks w dt comp)) (c_slot d) = Some tk'
           /\ scanAgrees a d tk').
Proof.
  induction ks as [|s ks IH]; intros ND w comp d; cbn [applyLoop].
  - now left.
  - inversion ND as [|? ? Hn ND']; subst.
    pose proof (applyOne_desc w dt s comp d) as H1.
    destruct (applyOne w dt s comp) as [w1 comp1] eqn:E1.
    cbn [fst snd] in H1. intros H.
    assert (Oth : forall s', s <> s' -> getTank w1 s' = getTank w s').
    { intros s' N. destruct (getTank w s) as [tk|] eqn:G.
      - pose proof (applyOne_spec w dt s comp tk G) as Sp.
        rewrite E1 in Sp. cbn [fst] in Sp.
        destruct Sp as (_ & O & _). now apply O.
      - rewrite (applyOne_absent _ _ _ _ G) in E1. now injection E1 as <- _. }
    pose proof (applyLoop_spec dt ks ND' w1 comp1) as Sp.
    cbv zeta in Sp. destruct Sp as (_ & _ & _ & _ & Tk & _ & _).
    destruct (IH ND' w1 comp1 d H) as [Hc|(Hin & tk & a & tk' & G & A & Ty & G' & Ag)].
    + destruct (H1 Hc) as [Hc'|(<- & tk & a & tk1 & G & A & Ty & G1 & Ag)];
        [now left|right].
      split; [now left|]. exists tk, a.
      destruct (Tk _ _ G1) as (tk' & G' & _ & Out).
      specialize (Out Hn). subst tk'. exists tk1. auto.
    + right. split; [now right|]. exists tk, a, tk'.
      assert (N : s <> c_slot d) by (intros ->; contradiction).
      rewrite <- (Oth _ N). auto.
Qed.

(** The [actionComplete] events of a tick, with the scan result that the
    tank keeps. *)
Lemma step_completions (w : World) (s ty : string) (res : option bool) :
  NoDup (Dict.keys (tanks w)) ->
  In (ActionComplete s ty res) (snd (step w)) ->
  exists tk a tk',
    getTank w s = Some tk /\ activeAction tk = Some a
    /\ ty = action_type a
    /\ getTank (fst (step w)) s = Some tk'
    /\ match a with
       | ScanArc _ _ => exists b, res = Some b /\ lastScanResult tk' = Some b
       | _ => res = None
       end.
Proof.
  intros ND. rewrite step_phases. cbv zeta. cbn [fst snd].
  set (dt := 1 / TICK_RATE (constants w)).
  pose proof (applyLoop_desc dt (Dict.keys (tanks w)) ND w []) as HD.
  fold (applyActiveActions w dt) in HD.
  pose proof (applyLoop_spec dt (Dict.keys (tanks w)) ND w []) as HA.
  cbv zeta in HA. fold (applyActiveActions w dt) in HA.
  destruct HA as (K0 & _ & _ & _ & _ & _ & _).
  set (applied := applyActiveActions w dt) in *.
  set (moved := moveProjectiles (fst applied) dt).
  pose proof (despawnLoop_frame (Dict.values (projectiles moved)) moved [])
    as Fd.
  pose proof (despawnLoop_kinds (Dict.values (projectiles moved)) moved)
    as Kd.
  set (desp := despawnLoop (Dict.values (projectiles moved)) moved []) in *.
  assert (ND2 : NoDup (Dict.keys (tanks (fst desp)))).
  { eapply NoDup_keys_frame; [exact Fd|].
    change (Dict.keys (tanks moved)) with (Dict.keys (tanks (fst applied))).
    now rewrite K0. }
  set (hr := (PROJECTILE_RADIUS (constants w) + TANK_RADIUS (constants w))
             * (PROJECTILE_RADIUS (constants w) + TANK_RADIUS (constants w))).
  pose proof (hitLoop_frame hr (Dict.values (projectiles (fst desp)))
                (fst desp) [] ND2) as Fh.
  pose proof (hitLoop_kinds hr (Dict.values (projectiles (fst desp)))
                (fst desp)) as Kh.
  set (hits := hitLoop (Dict.values (projectiles (fst desp))) (fst desp)
                 hr []) in *.
  set (final := world_with_t (fst hits) (t (fst hits) + dt)).
  pose proof (matchEndCheck_kinds final) as Km.
  intros Hin. rewrite !in_app_iff in Hin.
  destruct Hin as [H|[H|[H|H]]].
  - apply in_map_iff in H. destruct H as (d & E & Hd).
    unfold completeEvent in E. injection E as <- <- <-.
    destruct (HD d Hd) as [[]|(_ & tk & a & tk1 & G & A & Ty & G1 & Ag)].
    exists tk, a.
    pose proof (removal_frame_trans _ _ _ Fd Fh) as ((_ & R) & _).
    specialize (R (c_slot d)).
    change (getTank moved (c_slot d))
      with (getTank (fst applied) (c_slot d)) in R.
    rewrite G1 in R.
    change (getTank final (c_slot d)) with (getTank (fst hits) (c_slot d)).
    destruct (getTank (fst hits) (c_slot d)) as [tk'|]; [|contradiction].
    exists tk'. repeat split; auto.
    destruct R as (E & _).
    assert (Ls : lastScanResult tk' = lastScanResult tk1)
      by exact (eq_sym (f_equal lastScanResult E)).
    unfold scanAgrees in Ag. destruct a; auto.
    destruct Ag as (b & Eb & Lb). exists b. split; congruence.
  - rewrite Forall_forall in Kd. specialize (Kd _ H). discriminate.
  - rewrite Forall_forall in Kh. destruct (Kh _ H) as (? & ? & ? & _ & C).
    discriminate.
  - rewrite Forall_forall in Km. specialize (Km _ H). discriminate.
Qed.

Lemma completedSlots_cons (e : StepEvent) (l : list StepEvent) :
  completedSlots (e :: l) = completedSlots [e] ++ completedSlots l.
Proof. unfold completedSlots. cbn [flat_map]. now rewrite app_nil_r. Qed.

(** What [resolveActions] does to the registry, whatever the events. *)
Lemma resolveActions_spec (world : World) (events : list StepEvent) :
  forall (apis : list (string * Api)) (settled : list Settlement)
         (apis' : list (string * Api)) (settled' : list Settlement),
  resolveActions world apis events settled = Some (apis', settled') ->
  Dict.keys apis' = Dict.keys apis
  /\ (forall s,
        match Dict.get String.eqb s apis, Dict.get String.eqb s apis' with
        | Some api, Some api' =>
            if hasPending api && existsb (String.eqb s) (completedSlots events)
            then api' = clearPending api
            else api' = api
        | None, None => True
        | _, _ => False
        end)
  /\ exists new,
       settled' = settled ++ new
       /\ (forall s v, In (s, v) new ->
             In s (completedSlots events)
             /\ exists api isScan,
                  Dict.get String.eqb s apis = Some api
                  /\ _pendingResolve api = Some isScan
                  /\ callPending world s isScan = Some v)
       /\ (forall s api, Dict.get String.eqb s apis = Some api ->
             hasPending api = true -> In s (completedSlots events) ->
             In s (map fst new))
       /\ (NoDup (Dict.keys apis) -> NoDup (map fst new)).
Proof.
  induction events as [|e events IH]; intros apis settled apis' settled' E;
    cbn [resolveActions] in E.
  - injection E as <- <-. split; [reflexivity|]. split.
    + intros s. destruct (Dict.get String.eqb s apis) as [api|]; [|exact I].
      cbn. now rewrite andb_false_r.
    + exists []. rewrite app_nil_r. split; [reflexivity|].
      repeat split; try contradiction; auto using NoDup_nil.
  - assert (Skip :
      resolveActions world apis events settled = Some (apis', settled') ->
      (forall s, In s (completedSlots [e]) ->
         match Dict.get String.eqb s apis with
         | Some api => hasPending api = false
         | None => True
         end) ->
      Dict.keys apis' = Dict.keys apis
      /\ (forall s,
            match Dict.get String.eqb s apis, Dict.get String.eqb s apis' with
            | Some api, Some api' =>
                if hasPending api
                   && existsb (String.eqb s) (completedSlots (e :: events))
                then api' = clearPending api
                else api' = api
            | None, None => True
            | _, _ => False
            end)
      /\ exists new,
           settled' = settled ++ new
           /\ (forall s v, In (s, v) new ->
                 In s (completedSlots (e :: events))
                 /\ exists api isScan,
                      Dict.get String.eqb s apis = Some api
                      /\ _pendingResolve api = Some isScan
                      /\ callPending world s isScan = Some v)
           /\ (forall s api, Dict.get String.eqb s apis = Some api ->
                 hasPending api = true ->
                 In s (completedSlots (e :: events)) ->
                 In s (map fst new))
           /\ (NoDup (Dict.keys apis) -> NoDup (map fst new))).
    { intros E' Hno.
      destruct (IH _ _ _ _ E') as (K & R & new & En & Hn & Hall & Hnd).
      split; [exact K|]. split.
      - intros s. specialize (R s).
        destruct (Dict.get String.eqb s apis) as [api|] eqn:G,
          (Dict.get String.eqb s apis') as [api'|]; auto.
        rewrite completedSlots_cons, existsb_app.
        destruct (hasPending api) eqn:P; cbn [andb] in *; [|exact R].
        destruct (existsb (String.eqb s) (completedSlots [e])) eqn:X;
          [|exact R].
        apply existsb_exists in X. destruct X as (s' & Hs' & Es').
        apply String.eqb_eq in Es'. subst s'.
        specialize (Hno s Hs'). rewrite G in Hno. congruence.
      - exists new. split; [exact En|]. split; [|split; [|exact Hnd]].
        + intros s v Hin. destruct (Hn s v Hin) as (A & B).
          split; [|exact B].
          rewrite completedSlots_cons. apply in_app_iff. now right.
        + intros s api G P Hin.
          rewrite completedSlots_cons in Hin.
          apply in_app_iff in Hin. destruct Hin as [Hin|Hin]; [|eauto].
          specialize (Hno s Hin). rewrite G in Hno. congruence. }
    destruct e as [slot ty res| | |];
      try (apply Skip; [exact E|intros s []]).
    destruct (Dict.get String.eqb slot apis) as [api|] eqn:G.
    2:{ apply Skip; [exact E|]. intros s [<-|[]]. now rewrite G. }
    destruct (_pendingResolve api) as [isScan|] eqn:P.
    2:{ apply Skip; [exact E|]. intros s [<-|[]]. rewrite G.
        unfold hasPending. now rewrite P. }
    cbv zeta in E.
    destruct (callPending world slot isScan) as [value|] eqn:V;
      [|discriminate].
    destruct (IH _ _ _ _ E) as (K & R & new & En & Hn & Hall & Hnd).
    assert (K1 : Dict.keys (Dict.set String.eqb slot (clearPending api) apis)
                 = Dict.keys apis).
    { eapply (keys_set_present String.eqb); eauto. }
    split; [congruence|]. split.
    + intros s. specialize (R s).
      change (completedSlots (ActionComplete slot ty res :: events))
        with (slot :: completedSlots events).
      cbn [existsb].
      destruct (String.eqb_spec s slot) as [->|N].
      * rewrite (get_set_same String.eqb String.eqb_eq) in R. rewrite G.
        destruct (Dict.get String.eqb slot apis') as [api'|]; [|exact R].
        unfold hasPending at 1. rewrite P. cbn [andb orb].
        unfold hasPending in R. cbn in R. exact R.
      * rewrite (get_set_other String.eqb String.eqb_eq) in R by congruence.
        cbn [orb]. exact R.
    + exists ((slot, value) :: new). split.
      { rewrite En, <- app_assoc. reflexivity. }
      split; [|split].
      * intros s v [[= <- <-]|Hin].
        -- split; [now left|]. exists api, isScan. auto.
        -- destruct (Hn s v Hin) as (A & api1 & isScan1 & G1 & P1 & V1).
           split; [now right|].
           destruct (String.eqb_spec slot s) as [<-|N].
           ++ rewrite (get_set_same String.eqb String.eqb_eq) in G1.
              injection G1 as <-. discriminate P1.
           ++ rewrite (get_set_other String.eqb String.eqb_eq) in G1
                by assumption.
              exists api1, isScan1. auto.
      * intros s api0 G0 P0 Hin. cbn [map fst In].
        destruct (String.eqb_spec slot s) as [<-|N]; [now left|right].
        destruct Hin as [C|Hin]; [contradiction|].
        apply (Hall s api0); auto.
        now rewrite (get_set_other String.eqb String.eqb_eq) by assumption.
      * intros ND. cbn [map fst]. constructor; [|apply Hnd; now rewrite K1].
        intros C. apply in_map_iff in C. destruct C as ([s v] & Es & Hin).
        cbn in Es. subst s.
        destruct (Hn slot v Hin) as (_ & api1 & isScan1 & G1 & P1 & _).
        rewrite (get_set_same String.eqb String.eqb_eq) in G1.
        injection G1 as <-. discriminate P1.
Qed.

(** X17.  The resolver settles each pending promise once.  Whatever the
    events are, a run of [resolveActions] that does not throw keeps the
    keys of the registry, clears the pending callback of exactly those
    API objects that had one and whose slot has an [actionComplete]
    event, leaves every other API object as it is, and settles each of
    those promises exactly once, also when a slot has several events. *)
Theorem resolver_settles_once (world : World) (events : list StepEvent)
    (apis apis' : list (string * Api)) (settled : list Settlement) :
  NoDup (Dict.keys apis) ->
  resolveActions world apis events [] = Some (apis', settled) ->
  Dict.keys apis' = Dict.keys apis
  /\ (forall s api, Dict.get String.eqb s apis = Some api ->
        Dict.get String.eqb s apis'
        = Some (if hasPending api
                   && existsb (String.eqb s) (completedSlots events)
                then clearPending api else api))
  /\ NoDup (map fst settled)
  /\ (forall s, In s (map fst settled)
                <-> In s (completedSlots events)
                    /\ exists api, Dict.get String.eqb s apis = Some api
                                   /\ hasPending api = true).
Proof.
  intros ND E.
  destruct (resolveActions_spec world events apis [] apis' settled E)
    as (K & R & new & En & Hn & Hall & Hnd).
  cbn [app] in En. subst new.
  split; [exact K|]. split; [|split; [now apply Hnd|]].
  - intros s api G. specialize (R s). rewrite G in R.
    destruct (Dict.get String.eqb s apis') as [api'|]; [|contradiction].
    destruct (hasPending api && _); now rewrite R.
  - intros s. split.
    + intros H. apply in_map_iff in H. destruct H as ([s' v] & Es & Hin).
      cbn in Es. subst s'.
      destruct (Hn s v Hin) as (A & api & isScan & G & P & _).
      split; [exact A|]. exists api. split; [exact G|].
      unfold hasPending. now rewrite P.
    + intros (A & api & G & P). eapply Hall; eauto.
Qed.

(** X18.  An awaited action resolves with the value of its event.  When
    the registry agrees with the world before a tick, resolving the
    events of that tick against the world after it does not throw, and
    every promise it settles gets the [scanResult] of an [actionComplete]
    event of that slot: the boolean of the scan for a scan, [undefined]
    for a turn or a move.  So the value that the stored callback reads
    from [lastScanResult] is the one the event carries. *)
Theorem resolved_value_is_event_value (w : World)
    (apis : list (string * Api)) :
  NoDup (Dict.keys (tanks w)) ->
  inSync w apis ->
  exists apis' settled,
    resolveActions (fst (step w)) apis (snd (step w)) [] = Some (apis', settled)
    /\ forall s v, In (s, v) settled ->
         exists ty, In (ActionComplete s ty v) (snd (step w))
                    /\ (ty = "scan"%string <-> v <> None).
Proof.
  intros ND Sy.
  assert (Total : forall events apis0 settled0,
             (forall s api isScan,
                Dict.get String.eqb s apis0 = Some api ->
                _pendingResolve api = Some isScan ->
                Dict.get String.eqb s apis = Some api) ->
             (forall s ty res, In (ActionComplete s ty res) events ->
                In (ActionComplete s ty res) (snd (step w))) ->
             exists r, resolveActions (fst (step w)) apis0 events settled0
                       = Some r).
  { induction events as [|e events IH]; intros apis0 settled0 Sub Hev;
      cbn [resolveActions]; [eauto|].
    assert (Hev' : forall s ty res, In (ActionComplete s ty res) events ->
                     In (ActionComplete s ty res) (snd (step w))).
    { intros s ty res H. apply Hev. now right. }
    destruct e as [slot ty res| | |]; try (apply IH; assumption).
    destruct (Dict.get String.eqb slot apis0) as [api|] eqn:G;
      [|apply IH; assumption].
    destruct (_pendingResolve api) as [isScan|] eqn:P;
      [|apply IH; assumption].
    cbv zeta.
    destruct (step_completions w slot ty res ND (Hev _ _ _ (or_introl eq_refl)))
      as (tk & a & tk' & _ & _ & _ & G' & _).
    unfold callPending. rewrite G'.
    destruct isScan; apply IH; try assumption;
      intros s api1 isScan1 G1 P1;
      (destruct (String.eqb_spec slot s) as [<-|N];
       [rewrite (get_set_same String.eqb String.eqb_eq) in G1;
        injection G1 as <-; discriminate P1
       |rewrite (get_set_other String.eqb String.eqb_eq) in G1 by assumption;
        eauto]). }
  destruct (Total (snd (step w)) apis []) as ([apis' settled] & E); auto.
  exists apis', settled. split; [exact E|].
  destruct (resolveActions_spec _ _ _ _ _ _ E)
    as (_ & _ & new & En & Hn & _).
  cbn [app] in En. subst new.
  intros s v Hin.
  destruct (Hn s v Hin) as (Hs & api & isScan & G & P & V).
  unfold completedSlots in Hs. apply in_flat_map in Hs.
  destruct Hs as (e & He & Hs).
  destruct e as [s' ty res| | |]; try contradiction.
  destruct Hs as [->|[]].
  destruct (step_completions w s ty res ND He)
    as (tk & a & tk' & G0 & A0 & Ty & G' & Ag).
  destruct (Sy s api isScan G P) as (tk1 & a1 & G1 & A1 & Is).
  assert (tk1 = tk) as -> by congruence.
  assert (a1 = a) as -> by congruence.
  unfold callPending in V. rewrite G' in V.
  exists ty. destruct a; cbn in Is; subst isScan; cbn in Ty; subst ty;
    injection V as <-; try (subst res; split; [exact He|];
      split; [discriminate|intros C; now contradiction C]).
  destruct Ag as (b & -> & Lb). rewrite Lb. split; [exact He|].
  split; [discriminate|reflexivity].
Qed.
End Resolution.

Section LoopFacts.
Import World Step Props Loop.
Context {M : MathLib} {Obs : Type}.
Variable onTick : option (list StepEvent -> World * Obs -> World * Obs).
Variable onMatchEnd : option (list StepEvent -> World * Obs -> World * Obs).

Lemma hasMatchEnd_isMatchEnd (events : list StepEvent) :
  hasMatchEnd events = existsb isMatchEnd events.
Proof. reflexivity. Qed.

(** The catch-up loop with enough fuel. *)
Lemma catchUp_bounded (ti : Q) (fuel : nat) :
  0 < ti ->
  forall (acc : Q) (st : World * Obs) (trace : list (list StepEvent)),
  acc < ofNat (S fuel) * ti ->
  exists running' acc' st' new,
    catchUp onTick onMatchEnd fuel ti acc st trace
    = Some (running', acc', st', trace ++ new)
    /\ (List.length new <= fuel)%nat
    /\ (running' = true ->
        acc' < ti /\ acc' == acc - ofNat (List.length new) * ti
        /\ Forall (fun evs => hasMatchEnd evs = false) new)
    /\ (running' = false ->
        exists before last,
          new = before ++ [last] /\ hasMatchEnd last = true
          /\ Forall (fun evs => hasMatchEnd evs = false) before)
    /\ (acc < ti -> new = []).
Proof.
  intros Hti. induction fuel as [|fuel IH]; intros acc st trace Hacc;
    cbn [catchUp].
  - change (ofNat 1) with 1 in Hacc.
    assert (G : JS.geb acc ti = false) by (apply geb_lt; lra).
    rewrite G. exists true, acc, st, []. rewrite app_nil_r.
    split; [reflexivity|]. split; [cbn; lia|]. split.
    + intros _. split; [lra|]. split; [cbn; unfold ofNat; cbn; ring|].
      constructor.
    + split; [discriminate|reflexivity].
  - destruct (JS.geb acc ti) eqn:G.
    + apply geb_ge in G.
      destruct (step (fst st)) as [world1 events] eqn:Es.
      destruct (hasMatchEnd events) eqn:Hm.
      * exists false, acc, (call onMatchEnd events
                              (call onTick events (world1, snd st))),
          [events].
        split; [reflexivity|]. split; [cbn; lia|].
        split; [discriminate|]. split.
        -- intros _. exists [], events. repeat split; auto.
        -- intros C. lra.
      * destruct (IH (acc - ti) (call onTick events (world1, snd st))
                    (trace ++ [events]))
          as (r' & acc' & st' & new & E & L & Hrun & Hstop & _).
        { rewrite (ofNat_S (S fuel)) in Hacc. lra. }
        exists r', acc', st', (events :: new).
        split; [rewrite E, <- app_assoc; reflexivity|].
        split; [cbn; lia|]. split; [|split].
        -- intros R. destruct (Hrun R) as (A & B & C).
           split; [exact A|]. split.
           ++ rewrite B. cbn [List.length]. rewrite ofNat_S. ring.
           ++ constructor; assumption.
        -- intros R. destruct (Hstop R) as (before & last & -> & A & B).
           exists (events :: before), last. repeat split; auto.
        -- intros C. lra.
    + apply geb_lt in G. exists true, acc, st, []. rewrite app_nil_r.
      split; [reflexivity|]. split; [cbn; lia|]. split.
      * intros _. split; [exact G|]. split; [cbn; unfold ofNat; cbn; ring|].
        constructor.
      * split; [discriminate|reflexivity].
Qed.

(** X19.  The catch-up of the simulation loop is bounded.  With a
    positive tick interval, one run of the timer callback takes at most
    10 steps however late it fires; it stops at the first step that
    emits a [matchEnd] event and clears [running]; otherwise it leaves
    less than one tick interval in the accumulator, having taken one
    interval per step off the elapsed time capped at 10 intervals; and a
    stopped loop does nothing. *)
Theorem catch_up_bounded (ti now : Q) (ls : LoopState) (st : World * Obs) :
  0 < ti ->
  exists ls' st' trace,
    tick onTick onMatchEnd 10 ti now ls st = Some (ls', st', trace)
    /\ (List.length trace <= 10)%nat
    /\ (running ls = false -> ls' = ls /\ st' = st /\ trace = [])
    /\ (running ls = true -> running ls' = true ->
        accumulator ls' < ti
        /\ accumulator ls'
           == (if JS.gtb (accumulator ls + (now - lastTime ls)) (ti * 10)
               then ti * 10 else accumulator ls + (now - lastTime ls))
              - ofNat (List.length trace) * ti
        /\ Forall (fun evs => hasMatchEnd evs = false) trace)
    /\ (running ls = true -> running ls' = false ->
        exists before last,
          trace = before ++ [last] /\ hasMatchEnd last = true
          /\ Forall (fun evs => hasMatchEnd evs = false) before).
Proof.
  intros Hti. unfold tick.
  destruct (running ls) eqn:R; cbn [negb].
  - cbv zeta.
    set (acc0 := accumulator ls + (now - lastTime ls)).
    set (acc1 := if JS.gtb acc0 (ti * 10) then ti * 10 else acc0).
    assert (Hacc : acc1 < ofNat 11 * ti).
    { change (ofNat 11) with 11. unfold acc1.
      destruct (JS.gtb acc0 (ti * 10)) eqn:G; [lra|].
      apply not_true_iff_false in G. rewrite gtb_gt in G. lra. }
    destruct (catchUp_bounded ti 10 Hti acc1 st [] Hacc)
      as (r' & acc' & st' & new & E & L & Hrun & Hstop & _).
    rewrite E. cbn [app]. exists {| running := r'; lastTime := now;
                        accumulator := acc' |}, st', new.
    split; [reflexivity|]. split; [exact L|]. split; [discriminate|].
    cbn [running accumulator]. split.
    + intros _ R'. destruct (Hrun R') as (A & B & C). auto.
    + intros _ R'. auto.
  - exists ls, st, []. split; [reflexivity|]. split; [cbn; lia|].
    split; [auto|]. split; discriminate.
Qed.
End LoopFacts.

Section MoreComposition.
Context {M : MathLib}.
Import World Actions Step TankApi Run Props TickView Facts Resolver.

(** X20.  Opposite turns cancel.  A turn to the left for [m] ticks
    followed by a turn to the right for [m] ticks brings the heading back
    to the normalised heading the tank started with, and the other way
    round; for a heading already in [[0, 360)] that is the heading
    itself. *)
Theorem opposite_turns_cancel (c : Constants) (dt : Q) (m : nat) (tk : Tank) :
  headingDeg (afterTicks c dt TurnRight m (afterTicks c dt TurnLeft m tk))
  == (if (m =? 0)%nat then headingDeg tk
      else Scan.normalizeDeg (headingDeg tk))
  /\ headingDeg (afterTicks c dt TurnLeft m (afterTicks c dt TurnRight m tk))
     == (if (m =? 0)%nat then headingDeg tk
         else Scan.normalizeDeg (headingDeg tk))
  /\ (0 <= headingDeg tk -> headingDeg tk < 360 ->
      headingDeg (afterTicks c dt TurnRight m (afterTicks c dt TurnLeft m tk))
      == headingDeg tk).
Proof.
  destruct m as [|m]; cbn [Nat.eqb].
  - cbn. repeat split; reflexivity.
  - assert (A : headingDeg (afterTicks c dt TurnRight (S m)
                              (afterTicks c dt TurnLeft (S m) tk))
                == Scan.normalizeDeg (headingDeg tk)).
    { rewrite afterTicks_turnRight, afterTicks_tankType, afterTicks_turnLeft.
      destruct (normalizeDeg_shift
                  (headingDeg tk
                   - ofNat (S m) * (turnRate (TANK_TYPES c (tankType tk)) * dt)))
        as [k E].
      apply (normalizeDeg_congr _ _ k). rewrite E. ring. }
    split; [exact A|]. split.
    + rewrite afterTicks_turnLeft, afterTicks_tankType, afterTicks_turnRight.
      destruct (normalizeDeg_shift
                  (headingDeg tk
                   + ofNat (S m) * (turnRate (TANK_TYPES c (tankType tk)) * dt)))
        as [k E].
      apply (normalizeDeg_congr _ _ k). rewrite E. ring.
    + intros L U. rewrite A. now apply normalizeDeg_fixed.
Qed.

Lemma isScan_call_action (call : Call) :
  isScanAction (call_action call) = isScanCall call.
Proof. destruct call; reflexivity. Qed.

(** The timed methods of the server API, for a slot that has a tank: a
    call on a busy tank changes nothing and returns a resolved promise; a
    call on an idle tank starts the action and stores a pending callback
    in place of any earlier one. *)
Lemma apiCall_present (api : Api) (w : World) (s : string)
    (call : Call) (tk : Tank) :
  getTank w s = Some tk ->
  apiCall api w s call
  = Some (if isIdle tk (t w) then
            (putTank w s
               (beginAction tk (t w) (call_duration (constants w) tk call)
                  (call_action call)),
             {| _pendingResolve := Some (isScanCall call);
                _onActionStart := _onActionStart api |},
             Pending, [])
          else
            (w, api,
             Resolved (if isScanCall call then Some false else None), [])).
Proof.
  intros G. unfold apiCall, timedAction.
  rewrite (startAction_present _ _ _ _ G).
  destruct (isIdle tk (t w)); reflexivity.
Qed.

Lemma tickTank_action (c : Constants) (now dt : Q) (tk : Tank) (a : Action) :
  activeAction tk = Some a ->
  activeAction (tickTank c now dt tk)
  = if expires now dt tk then None else Some a.
Proof.
  intros A. unfold tickTank, expires. rewrite A.
  destruct (hp tk <=? 0)%Z; cbn [negb andb]; [exact A|].
  destruct (applyEffect_fields c dt tk a) as (B & A' & _).
  rewrite B. destruct (JS.geb _ _); cbn; [reflexivity|congruence].
Qed.

(** X21.  The registry stays in step with the world.  If every pending
    callback belongs to a tank with an action of the callback's kind,
    then the same holds after a timed method was called through the API
    object of a slot, and after a tick whose events were resolved: the
    hypothesis under which a resolved promise carries the value of its
    event is kept by the operations that change it. *)
Theorem registry_stays_in_sync (w : World) (apis : list (string * Api)) :
  NoDup (Dict.keys (tanks w)) ->
  inSync w apis ->
  (forall s api call w' api' p eff,
     Dict.get String.eqb s apis = Some api ->
     apiCall api w s call = Some (w', api', p, eff) ->
     inSync w' (Dict.set String.eqb s api' apis))
  /\ (forall apis' settled,
        resolveActions (fst (step w)) apis (snd (step w)) []
        = Some (apis', settled) ->
        inSync (fst (step w)) apis').
Proof.
  intros ND Sy. split.
  - intros s api call w' api' p eff G E.
    destruct (getTank w s) as [tk|] eqn:Gt.
    2:{ unfold apiCall, timedAction in E.
        now rewrite (startAction_absent _ _ _ Gt) in E. }
    rewrite (apiCall_present api w s call tk Gt) in E.
    destruct (isIdle tk (t w)); injection E as <- <- <- <-.
    + intros s1 api1 isScan1 G1 P1.
      destruct (String.eqb_spec s s1) as [<-|N].
      * rewrite (get_set_same String.eqb String.eqb_eq) in G1.
        injection G1 as <-. cbn in P1. injection P1 as <-.
        eexists. exists (call_action call).
        split; [apply getTank_putTank_same|]. split; [reflexivity|].
        symmetry. apply isScan_call_action.
      * rewrite (get_set_other String.eqb String.eqb_eq) in G1 by assumption.
        rewrite getTank_putTank_other by assumption. eauto.
    + intros s1 api1 isScan1 G1 P1.
      destruct (String.eqb_spec s s1) as [<-|N].
      * rewrite (get_set_same String.eqb String.eqb_eq) in G1.
        injection G1 as <-. eauto.
      * rewrite (get_set_other String.eqb String.eqb_eq) in G1 by assumption.
        eauto.
  - intros apis' settled E s api' isScan G' P'.
    destruct (resolveActions_spec _ _ _ _ _ _ E) as (_ & R & _).
    specialize (R s). rewrite G' in R.
    destruct (Dict.get String.eqb s apis) as [api|] eqn:G; [|contradiction].
    destruct (hasPending api
              && existsb (String.eqb s) (completedSlots (snd (step w))))
      eqn:C.
    + subst api'. discriminate P'.
    + subst api'. destruct (Sy s api isScan G P') as (tk & a & Gt & A & Is).
      assert (Hp : hasPending api = true) by (unfold hasPending; now rewrite P').
      rewrite Hp in C. cbn [andb] in C.
      destruct (step_frame w ND) as (_ & _ & _ & Htk).
      specialize (Htk s). rewrite Gt in Htk.
      destruct (getTank (fst (step w)) s) as [tk'|]; [|contradiction].
      exists tk', a. split; [reflexivity|]. split; [|exact Is].
      destruct Htk as (_ & _ & _ & _ & Ha & _). rewrite Ha.
      rewrite (tickTank_action _ _ _ _ _ A).
      destruct (expires (t w) (1 / TICK_RATE (constants w)) tk) eqn:Ex;
        [|reflexivity].
      exfalso.
      destruct (proj2 (step_actionComplete w s (action_type a) ND))
        as (res & Hin); [exists tk, a; auto|].
      apply not_true_iff_false in C. apply C. apply existsb_exists.
      exists s. split; [|apply String.eqb_refl].
      unfold completedSlots. apply in_flat_map.
      exists (ActionComplete s (action_type a) res). split; [exact Hin|].
      now left.
Qed.

Lemma alive_count (l l' : list (string * Tank)) :
  map fst l' = map fst l -> NoDup (map fst l) ->
  (forall s tk tk', Dict.get String.eqb s l = Some tk ->
     Dict.get String.eqb s l' = Some tk' -> (hp tk <= 0)%Z ->
     (hp tk' <= 0)%Z) ->
  (List.length (filter (fun e => (0 <? hp (snd e))%Z) l')
   <= List.length (filter (fun e => (0 <? hp (snd e))%Z) l))%nat.
Proof.
  revert l'. induction l as [|[k v] l IH]; intros [|[k' v'] l'] K ND H;
    try discriminate; [cbn; lia|].
  cbn in K. injection K as -> K. inversion ND as [|? ? Hn ND']; subst.
  assert (Hl : (List.length (filter (fun e => (0 <? hp (snd e))%Z) l')
                <= List.length (filter (fun e => (0 <? hp (snd e))%Z) l))%nat).
  { apply IH; auto. intros s tk tk' G G'.
    assert (N : k <> s).
    { intros ->. apply Hn.
      apply (get_In String.eqb String.eqb_eq) in G.
      exact (in_map fst l (s, tk) G). }
    apply (H s); cbn; apply String.eqb_neq in N; now rewrite N. }
  assert (Hv : (hp v <= 0)%Z -> (hp v' <= 0)%Z).
  { apply (H k); cbn; now rewrite String.eqb_refl. }
  cbn [filter snd].
  destruct (Z.ltb_spec 0 (hp v')), (Z.ltb_spec 0 (hp v));
    cbn [List.length]; lia.
Qed.

Lemma exec_alive (op : Op) (n n' : nat) (w w' : World) :
  NoDup (Dict.keys (tanks w)) ->
  exec op (n, w) = Some (n', w') ->
  (List.length (aliveSlots w') <= List.length (aliveSlots w))%nat.
Proof.
  intros ND E. unfold aliveSlots. rewrite !length_map.
  destruct (exec_keys _ _ _ _ _ ND E) as (_ & K).
  apply alive_count; [exact K|exact ND|].
  intros s tk tk' G G' Hd.
  destruct (dead_exec op n n' w w' s tk ND G Hd E) as (tk1 & G1 & Hd1 & _).
  unfold getTank in G1. congruence.
Qed.

(** X22.  A match that has ended stays ended.  Once at most one tank is
    alive, every later tick emits a [matchEnd] event again, whatever
    ticks, starter calls, shots and forfeits happen in between: the
    number of tanks alive never grows. *)
Theorem match_end_is_stable (ops : list Op) :
  forall (n n' : nat) (w w' : World),
  NoDup (Dict.keys (tanks w)) ->
  (List.length (aliveSlots w) <= 1)%nat ->
  execAll ops (n, w) = Some (n', w') ->
  (List.length (aliveSlots w') <= List.length (aliveSlots w))%nat
  /\ exists winner reason, In (MatchEnd winner reason) (snd (step w')).
Proof.
  assert (Mono : forall ops n n' w w',
             NoDup (Dict.keys (tanks w)) ->
             execAll ops (n, w) = Some (n', w') ->
             NoDup (Dict.keys (tanks w'))
             /\ (List.length (aliveSlots w')
                 <= List.length (aliveSlots w))%nat).
  { clear ops. induction ops as [|op ops IH]; intros n n' w w' ND E;
      cbn [execAll] in E.
    - injection E as <- <-. auto.
    - destruct (exec op (n, w)) as [[n1 w1]|] eqn:E1; [|discriminate].
      destruct (exec_keys _ _ _ _ _ ND E1) as (_ & K).
      assert (ND1 : NoDup (Dict.keys (tanks w1))) by now rewrite K.
      destruct (IH _ _ _ _ ND1 E) as (ND' & L).
      pose proof (exec_alive _ _ _ _ _ ND E1). split; [exact ND'|lia]. }
  intros n n' w w' ND L E.
  destruct (Mono ops n n' w w' ND E) as (ND' & L').
  split; [exact L'|].
  pose proof (exec_alive OpStep n' n' w' (fst (step w')) ND' eq_refl) as L''.
  destruct (step_frame w' ND') as (_ & _ & K & _).
  assert (ND'' : NoDup (Dict.keys (tanks (fst (step w'))))) by now rewrite K.
  destruct (matchEndCheck_verdict (fst (step w')) ND'') as (_ & _ & V).
  cbv zeta in V.
  assert (Ne : matchEndCheck (fst (step w')) [] <> []).
  { apply V. left. lia. }
  pose proof (matchEndCheck_kinds (fst (step w'))) as Km.
  destruct (matchEndCheck (fst (step w')) []) as [|e l] eqn:Em;
    [congruence|].
  inversion Km as [|? ? He _]; subst.
  destruct e as [| | |winner reason]; try discriminate.
  exists winner, reason. rewrite step_phases. cbv zeta. cbn [snd].
  rewrite !in_app_iff. right. right. right.
  rewrite step_phases in Em. cbv zeta in Em. cbn [fst] in Em.
  rewrite Em. now left.
Qed.
End MoreComposition.

Section LobbyFacts.
Import Lobby.

Lemma ascii_compare_eq (a b : ascii) : Ascii.compare a b = Eq -> a = b.
Proof.
  unfold Ascii.compare. intros H. apply N.compare_eq in H.
  rewrite <- (ascii_N_embedding a), <- (ascii_N_embedding b). now rewrite H.
Qed.

Lemma string_compare_trans (a : string) :
  forall b c, String.compare a b <> Gt -> String.compare b c <> Gt ->
              String.compare a c <> Gt.
Proof.
  induction a as [|x a IH]; intros [|y b] [|z c]; cbn; try congruence.
  unfold Ascii.compare.
  destruct (N.compare_spec (N_of_ascii x) (N_of_ascii y)) as [E1|L1|G1];
  destruct (N.compare_spec (N_of_ascii y) (N_of_ascii z)) as [E2|L2|G2];
  destruct (N.compare_spec (N_of_ascii x) (N_of_ascii z)) as [E3|L3|G3];
    try congruence; try lia; intros; try apply IH with b; auto; try congruence.
Qed.

Lemma string_leb_trans (a b c : string) :
  String.leb a b = true -> String.leb b c = true -> String.leb a c = true.
Proof.
  unfold String.leb. intros H1 H2.
  pose proof (string_compare_trans a b c) as T.
  destruct (String.compare a b), (String.compare b c), (String.compare a c);
    try discriminate; try reflexivity; exfalso; apply T; congruence.
Qed.

Lemma string_leb_refl (a : string) : String.leb a a = true.
Proof. destruct (String.leb_total a a); assumption. Qed.

Lemma slotNames_NoDup : NoDup slotNames.
Proof.
  vm_compute. repeat constructor; simpl; intuition discriminate.
Qed.

Lemma inSlots_keys (nm : string) (st : State) :
  inSlots nm st = true <-> In nm (Dict.keys (slots st)).
Proof.
  unfold inSlots. destruct (Dict.get String.eqb nm (slots st)) eqn:G.
  - split; [intros _|reflexivity].
    apply (get_In String.eqb String.eqb_eq) in G.
    exact (in_map fst _ _ G).
  - split; [discriminate|]. intros H.
    apply (get_None_keys String.eqb String.eqb_eq) in G. contradiction.
Qed.

Lemma firstFree_spec (st : State) (todo : nat) :
  forall i,
  (exists j, (i <= j < i + todo)%nat /\ inSlots (slotName j) st = false) ->
  exists j, (i <= j < i + todo)%nat
            /\ firstFree st i todo = slotName j
            /\ inSlots (slotName j) st = false
            /\ forall k, (i <= k < j)%nat -> inSlots (slotName k) st = true.
Proof.
  induction todo as [|todo IH]; intros i (j & Hj & Fj); [lia|].
  cbn [firstFree]. destruct (inSlots (slotName i) st) eqn:E; cbn [negb].
  - destruct (IH (S i)) as (j' & Hj' & Ej' & Fj' & Bj').
    { exists j. split; [|exact Fj].
      assert (j <> i) by (intros ->; congruence). lia. }
    exists j'. split; [lia|]. split; [exact Ej'|]. split; [exact Fj'|].
    intros k Hk. destruct (Nat.eq_dec k i) as [->|N]; [exact E|].
    apply Bj'. lia.
  - exists i. split; [lia|]. split; [reflexivity|]. split; [exact E|].
    intros k Hk. lia.
Qed.

(** A lobby that is not full has a free slot name. *)
Lemma free_slot_exists (st : State) :
  tidy st -> (List.length (Dict.keys (slots st)) < MAX_PLAYERS)%nat ->
  exists j, (1 <= j < 1 + MAX_PLAYERS)%nat /\ inSlots (slotName j) st = false.
Proof.
  intros (ND & Inc & _) L.
  destruct (forallb (fun nm => inSlots nm st) slotNames) eqn:F.
  - exfalso. rewrite forallb_forall in F.
    assert (I : incl slotNames (Dict.keys (slots st))).
    { intros nm H. apply inSlots_keys. now apply F. }
    pose proof (NoDup_incl_length slotNames_NoDup I) as Len.
    change (List.length slotNames) with MAX_PLAYERS in Len. lia.
  - assert (E : existsb (fun nm => negb (inSlots nm st)) slotNames = true).
    { clear - F. induction slotNames as [|a l IH]; [discriminate|].
      cbn in *. destruct (inSlots a st); cbn in *; auto. }
    apply existsb_exists in E. destruct E as (nm & Hin & Hf).
    unfold slotNames in Hin. apply in_map_iff in Hin.
    destruct Hin as (j & <- & Hj). apply in_seq in Hj.
    exists j. split; [lia|]. now apply negb_true_iff.
Qed.

Lemma keys_delete (k : string) (d : list (string * PlayerSlot)) :
  incl (Dict.keys (Dict.delete String.eqb k d)) (Dict.keys d).
Proof.
  intros x H. unfold Dict.keys, Dict.delete in *. apply in_map_iff in H.
  destruct H as (e & <- & Hin). apply filter_In in Hin.
  apply in_map. tauto.
Qed.

Lemma addSpectator_NoDup (cid : string) (l : list string) :
  NoDup l -> NoDup (addSpectator cid l).
Proof.
  intros ND. unfold addSpectator.
  destruct (existsb (String.eqb cid) l) eqn:E; [exact ND|].
  apply NoDup_app; [exact ND|repeat constructor; intros []|].
  intros x Hx [Ex|[]]. subst x.
  apply not_true_iff_false in E. apply E. apply existsb_exists.
  exists cid. split; [exact Hx|apply String.eqb_refl].
Qed.

Lemma set_absent_app (nm : string) (v : PlayerSlot)
    (l : list (string * PlayerSlot)) :
  Dict.get String.eqb nm l = None ->
  Dict.set String.eqb nm v l = l ++ [(nm, v)].
Proof.
  induction l as [|[k v0] l IH]; [reflexivity|].
  cbn [Dict.get Dict.set app]. destruct (String.eqb k nm); [discriminate|].
  intros G. now rewrite IH.
Qed.

Lemma get_app_absent (nm : string) (v : PlayerSlot)
    (l : list (string * PlayerSlot)) :
  Dict.get String.eqb nm l = None ->
  Dict.get String.eqb nm (l ++ [(nm, v)]) = Some v.
Proof.
  induction l as [|[k v0] l IH]; cbn [Dict.get app].
  - now rewrite String.eqb_refl.
  - destruct (String.eqb k nm); [discriminate|exact IH].
Qed.

Lemma join_outcome (st : State) (cid : string) :
  tidy st ->
  ((List.length (Dict.keys (slots st)) < MAX_PLAYERS)%nat ->
   exists i, (1 <= i <= MAX_PLAYERS)%nat
             /\ joinLobby st cid
                = ({| slots := slots st ++ [(slotName i, createSlot cid)];
                      spectators := spectators st |}, slotName i)
             /\ inSlots (slotName i) st = false
             /\ forall j, (1 <= j < i)%nat -> inSlots (slotName j) st = true)
  /\ ((MAX_PLAYERS <= List.length (Dict.keys (slots st)))%nat ->
      joinLobby st cid
      = ({| slots := slots st;
            spectators := addSpectator cid (spectators st) |},
         "spectator"%string)).
Proof.
  intros T. unfold joinLobby. split; intros L.
  - apply Nat.ltb_lt in L. rewrite L. apply Nat.ltb_lt in L.
    destruct (firstFree_spec st MAX_PLAYERS 1 (free_slot_exists st T L))
      as (i & Hi & Ei & Fi & Bi).
    exists i. split; [lia|]. unfold nextAvailableSlot. rewrite Ei.
    split; [|split; [exact Fi|exact Bi]].
    f_equal. f_equal.
    assert (G : Dict.get String.eqb (slotName i) (slots st) = None).
    { unfold inSlots in Fi.
      destruct (Dict.get String.eqb (slotName i) (slots st));
        [discriminate|reflexivity]. }
    now apply set_absent_app.
  - apply Nat.ltb_ge in L. now rewrite L.
Qed.

Lemma keys_app (l1 l2 : list (string * PlayerSlot)) :
  Dict.keys (l1 ++ l2) = Dict.keys l1 ++ Dict.keys l2.
Proof. unfold Dict.keys. apply map_app. Qed.

Lemma run_tidy (st : State) (c : Call) : tidy st -> tidy (run st c).
Proof.
  intros T. pose proof T as (ND & Inc & NDs).
  destruct c as [cid|cid|s ty cd|s|]; cbn [run].
  - destruct (join_outcome st cid T) as (J1 & J2).
    destruct (Nat.lt_ge_cases (List.length (Dict.keys (slots st)))
                MAX_PLAYERS) as [L|L].
    + destruct (J1 L) as (i & Hi & -> & Fi & _). cbn [fst].
      unfold tidy. cbn [slots spectators]. rewrite keys_app.
      cbn [Dict.keys map fst]. split; [|split; [|exact NDs]].
      * apply NoDup_app; [exact ND|repeat constructor; intros []|].
        intros x Hx [<-|[]]. apply inSlots_keys in Hx. congruence.
      * intros x Hx. apply in_app_iff in Hx.
        destruct Hx as [Hx|[<-|[]]]; [now apply Inc|].
        unfold slotNames. apply in_map. apply in_seq. lia.
    + rewrite (J2 L). cbn [fst]. unfold tidy. cbn [slots spectators].
      split; [exact ND|]. split; [exact Inc|].
      now apply addSpectator_NoDup.
  - unfold leaveLobby. destruct (slotOf cid (slots st)) as [nm|].
    + unfold tidy. cbn [slots spectators]. split; [|split; [|exact NDs]].
      * apply (NoDup_keys_delete String.eqb). exact ND.
      * eapply incl_tran; [apply keys_delete|exact Inc].
    + unfold tidy. cbn [slots spectators].
      split; [exact ND|]. split; [exact Inc|].
      unfold deleteSpectator. now apply NoDup_filter.
  - unfold setCode.
    destruct (Dict.get String.eqb s (slots st)) as [slot|] eqn:G; [|exact T].
    unfold tidy. cbn [slots spectators].
    rewrite (keys_set_present String.eqb _ _ _ _ G). auto.
  - unfold clearCode.
    destruct (Dict.get String.eqb s (slots st)) as [slot|] eqn:G; [|exact T].
    unfold tidy. cbn [slots spectators].
    rewrite (keys_set_present String.eqb _ _ _ _ G). auto.
  - unfold resetLobby, tidy, empty. cbn.
    split; [constructor|]. split; [intros ? []|constructor].
Qed.

Lemma after_tidy (calls : list Call) : tidy (after calls).
Proof.
  unfold after.
  assert (G : forall st, tidy st -> tidy (fold_left run calls st)).
  { induction calls as [|c calls IH]; intros st T; cbn [fold_left];
      [exact T|].
    apply IH. now apply run_tidy. }
  apply G. unfold tidy, empty. cbn.
  split; [constructor|]. split; [intros ? []|constructor].
Qed.

(** X23.  The lobby never overfills.  After any sequence of joins,
    leaves, code submissions and resets, the slot names in use are
    distinct names among [p1 .. p8], so at most [MAX_PLAYERS] players
    hold a slot; a client that joins while a slot is free gets the free
    slot with the lowest number, never the fallback name [p9], and a
    client that joins a full lobby becomes a spectator and the slots are
    unchanged. *)
Theorem lobby_never_overfills (calls : list Call) (cid : string) :
  let st := after calls in
  NoDup (Dict.keys (slots st))
  /\ incl (Dict.keys (slots st)) slotNames
  /\ (playerCount st <= MAX_PLAYERS)%nat
  /\ ((playerCount st < MAX_PLAYERS)%nat ->
      exists i, (1 <= i <= MAX_PLAYERS)%nat
                /\ snd (joinLobby st cid) = slotName i
                /\ getSlot st (slotName i) = None
                /\ getSlot (fst (joinLobby st cid)) (slotName i)
                   = Some (createSlot cid)
                /\ forall j, (1 <= j < i)%nat ->
                             getSlot st (slotName j) <> None)
  /\ (playerCount st = MAX_PLAYERS ->
      snd (joinLobby st cid) = "spectator"%string
      /\ slots (fst (joinLobby st cid)) = slots st
      /\ In cid (spectators (fst (joinLobby st cid)))).
Proof.
  intros st. pose proof (after_tidy calls) as T. fold st in T.
  pose proof T as (ND & Inc & NDs).
  destruct (join_outcome st cid T) as (J1 & J2).
  split; [exact ND|]. split; [exact Inc|]. split; [|split].
  - unfold playerCount.
    pose proof (NoDup_incl_length ND Inc) as L.
    change (List.length slotNames) with MAX_PLAYERS in L. exact L.
  - intros L. destruct (J1 L) as (i & Hi & E & Fi & Bi).
    exists i. split; [exact Hi|]. rewrite E. cbn [fst snd].
    split; [reflexivity|]. unfold getSlot. cbn [slots].
    assert (G : Dict.get String.eqb (slotName i) (slots st) = None).
    { unfold inSlots in Fi.
      destruct (Dict.get String.eqb (slotName i) (slots st));
        [discriminate|reflexivity]. }
    split; [exact G|]. split.
    + now apply get_app_absent.
    + intros j Hj C. specialize (Bi j Hj). unfold inSlots in Bi.
      rewrite C in Bi. discriminate.
  - intros L. rewrite J2 by (unfold playerCount in L; lia).
    cbn [fst snd slots spectators]. split; [reflexivity|].
    split; [reflexivity|]. unfold addSpectator.
    destruct (existsb (String.eqb cid) (spectators st)) eqn:E.
    + apply existsb_exists in E. destruct E as (x & Hx & Ex).
      apply String.eqb_eq in Ex. now subst x.
    + apply in_app_iff. right. now left.
Qed.

Lemma slotOf_app_none (cid : string) (l : list (string * PlayerSlot))
    (nm : string) :
  slotOf cid l = None ->
  slotOf cid (l ++ [(nm, createSlot cid)]) = Some nm.
Proof.
  induction l as [|[k v] l IH]; cbn.
  - now rewrite String.eqb_refl.
  - destruct (String.eqb (clientId v) cid); [discriminate|exact IH].
Qed.

Lemma delete_app_absent (nm : string) (l : list (string * PlayerSlot))
    (v : PlayerSlot) :
  Dict.get String.eqb nm l = None ->
  Dict.delete String.eqb nm (l ++ [(nm, v)]) = l.
Proof.
  unfold Dict.delete.
  induction l as [|[k v0] l IH]; cbn [Dict.get app filter fst].
  - now rewrite String.eqb_refl.
  - destruct (String.eqb k nm); [discriminate|]. cbn [negb]. intros H.
    now rewrite IH.
Qed.

(** X24.  Joining and leaving is a round trip.  For a client that holds
    no slot and is not a spectator, [leaveLobby] after [joinLobby] gives
    back the lobby as it was, whether the client got a player slot or
    became a spectator; and while the client is in, [getSlotForClient]
    answers the slot that [joinLobby] assigned. *)
Theorem join_then_leave (calls : list Call) (cid : string) :
  let st := after calls in
  slotOf cid (slots st) = None ->
  ~ In cid (spectators st) ->
  leaveLobby (fst (joinLobby st cid)) cid = st
  /\ getSlotForClient (fst (joinLobby st cid)) cid = snd (joinLobby st cid).
Proof.
  intros st Hs Hp. pose proof (after_tidy calls) as T. fold st in T.
  destruct (join_outcome st cid T) as (J1 & J2).
  destruct (Nat.lt_ge_cases (List.length (Dict.keys (slots st)))
              MAX_PLAYERS) as [L|L].
  - destruct (J1 L) as (i & Hi & -> & Fi & _). cbn [fst snd].
    unfold leaveLobby, getSlotForClient. cbn [slots spectators].
    rewrite (slotOf_app_none _ _ _ Hs). split; [|reflexivity].
    rewrite delete_app_absent.
    + destruct st; reflexivity.
    + unfold inSlots in Fi.
      destruct (Dict.get String.eqb (slotName i) (slots st));
        [discriminate|reflexivity].
  - rewrite (J2 L). cbn [fst snd].
    unfold leaveLobby, getSlotForClient. cbn [slots spectators].
    rewrite Hs. split; [|reflexivity].
    assert (E : deleteSpectator cid (addSpectator cid (spectators st))
                = spectators st).
    { unfold addSpectator.
      destruct (existsb (String.eqb cid) (spectators st)) eqn:X.
      - apply existsb_exists in X. destruct X as (x & Hx & Ex).
        apply String.eqb_eq in Ex. subst x. contradiction.
      - clear - Hp. unfold deleteSpectator.
        induction (spectators st) as [|a l IH]; cbn.
        + now rewrite String.eqb_refl.
        + destruct (String.eqb_spec a cid) as [->|N]; cbn.
          * exfalso. apply Hp. now left.
          * rewrite IH; [reflexivity|]. intros C. apply Hp. now right. }
    rewrite E. destruct st; reflexivity.
Qed.

Lemma insertName_In (a : string) (l : list string) (b : string) :
  In b (insertName a l) <-> b = a \/ In b l.
Proof.
  induction l as [|c l IH]; cbn [insertName].
  - cbn. intuition.
  - destruct (String.leb c a); cbn [In]; [rewrite IH|]; intuition.
Qed.

Lemma insertName_ascending (a : string) (l : list string) :
  ascending l -> ascending (insertName a l).
Proof.
  induction l as [|c l IH]; intros D; cbn [insertName].
  - cbn. split; [intros ? []|exact I].
  - destruct D as (Hc & D). destruct (String.leb c a) eqn:E.
    + cbn [ascending]. split; [|now apply IH].
      intros b Hb. apply insertName_In in Hb.
      destruct Hb as [->|Hb]; [exact E|now apply Hc].
    + cbn [ascending]. split; [|split; assumption].
      assert (Lac : String.leb a c = true).
      { destruct (String.leb_total a c) as [H|H]; [exact H|congruence]. }
      intros b [<-|Hb]; [exact Lac|].
      eapply string_leb_trans; [exact Lac|now apply Hc].
Qed.

Lemma sortNames_spec (names : list string) :
  (forall b, In b (sortNames names) <-> In b names)
  /\ ascending (sortNames names).
Proof.
  unfold sortNames.
  assert (G : forall l acc, ascending acc ->
             (forall b, In b (fold_left (fun s a => insertName a s) l acc)
                        <-> In b acc \/ In b l)
             /\ ascending (fold_left (fun s a => insertName a s) l acc)).
  { induction l as [|a l IH]; intros acc D; cbn [fold_left].
    - split; [cbn; intuition|exact D].
    - destruct (IH (insertName a acc) (insertName_ascending a acc D))
        as (I1 & I2).
      split; [|exact I2]. intros b. rewrite I1, insertName_In. cbn [In].
      intuition. }
  destruct (G names [] I) as (A & B). split; [|exact B].
  intros b. rewrite A. cbn. intuition.
Qed.

Lemma slot_order (i j : nat) :
  (1 <= i <= MAX_PLAYERS)%nat -> (1 <= j <= MAX_PLAYERS)%nat ->
  String.leb (slotName i) (slotName j) = (i <=? j)%nat.
Proof.
  intros Hi Hj.
  assert (T : forallb (fun a => forallb (fun b =>
                 Bool.eqb (String.leb (slotName a) (slotName b)) (a <=? b)%nat)
                 (seq 1 MAX_PLAYERS)) (seq 1 MAX_PLAYERS) = true)
    by (vm_compute; reflexivity).
  rewrite forallb_forall in T.
  specialize (T i ltac:(apply in_seq; unfold MAX_PLAYERS in *; lia)).
  rewrite forallb_forall in T.
  specialize (T j ltac:(apply in_seq; unfold MAX_PLAYERS in *; lia)).
  now apply Bool.eqb_prop in T.
Qed.

(** X25.  The host is the lowest slot in use.  After any sequence of
    lobby calls, [getHostSlot] is [null] exactly when no slot is in use,
    and otherwise it is a slot in use, first in the order of code units
    among the names in use, which for the names [p1 .. p8] is the slot
    with the lowest number. *)
Theorem host_is_lowest_slot (calls : list Call) :
  let st := after calls in
  match getHostSlot st with
  | None => slots st = []
  | Some h =>
      getSlot st h <> None
      /\ (forall nm, getSlot st nm <> None -> String.leb h nm = true)
      /\ exists i, (1 <= i <= MAX_PLAYERS)%nat /\ h = slotName i
                   /\ forall j, (1 <= j <= MAX_PLAYERS)%nat ->
                        getSlot st (slotName j) <> None -> (i <= j)%nat
  end.
Proof.
  intros st. pose proof (after_tidy calls) as (_ & Inc & _). fold st in Inc.
  unfold getHostSlot.
  destruct (sortNames_spec (Dict.keys (slots st))) as (SI & SA).
  assert (Keys : forall nm, getSlot st nm <> None
                            <-> In nm (Dict.keys (slots st))).
  { intros nm. rewrite <- inSlots_keys. unfold inSlots, getSlot.
    destruct (Dict.get String.eqb nm (slots st)); split; congruence. }
  destruct (sortNames (Dict.keys (slots st))) as [|h rest] eqn:Es.
  - destruct (slots st) as [|[k v] l]; [reflexivity|].
    exfalso. apply (proj2 (SI k)). now left.
  - destruct SA as (Hh & _).
    assert (Hin : In h (Dict.keys (slots st))) by (apply SI; now left).
    assert (Hmin : forall nm, getSlot st nm <> None -> String.leb h nm = true).
    { intros nm Hn. apply Keys in Hn. apply SI in Hn.
      destruct Hn as [<-|Hn]; [apply string_leb_refl|now apply Hh]. }
    split; [now apply Keys|]. split; [exact Hmin|].
    pose proof (Inc h Hin) as Hs. unfold slotNames in Hs.
    apply in_map_iff in Hs. destruct Hs as (i & <- & Hi).
    apply in_seq in Hi. exists i. split; [lia|]. split; [reflexivity|].
    intros j Hj Gj. specialize (Hmin _ Gj).
    rewrite slot_order in Hmin by lia. now apply Nat.leb_le.
Qed.
End LobbyFacts.

(** ** The phases of a tick *)

Section HitMisses.
Context {M : MathLib}.
Import World Actions Step TankApi Run Props TickView Facts.

(** A projectile that produces no event is out of the hit range of every
    tank of the snapshot that is not its owner and is alive. *)
Lemma hitTanks_miss (proj : Projectile) (hr : Q)
    (entries : list (string * Tank)) (w : World) :
  snd (hitTanks entries w proj hr []) = [] ->
  forall tg target, In (tg, target) entries -> tg <> owner proj ->
    (0 < hp target)%Z -> hr < distSq proj target.
Proof.
  induction entries as [|[ts t0] entries IH]; cbn [hitTanks];
    intros E tg target Hin N A; [contradiction|].
  destruct (String.eqb_spec ts (owner proj)) as [Eo|No].
  - destruct Hin as [[= <- <-]|Hin]; [congruence|].
    exact (IH E tg target Hin N A).
  - destruct (hp t0 <=? 0)%Z eqn:Hhp.
    + apply Z.leb_le in Hhp.
      destruct Hin as [[= <- <-]|Hin]; [lia|].
      exact (IH E tg target Hin N A).
    + cbv zeta in E.
      destruct (JS.leb _ hr) eqn:D; [discriminate E|].
      destruct Hin as [[= <- <-]|Hin]; [|exact (IH E tg target Hin N A)].
      unfold JS.leb in D. unfold distSq.
      apply Qnot_le_lt. intros C. apply Qle_bool_iff in C. congruence.
Qed.

(** Phase 3 as a whole: a projectile that it leaves in the map is out of
    the hit range of every tank, other than its owner, that is alive
    afterwards. *)
Lemma hitLoop_miss (hr : Q) (projs : list Projectile) :
  forall (w : World),
  NoDup (Dict.keys (tanks w)) ->
  let r := hitLoop projs w hr [] in
  forall p, In p projs -> In (id p, p) (projectiles (fst r)) ->
  forall tg tk', getTank (fst r) tg = Some tk' -> tg <> owner p ->
    (0 < hp tk')%Z -> hr < distSq p tk'.
Proof.
  induction projs as [|proj projs IH]; intros w ND r p Hp Hleft tg tk' G N A;
    [contradiction|].
  unfold r in *. cbn [hitLoop] in *.
  pose proof (hitTanks_cases proj hr (tanks w) w) as HC. cbv zeta in HC.
  pose proof (hitTanks_miss proj hr (tanks w) w) as HM.
  pose proof (hitTanks_frame proj hr (tanks w) w []) as HF.
  destruct (hitTanks (tanks w) w proj hr []) as [w1 ev1] eqn:E1.
  cbn [fst snd] in *.
  assert (F1 : removal_frame w w1).
  { apply HF. intros s tk H.
    apply (In_get String.eqb String.eqb_eq); assumption. }
  assert (ND1 : NoDup (Dict.keys (tanks w1)))
    by (eapply NoDup_keys_frame; eauto).
  rewrite hitLoop_events in Hleft, G. cbn [fst] in Hleft, G.
  pose proof (hitLoop_frame hr projs w1 [] ND1) as F2.
  destruct Hp as [<-|Hp]; [|exact (IH w1 ND1 p Hp Hleft tg tk' G N A)].
  destruct HC as [HC|(tg0 & target & _ & _ & _ & _ & HC)].
  - injection HC as -> ->.
    destruct F2 as ((_ & R) & _). specialize (R tg). rewrite G in R.
    destruct (getTank w tg) as [tk|] eqn:Gw; [|contradiction].
    rewrite (combat_distSq _ _ _ R).
    apply (HM eq_refl tg tk); auto.
    + apply (get_In String.eqb String.eqb_eq). exact Gw.
    + exact (combat_alive _ _ R A).
  - exfalso. injection HC as -> _.
    destruct F2 as (_ & _ & _ & Inc). apply Inc in Hleft.
    unfold deleteProjectile in Hleft.
    cbn [projectiles world_with_projectiles] in Hleft.
    apply (In_delete ProjId_eqb ProjId_eqb_spec) in Hleft.
    destruct Hleft as [_ Ne]. now apply Ne.
Qed.

(** A tick leaves no projectile within the hit range of a tank, other than
    its owner, that is alive after the tick. *)
Lemma step_misses (n : nat) (w : World) :
  linked n w ->
  forall k q tg tk',
    In (k, q) (projectiles (fst (step w))) ->
    getTank (fst (step w)) tg = Some tk' -> tg <> owner q ->
    (0 < hp tk')%Z ->
    hitRangeSq (constants w) < distSq q tk'.
Proof.
  intros L k q tg tk' Hin G N A.
  pose proof (beforeHits_linked n w L) as L2.
  pose proof (step_linked n w L) as L3.
  assert (Ek : id q = k)
    by (now destruct (proj1 (proj2 (proj2 L3)) k q Hin)).
  subst k.
  rewrite step_phases in Hin, G. cbv zeta in Hin, G. cbn [fst] in Hin, G.
  fold (beforeHits w) in Hin, G.
  change (getTank (fst (hitLoop (Dict.values (projectiles (beforeHits w)))
                          (beforeHits w)
                          (hitRangeSq (constants w)) [])) tg = Some tk') in G.
  cbn [projectiles world_with_t] in Hin.
  pose proof (hitLoop_frame (hitRangeSq (constants w))
                (Dict.values (projectiles (beforeHits w))) (beforeHits w) []
                (proj1 L2)) as (_ & _ & _ & Inc).
  assert (Hq : In q (Dict.values (projectiles (beforeHits w)))).
  { unfold Dict.values. apply in_map_iff. exists (id q, q).
    split; [reflexivity|]. now apply Inc. }
  exact (hitLoop_miss (hitRangeSq (constants w))
           (Dict.values (projectiles (beforeHits w))) (beforeHits w)
           (proj1 L2) q Hq Hin tg tk' G N A).
Qed.
End HitMisses.

Section TickTheorem.
Context {M : MathLib}.
Import World Actions Step Props Facts.

(** C1.  For every linked world, [step] is the composition of its phases
    in this order: apply the active actions, advance the projectiles,
    despawn the ones out of bounds, detect hits among the survivors,
    advance the time by [dt = 1 / TICK_RATE], evaluate the match end; its
    events are those of the phases in that order.  The completion events
    are decided at the time before the advance.  Advancing a projectile
    adds [vx * dt] and [vy * dt] to its position and changes nothing
    else, and the second phase sees every projectile at that position.
    A projectile is out of bounds when a coordinate is below
    [-PROJECTILE_RADIUS] or above the arena dimension plus
    [PROJECTILE_RADIUS]; such a projectile gets a despawn event, no hit
    event, leaves the map and is no longer its owner's active projectile;
    despawn events are only for such projectiles.  Hit events are only
    for survivors of the second phase, and name a live tank other than
    the owner within [PROJECTILE_RADIUS + TANK_RADIUS] of the advanced
    position.  The projectiles left after the tick are at their advanced
    positions, in bounds, have no hit event, and are out of that range of
    every tank, other than their owner, that is alive after the tick.
    The match end is
    evaluated last, on the hit points and the time after the tick: a
    [matchEnd] event is emitted exactly when at most one tank is alive
    then or the advanced time has reached the limit, with the verdict of
    the match-end check. *)
Theorem step_phase_order (n : nat) (w : World) :
  linked n w ->
  let c := constants w in
  let dt := 1 / TICK_RATE c in
  let hr := (PROJECTILE_RADIUS c + TANK_RADIUS c)
            * (PROJECTILE_RADIUS c + TANK_RADIUS c) in
  let applied := applyActiveActions w dt in
  let moved := moveProjectiles (fst applied) dt in
  let despawned := despawnLoop (Dict.values (projectiles moved)) moved [] in
  let hit :=
    hitLoop (Dict.values (projectiles (fst despawned))) (fst despawned)
      hr [] in
  let final := world_with_t (fst hit) (t (fst hit) + dt) in
  let alive := aliveSlots (fst (step w)) in
  step w
  = (final,
     map completeEvent (snd applied) ++ snd despawned ++ snd hit
     ++ matchEndCheck final [])
  /\ t (fst (step w)) = t w + dt
  /\ (forall s ty,
        (exists res, In (ActionComplete s ty res) (snd (step w)))
        <-> exists tk a,
              getTank w s = Some tk /\ activeAction tk = Some a
              /\ (0 < hp tk)%Z /\ busyUntil tk - EPSILON <= t w + dt
              /\ ty = action_type a)
  /\ (forall k p, In (k, p) (projectiles w) ->
        outOfBounds c (advance dt p) = true ->
        In (Despawn k (owner p)) (snd (step w))
        /\ (forall o tg dmg, ~ In (Hit k o tg dmg) (snd (step w)))
        /\ Dict.get ProjId_eqb k (projectiles (fst (step w))) = None
        /\ exists tk', getTank (fst (step w)) (owner p) = Some tk'
                       /\ activeProjectileId tk' = None)
  /\ (forall k o, In (Despawn k o) (snd (step w)) ->
        exists p, In (k, p) (projectiles w) /\ o = owner p
                  /\ outOfBounds c (advance dt p) = true)
  /\ (forall k o tg dmg, In (Hit k o tg dmg) (snd (step w)) ->
        exists p, In (k, p) (projectiles w) /\ o = owner p
                  /\ outOfBounds c (advance dt p) = false)
  /\ (forall p,
        id (advance dt p) = id p /\ owner (advance dt p) = owner p
        /\ p_x (advance dt p) = p_x p + vx p * dt
        /\ p_y (advance dt p) = p_y p + vy p * dt
        /\ vx (advance dt p) = vx p /\ vy (advance dt p) = vy p)
  /\ (forall k q, In (k, q) (projectiles moved)
                  <-> exists p, In (k, p) (projectiles w)
                                /\ q = advance dt p)
  /\ (forall q, outOfBounds c q = true
                <-> p_x q < - PROJECTILE_RADIUS c
                    \/ ARENA_WIDTH c + PROJECTILE_RADIUS c < p_x q
                    \/ p_y q < - PROJECTILE_RADIUS c
                    \/ ARENA_HEIGHT c + PROJECTILE_RADIUS c < p_y q)
  /\ (forall k o tg dmg, In (Hit k o tg dmg) (snd (step w)) ->
        dmg = PROJECTILE_DAMAGE c /\ tg <> o
        /\ exists p tk tk',
             In (k, p) (projectiles w) /\ owner p = o
             /\ getTank w tg = Some tk /\ (0 < hp tk)%Z
             /\ getTank (fst (step w)) tg = Some tk'
             /\ distSq (advance dt p) tk' <= hitRangeSq c)
  /\ (forall k q, In (k, q) (projectiles (fst (step w))) ->
        (exists p, In (k, p) (projectiles w) /\ q = advance dt p)
        /\ outOfBounds c q = false
        /\ forall o tg dmg, ~ In (Hit k o tg dmg) (snd (step w)))
  /\ (forall k q tg tk', In (k, q) (projectiles (fst (step w))) ->
        getTank (fst (step w)) tg = Some tk' -> tg <> owner q ->
        (0 < hp tk')%Z -> hitRangeSq c < distSq q tk')
  /\ (forall winner reason, In (MatchEnd winner reason) (snd (step w)) ->
        (reason = "hp"%string
         /\ exists a, alive = [a] /\ winner = Some a)
        \/ (reason = "double_ko"%string /\ alive = [] /\ winner = None)
        \/ (reason = "timeout"%string /\ (2 <= List.length alive)%nat
            /\ MATCH_TIME_LIMIT c <= t w + dt
            /\ match winner with
               | Some a =>
                   In a alive
                   /\ forall b, In b alive -> b <> a ->
                        (hpOf (fst (step w)) b < hpOf (fst (step w)) a)%Z
               | None =>
                   forall a, In a alive ->
                     exists b, In b alive /\ b <> a
                       /\ (hpOf (fst (step w)) a <= hpOf (fst (step w)) b)%Z
               end))
  /\ (List.length (filter isMatchEnd (snd (step w))) <= 1)%nat
  /\ ((exists winner reason, In (MatchEnd winner reason) (snd (step w)))
      <-> (List.length alive <= 1)%nat \/ MATCH_TIME_LIMIT c <= t w + dt).
Proof.
  intros L c dt hr applied moved despawned hit final alive.
  pose proof (step_phase_facts n w L) as F. cbv zeta in F.
  destruct F as (F1 & F2 & F3 & F4 & F5 & F6).
  destruct (step_removals n w L) as (R1 & _ & R3 & R4).
  fold c dt in R1, R3, R4.
  pose proof (step_verdict w (proj1 L)) as V. cbv zeta in V.
  fold alive in V. rewrite F2 in V. fold c dt in V.
  destruct V as (V1 & V2 & V3).
  assert (Gone : forall k q, In (k, q) (projectiles (fst (step w))) ->
                   Dict.get ProjId_eqb k (projectiles (fst (step w)))
                   <> None)
    by (intros k q; apply present_not_absent).
  split; [exact F1|]. split; [exact F2|]. split; [exact F3|].
  split; [exact F4|]. split; [exact F5|]. split; [exact F6|].
  split; [intros p; cbn; repeat split; reflexivity|].
  split.
  { intros k q. unfold moved, moveProjectiles.
    cbn [projectiles world_with_projectiles].
    pose proof (applyLoop_spec dt (Dict.keys (tanks w)) (proj1 L) w []) as HA.
    cbv zeta in HA. fold (applyActiveActions w dt) in HA.
    destruct HA as (_ & _ & _ & P0 & _).
    fold applied in P0. rewrite P0, in_map_iff. split.
    - intros ([k0 p0] & [= <- <-] & Hin). eauto.
    - intros (p & Hin & ->). exists (k, p). auto. }
  split.
  { intros q. unfold outOfBounds. rewrite !orb_true_iff, !ltb_lt, !gtb_gt.
    tauto. }
  split.
  { intros k o tg dmg Hh.
    pose proof (step_hits n w k o tg dmg L Hh) as H. cbv zeta in H.
    fold c dt in H. destruct H as (A & B & C & _). auto. }
  split.
  { intros k q Hin. destruct (R4 k q Hin) as (p & Hp & ->).
    split; [eauto|]. split.
    - destruct (outOfBounds c (advance dt p)) eqn:O; [|reflexivity].
      exfalso. apply (Gone _ _ Hin). exact (proj2 (R1 k p Hp O)).
    - intros o tg dmg Hh. apply (Gone _ _ Hin).
      exact (proj2 (R3 k o tg dmg Hh)). }
  split; [exact (step_misses n w L)|].
  split; [exact V1|]. split; [exact V2|exact V3].
Qed.
End TickTheorem.

(** ** The scan-arc test in binary64 *)

Section ScanBinary64.
Import Floats.
Local Open Scope float_scope.

(** Corrected C3.  In binary64, [isInScanArc] is false when the squared
    distance exceeds the squared range, else true when the squared
    distance is 0, else true when the normalised bounds are equal, else
    the comparison [normalize (relBearing - a) <= normalize (b - a)],
    with [normalize x = ((x % 360) + 360) % 360] computed in binary64 and
    [relBearing = normalize (normalize (degrees (atan2 dy dx)) - heading)].
    The remainder has the sign of its first operand and the inner sum is
    rounded, so [normalize] is not the normalisation of the real numbers:
    -255.9 and 104.1 are 360 apart and normalise to 104.1 and to
    104.10000000000002.  For a scanner of heading 0 and a target due
    behind it within range, where [atan2] is [Math.PI], the arc
    (170, -170) contains the target and the arc (-30, 30) does not. *)
Theorem isInScanArc_binary64 (Math_atan2 : float -> float -> float) :
  (forall scanner target aDeg bDeg range,
     Scan64.isInScanArc Math_atan2 scanner target aDeg bDeg range
     = ScanSpec64.inArc Math_atan2 scanner target aDeg bDeg range)
  /\ (F64.rem 5.5 2 = 1.5 /\ F64.rem (-5.5) 2 = -1.5
      /\ F64.rem 720 360 = 0 /\ F64.rem 104.1 360 = 104.1
      /\ F64.rem (-255.9) 360 = -255.9)
  /\ (Scan64.normalizeDeg (-255.9) = 104.1
      /\ Scan64.normalizeDeg 104.1 = 104.10000000000002
      /\ Scan64.normalizeDeg 360 = 0 /\ Scan64.normalizeDeg (-170) = 190)
  /\ (forall scanner target range,
        Scan64.pheadingDeg scanner = 0 ->
        (range * range <? ScanSpec64.distSq scanner target) = false ->
        (ScanSpec64.distSq scanner target =? 0) = false ->
        Math_atan2 (Scan64.qy target - Scan64.py scanner)
          (Scan64.qx target - Scan64.px scanner) = F64.PI ->
        Scan64.isInScanArc Math_atan2 scanner target 170 (-170) range = true
        /\ Scan64.isInScanArc Math_atan2 scanner target (-30) 30 range
           = false).
Proof.
  split; [|split; [|split]].
  - intros scanner target aDeg bDeg range.
    unfold Scan64.isInScanArc, ScanSpec64.inArc, ScanSpec64.relBearing,
      ScanSpec64.distSq, ScanSpec64.normalize, Scan64.normalizeDeg.
    cbv zeta.
    destruct (_ <? _); [reflexivity|].
    destruct (_ =? 0); [reflexivity|].
    destruct (_ =? _); reflexivity.
  - repeat split; vm_compute; reflexivity.
  - repeat split; vm_compute; reflexivity.
  - intros scanner target range H0 Hr Hd Ha.
    unfold Scan64.isInScanArc. unfold ScanSpec64.distSq in Hr, Hd.
    cbv zeta. rewrite Hr, Hd, Ha, H0.
    split; vm_compute; reflexivity.
Qed.
End ScanBinary64.

(** ** The further properties on concrete inputs *)

Section FurtherEvaluations.
Import World Actions Step TankApi Run Props TickView.
Import WorldReset Facts Resolver.
Local Open Scope string_scope.

Ltac compute_eq := vm_compute; reflexivity.
Ltac compute_le := apply Qle_bool_iff; vm_compute; reflexivity.
Ltac compute_lt := apply Qlt_alt; vm_compute; reflexivity.
Ltac distinct := vm_compute; repeat constructor; simpl; intuition discriminate.
Ltac listed := vm_compute; repeat ((left; reflexivity) || right).

(** A world made by [Demo.pair] is linked: it has no projectile. *)
Lemma pair_linked (x1 y1 h1 x2 y2 : Q) :
  linked 0 (snd (Demo.pair x1 y1 h1 x2 y2)).
Proof.
  unfold linked. cbn [Demo.pair Demo.arena snd tanks projectiles map slot
                      createTank Dict.keys fst].
  split; [repeat constructor; simpl; intuition discriminate|].
  split; [constructor|]. split; [intros k p []|].
  intros s tk pid G A. unfold getTank in G. cbn [tanks Dict.get] in G.
  destruct (String.eqb "p1" s); [injection G as <-; discriminate A|].
  destruct (String.eqb "p2" s); [injection G as <-; discriminate A|].
  discriminate G.
Qed.


(** Witness of X6: the default pair of players. *)
Lemma createWorld_roster_witness :
  Dict.keys (tanks (snd Demo.start)) = ["p1"; "p2"].
Proof.
  assert (PS : plainSlots (lineup None)) by (repeat constructor).
  assert (ND : NoDup (map fst (lineup None))) by distinct.
  destruct (createWorld_roster (M := RationalMath.math) 42 CONSTANTS None
              PS ND)
    as (_ & _ & _ & _ & _ & K & _).
  exact K.
Defined.

(** Witness of X7: the tank of p1 in the fresh world. *)
Lemma spawn_on_ring_witness :
  (x (Demo.tankOf (snd Demo.start) "p1") - 1200 / 2)
  * (x (Demo.tankOf (snd Demo.start) "p1") - 1200 / 2)
  + (y (Demo.tankOf (snd Demo.start) "p1") - 800 / 2)
    * (y (Demo.tankOf (snd Demo.start) "p1") - 800 / 2)
  == spawnRadius CONSTANTS * spawnRadius CONSTANTS.
Proof.
  refine (proj1
    (spawn_on_ring (M := RationalMath.math) 42 CONSTANTS None "p1"
       (Demo.tankOf (snd Demo.start) "p1") _ _ _)).
  - exact RationalMath_circle.
  - compute_lt.
  - compute_eq.
Defined.

(** Witness of X8: a match in which p1 moved for a tick and p2 fired. *)
Lemma resetWorld_round_trip_witness :
  resetWorld (M := RationalMath.math)
    (snd (Demo.run [OpStart "p1" CallMoveForward; OpStep; OpShoot "p2"]))
  = Demo.start.
Proof.
  apply (resetWorld_round_trip (M := RationalMath.math) 42 CONSTANTS None
           [OpStart "p1" CallMoveForward; OpStep; OpShoot "p2"]).
  - repeat constructor.
  - distinct.
  - compute_eq.
Defined.

(** Witness of X9: the projectile of p1 after p1 and p2 fired. *)
Lemma single_shot_invariant_witness :
  exists tk,
    getTank (snd (Demo.run [OpShoot "p1"; OpShoot "p2"])) "p1" = Some tk
    /\ activeProjectileId tk = Some (proj_ 0).
Proof.
  destruct (single_shot_invariant (M := RationalMath.math) CONSTANTS
              (Demo.run [OpShoot "p1"; OpShoot "p2"]) (proj_ 0) (proj_ 0)
              (hd (Build_Projectile (proj_ 0) "p1" 0 0 0 0)
                 (Dict.values
                    (projectiles (snd (Demo.run [OpShoot "p1"; OpShoot "p2"])))))
              (hd (Build_Projectile (proj_ 0) "p1" 0 0 0 0)
                 (Dict.values
                    (projectiles (snd (Demo.run [OpShoot "p1"; OpShoot "p2"]))))))
    as (_ & _ & tk & G & A).
  - apply Demo_run_reachable. compute_eq.
  - vm_compute. left. reflexivity.
  - vm_compute. left. reflexivity.
  - reflexivity.
  - exists tk. split; [exact G|exact A].
Defined.

(** Witness of X10: p1 after one tick of a turn to the left. *)
Lemma heading_normalised_witness :
  0 <= headingDeg
         (Demo.tankOf
            (snd (Demo.run [OpStart "p1" (CallTurnLeft None); OpStep])) "p1")
  /\ headingDeg
       (Demo.tankOf
          (snd (Demo.run [OpStart "p1" (CallTurnLeft None); OpStep])) "p1")
     < 360.
Proof.
  apply (heading_normalised (M := RationalMath.math) CONSTANTS
           (Demo.run [OpStart "p1" (CallTurnLeft None); OpStep]) "p1").
  - compute_lt.
  - apply Demo_run_reachable. compute_eq.
  - compute_eq.
Defined.

(** Witness of X11: p2 after p1 forfeited and a tick passed. *)
Lemma hp_within_class_witness :
  (0 <= hp (Demo.tankOf (snd (Demo.run [OpForfeit "p1"; OpStep])) "p2")
   <= 60)%Z.
Proof.
  refine (proj1
    (hp_within_class (M := RationalMath.math) CONSTANTS
       (Demo.run [OpForfeit "p1"; OpStep]) "p2"
       (Demo.tankOf (snd (Demo.run [OpForfeit "p1"; OpStep])) "p2")
       _ _ _ _)).
  - intros []; vm_compute; discriminate.
  - vm_compute. discriminate.
  - apply Demo_run_reachable. compute_eq.
  - compute_eq.
Defined.

(** Witness of X12: p1 forfeits, then asks for a move, and a tick
    passes. *)
Lemma death_is_final_witness :
  (exists tk',
     getTank
       (snd (Demo.run [OpForfeit "p1"; OpStart "p1" CallMoveForward; OpStep]))
       "p1" = Some tk'
     /\ (hp tk' <= 0)%Z
     /\ x tk' = x (Demo.tankOf (snd (Demo.run [OpForfeit "p1"])) "p1")
     /\ y tk' = y (Demo.tankOf (snd (Demo.run [OpForfeit "p1"])) "p1")
     /\ headingDeg tk'
        = headingDeg (Demo.tankOf (snd (Demo.run [OpForfeit "p1"])) "p1"))
  /\ forall ty res,
       ~ In (ActionComplete "p1" ty res)
           (snd (step (M := RationalMath.math)
                   (snd (Demo.run [OpForfeit "p1";
                                   OpStart "p1" CallMoveForward; OpStep])))).
Proof.
  apply (death_is_final (M := RationalMath.math)
           [OpStart "p1" CallMoveForward; OpStep]
           (fst (Demo.run [OpForfeit "p1"]))
           (fst (Demo.run [OpForfeit "p1"; OpStart "p1" CallMoveForward;
                           OpStep]))
           (snd (Demo.run [OpForfeit "p1"]))).
  - distinct.
  - compute_eq.
  - vm_compute. discriminate.
  - compute_eq.
Defined.

(** Witness of C1: the tick after p1, 25 short of the east wall and
    heading east, fired; the projectile is out of bounds after its
    motion. *)
Lemma step_phase_order_witness :
  outOfBounds CONSTANTS (advance (1 / 60) (Sample.shot Sample.atTheWall))
  = true
  /\ In (Despawn (proj_ 0) "p1")
       (snd (step (M := RationalMath.math) (snd Sample.atTheWall)))
  /\ (forall o tg dmg,
        ~ In (Hit (proj_ 0) o tg dmg)
            (snd (step (M := RationalMath.math) (snd Sample.atTheWall))))
  /\ Dict.get ProjId_eqb (proj_ 0)
       (projectiles
          (fst (step (M := RationalMath.math) (snd Sample.atTheWall))))
     = None
  /\ exists tk',
       getTank (fst (step (M := RationalMath.math) (snd Sample.atTheWall)))
         "p1" = Some tk'
       /\ activeProjectileId tk' = None.
Proof.
  split; [compute_eq|].
  destruct (step_phase_order (M := RationalMath.math)
              (fst Sample.atTheWall) (snd Sample.atTheWall))
    as (_ & _ & _ & Oob & _).
  - apply (exec_linked (M := RationalMath.math) (OpShoot "p1") 0
             (fst Sample.atTheWall) (snd (Demo.pair 1175 100 0 100 700))).
    + apply pair_linked.
    + compute_eq.
  - apply (Oob (proj_ 0) (Sample.shot Sample.atTheWall)).
    + listed.
    + compute_eq.
Defined.

(** Witness of X13: p1 at (100, 100) fires east at p2, 40 away; the
    projectile hits in the first tick. *)
Lemma hit_events_sound_witness :
  In (Hit (proj_ 0) "p1" "p2" 20)
    (snd (step (M := RationalMath.math) (snd Sample.pointBlank)))
  /\ 20%Z = PROJECTILE_DAMAGE (constants (snd Sample.pointBlank))
  /\ "p2" <> "p1"
  /\ (exists p tk tk',
        In (proj_ 0, p) (projectiles (snd Sample.pointBlank))
        /\ owner p = "p1"
        /\ getTank (snd Sample.pointBlank) "p2" = Some tk /\ (0 < hp tk)%Z
        /\ getTank
             (fst (step (M := RationalMath.math) (snd Sample.pointBlank)))
             "p2" = Some tk'
        /\ distSq
             (advance (1 / TICK_RATE (constants (snd Sample.pointBlank))) p)
             tk'
           <= hitRangeSq (constants (snd Sample.pointBlank)))
  /\ NoDup
       (hitIds (snd (step (M := RationalMath.math) (snd Sample.pointBlank)))).
Proof.
  split; [listed|].
  apply (hit_events_sound (M := RationalMath.math)
           (fst Sample.pointBlank) (snd Sample.pointBlank)
           (proj_ 0) "p1" "p2" 20).
  - apply (exec_linked (M := RationalMath.math) (OpShoot "p1") 0
             (fst Sample.pointBlank) (snd (Demo.pair 100 100 0 140 100))).
    + apply pair_linked.
    + compute_eq.
  - listed.
Defined.

(** Witness of X16: the tick that reaches the time limit with two tanks
    alive, p1 with 60 hit points and p2 with 40; p1 wins on time. *)
Lemma match_end_verdict_witness :
  In (MatchEnd (Some "p1") "timeout")
    (snd (step (M := RationalMath.math) Sample.lateGame))
  /\ In "p1" (aliveSlots (fst (step (M := RationalMath.math) Sample.lateGame)))
  /\ forall b,
       In b (aliveSlots (fst (step (M := RationalMath.math) Sample.lateGame)))
       -> b <> "p1" ->
       (hpOf (fst (step (M := RationalMath.math) Sample.lateGame)) b
        < hpOf (fst (step (M := RationalMath.math) Sample.lateGame)) "p1")%Z.
Proof.
  assert (I : In (MatchEnd (Some "p1") "timeout")
                (snd (step (M := RationalMath.math) Sample.lateGame)))
    by listed.
  split; [exact I|].
  destruct (match_end_verdict (M := RationalMath.math) Sample.lateGame)
    as (V & _).
  - distinct.
  - destruct (V _ _ I) as [(E & _)|[(E & _)|(_ & _ & _ & W)]];
      [discriminate E|discriminate E|exact W].
Defined.

(** Witness of X17: p1 awaits a move and has two events, p2 has an event
    and awaits nothing; the callback of p1 is cleared and its promise is
    settled once. *)
Lemma resolver_settles_once_witness :
  resolveActions (snd Demo.start) Sample.registry Sample.completions []
  = Some ([("p1", clearPending (armWatchdog createTankApi));
           ("p2", createTankApi)],
          [("p1", None)])
  /\ Dict.keys [("p1", clearPending (armWatchdog createTankApi));
                ("p2", createTankApi)]
     = Dict.keys Sample.registry
  /\ (forall s api, Dict.get String.eqb s Sample.registry = Some api ->
        Dict.get String.eqb s
          [("p1", clearPending (armWatchdog createTankApi));
           ("p2", createTankApi)]
        = Some (if hasPending api
                   && existsb (String.eqb s)
                        (completedSlots Sample.completions)
                then clearPending api else api))
  /\ NoDup (map fst [("p1", @None bool)])
  /\ (forall s, In s (map fst [("p1", @None bool)])
                <-> In s (completedSlots Sample.completions)
                    /\ exists api,
                         Dict.get String.eqb s Sample.registry = Some api
                         /\ hasPending api = true).
Proof.
  split; [compute_eq|].
  apply (resolver_settles_once (snd Demo.start) Sample.completions
           Sample.registry).
  - distinct.
  - compute_eq.
Defined.


(** Witness of X14: the same tick; p2 loses 20 of its 60 hit points. *)
Lemma damage_accounting_witness :
  hpOf
    (fst (step (M := RationalMath.math)
            (snd (Demo.after (Demo.pair 100 100 0 140 100) [OpShoot "p1"]))))
    "p2"
  = damaged 20 60 1.
Proof.
  apply (damage_accounting (M := RationalMath.math)
           (snd (Demo.after (Demo.pair 100 100 0 140 100) [OpShoot "p1"]))
           "p2").
  - distinct.
  - vm_compute. discriminate.
Defined.

(** Witness of X15: a light tank at (100, 100) heading 0 moves forward
    for 60 ticks. *)
Lemma straight_move_distance_witness :
  exists tk'',
    getTank
      (fst (step (M := RationalMath.math)
              (snd (Demo.after (Demo.pair 100 100 0 1000 700)
                      (OpStart "p1" CallMoveForward :: repeat OpStep 59)))))
      "p1" = Some tk''
    /\ activeAction tk'' = None
    /\ x tk'' == 100 + ofNat 60 * fst (stride (M := RationalMath.math)
                                         CONSTANTS true
                                         (createTank "p1" 100 100 0 light
                                            CONSTANTS))
    /\ y tk'' == 100 + ofNat 60 * snd (stride (M := RationalMath.math)
                                         CONSTANTS true
                                         (createTank "p1" 100 100 0 light
                                            CONSTANTS))
    /\ headingDeg tk'' = 0.
Proof.
  apply (straight_move_distance (M := RationalMath.math) CONSTANTS "p1" true
           (snd (Demo.pair 100 100 0 1000 700))
           (snd (Demo.after (Demo.pair 100 100 0 1000 700)
                   [OpStart "p1" CallMoveForward]))
           (createTank "p1" 100 100 0 light CONSTANTS)
           0 (repeat OpStep 59) 0
           (snd (Demo.after (Demo.pair 100 100 0 1000 700)
                   (OpStart "p1" CallMoveForward :: repeat OpStep 59)))
           (Demo.tankOf
              (snd (Demo.after (Demo.pair 100 100 0 1000 700)
                      (OpStart "p1" CallMoveForward :: repeat OpStep 59)))
              "p1")).
  - reflexivity.
  - distinct.
  - compute_eq.
  - compute_eq.
  - left. compute_lt.
  - compute_eq.
  - compute_eq.
  - vm_compute. reflexivity.
  - intros i Hi. change (stepsIn (repeat OpStep 59)) with 59%nat in Hi.
    assert (B : ofNat i <= 59).
    { unfold ofNat. change 59 with (inject_Z 59). rewrite <- Zle_Qle. lia. }
    change (1 / TICK_RATE CONSTANTS) with (1 / 60).
    change (ACTION_DURATION CONSTANTS) with 1. unfold EPSILON.
    apply Qle_lt_trans with (59 * (1 / 60)).
    + apply Qmult_le_compat_r; [exact B|compute_le].
    + compute_lt.
  - compute_le.
  - unfold inArena. repeat split; compute_le.
  - compute_le.
  - compute_le.
  - compute_le.
  - compute_le.
Defined.


(** The registry of a match in which p1 awaits a scan agrees with the
    world. *)
Lemma scanning_inSync :
  inSync (snd (Demo.run [OpStart "p1" (CallScan (-30) 30)]))
    [("p1", {| _pendingResolve := Some true; _onActionStart := None |});
     ("p2", createTankApi)].
Proof.
  intros s api isScan G P. cbn [Dict.get] in G.
  destruct (String.eqb_spec "p1" s) as [<-|_].
  - injection G as <-. injection P as <-.
    exists (Demo.tankOf (snd (Demo.run [OpStart "p1" (CallScan (-30) 30)]))
              "p1"), (ScanArc (-30) 30).
    split; [compute_eq|]. split; reflexivity.
  - destruct (String.eqb "p2" s); [|discriminate G].
    injection G as <-. discriminate P.
Qed.

(** Witness of X18: p1 awaits a scan; the tick is resolved without an
    exception. *)
Lemma resolved_value_is_event_value_witness :
  exists apis' settled,
    resolveActions
      (fst (step (M := RationalMath.math)
              (snd (Demo.run [OpStart "p1" (CallScan (-30) 30)]))))
      [("p1", {| _pendingResolve := Some true; _onActionStart := None |});
       ("p2", createTankApi)]
      (snd (step (M := RationalMath.math)
              (snd (Demo.run [OpStart "p1" (CallScan (-30) 30)]))))
      []
    = Some (apis', settled).
Proof.
  destruct (resolved_value_is_event_value (M := RationalMath.math)
              (snd (Demo.run [OpStart "p1" (CallScan (-30) 30)]))
              [("p1", {| _pendingResolve := Some true;
                         _onActionStart := None |});
               ("p2", createTankApi)])
    as (apis' & settled & E & _).
  - distinct.
  - exact scanning_inSync.
  - exists apis', settled. exact E.
Defined.

(** Witness of X19: the timer fires 50 ms after the loop was started, at
    60 ticks per second, with no callbacks. *)
Lemma catch_up_bounded_witness :
  exists ls' st' trace,
    Loop.tick (M := RationalMath.math) (Obs := unit) None None 10
      (Loop.tickIntervalOf (snd Demo.start)) 50 (Loop.startLoop 0)
      (snd Demo.start, tt)
    = Some (ls', st', trace)
    /\ (List.length trace <= 10)%nat.
Proof.
  destruct (catch_up_bounded (M := RationalMath.math) (Obs := unit) None None
              (Loop.tickIntervalOf (snd Demo.start)) 50 (Loop.startLoop 0)
              (snd Demo.start, tt))
    as (ls' & st' & trace & E & L & _).
  - compute_lt.
  - exists ls', st', trace. split; [exact E|exact L].
Defined.

(** Witness of X21: the same registry and world. *)
Lemma registry_stays_in_sync_witness :
  (forall s api call w' api' p eff,
     Dict.get String.eqb s
       [("p1", {| _pendingResolve := Some true; _onActionStart := None |});
        ("p2", createTankApi)] = Some api ->
     apiCall api (snd (Demo.run [OpStart "p1" (CallScan (-30) 30)])) s call
     = Some (w', api', p, eff) ->
     inSync w'
       (Dict.set String.eqb s api'
          [("p1", {| _pendingResolve := Some true; _onActionStart := None |});
           ("p2", createTankApi)]))
  /\ (forall apis' settled,
        resolveActions
          (fst (step (M := RationalMath.math)
                  (snd (Demo.run [OpStart "p1" (CallScan (-30) 30)]))))
          [("p1", {| _pendingResolve := Some true; _onActionStart := None |});
           ("p2", createTankApi)]
          (snd (step (M := RationalMath.math)
                  (snd (Demo.run [OpStart "p1" (CallScan (-30) 30)]))))
          []
        = Some (apis', settled) ->
        inSync
          (fst (step (M := RationalMath.math)
                  (snd (Demo.run [OpStart "p1" (CallScan (-30) 30)]))))
          apis').
Proof.
  apply (registry_stays_in_sync (M := RationalMath.math)
           (snd (Demo.run [OpStart "p1" (CallScan (-30) 30)]))).
  - distinct.
  - exact scanning_inSync.
Defined.

(** Witness of X22: p1 forfeits; the ticks after that end the match
    again. *)
Lemma match_end_is_stable_witness :
  exists winner reason,
    In (MatchEnd winner reason)
      (snd (step (M := RationalMath.math)
              (snd (Demo.run [OpForfeit "p1"; OpStep; OpShoot "p2"; OpStep])))).
Proof.
  refine (proj2
    (match_end_is_stable (M := RationalMath.math)
       [OpStep; OpShoot "p2"; OpStep]
       (fst (Demo.run [OpForfeit "p1"]))
       (fst (Demo.run [OpForfeit "p1"; OpStep; OpShoot "p2"; OpStep]))
       (snd (Demo.run [OpForfeit "p1"]))
       (snd (Demo.run [OpForfeit "p1"; OpStep; OpShoot "p2"; OpStep]))
       _ _ _)).
  - distinct.
  - vm_compute. lia.
  - compute_eq.
Defined.

(** Witness of X24: a second client joins and leaves. *)
Lemma join_then_leave_witness :
  Lobby.leaveLobby
    (fst (Lobby.joinLobby (Lobby.after [Lobby.Join "a"]) "b")) "b"
  = Lobby.after [Lobby.Join "a"]
  /\ Lobby.getSlotForClient
       (fst (Lobby.joinLobby (Lobby.after [Lobby.Join "a"]) "b")) "b"
     = snd (Lobby.joinLobby (Lobby.after [Lobby.Join "a"]) "b").
Proof.
  apply (join_then_leave [Lobby.Join "a"] "b").
  - reflexivity.
  - intros [].
Defined.
End FurtherEvaluations.

(** ** The binary64 scan-arc test on concrete inputs *)

Section Binary64Evaluations.
Import Floats.
Local Open Scope float_scope.

(** Witness of C3 (corrected): the arc tangent that is exact on the
    axes. *)
Lemma isInScanArc_binary64_witness :
  Scan64.isInScanArc AxisMath64.atan2
    {| Scan64.px := 100; Scan64.py := 100; Scan64.pheadingDeg := 0 |}
    {| Scan64.qx := 0; Scan64.qy := 100 |} 170 (-170) 700 = true
  /\ Scan64.isInScanArc AxisMath64.atan2
       {| Scan64.px := 100; Scan64.py := 100; Scan64.pheadingDeg := 0 |}
       {| Scan64.qx := 0; Scan64.qy := 100 |} (-30) 30 700 = false.
Proof.
  apply (proj2 (proj2 (proj2 (isInScanArc_binary64 AxisMath64.atan2)))).
  - reflexivity.
  - vm_compute. reflexivity.
  - vm_compute. reflexivity.
  - vm_compute. reflexivity.
Defined.

(** Counterexample to C3.  The bounds -255.9 and 104.1 are binary64
    numbers exactly 360 apart, so their real-number normalisations are
    equal and the test of the claim accepts every target within range as a
    full circle; the code normalises them to 104.1 and 104.10000000000002
    and rejects a target 100 ahead of the scanner.  Conversely the bounds
    [-2^-70] and 0 normalise to 0 and 0 in the code, which accepts a target
    at bearing 90 as a full circle, where the test of the claim has an arc
    of [2^-70] degrees and rejects it. *)
Lemma isInScanArc_rounds_the_bounds :
  Scan64.isInScanArc AxisMath64.atan2
    {| Scan64.px := 0; Scan64.py := 0; Scan64.pheadingDeg := 0 |}
    {| Scan64.qx := 100; Scan64.qy := 0 |} (-255.9) 104.1 700 = false
  /\ (exists a b : Q,
        F64.toQ (-255.9) = Some a /\ F64.toQ 104.1 = Some b
        /\ (b - a == 360)%Q
        /\ (ScanSpec.normalize a == ScanSpec.normalize b)%Q
        /\ ScanSpec.inArc (M := RationalMath.math)
             {| Scan.px := 0; Scan.py := 0; Scan.pheadingDeg := 0 |}
             {| Scan.qx := 100; Scan.qy := 0 |} a b 700 = true)
  /\ Scan64.isInScanArc AxisMath64.atan2
       {| Scan64.px := 0; Scan64.py := 0; Scan64.pheadingDeg := 0 |}
       {| Scan64.qx := 0; Scan64.qy := 100 |} (-0x1p-70) 0 700 = true
  /\ (exists a : Q,
        F64.toQ (-0x1p-70) = Some a
        /\ ScanSpec.inArc (M := RationalMath.math)
             {| Scan.px := 0; Scan.py := 0; Scan.pheadingDeg := 0 |}
             {| Scan.qx := 0; Scan.qy := 100 |} a 0 700 = false).
Proof.
  split; [vm_compute; reflexivity|]. split.
  - eexists. eexists. split; [vm_compute; reflexivity|].
    split; [vm_compute; reflexivity|].
    split; [vm_compute; reflexivity|].
    split; vm_compute; reflexivity.
  - split; [vm_compute; reflexivity|].
    eexists. split; vm_compute; reflexivity.
Qed.
End Binary64Evaluations.
